(* ===== verification/_CoqProject ===== *)
-Q . S2P
Prelude.v
Kernel.v
KernelModel.v
RbTree.v
RbModel.v
RbSet.v
LinkList.v
WqDedicated.v
WqTrace.v
Sync.v
Vfs.v
Spinlock.v
Rcu.v
Mmap.v
MmapUser.v
MmapShare.v
Ioctl.v
Drivers.v
Files.v
Conc.v
WaitQueue.v
WqGlobal.v
Thread01.v
ThreadRun.v
Mutex1.v
Memory.v
RadixTree.v
ContainerOf.v
Kprobe.v
Kprobe1.v
Interrupt01.v
Basic.v
TaskStruct.v
Kernfs.v
