(* ===== verification/Prelude.v ===== *)
(** * A verification of lkb, a collection of small Linux kernel modules

    ** The program

    lkb is a directory per kernel facility.  Each holds one loadable module
    ([code.c]) with a load function, an unload function and, where the facility
    has them, callbacks that the kernel runs: an interrupt handler, deferred
    work, a thread, file operations, an RCU callback, probe handlers.  Two
    modules, ioctl and mmap, come with a user program.  The modules do not call
    each other; each calls the kernel, and the kernel calls it back.  The ioctl
    and the mmap driver meet in the kernel: both claim the same major number and
    both programs open the same node, and both are built as a module named code.

    ** How the code is modelled

    - A function of the source is a term of the monad [M] of this file: it runs
      on a state and ends normally, with a [return] of the enclosing function,
      or with a fault.  A fault is undefined behaviour
      or an oops: a null or dangling dereference, the use of an indeterminate
      value, a second free, a deadlock, a lock released by one who does not own
      it.  [wp] is the weakest precondition of such a term for a post-condition
      with a part per way of ending; in [safely] and [returns] the part for
      faults is [False], so a theorem with these says that the code ends, and
      ends well.  A theorem that code does fault names the fault.
    - The state of a module is [sys K G]: the state [K] of the kernel services,
      the record [G] of the globals and automatic objects of the module, and
      the kernel log, the list of the [printk] lines.
    - A pointer is [Null] or a block with an offset.  A member of a structure
      that was never written is [None], and reading it as a value is a fault.
    - A kernel service (allocator, lists, locks, RCU, interrupt lines, work
      queues, threads, character devices, [copy_to_user], the radix tree,
      [rb_first] and [rb_next], probes, pages) is not code of the repository.
      It is a type class of operations on an abstract [K] with a second class of
      laws, its documented behaviour.  The theorems are proved for every
      service that meets the laws; a concrete instance of each class, proved to
      meet them, shows that they can hold and runs the examples.
    - Code that the kernel interleaves is a step relation or a list of
      statements with a program counter; what holds in every interleaving is
      proved by rule induction (WqDedicated.v, WqTrace.v, MmapShare.v, Files.v,
      ThreadRun.v) or by exploring the finite set of configurations with a
      proved search (Conc.v).

    ** The files

    - Prelude.v: pointers, the monad and its rules, the kernel log, tactics and
      the hint database [exec] of the proof rules.
    - Kernel.v: allocator and linked lists as classes with their laws, and the
      statements that allocate, free, insert, remove and walk.  KernelModel.v:
      instances that meet the laws.  Sync.v: spin locks and RCU.  Vfs.v: the
      table of file operations, how the kernel calls it, and a driver inside a
      larger state.  Conc.v: the search over a finite transition system, and what
      every run of it comes to.
    - RbTree.v, RbModel.v: red_black_tree/code.c ([search], [insert], [print],
      [start], [stops]).  RbSet.v: the module as a set of integers.
    - LinkList.v: link_list/code.c.  Rcu.v: rcu/code.c.
      Spinlock.v: spinlock/code.c.  Mutex1.v: mutex1/code.c.
    - WqDedicated.v: work_queue_dedicated/code.c; WqTrace.v: an abstract machine
      of its whole life.  WqGlobal.v: work_queue_global/code.c.  WaitQueue.v:
      wait_queue/code.c.  Thread01.v: thread01/code.c; ThreadRun.v: its threads
      at work.  Interrupt01.v: interrupt01/code.c.
    - Mmap.v, MmapUser.v: mmap/code.c and mmap/mmap.c; MmapShare.v: the device
      with several processes.  Ioctl.v: ioctl/code.c and ioctl/ioctl.c.
      Drivers.v: both modules, the table of the major numbers, insmod and rmmod
      (module_init and module_exit of the two), and both programs in one state.
      Files.v: that kernel with processes that keep files open and mapped.
    - Memory.v: memory1/code.c and memory2/code.c.  RadixTree.v:
      radix_tree/code.c.  ContainerOf.v: container_of/code.c.  Kprobe.v,
      Kprobe1.v: kprobe/code.c and kprobe1/code.c.  TaskStruct.v:
      task_struct/code.c.  Kernfs.v: kernfs/code.c.  Basic.v: basic/code.c and
      basic_debug/code.c.

    A definition has the name of the function it models; where [start] of a
    module is long, its loops and blocks are definitions of their own
    ([add_body], [replace_body], [grow], [flush], ...) and [start] composes
    them in the order of the source.

    ** What the theorems show

    - Red-black tree.  The predicates [is_tree] and [holds] tie the heap of
      nodes to a reference binary tree.  [insert] refines the reference insertion and keeps the
      order, [search] is the reference lookup and ends, any sequence of calls of
      the two has the answers of a finite set, [print] writes the keys in increasing order when the parent links
      are those of the tree.  The code never calls [rb_link_node]: after
      [insert] alone the first [rb_next] depends on a parent word that was never
      written, and [start] gets there after the first key.
    - Lists.  Every outcome of [start] of link_list, with the log, the blocks
      that are freed and those that leak.  For rcu, wherever grace
      periods end: the log is the sample output, less its separator lines that the
      module does not print, with the callback's lines where it
      runs, locks and read sections balance, the deleted node is freed once, by
      the callback; four blocks leak; a grace period that ends in the iteration
      that deletes makes the loop read a freed node, and one that ends after the
      unloading runs code that is gone.
    - Deferred work and threads.  [work_handler] on every branch, with the
      invariant of the list and its counter; every interleaving of interrupts
      and work keeps it and is a run of an abstract machine, which tells how
      much memory is lost; what load establishes and unload leaves; the window
      between [request_irq] and the creation of the queue; the allocation that
      may sleep under the spin lock.  For wait_queue and
      work_queue_global: what can and cannot happen in any interleaving, with
      the wait taken in the steps of the macro; that a wake-up is never lost and
      every run ends, and how; which faults are reachable.  For thread01:
      every outcome of load, that load and unload restore allocator and
      threads; with the threads running, in every interleaving and for any number
      of them, that the module prints what it prints alone, that no thread runs
      after unload and every block is freed, and that under a fair scheduler unloading ends.
    - Devices.  [dev_ioctl] refines a specification on the bytes of the
      process for every command; it moves eight bytes for an int of four, and
      when the user program still gets its value through; memory stays typed.
      [dev_mmap] at 64 bits: which frames are mapped and when they are inside
      the buffer; a trace of file operations is safe exactly when it has at most
      one close; with one open file no mapping outlives the buffer, with two it
      can; two mappings share exactly the bytes of the same offset.  The two drivers
      and the two programs together refine a machine of four phases, in which at
      most one driver is loaded; with processes that keep their files open and
      mapped, each with its own memory, a machine of a phase and the open files;
      a failed load of one driver blocks both for ever; what each program does to
      the driver of the other; the ioctl device never faults unless it is unloaded
      while open.  The tables of file operations name no owner: unloading under an
      open file is not refused, and the next call through the file faults.
    - Locks.  [start] of spinlock never deadlocks, releases what it takes and
      leaves the interrupts enabled; [start] of mutex1 balances the mutex, or
      releases it without owning it after an interrupted request.
    - Memory, radix tree, container_of, probes, interrupt: the outcome of load
      for every outcome of the requests it makes.

    ** Fuel and bounds

    A loop of the source is a function with fuel, and running out of fuel is a
    fault, so a theorem about [wp] includes that the fuel is enough: the list
    loops need the length of the list, [search] and [insert] the
    height of the tree, [print] the number of nodes; the theorems take any fuel
    of at least that.  The explorations of Conc.v take a bound on the number of
    configurations and the search says whether it was exhausted; it is not.
    Integers that wrap in the source are [Z] with the modulus written out (the
    64-bit addresses of Mmap.v, the bytes of Ioctl.v); the counters of the
    other modules are bounded by small constants of the code.

    ** What is not modelled

    The contents of the pages of memory1 and memory2, which the code does not
    touch; [printk] losing lines;
    spin locks of a uniprocessor kernel, which are empty; descriptors that are
    duplicated or inherited, and 32-bit processes, in the devices; calls of the
    devices that overlap in time (each method of the drivers is a few statements,
    and a call is one step of Files.v); the loading of
    modules other than those of Drivers.v, which share nothing; grace periods
    before [call_rcu], when no callback waits; the build files, the README, the
    pictures and the function index.

    ** Extensions

    The loops of rcu for lists of any length; overlapping calls of the devices. *)
From stdpp Require Import base gmap strings list.
From Stdlib Require Import ZArith Lia.

#[global] Open Scope Z_scope.

(** ** Pointers

    A C pointer is [Null] or a block with a byte offset into it, so that the
    address arithmetic of [&p->member] and [container_of] is explicit and two
    different objects never alias by accident. *)

Inductive ptr :=
  | Null
  | Ptr (blk : positive) (off : Z).

#[global] Instance ptr_eq_dec : EqDecision ptr.
Proof. solve_decision. Defined.

#[global] Instance ptr_countable : Countable ptr.
Proof.
  refine (inj_countable'
    (λ p, match p with Null => None | Ptr b o => Some (b, o) end)
    (λ q, match q with None => Null | Some (b, o) => Ptr b o end) _).
  by intros [|b o].
Defined.

#[global] Instance ptr_inhabited : Inhabited ptr := populate Null.

(** [&p->member] for a member at byte offset [o]; pointer arithmetic on a null
    pointer stays null, the model never gives it a meaning. *)
Definition member_of (o : Z) (p : ptr) : ptr :=
  match p with Null => Null | Ptr b i => Ptr b (i + o) end.

(** The kernel's [container_of(p, type, member)] for a member at offset [o]. *)
Definition container_of (o : Z) (p : ptr) : ptr := member_of (- o) p.

Definition is_null (p : ptr) : bool :=
  match p with Null => true | Ptr _ _ => false end.

Lemma container_member o p : container_of o (member_of o p) = p.
Proof. destruct p; unfold container_of; simpl; f_equal; lia. Qed.

Lemma member_container o p : member_of o (container_of o p) = p.
Proof. destruct p; unfold container_of; simpl; f_equal; lia. Qed.

#[global] Instance member_of_inj o : Inj (=) (=) (member_of o).
Proof. intros p q H. by rewrite <- (container_member o p), H, container_member. Qed.

Lemma is_null_false p : is_null p = false ↔ p ≠ Null.
Proof. by destruct p. Qed.

Lemma member_of_null o p : member_of o p = Null ↔ p = Null.
Proof. by destruct p. Qed.

(** ** The log

    [printk] appends a line; a line keeps the level, the format string as it
    is spelled in the source and the arguments. *)

Inductive loglevel := KERN_ALERT | KERN_ERR | KERN_INFO | KERN_DEFAULT.

Inductive arg := AInt (z : Z) | AStr (s : string).

Record msg := Msg { msg_level : loglevel; msg_fmt : string; msg_args : list arg }.

#[global] Instance loglevel_eq_dec : EqDecision loglevel.
Proof. solve_decision. Defined.
#[global] Instance arg_eq_dec : EqDecision arg.
Proof. solve_decision. Defined.
#[global] Instance msg_eq_dec : EqDecision msg.
Proof. solve_decision. Defined.

(** ** Faults

    What goes wrong when the code breaks the rules of C or the documented
    contract of a kernel call. *)

Inductive fault :=
  | NullDeref            (* a null pointer is dereferenced *)
  | BadDeref             (* no live object at the address *)
  | UninitRead           (* an indeterminate value decides what happens *)
  | OutOfBounds          (* an array or a buffer is accessed outside its bounds *)
  | DoubleFree           (* a block that is not allocated is freed *)
  | Deadlock             (* a lock already held is taken again *)
  | UnlockNotHeld        (* a lock that is not held is released *)
  | SleepInAtomic        (* a call that may sleep while sleeping is forbidden *)
  | OutOfFuel.           (* the bound on the iterations of a loop was reached *)

#[global] Instance fault_eq_dec : EqDecision fault.
Proof. solve_decision. Defined.

(** ** The execution monad

    A statement runs on a state [S]; it ends normally, with a [return] of the
    enclosing function (whose result type is [R]), or with a fault. *)

Inductive outcome (R S A : Type) :=
  | Next (a : A) (s : S)
  | Return (r : R) (s : S)
  | Fault (f : fault) (s : S).
Arguments Next {R S A} a s.
Arguments Return {R S A} r s.
Arguments Fault {R S A} f s.

Definition M (R S A : Type) : Type := S → outcome R S A.

#[global] Instance M_ret {R S} : MRet (M R S) := λ A a s, Next a s.

#[global] Instance M_bind {R S} : MBind (M R S) := λ A B k c s,
  match c s with
  | Next a s' => k a s'
  | Return r s' => Return r s'
  | Fault f s' => Fault f s'
  end.

Section statements.
Context {R S : Type}.

(** The C statement [return r;]. *)
Definition return_ {A} (r : R) : M R S A := λ s, Return r s.
Definition fail {A} (f : fault) : M R S A := λ s, Fault f s.
Definition gets {A} (g : S → A) : M R S A := λ s, Next (g s) s.
Definition modify (g : S → S) : M R S unit := λ s, Next tt (g s).
(** [liftO f o]: the value of [o], the fault [f] when there is none. *)
Definition liftO {A} (f : fault) (o : option A) : M R S A :=
  match o with Some a => mret a | None => fail f end.
Definition guard_ (b : bool) (f : fault) : M R S unit :=
  if b then mret tt else fail f.

(** A call of a function with result type [R']: its [return] ends here. *)
Definition call {R'} (body : M R' S R') : M R S R' := λ s,
  match body s with
  | Next r s' | Return r s' => Next r s'
  | Fault f s' => Fault f s'
  end.

(** A function body with automatic variables: [enter] makes them, [leave]
    ends their lifetime on every way out. *)
Definition scoped {A} (enter leave : S → S) (body : M R S A) : M R S A := λ s,
  match body (enter s) with
  | Next a s' => Next a (leave s')
  | Return r s' => Return r (leave s')
  | Fault f s' => Fault f s'
  end.

(** [for (i = i0; i < i0 + n; i++) body]. *)
Fixpoint for_from (i0 : Z) (n : nat) (body : Z → M R S unit) : M R S unit :=
  match n with
  | O => mret tt
  | Datatypes.S n => body i0;; for_from (i0 + 1) n body
  end.

(** [while (cond) body]; the body says whether it leaves by [break]. *)
Fixpoint while_ {X} (fuel : nat) (cond : X → bool)
    (body : X → M R S (bool * X)) (x : X) : M R S X :=
  if cond x then
    match fuel with
    | O => fail OutOfFuel
    | Datatypes.S fuel =>
        '(brk, x') ← body x;
        if (brk : bool) then mret x' else while_ fuel cond body x'
    end
  else mret x.
End statements.

(** ** Weakest preconditions *)

Record post (R S A : Type) := Post {
  on_next : A → S → Prop;
  on_return : R → S → Prop;
  on_fault : fault → S → Prop }.
Arguments Post {R S A} _ _ _.
Arguments on_next {R S A} _ _ _.
Arguments on_return {R S A} _ _ _.
Arguments on_fault {R S A} _ _ _.

Definition sat {R S A} (P : post R S A) (o : outcome R S A) : Prop :=
  match o with
  | Next a s => on_next P a s
  | Return r s => on_return P r s
  | Fault f s => on_fault P f s
  end.

Definition wp {R S A} (c : M R S A) (s : S) (P : post R S A) : Prop := sat P (c s).

#[global] Arguments wp {R S A} c s P : simpl never.

(** Ends normally, with [Q]. *)
Definition safely {R S A} (Q : A → S → Prop) : post R S A :=
  Post Q (λ _ _, False) (λ _ _, False).

(** A function body: its result is that of a [return] or its last value. *)
Definition returns {R S} (Q : R → S → Prop) : post R S R :=
  Post Q Q (λ _ _, False).

Section wp.
Context {R S : Type}.
Implicit Types (s : S).

Lemma wp_bind {A B} (c : M R S A) (k : A → M R S B) s P :
  wp c s (Post (λ a s', wp (k a) s' P) (on_return P) (on_fault P)) →
  wp (c ≫= k) s P.
Proof. unfold wp, mbind, M_bind. by destruct (c s). Qed.

Lemma wp_ret {A} (a : A) s (P : post R S A) : on_next P a s → wp (mret a) s P.
Proof. done. Qed.

Lemma wp_mono {A} (c : M R S A) s (P Q : post R S A) :
  wp c s P →
  (∀ a s', on_next P a s' → on_next Q a s') →
  (∀ r s', on_return P r s' → on_return Q r s') →
  (∀ f s', on_fault P f s' → on_fault Q f s') →
  wp c s Q.
Proof. unfold wp. destruct (c s); simpl; eauto. Qed.

Lemma wp_safely_mono {A} (c : M R S A) s Q (P : post R S A) :
  wp c s (safely Q) → (∀ a s', Q a s' → on_next P a s') → wp c s P.
Proof. unfold wp. destruct (c s); simpl; naive_solver. Qed.

Lemma wp_call {R'} (c : M R' S R') s (P : post R S R') :
  wp c s (Post (on_next P) (on_next P) (on_fault P)) → wp (call c) s P.
Proof. unfold wp, call. by destruct (c s). Qed.

Lemma wp_scoped {A} enter leave (c : M R S A) s (P : post R S A) :
  wp c (enter s) (Post (λ a s', on_next P a (leave s')) (λ r s', on_return P r (leave s'))
    (on_fault P)) → wp (scoped enter leave c) s P.
Proof. unfold wp, scoped. by destruct (c (enter s)). Qed.

(** The loop rule of [for]: [I i] holds before iteration [i]. *)
Lemma wp_for (I : Z → S → Prop) i0 n (body : Z → M R S unit) s (P : post R S unit) :
  I i0 s →
  (∀ i s, i0 ≤ i < i0 + Z.of_nat n → I i s →
    wp (body i) s (Post (λ _ s', I (i + 1) s') (on_return P) (on_fault P))) →
  (∀ s, I (i0 + Z.of_nat n) s → on_next P tt s) →
  wp (for_from i0 n body) s P.
Proof.
  revert i0 s; induction n as [|n IH]; intros i0 s HI Hb HP.
  - apply HP. by replace (i0 + Z.of_nat 0) with i0 by lia.
  - simpl. apply wp_bind. eapply wp_mono; [apply Hb; [lia|done] | | done | done].
    intros [] s' HI'. apply (IH (i0 + 1)); [done | |].
    + intros i s'' Hi. apply Hb. lia.
    + intros s''. replace (i0 + 1 + Z.of_nat n) with (i0 + Z.of_nat (Datatypes.S n)) by lia.
      apply HP.
Qed.

Lemma bind_next {A B} (c : M R S A) (k : A → M R S B) s a s' :
  c s = Next a s' → (c ≫= k) s = k a s'.
Proof. unfold mbind, M_bind. by intros ->. Qed.

Lemma bind_return {A B} (c : M R S A) (k : A → M R S B) s r s' :
  c s = Return r s' → (c ≫= k) s = Return r s'.
Proof. unfold mbind, M_bind. by intros ->. Qed.

Lemma bind_fault {A B} (c : M R S A) (k : A → M R S B) s f s' :
  c s = Fault f s' → (c ≫= k) s = Fault f s'.
Proof. unfold mbind, M_bind. by intros ->. Qed.

Lemma wp_eq {A} (c : M R S A) s P o : c s = o → sat P o → wp c s P.
Proof. intros <-. done. Qed.

Lemma wp_safely_inv {A} (c : M R S A) s Q :
  wp c s (safely Q) → ∃ a s', c s = Next a s' ∧ Q a s'.
Proof. unfold wp. destruct (c s); simpl; naive_solver. Qed.
End wp.

(** ** The state of a module

    [kern] is the state of the kernel services the module calls (a parameter of
    the model, see Kernel.v), [glob] the C objects of the module and [klog] what
    it has printed, the oldest line first. *)

Record sys (K G : Type) := Sys { kern : K; glob : G; klog : list msg }.
Arguments Sys {K G} _ _ _.
Arguments kern {K G} _.
Arguments glob {K G} _.
Arguments klog {K G} _.

Section sys.
Context {R K G : Type}.

Definition set_kern (k : K) (s : sys K G) : sys K G := Sys k (glob s) (klog s).
Definition set_glob (g : G) (s : sys K G) : sys K G := Sys (kern s) g (klog s).
Definition upd_glob (f : G → G) (s : sys K G) : sys K G := set_glob (f (glob s)) s.
Definition add_log (m : msg) (s : sys K G) : sys K G :=
  Sys (kern s) (glob s) (klog s ++ [m]).

Definition add_logs (ms : list msg) (s : sys K G) : sys K G :=
  Sys (kern s) (glob s) (klog s ++ ms).

Lemma add_logs_cons m ms s : add_logs ms (add_log m s) = add_logs (m :: ms) s.
Proof. unfold add_logs, add_log. simpl. by rewrite <- app_assoc. Qed.

Lemma add_logs_snoc m ms s : add_log m (add_logs ms s) = add_logs (ms ++ [m]) s.
Proof. unfold add_logs, add_log. simpl. by rewrite <- app_assoc. Qed.

Lemma add_logs_app ms ms' s : add_logs ms' (add_logs ms s) = add_logs (ms ++ ms') s.
Proof. unfold add_logs. simpl. by rewrite <- app_assoc. Qed.

Lemma add_logs_nil s : add_logs [] s = s.
Proof. destruct s. unfold add_logs. simpl. by rewrite app_nil_r. Qed.

(** A call of a service, without and with a result. *)
Definition on_kern (g : K → K) : M R (sys K G) unit := modify (λ s, set_kern (g (kern s)) s).
Definition on_kern' {B} (g : K → B * K) : M R (sys K G) B := λ s,
  let '(b, k) := g (kern s) in Next b (set_kern k s).

Definition printk (l : loglevel) (fmt : string) (args : list arg) : M R (sys K G) unit :=
  modify (add_log (Msg l fmt args)).
Definition pr_info : string → list arg → M R (sys K G) unit := printk KERN_INFO.
End sys.

(** The result and the log of a function that returned, for concrete runs. *)
Definition returned {R K G A} (o : outcome R (sys K G) A) : option (R * list msg) :=
  match o with Return r s => Some (r, klog s) | _ => None end.

#[global] Arguments printk {R K G} l fmt args : simpl never.
#[global] Arguments pr_info {R K G} : simpl never.
#[global] Arguments add_log {K G} m s : simpl never.
#[global] Arguments add_logs {K G} ms s : simpl never.

(** ** Proof automation *)

Lemma wp_return {R S A} r s (P : post R S A) : on_return P r s → wp (return_ r) s P.
Proof. done. Qed.

Lemma wp_gets {R S A} (g : S → A) s (P : post R S A) : on_next P (g s) s → wp (gets g) s P.
Proof. done. Qed.

Lemma wp_modify {R S} (g : S → S) s (P : post R S unit) : on_next P tt (g s) → wp (modify g) s P.
Proof. done. Qed.

Lemma wp_printk {R K G} l fmt args s (P : post R (sys K G) unit) :
  on_next P tt (add_log (Msg l fmt args) s) → wp (printk l fmt args) s P.
Proof. done. Qed.

Lemma wp_on_kern {R K G} (g : K → K) s (P : post R (sys K G) unit) :
  on_next P tt (set_kern (g (kern s)) s) → wp (on_kern g) s P.
Proof. done. Qed.

Lemma wp_on_kern' {R K G B} (g : K → B * K) s (P : post R (sys K G) B) :
  (∀ b k, g (kern s) = (b, k) → on_next P b (set_kern k s)) → wp (on_kern' g) s P.
Proof. intros HP. unfold wp, on_kern'. destruct (g (kern s)) as [b k]. by apply HP. Qed.

Create HintDb exec.
#[export] Hint Resolve wp_bind wp_call wp_ret wp_return wp_gets wp_modify wp_printk wp_on_kern : exec.

(** One step of symbolic execution of a statement. *)
Ltac wp_step :=
  lazymatch goal with
  | |- wp (mbind _ _) _ _ => apply wp_bind
  | |- wp (call _) _ _ => apply wp_call
  | |- wp (mret _) _ _ => apply wp_ret
  | |- wp (return_ _) _ _ => apply wp_return; simpl
  | |- wp (gets _) _ _ => apply wp_gets; simpl
  | |- wp (modify _) _ _ => apply wp_modify; simpl
  | |- wp (on_kern _) _ _ => apply wp_on_kern; simpl
  | |- wp (printk _ _ _) _ _ => apply wp_printk; simpl
  | |- wp (pr_info _ _) _ _ => apply wp_printk; simpl
  end.
Ltac wp_steps := repeat wp_step.
