(* ===== verification/Kernel.v ===== *)
(** * The kernel services the list-based modules call

    The slab allocator, the circular doubly linked lists of linux/list.h and
    linux/rculist.h are not part of the repository: they are parameters, given
    by the operations of a type class on an abstract state of the service, with
    the documented behaviour as the laws of a second class.  This file also has
    the statements the modules build from them: allocation and release of a
    structure, list insertion and removal, the [list_for_each_entry] loop, and
    the proof rules for these. *)
From stdpp Require Import base gmap strings list.
From Stdlib Require Import ZArith Lia.
From S2P Require Import Prelude.

(** ** The slab allocator *)

Inductive gfp := GFP_KERNEL | GFP_HIGHUSER.

(** The blocks of the module image and of the stack are the first hundred; the
    allocator hands out others. *)
Definition static_blocks : positive := 100.

Class Slab (A : Type) := {
  kmalloc : Z → gfp → A → option positive * A;
  kfree : positive → A → A;
  live : A → gset positive }.

(** [kmalloc] fails and allocates nothing, or returns a block that was not in
    use; [kfree] releases exactly its argument. *)
Class SlabLaws (A : Type) `{Slab A} : Prop := {
  kmalloc_some n g a b a' : kmalloc n g a = (Some b, a') →
    (static_blocks < b)%positive ∧ (b ∉ live a) ∧ live a' = {[b]} ∪ live a;
  kmalloc_none n g a a' : kmalloc n g a = (None, a') → live a' = live a;
  kfree_live b a : live (kfree b a) = live a ∖ {[b]} }.

(** ** Linked lists *)

Class KList (L : Type) := {
  INIT_LIST_HEAD : ptr → L → L;
  list_add : ptr → ptr → L → L;           (* new, head *)
  list_add_tail : ptr → ptr → L → L;      (* new, head *)
  list_del : ptr → L → L;
  list_add_rcu : ptr → ptr → L → L;       (* new, head *)
  list_replace_rcu : ptr → ptr → L → L;   (* old, new *)
  list_del_rcu : ptr → L → L;
  list_next : L → ptr → ptr;              (* the field [next] of a list_head *)
  (** [is_list l h ns]: the nodes [ns], in this order, are linked behind the
      list head [h]. *)
  is_list : L → ptr → list ptr → Prop }.

Class KListLaws (L : Type) `{KList L} : Prop := {
  is_list_nodup (l : L) h ns : is_list l h ns → NoDup (h :: ns);
  is_list_first (l : L) h ns : is_list l h ns → list_next l h = hd h ns;
  is_list_next (l : L) h xs p ys :
    is_list l h (xs ++ p :: ys) → list_next l p = hd h ys;
  init_spec (l : L) h : is_list (INIT_LIST_HEAD h l) h [];
  add_spec (l : L) h ns n :
    is_list l h ns → n ∉ h :: ns → is_list (list_add n h l) h (n :: ns);
  add_tail_spec (l : L) h ns n :
    is_list l h ns → n ∉ h :: ns → is_list (list_add_tail n h l) h (ns ++ [n]);
  del_spec (l : L) h xs n ys :
    is_list l h (xs ++ n :: ys) → is_list (list_del n l) h (xs ++ ys);
  add_rcu_spec (l : L) h ns n :
    is_list l h ns → n ∉ h :: ns → is_list (list_add_rcu n h l) h (n :: ns);
  (** The removed node keeps its link to the successor, for the readers that
      are still on it. *)
  del_rcu_spec (l : L) h xs n ys :
    is_list l h (xs ++ n :: ys) →
    is_list (list_del_rcu n l) h (xs ++ ys) ∧ list_next (list_del_rcu n l) n = list_next l n;
  replace_rcu_spec (l : L) h xs o ys n :
    is_list l h (xs ++ o :: ys) → n ∉ h :: xs ++ o :: ys →
    is_list (list_replace_rcu o n l) h (xs ++ n :: ys) ∧
    list_next (list_replace_rcu o n l) o = list_next l o }.

(** ** The state of a list-based module

    [k_x] is the state of the other services the module uses; the objects of
    the one structure type [T] the module links are in [heap_of], by address,
    the other C variables in [vars]. *)

Record kstate (A L X : Type) := KState { k_slab : A; k_list : L; k_x : X }.
Arguments KState {A L X} _ _ _.
Arguments k_slab {A L X} _.
Arguments k_list {A L X} _.
Arguments k_x {A L X} _.

Record objs (T V : Type) := Objs { heap_of : gmap ptr T; vars : V }.
Arguments Objs {T V} _ _.
Arguments heap_of {T V} _.
Arguments vars {T V} _.

Section ops.
Context {A L : Type} `{Slab A, KList L}.
Context {R X T V : Type}.
Abbreviation st := (sys (kstate A L X) (objs T V)).
Implicit Types (s : st).

Definition heap s : gmap ptr T := heap_of (glob s).
Definition lists s : L := k_list (kern s).
Definition slab s : A := k_slab (kern s).
Definition extra s : X := k_x (kern s).
Definition var s : V := vars (glob s).

Definition set_heap (h : gmap ptr T) s : st := set_glob (Objs h (vars (glob s))) s.
Definition set_var (v : V) s : st := set_glob (Objs (heap_of (glob s)) v) s.
Definition set_lists (l : L) s : st :=
  set_kern (KState (k_slab (kern s)) l (k_x (kern s))) s.
Definition set_slab (a : A) s : st :=
  set_kern (KState a (k_list (kern s)) (k_x (kern s))) s.
Definition set_extra (x : X) s : st :=
  set_kern (KState (k_slab (kern s)) (k_list (kern s)) x) s.

(** *** Objects *)

(** [*p], for a pointer to a structure. *)
Definition get_obj (p : ptr) : M R st T :=
  match p with
  | Null => fail NullDeref
  | _ => o ← gets (λ s, heap s !! p); liftO BadDeref o
  end.

Definition upd_obj (p : ptr) (f : T → T) : M R st unit :=
  x ← get_obj p; modify (λ s, set_heap (<[p := f x]> (heap s)) s).

(** [p = kmalloc(size, flags)] for a structure whose members are then
    indeterminate, as in [init]. *)
Definition kmalloc_obj (size : Z) (g : gfp) (init : T) : M R st ptr := λ s,
  match kmalloc size g (slab s) with
  | (None, a) => Next Null (set_slab a s)
  | (Some b, a) => Next (Ptr b 0) (set_heap (<[Ptr b 0 := init]> (heap s)) (set_slab a s))
  end.

(** [kfree(p)]: nothing for NULL; anything but the start of an allocated
    block is an error. *)
Definition kfree_obj (p : ptr) : M R st unit := λ s,
  match p with
  | Null => Next tt s
  | Ptr b o =>
      if bool_decide (o = 0 ∧ b ∈ live (slab s))
      then Next tt (set_heap (delete p (heap s)) (set_slab (kfree b (slab s)) s))
      else Fault DoubleFree s
  end.

(** *** Lists

    [off] is the offset of the [struct list_head] in the structure [T]; the
    object of a node that an operation names must exist. *)

Definition node_live (off : Z) (n : ptr) s : bool :=
  bool_decide (is_Some (heap s !! container_of off n)).

Definition on_node (off : Z) (n : ptr) (f : L → L) : M R st unit :=
  b ← gets (node_live off n);
  guard_ b BadDeref;;
  modify (λ s, set_lists (f (lists s)) s).

(** [list_for_each_entry(pos, head, member) body], from the node [pos]. *)
Fixpoint for_each_from (fuel : nat) (off : Z) (head pos : ptr) (body : ptr → M R st unit)
    : M R st unit :=
  if decide (pos = head) then mret tt else
  match fuel with
  | O => fail OutOfFuel
  | S fuel =>
      body (container_of off pos);;
      b ← gets (node_live off pos);
      guard_ b BadDeref;;
      nxt ← gets (λ s, list_next (lists s) pos);
      for_each_from fuel off head nxt body
  end.

Definition list_for_each_entry (fuel : nat) (off : Z) (head : ptr)
    (body : ptr → M R st unit) : M R st unit :=
  pos ← gets (λ s, list_next (lists s) head);
  for_each_from fuel off head pos body.
End ops.

(** Reading a part of the state after a change of a part of it. *)
Section getset.
Context {A L X T V : Type}.
Abbreviation st := (sys (kstate A L X) (objs T V)).
Implicit Types (s : st).

Lemma heap_set_heap h s : heap (set_heap h s) = h.
Proof. done. Qed.
Lemma lists_set_heap h s : lists (set_heap h s) = lists s.
Proof. done. Qed.
Lemma slab_set_heap h s : slab (set_heap h s) = slab s.
Proof. done. Qed.
Lemma extra_set_heap h s : extra (set_heap h s) = extra s.
Proof. done. Qed.
Lemma var_set_heap h s : var (set_heap h s) = var s.
Proof. done. Qed.
Lemma klog_set_heap h s : klog (set_heap h s) = klog s.
Proof. done. Qed.
Lemma heap_set_var v s : heap (set_var v s) = heap s.
Proof. done. Qed.
Lemma lists_set_var v s : lists (set_var v s) = lists s.
Proof. done. Qed.
Lemma slab_set_var v s : slab (set_var v s) = slab s.
Proof. done. Qed.
Lemma extra_set_var v s : extra (set_var v s) = extra s.
Proof. done. Qed.
Lemma var_set_var v s : var (set_var v s) = v.
Proof. done. Qed.
Lemma klog_set_var v s : klog (set_var v s) = klog s.
Proof. done. Qed.
Lemma heap_set_lists l s : heap (set_lists l s) = heap s.
Proof. done. Qed.
Lemma lists_set_lists l s : lists (set_lists l s) = l.
Proof. done. Qed.
Lemma slab_set_lists l s : slab (set_lists l s) = slab s.
Proof. done. Qed.
Lemma extra_set_lists l s : extra (set_lists l s) = extra s.
Proof. done. Qed.
Lemma var_set_lists l s : var (set_lists l s) = var s.
Proof. done. Qed.
Lemma klog_set_lists l s : klog (set_lists l s) = klog s.
Proof. done. Qed.
Lemma heap_set_slab a s : heap (set_slab a s) = heap s.
Proof. done. Qed.
Lemma lists_set_slab a s : lists (set_slab a s) = lists s.
Proof. done. Qed.
Lemma slab_set_slab a s : slab (set_slab a s) = a.
Proof. done. Qed.
Lemma extra_set_slab a s : extra (set_slab a s) = extra s.
Proof. done. Qed.
Lemma var_set_slab a s : var (set_slab a s) = var s.
Proof. done. Qed.
Lemma klog_set_slab a s : klog (set_slab a s) = klog s.
Proof. done. Qed.
Lemma heap_set_extra x s : heap (set_extra x s) = heap s.
Proof. done. Qed.
Lemma lists_set_extra x s : lists (set_extra x s) = lists s.
Proof. done. Qed.
Lemma slab_set_extra x s : slab (set_extra x s) = slab s.
Proof. done. Qed.
Lemma extra_set_extra x s : extra (set_extra x s) = x.
Proof. done. Qed.
Lemma var_set_extra x s : var (set_extra x s) = var s.
Proof. done. Qed.
Lemma klog_set_extra x s : klog (set_extra x s) = klog s.
Proof. done. Qed.
Lemma heap_add_log m s : heap (add_log m s) = heap s.
Proof. done. Qed.
Lemma heap_add_logs ms s : heap (add_logs ms s) = heap s.
Proof. done. Qed.
Lemma lists_add_log m s : lists (add_log m s) = lists s.
Proof. done. Qed.
Lemma lists_add_logs ms s : lists (add_logs ms s) = lists s.
Proof. done. Qed.
Lemma slab_add_log m s : slab (add_log m s) = slab s.
Proof. done. Qed.
Lemma slab_add_logs ms s : slab (add_logs ms s) = slab s.
Proof. done. Qed.
Lemma extra_add_log m s : extra (add_log m s) = extra s.
Proof. done. Qed.
Lemma extra_add_logs ms s : extra (add_logs ms s) = extra s.
Proof. done. Qed.
Lemma var_add_log m s : var (add_log m s) = var s.
Proof. done. Qed.
Lemma var_add_logs ms s : var (add_logs ms s) = var s.
Proof. done. Qed.
Lemma klog_add_log (m : msg) s : klog (add_log m s) = klog s ++ [m].
Proof. done. Qed.
Lemma klog_add_logs (ms : list msg) s : klog (add_logs ms s) = klog s ++ ms.
Proof. done. Qed.
End getset.

Create Rewrite HintDb st.
#[export] Hint Rewrite @klog_add_log @klog_add_logs
  @heap_set_heap @lists_set_heap @slab_set_heap @extra_set_heap @var_set_heap
  @klog_set_heap @heap_set_var @lists_set_var @slab_set_var @extra_set_var @var_set_var
  @klog_set_var @heap_set_lists @lists_set_lists @slab_set_lists @extra_set_lists
  @var_set_lists @klog_set_lists @heap_set_slab @lists_set_slab @slab_set_slab
  @extra_set_slab @var_set_slab @klog_set_slab @heap_set_extra @lists_set_extra
  @slab_set_extra @extra_set_extra @var_set_extra @klog_set_extra @heap_add_log
  @heap_add_logs @lists_add_log @lists_add_logs @slab_add_log @slab_add_logs
  @extra_add_log @extra_add_logs @var_add_log @var_add_logs
  : st.

Ltac simpl_st := autorewrite with st.
Tactic Notation "simpl_st" "in" "*" := autorewrite with st in *.

#[global] Arguments set_heap {A L X T V} h s : simpl never.
#[global] Arguments set_var {A L X T V} v s : simpl never.
#[global] Arguments set_lists {A L X T V} l s : simpl never.
#[global] Arguments set_slab {A L X T V} a s : simpl never.
#[global] Arguments set_extra {A L X T V} x s : simpl never.

(** ** Arrays of pointers

    A global array of [n] pointers whose first entries are the blocks [bs]. *)
Definition filled (n : nat) (bs : list positive) : list ptr :=
  ((λ b, Ptr b 0) <$> bs) ++ replicate (n - length bs) Null.

Lemma filled_length n bs : (length bs ≤ n)%nat → length (filled n bs) = n.
Proof. unfold filled. rewrite length_app, length_fmap, length_replicate. lia. Qed.

Lemma filled_lookup n bs i b : bs !! i = Some b → filled n bs !! i = Some (Ptr b 0).
Proof.
  intros Hb. unfold filled.
  rewrite lookup_app_l by (rewrite length_fmap; eauto using lookup_lt_Some).
  by rewrite list_lookup_fmap, Hb.
Qed.

Lemma filled_insert n bs b :
  (length bs < n)%nat → <[length bs := Ptr b 0]> (filled n bs) = filled n (bs ++ [b]).
Proof.
  intros Hl. unfold filled. rewrite insert_app_r_alt by (by rewrite length_fmap).
  rewrite length_fmap, Nat.sub_diag, fmap_app, length_app, <- app_assoc. simpl.
  replace (n - length bs)%nat with (S (n - (length bs + 1))) by lia. done.
Qed.

(** ** Proof rules *)

Section rules.
Context {A L : Type} `{Slab A, !SlabLaws A, KList L, !KListLaws L}.
Context {R X T V : Type}.
Abbreviation st := (sys (kstate A L X) (objs T V)).
Implicit Types (s : st).

Lemma wp_get_obj p x s (P : post R st T) :
  heap s !! p = Some x → p ≠ Null → on_next P x s → wp (get_obj p) s P.
Proof.
  intros Hx Hp HP. destruct p as [|b o]; [done|]. unfold wp, get_obj.
  erewrite bind_next by done. by rewrite Hx.
Qed.

Lemma wp_upd_obj p f x s (P : post R st unit) :
  heap s !! p = Some x → p ≠ Null →
  on_next P tt (set_heap (<[p := f x]> (heap s)) s) → wp (upd_obj p f) s P.
Proof. intros. apply wp_bind. by eapply wp_get_obj. Qed.

Lemma wp_on_node off n f s (P : post R st unit) :
  is_Some (heap s !! container_of off n) →
  on_next P tt (set_lists (f (lists s)) s) → wp (on_node off n f) s P.
Proof.
  intros Hl HP. unfold wp, on_node. erewrite bind_next by done.
  unfold node_live. rewrite bool_decide_true by done. by erewrite bind_next by done.
Qed.

(** The two outcomes of an allocation. *)
Lemma wp_kmalloc_obj n g init s (P : post R st ptr) :
  (∀ a, live a = live (slab s) → on_next P Null (set_slab a s)) →
  (∀ b a, (static_blocks < b)%positive → b ∉ live (slab s) →
     live a = {[b]} ∪ live (slab s) →
     on_next P (Ptr b 0) (set_heap (<[Ptr b 0 := init]> (heap s)) (set_slab a s))) →
  wp (kmalloc_obj n g init) s P.
Proof.
  intros Hn Hs. unfold wp, kmalloc_obj.
  destruct (kmalloc n g (slab s)) as [[b|] a] eqn:E.
  - destruct (kmalloc_some _ _ _ _ _ E) as (? & ? & ?). by apply Hs.
  - by apply Hn, (kmalloc_none _ _ _ _ E).
Qed.

Lemma wp_kfree_obj b s (P : post R st unit) :
  b ∈ live (slab s) →
  on_next P tt (set_heap (delete (Ptr b 0) (heap s)) (set_slab (kfree b (slab s)) s)) →
  wp (kfree_obj (Ptr b 0)) s P.
Proof.
  intros Hb HP. unfold wp, kfree_obj. by rewrite bool_decide_true.
Qed.

(** The loop rule: [I xs ys] holds when the nodes [xs] have been visited and
    [ys] are to come; the body must leave the node it is on alive and linked
    to the next one. *)
Lemma wp_for_each (I : list ptr → list ptr → st → Prop) fuel off h body s l
    (P : post R st unit) :
  list_next (lists s) h = hd h l → h ∉ l → (length l ≤ fuel)%nat → I [] l s →
  (∀ xs p ys s, l = xs ++ p :: ys → I xs (p :: ys) s →
     wp (body (container_of off p)) s
       (Post (λ _ s', I (xs ++ [p]) ys s' ∧ list_next (lists s') p = hd h ys ∧
                      is_Some (heap s' !! container_of off p))
             (on_return P) (on_fault P))) →
  (∀ s, I l [] s → on_next P tt s) →
  wp (list_for_each_entry fuel off h body) s P.
Proof.
  intros Hn Hh Hf HI Hb HP. unfold list_for_each_entry. apply wp_bind. unfold wp at 1. simpl.
  rewrite Hn. clear Hn.
  assert (Hgen : ∀ ys xs fuel s, l = xs ++ ys → (length ys ≤ fuel)%nat → I xs ys s →
    wp (for_each_from fuel off h (hd h ys) body) s P); [|by eapply (Hgen l [])].
  clear s fuel Hf HI. induction ys as [|p ys IH]; intros xs fuel s Hl Hf HI.
  - destruct fuel; simpl; rewrite decide_True by done; apply HP; by rewrite Hl, app_nil_r.
  - destruct fuel as [|fuel]; simpl in Hf; [lia|]. simpl.
    rewrite decide_False by (intros ->; apply Hh; rewrite Hl; set_solver).
    apply wp_bind. eapply wp_mono; [by eapply Hb| |done|done].
    intros [] s' (HI' & Hnx & Hlv). simpl. apply wp_bind. unfold wp at 1. simpl.
    unfold node_live. rewrite bool_decide_true by done.
    apply wp_bind, wp_ret. simpl. apply wp_bind. unfold wp at 1. simpl. rewrite Hnx.
    apply (IH (xs ++ [p])); [by rewrite <- app_assoc|lia|done].
Qed.

(** One iteration, and the end of the loop. *)
Lemma for_each_from_S fuel off h p (body : ptr → M R st unit) :
  p ≠ h →
  for_each_from (Datatypes.S fuel) off h p body =
    (body (container_of off p);; b ← gets (node_live off p); guard_ b BadDeref;;
     nxt ← gets (λ s, list_next (lists s) p); for_each_from fuel off h nxt body).
Proof. intros Hp. simpl. by rewrite decide_False. Qed.

Lemma wp_for_each_cons fuel off h p body s (P : post R st unit) :
  p ≠ h →
  wp (body (container_of off p)) s (Post
    (λ _ s', is_Some (heap s' !! container_of off p) ∧
       wp (for_each_from fuel off h (list_next (lists s') p) body) s' P)
    (on_return P) (on_fault P)) →
  wp (for_each_from (Datatypes.S fuel) off h p body) s P.
Proof.
  intros Hp Hb. rewrite for_each_from_S by done. apply wp_bind.
  eapply wp_mono; [exact Hb| |done|done]. intros [] s' [Hl Hr]. simpl.
  apply wp_bind, wp_gets. unfold node_live. simpl. rewrite bool_decide_true by done.
  apply wp_bind, wp_ret. simpl. by apply wp_bind, wp_gets.
Qed.

Lemma wp_for_each_nil fuel off h body s (P : post R st unit) :
  on_next P tt s → wp (for_each_from fuel off h h body) s P.
Proof. intros HP. destruct fuel; simpl; by rewrite decide_True. Qed.

Lemma wp_for_each_start fuel off h l body s (P : post R st unit) :
  is_list (lists s) h l → wp (for_each_from fuel off h (hd h l) body) s P →
  wp (list_for_each_entry fuel off h body) s P.
Proof.
  intros Hl HP. unfold list_for_each_entry. apply wp_bind, wp_gets. simpl.
  by rewrite (is_list_first _ _ _ Hl).
Qed.

(** The same for a body that leaves lists and objects alone. *)
Lemma wp_for_each_read (I : list ptr → st → Prop) fuel off h body s l (P : post R st unit) :
  is_list (lists s) h l → (length l ≤ fuel)%nat → I [] s →
  (∀ p, p ∈ l → is_Some (heap s !! container_of off p)) →
  (∀ xs p ys s1, l = xs ++ p :: ys → lists s1 = lists s → heap s1 = heap s → I xs s1 →
     wp (body (container_of off p)) s1
       (Post (λ _ s', I (xs ++ [p]) s' ∧ lists s' = lists s1 ∧ heap s' = heap s1)
             (on_return P) (on_fault P))) →
  (∀ s1, lists s1 = lists s → heap s1 = heap s → I l s1 → on_next P tt s1) →
  wp (list_for_each_entry fuel off h body) s P.
Proof.
  intros Hl Hf HI Hlv Hb HP.
  pose proof (is_list_nodup _ _ _ Hl) as [Hh _]%NoDup_cons.
  apply (wp_for_each (λ xs _ s1, lists s1 = lists s ∧ heap s1 = heap s ∧ I xs s1)
    fuel off h body s l); auto using is_list_first.
  - intros xs p ys s1 Heq (Hls & Hhp & HI1). eapply wp_mono; [by eapply Hb| |done|done].
    intros [] s' (HI' & Hl' & Hh'). simpl. rewrite Hl', Hh', Hls, Hhp. split; [done|].
    split; [apply (is_list_next _ _ xs); by rewrite <- Heq|]. apply Hlv. rewrite Heq. set_solver.
  - intros s1 (? & ? & ?). by apply HP.
Qed.
End rules.
