(* ===== verification/KernelModel.v ===== *)
(** * Services that meet the laws of Kernel.v

    An allocator over a finite set of blocks, with the outcomes of the coming
    requests as an oracle, and the pointer-level doubly linked lists, with the
    proofs that they meet [SlabLaws] and [KListLaws].  The theorems of the
    modules are proved against the laws; the concrete runs use these instances. *)
From stdpp Require Import base gmap strings list.
From Stdlib Require Import ZArith Lia.
From S2P Require Import Prelude Kernel.

(** ** Allocator *)

(** [oracle]: whether the coming requests succeed (all of them when it is
    exhausted). *)
Record slab_model := SlabModel { oracle : list bool; blocks : gset positive }.

Definition fresh_block (bs : gset positive) : positive :=
  Pos.succ (set_fold Pos.max static_blocks bs).

#[global] Instance slab_model_ops : Slab slab_model := {
  kmalloc _ _ a :=
    match oracle a with
    | false :: r => (None, SlabModel r (blocks a))
    | r => let b := fresh_block (blocks a) in
           (Some b, SlabModel (tl r) ({[b]} ∪ blocks a))
    end;
  kfree b a := SlabModel (oracle a) (blocks a ∖ {[b]});
  live := blocks }.

Lemma fresh_block_above bs b : b ∈ bs → (b < fresh_block bs)%positive.
Proof.
  unfold fresh_block. revert b.
  apply (set_fold_ind_L (λ r bs, ∀ b, b ∈ bs → (b < Pos.succ r)%positive)); [set_solver|].
  intros x X r Hx IH b [->%elem_of_singleton|Hb]%elem_of_union; [lia|].
  specialize (IH b Hb). lia.
Qed.

Lemma fresh_block_static bs : (static_blocks < fresh_block bs)%positive.
Proof.
  unfold fresh_block.
  apply (set_fold_ind_L (λ r bs, (static_blocks < Pos.succ r)%positive)); [lia|].
  intros. lia.
Qed.

#[global] Instance slab_model_laws : SlabLaws slab_model.
Proof.
  split.
  - intros n g [o bs] b a'. simpl.
    assert (fresh_block bs ∉ bs) by (intros ?%fresh_block_above; lia).
    pose proof (fresh_block_static bs).
    destruct o as [|[] o]; intros [= <- <-]; auto.
  - intros n g [o bs] a'. simpl. by destruct o as [|[] o]; intros [= <-].
  - done.
Qed.

(** ** Doubly linked lists

    Every [struct list_head] with its [next] and [prev]. *)

Abbreviation links := (gmap ptr (ptr * ptr)).

Definition nxt (l : links) (p : ptr) : ptr := default Null (fst <$> l !! p).
Definition prv (l : links) (p : ptr) : ptr := default Null (snd <$> l !! p).
Definition set_nxt (p n : ptr) (l : links) : links := <[p := (n, prv l p)]> l.
Definition set_prv (p n : ptr) (l : links) : links := <[p := (nxt l p, n)]> l.

Lemma nxt_set_nxt p n l q : nxt (set_nxt p n l) q = if decide (q = p) then n else nxt l q.
Proof. unfold nxt, set_nxt. rewrite lookup_insert. repeat case_decide; simpl; congruence. Qed.
Lemma prv_set_nxt p n l q : prv (set_nxt p n l) q = prv l q.
Proof. unfold prv, set_nxt. rewrite lookup_insert. by case_decide; subst. Qed.
Lemma nxt_set_prv p n l q : nxt (set_prv p n l) q = nxt l q.
Proof. unfold nxt, set_prv. rewrite lookup_insert. by case_decide; subst. Qed.
Lemma prv_set_prv p n l q : prv (set_prv p n l) q = if decide (q = p) then n else prv l q.
Proof. unfold prv, set_prv. rewrite lookup_insert. repeat case_decide; simpl; congruence. Qed.

Create Rewrite HintDb links.
#[export] Hint Rewrite nxt_set_nxt prv_set_nxt nxt_set_prv prv_set_prv : links.

Definition link_between (n prev next : ptr) (l : links) : links :=
  set_nxt prev n (set_prv n prev (set_nxt n next (set_prv next n l))).
Definition unlink_between (prev next : ptr) (l : links) : links :=
  set_nxt prev next (set_prv next prev l).

(** Every neighbour in the list is linked both ways. *)
Fixpoint linked (l : links) (xs : list ptr) : Prop :=
  match xs with
  | a :: (b :: _) as r => nxt l a = b ∧ prv l b = a ∧ linked l r
  | _ => True
  end.

#[global] Instance links_ops : KList links := {
  INIT_LIST_HEAD h l := <[h := (h, h)]> l;
  list_add n h l := link_between n h (nxt l h) l;
  list_add_tail n h l := link_between n (prv l h) h l;
  list_del n l := set_prv n Null (set_nxt n Null (unlink_between (prv l n) (nxt l n) l));
  list_add_rcu n h l := link_between n h (nxt l h) l;
  list_replace_rcu o n l :=
    set_prv o Null (link_between n (prv l o) (nxt l o) l);
  list_del_rcu n l := set_prv n Null (unlink_between (prv l n) (nxt l n) l);
  list_next := nxt;
  is_list l h ns := NoDup (h :: ns) ∧ linked l (h :: ns ++ [h]) }.

Lemma linked_cons2 l a b r : linked l (a :: b :: r) ↔ nxt l a = b ∧ prv l b = a ∧ linked l (b :: r).
Proof. done. Qed.

Lemma linked_app l xs a ys : linked l (xs ++ a :: ys) ↔ linked l (xs ++ [a]) ∧ linked l (a :: ys).
Proof.
  induction xs as [|x xs IH]; simpl app; [simpl; tauto|].
  destruct xs as [|x' xs]; simpl app in *.
  - rewrite !linked_cons2. simpl. tauto.
  - rewrite !linked_cons2, IH. tauto.
Qed.

Lemma linked_frame l l' xs :
  linked l xs →
  (∀ a ys, xs = ys ++ [a] → ∀ q, q ∈ ys → nxt l' q = nxt l q) →
  (∀ q, q ∈ tail xs → prv l' q = prv l q) → linked l' xs.
Proof.
  induction xs as [|a [|b xs] IH]; [done..|]. rewrite !linked_cons2. intros (Hn & Hp & Hl) Hnx Hpv.
  destruct (exists_last (l:=b::xs)) as (ys & z & Hz); [done|].
  rewrite (Hnx z (a :: ys)); [|simpl; by rewrite Hz|by left].
  rewrite Hpv by by left. split; [done|]. split; [done|]. apply IH; [done| |].
  - intros c ws Hc q Hq. apply (Hnx c (a :: ws)); [simpl; by rewrite Hc|by right].
  - intros q Hq. apply Hpv. by right.
Qed.

(** Relinking between a prefix [h :: xs] and a suffix [ys ++ [h]] of a list:
    only the links across the gap change. *)
Lemma relink l l' h xs ys mid us a b vs :
  h :: xs = us ++ [a] → ys ++ [h] = b :: vs → NoDup (h :: xs ++ ys) →
  linked l (h :: xs) → linked l (ys ++ [h]) →
  (∀ q, q ∈ h :: xs ++ ys → q ≠ a → nxt l' q = nxt l q) →
  (∀ q, q ∈ h :: xs ++ ys → q ≠ b → prv l' q = prv l q) →
  linked l' (a :: mid ++ [b]) →
  linked l' (h :: xs ++ mid ++ ys ++ [h]).
Proof.
  intros Ha Hb Hnd HA HB Hnx Hpv Hmid.
  apply NoDup_cons in Hnd as [Hh Hnd]. apply NoDup_app in Hnd as (Hndx & Hdis & Hndy).
  assert (Hnda : NoDup (us ++ [a])) by (rewrite <- Ha; constructor; set_solver).
  assert (Hndb : NoDup (b :: vs)).
  { rewrite <- Hb. apply NoDup_app. repeat split; [done| |apply NoDup_singleton]. set_solver. }
  assert (HA' : linked l' (us ++ [a])).
  { rewrite <- Ha. apply (linked_frame l); [done| |].
    - intros a' us' E q Hq. rewrite Ha in E. apply app_inj_tail in E as [<- <-].
      apply NoDup_app in Hnda as (_ & Hd & _). apply Hnx; [|intros ->; apply (Hd _ Hq); set_solver].
      assert (q ∈ us ++ [a]) by set_solver. rewrite <- Ha in *. set_solver.
    - simpl. intros q Hq. apply Hpv; [set_solver|]. intros ->.
      assert (b ∈ ys ++ [h]) by (rewrite Hb; set_solver). set_solver. }
  assert (HB' : linked l' (b :: vs)).
  { rewrite <- Hb. apply (linked_frame l); [done| |].
    - intros a' us' E q Hq. apply app_inj_tail in E as [<- <-].
      apply Hnx; [set_solver|]. intros ->.
      assert (a ∈ h :: xs) by (rewrite Ha; set_solver). set_solver.
    - rewrite Hb. simpl. intros q Hq. apply NoDup_cons in Hndb as [Hbv _].
      apply Hpv; [|by intros ->]. assert (q ∈ ys ++ [h]) by (rewrite Hb; set_solver). set_solver. }
  replace (h :: xs ++ mid ++ ys ++ [h]) with (us ++ a :: mid ++ b :: vs).
  2:{ rewrite Hb. change (h :: xs ++ mid ++ b :: vs) with ((h :: xs) ++ mid ++ b :: vs).
      rewrite Ha. by rewrite <- app_assoc. }
  apply linked_app. split; [done|].
  change (a :: mid ++ b :: vs) with ((a :: mid) ++ b :: vs). by apply linked_app.
Qed.

(** The two ends of a gap in a list. *)
Lemma gap (h : ptr) (xs ys : list ptr) : ∃ us a b vs, h :: xs = us ++ [a] ∧ ys ++ [h] = b :: vs ∧
  a ∈ h :: xs ∧ b ∈ h :: ys.
Proof.
  destruct (exists_last (l:=h :: xs)) as (us & a & Ha); [done|].
  destruct (ys ++ [h]) as [|b vs] eqn:Hb; [by destruct ys|].
  exists us, a, b, vs. split; [done|]. split; [done|]. split; [rewrite Ha; set_solver|].
  assert (b ∈ ys ++ [h]) by (rewrite Hb; set_solver). set_solver.
Qed.

Lemma linked_gap l h xs mid ys us a b vs :
  h :: xs = us ++ [a] → ys ++ [h] = b :: vs → linked l (h :: xs ++ mid ++ ys ++ [h]) →
  linked l (h :: xs) ∧ linked l (a :: mid ++ [b]) ∧ linked l (ys ++ [h]).
Proof.
  intros Ha Hb. rewrite Hb. change (h :: xs ++ ?r) with ((h :: xs) ++ r).
  rewrite Ha, <- app_assoc. simpl. rewrite linked_app.
  change (a :: mid ++ b :: vs) with ((a :: mid) ++ b :: vs). rewrite (linked_app _ (a :: mid)).
  tauto.
Qed.

Ltac solve_links :=
  intros; autorewrite with links; repeat case_decide; subst; simpl in *;
  autorewrite with links in *; repeat case_decide; subst; auto;
  try (exfalso; set_solver).

(** Linking [n] into a gap. *)
Lemma link_gap l h xs ys us a b vs n :
  h :: xs = us ++ [a] → ys ++ [h] = b :: vs → a ∈ h :: xs → b ∈ h :: ys →
  NoDup (h :: xs ++ ys) → n ∉ h :: xs ++ ys →
  linked l (h :: xs) → linked l (ys ++ [h]) →
  linked (link_between n a b l) (h :: xs ++ [n] ++ ys ++ [h]).
Proof.
  intros Ha Hb Hai Hbi Hnd Hn HA HB.
  assert (a ≠ n ∧ b ≠ n) as [Han Hbn] by (split; intros ->; set_solver).
  apply (relink l _ _ _ _ _ us a b vs); auto; unfold link_between.
  - solve_links.
  - solve_links.
  - simpl. repeat split; solve_links.
Qed.

(** Closing a gap. *)
Lemma unlink_gap l h xs ys us a b vs :
  h :: xs = us ++ [a] → ys ++ [h] = b :: vs → a ∈ h :: xs → b ∈ h :: ys →
  NoDup (h :: xs ++ ys) → linked l (h :: xs) → linked l (ys ++ [h]) →
  linked (unlink_between a b l) (h :: xs ++ ys ++ [h]).
Proof.
  intros Ha Hb Hai Hbi Hnd HA HB.
  apply (relink l _ _ _ _ [] us a b vs); auto; unfold unlink_between.
  - solve_links.
  - solve_links.
  - simpl. repeat split; solve_links.
Qed.

(** A node outside a list can change without the list noticing. *)
Lemma linked_outside l l' h ns :
  linked l (h :: ns ++ [h]) →
  (∀ q, q ∈ h :: ns → nxt l' q = nxt l q ∧ prv l' q = prv l q) → linked l' (h :: ns ++ [h]).
Proof.
  intros Hl Hq. apply (linked_frame l); [done| |].
  - intros a ys E q Hin. change (h :: ns ++ [h]) with ((h :: ns) ++ [h]) in E.
    apply app_inj_tail in E as [<- <-]. by apply Hq.
  - simpl. intros q Hin. apply Hq. set_solver.
Qed.

Lemma is_list_cut l h xs n ys us a b vs :
  h :: xs = us ++ [a] → ys ++ [h] = b :: vs →
  is_list l h (xs ++ n :: ys) →
  linked l (h :: xs) ∧ linked l (ys ++ [h]) ∧ prv l n = a ∧ nxt l n = b ∧
  NoDup (h :: xs ++ ys) ∧ n ∉ h :: xs ++ ys.
Proof.
  intros Ha Hb [Hnd Hl]. rewrite <- app_assoc in Hl.
  destruct (linked_gap l h xs [n] ys us a b vs Ha Hb Hl) as (? & Hm & ?).
  simpl in Hm. destruct Hm as (_ & ? & ? & _ & _).
  change (h :: xs ++ n :: ys) with ((h :: xs) ++ n :: ys) in Hnd.
  rewrite <- Permutation_middle in Hnd. apply NoDup_cons in Hnd as [??]. auto 10.
Qed.

Lemma add_first l h ns n :
  is_list l h ns → n ∉ h :: ns → is_list (link_between n h (nxt l h) l) h (n :: ns).
Proof.
  intros [Hnd Hl] Hn. destruct (gap h [] ns) as (us & a & b & vs & Ha & Hb & Hai & Hbi).
  assert (a = h) as -> by set_solver.
  destruct (linked_gap l h [] [] ns _ _ _ _ Ha Hb Hl) as (? & [Hx _] & ?). rewrite Hx.
  apply NoDup_cons in Hnd as Hnd'. destruct Hnd'. rewrite not_elem_of_cons in Hn. destruct Hn.
  split; [constructor; [|by constructor]; rewrite not_elem_of_cons; done|].
  apply (link_gap l h [] ns us h b vs); auto. simpl. by rewrite not_elem_of_cons.
Qed.

Lemma del_is_list l l' h xs n ys :
  is_list l h (xs ++ n :: ys) →
  (∀ q, q ≠ n → nxt l' q = nxt (unlink_between (prv l n) (nxt l n) l) q ∧
                prv l' q = prv (unlink_between (prv l n) (nxt l n) l) q) →
  is_list l' h (xs ++ ys).
Proof.
  intros Hl Hq. destruct (gap h xs ys) as (us & a & b & vs & Ha & Hb & Hai & Hbi).
  destruct (is_list_cut _ _ _ _ _ _ _ _ _ Ha Hb Hl) as (? & ? & Hp & Hx & Hnd & Hn).
  split; [done|]. apply (linked_outside (unlink_between a b l)).
  - rewrite <- app_assoc. by apply (unlink_gap l h xs ys us a b vs).
  - rewrite <- Hp, <- Hx. intros q Hin. apply Hq. by intros ->.
Qed.

#[global] Instance links_laws : KListLaws links.
Proof.
  split; simpl.
  - by intros l h ns [? _].
  - intros l h [|n ns] [_ Hl]; simpl in *; tauto.
  - intros l h xs p ys Hl. destruct (gap h xs ys) as (us & a & b & vs & Ha & Hb & _).
    destruct (is_list_cut _ _ _ _ _ _ _ _ _ Ha Hb Hl) as (_ & _ & _ & -> & _).
    destruct ys; simpl in *; congruence.
  - intros l h. split; [apply NoDup_singleton|]. unfold nxt, prv. by rewrite lookup_insert_eq.
  - intros l h ns n. apply add_first.
  - intros l h ns n [Hnd Hl] Hn. destruct (gap h ns []) as (us & a & b & vs & Ha & Hb & Hai & Hbi).
    assert (b = h) as -> by set_solver.
    destruct (linked_gap l h ns [] [] _ _ _ _ Ha Hb Hl) as (? & (_ & Hx & _) & ?).
    rewrite Hx. split.
    + rewrite app_comm_cons, <- Permutation_cons_append. by constructor.
    + rewrite <- app_assoc. apply (link_gap l h ns [] us a h vs); rewrite ?app_nil_r; auto.
  - intros l h xs n ys Hl. apply (del_is_list l _ h xs n ys Hl). intros q Hq. split; solve_links.
  - intros l h ns n. apply add_first.
  - intros l h xs n ys Hl. split.
    + apply (del_is_list l _ h xs n ys Hl). intros q Hq. split; solve_links.
    + destruct (gap h xs ys) as (us & a & b & vs & Ha & Hb & Hai & Hbi).
      destruct (is_list_cut _ _ _ _ _ _ _ _ _ Ha Hb Hl) as (? & ? & Hp & Hx & Hnd & Hn).
      rewrite Hp, Hx. unfold unlink_between. autorewrite with links.
      case_decide as E; [|done]. subst. set_solver.
  - intros l h xs o ys n Hl Hn. destruct (gap h xs ys) as (us & a & b & vs & Ha & Hb & Hai & Hbi).
    destruct (is_list_cut _ _ _ _ _ _ _ _ _ Ha Hb Hl) as (? & ? & Hp & Hx & Hnd & Ho).
    assert (n ∉ h :: xs ++ ys) by set_solver. assert (o ≠ n) by set_solver.
    rewrite Hp, Hx. split; [split|].
    + change (h :: xs ++ n :: ys) with ((h :: xs) ++ n :: ys). rewrite <- Permutation_middle.
      by constructor.
    + apply (linked_outside (link_between n a b l)).
      * rewrite <- app_assoc. by apply (link_gap l h xs ys us a b vs).
      * intros q Hq. autorewrite with links. case_decide as E; [|done]. subst. set_solver.
    + unfold link_between. autorewrite with links.
      assert (o ≠ a) by (intros ->; apply Ho; clear -Hai; set_solver).
      by rewrite decide_False, decide_False.
Qed.
