(* ===== verification/RbTree.v ===== *)
(** * red_black_tree/code.c

    [search], [insert], [print] and [start] on a heap of nodes whose links may
    be indeterminate, the reference binary search trees, and the theorems that
    tie the two.  [rb_first] and [rb_next] are parameters; RbModel.v has an
    instance. *)
From stdpp Require Import base gmap strings list sorting.
From Stdlib Require Import ZArith Lia.
From S2P Require Import Prelude.

(** ** Data *)

(** The kernel's [struct rb_node]; [None] in a field is an indeterminate
    value.  [rb_parent_color] is the parent kept in [__rb_parent_color]. *)
Record rb_node := RbNode {
  rb_parent_color : option ptr;
  rb_left : option ptr;
  rb_right : option ptr }.

(** [struct TREE]. *)
Record TREE := Tree { data : option Z; node : rb_node }.

#[global] Instance rb_node_eq_dec : EqDecision rb_node.
Proof. solve_decision. Defined.
#[global] Instance TREE_eq_dec : EqDecision TREE.
Proof. solve_decision. Defined.

(** [offsetof(struct TREE, node)] and [sizeof(struct TREE)] (LP64). *)
Definition TREE_node : Z := 8.
Definition sizeof_TREE : Z := 32.

(** [#define element 14]. *)
Definition element : nat := 14.

(** The C objects: every [struct TREE] by its address, and every
    [struct rb_root] by its address, holding its [rb_node] field. *)
Record heap := Heap { trees : gmap ptr TREE; roots : gmap ptr ptr }.

Abbreviation st := (sys unit heap).

Definition rb_entry (n : ptr) : ptr := container_of TREE_node n.
Definition node_of (t : ptr) : ptr := member_of TREE_node t.

(** ** The kernel's read-only traversal calls

    [rb_first] and [rb_next] of linux/rbtree.h read the nodes of a tree; they
    are parameters.  [None] is a run that depends on an indeterminate value. *)

Abbreviation rb_mem := (gmap ptr rb_node).

Class RbApi := {
  rb_first : rb_mem → ptr → option ptr;
  rb_next : rb_mem → ptr → option ptr }.

(** The nodes of the heap as the kernel sees them, by the address of the node. *)
Definition rb_view (h : gmap ptr TREE) : rb_mem := kmap (member_of TREE_node) (node <$> h).

(** ** Loads and stores *)

Section access.
Context {R : Type}.

Definition get_TREE (t : ptr) : M R st TREE :=
  match t with
  | Null => fail NullDeref
  | _ => o ← gets (λ s, trees (glob s) !! t); liftO BadDeref o
  end.

Definition upd_TREE (t : ptr) (f : TREE → TREE) : M R st unit :=
  x ← get_TREE t;
  modify (upd_glob (λ h, Heap (<[t := f x]> (trees h)) (roots h))).

Definition ld_data (t : ptr) : M R st Z := x ← get_TREE t; liftO UninitRead (data x).
Definition ld_left (n : ptr) : M R st ptr :=
  x ← get_TREE (rb_entry n); liftO UninitRead (rb_left (node x)).
Definition ld_right (n : ptr) : M R st ptr :=
  x ← get_TREE (rb_entry n); liftO UninitRead (rb_right (node x)).

Definition with_left (v : ptr) (x : TREE) : TREE :=
  Tree (data x) (RbNode (rb_parent_color (node x)) (Some v) (rb_right (node x))).
Definition with_right (v : ptr) (x : TREE) : TREE :=
  Tree (data x) (RbNode (rb_parent_color (node x)) (rb_left (node x)) (Some v)).
Definition with_data (v : Z) (x : TREE) : TREE := Tree (Some v) (node x).

Definition st_data (t : ptr) (v : Z) : M R st unit := upd_TREE t (with_data v).
Definition st_left (n v : ptr) : M R st unit := upd_TREE (rb_entry n) (with_left v).
Definition st_right (n v : ptr) : M R st unit := upd_TREE (rb_entry n) (with_right v).

Definition ld_root (root : ptr) : M R st ptr :=
  o ← gets (λ s, roots (glob s) !! root); liftO BadDeref o.
Definition st_root (root v : ptr) : M R st unit :=
  _ ← ld_root root;
  modify (upd_glob (λ h, Heap (trees h) (<[root := v]> (roots h)))).
End access.

(** ** The functions *)

(** The body of the loop of [search]; [n] is the loop variable. *)
Definition search_body (value : Z) (n : ptr) : M ptr st (bool * ptr) :=
  let tmp_tree := rb_entry n in
  d ← ld_data tmp_tree;
  if d >? value then n' ← ld_left n; mret (false, n')
  else if d <? value then n' ← ld_right n; mret (false, n')
  else return_ tmp_tree.

(** [struct TREE* search(struct rb_root* root, int value)]. *)
Definition search (fuel : nat) (root : ptr) (value : Z) : M ptr st ptr :=
  n ← ld_root root;
  while_ fuel (λ n, negb (is_null n)) (search_body value) n;;
  return_ Null.

(** The body of the loop of [insert]: the locals [tmp], [parent] and
    [tmp_tree] are carried by the loop. *)
Definition insert_body (t : ptr) (x : ptr * ptr * ptr) : M Z st (bool * (ptr * ptr * ptr)) :=
  let '(tmp, _, _) := x in
  let parent := tmp in
  let tmp_tree := rb_entry tmp in
  d ← ld_data tmp_tree;
  dt ← ld_data t;
  if d >? dt then tmp' ← ld_left parent; mret (false, (tmp', parent, tmp_tree))
  else
    if d <? dt then tmp' ← ld_right parent; mret (false, (tmp', parent, tmp_tree))
    else mret (true, (tmp, parent, tmp_tree)).

(** [int insert(struct TREE *t, struct rb_root *root)].  The loop runs at least
    once, so the initial values of [parent] and [tmp_tree] are never read. *)
Definition insert (fuel : nat) (t root : ptr) : M Z st Z :=
  r ← ld_root root;
  (if is_null r then st_root root (node_of t);; return_ 0 else mret tt);;
  tmp0 ← ld_root root;
  '(tmp, parent, tmp_tree) ← while_ fuel (λ '(tmp, _, _), negb (is_null tmp)) (insert_body t)
    (tmp0, Null, Null);
  (if negb (is_null tmp) then
     pr_info "Data Already present in tree\n" [];; return_ 1
   else mret tt);;
  d ← ld_data tmp_tree;
  dt ← ld_data t;
  (if d >? dt then st_left parent (node_of t) else st_right parent (node_of t));;
  return_ 0.

Section api.
Context `{RbApi}.

(** The body of the loop of [print]. *)
Definition print_body (tmp : ptr) : M unit st (bool * ptr) :=
  let t := rb_entry tmp in
  d ← ld_data t;
  pr_info "Data = %d\n" [AInt d];;
  m ← gets (λ s, rb_view (trees (glob s)));
  tmp' ← liftO UninitRead (rb_next m tmp);
  mret (false, tmp').

(** [void print(struct rb_root *root)]. *)
Definition print (fuel : nat) (root : ptr) : M unit st unit :=
  r ← ld_root root;
  m ← gets (λ s, rb_view (trees (glob s)));
  tmp ← liftO UninitRead (rb_first m r);
  while_ fuel (λ tmp, negb (is_null tmp)) print_body tmp;;
  mret tt.

(** The address of [tree[i]] in the block of the local array, and of the
    global [root]. *)
Definition tree_blk : positive := 2.
Definition tree_at (i : Z) : ptr := Ptr tree_blk (sizeof_TREE * i).
Definition root_addr : ptr := Ptr 1 0.

Definition uninit_TREE : TREE := Tree None (RbNode None None None).

(** The automatic array [struct TREE tree[element]]. *)
Definition enter_locals : st → st := upd_glob (λ h, Heap
  (foldr (λ i m, <[tree_at (Z.of_nat i) := uninit_TREE]> m) (trees h) (seq 0 element))
  (roots h)).
Definition leave_locals : st → st := upd_glob (λ h, Heap
  (foldr (λ i m, delete (tree_at (Z.of_nat i)) m) (trees h) (seq 0 element))
  (roots h)).

(** [static int __init start(void)]. *)
Definition start (fuel : nat) : M Z st Z := scoped enter_locals leave_locals (
  pr_info "Start...!\n" [];;
  for_from 0 element (λ i,
    st_data (tree_at i) (i * 100);;
    st_left (node_of (tree_at i)) Null;;
    st_right (node_of (tree_at i)) Null);;
  for_from 0 element (λ i, _ ← call (insert fuel (tree_at i) root_addr); mret tt);;
  let search_data := 200 in
  t ← call (search fuel root_addr search_data);
  (if is_null t then pr_info "Data %d Not found \n" [AInt search_data]
   else d ← ld_data t; pr_info "Data %d found \n" [AInt d]);;
  call (print fuel root_addr);;
  return_ 0).

(** [static void __exit stops(void)]. *)
Definition stops : M unit st unit := printk KERN_INFO "Goodbye!\n" [].
End api.

(** The module as it is loaded: [struct rb_root root = RB_ROOT]. *)
Definition loaded : st := Sys tt (Heap ∅ {[ root_addr := Null ]}) [].

(** ** Reference trees

    The binary search tree that a heap represents, and the reference versions
    of the operations on it. *)

Inductive bt :=
  | Leaf
  | Node (l : bt) (p : ptr) (d : Z) (r : bt).

Fixpoint ptrs (t : bt) : list ptr :=
  match t with Leaf => [] | Node l p _ r => ptrs l ++ p :: ptrs r end.
Fixpoint keys (t : bt) : list Z :=
  match t with Leaf => [] | Node l _ d r => keys l ++ d :: keys r end.
Fixpoint elems (t : bt) : list (ptr * Z) :=
  match t with Leaf => [] | Node l p d r => elems l ++ (p, d) :: elems r end.
Fixpoint height (t : bt) : nat :=
  match t with Leaf => O | Node l _ _ r => S (height l `max` height r) end.

Fixpoint bst (t : bt) : Prop :=
  match t with
  | Leaf => True
  | Node l _ d r =>
      (∀ e, e ∈ keys l → e < d) ∧ (∀ e, e ∈ keys r → d < e) ∧ bst l ∧ bst r
  end.

Fixpoint bst_lookup (v : Z) (t : bt) : option ptr :=
  match t with
  | Leaf => None
  | Node l p d r => if d >? v then bst_lookup v l else if d <? v then bst_lookup v r else Some p
  end.

Fixpoint bst_insert (q : ptr) (v : Z) (t : bt) : bt :=
  match t with
  | Leaf => Node Leaf q v Leaf
  | Node l p d r =>
      if d >? v then Node (bst_insert q v l) p d r
      else if d <? v then Node l p d (bst_insert q v r) else t
  end.

(** [n] is the address of the root node of [t] in the heap [h]. *)
Fixpoint is_tree (h : gmap ptr TREE) (n : ptr) (t : bt) : Prop :=
  match t with
  | Leaf => n = Null
  | Node l p d r =>
      n = node_of p ∧ p ≠ Null ∧
      ∃ pc nl nr, h !! p = Some (Tree (Some d) (RbNode pc (Some nl) (Some nr))) ∧
        is_tree h nl l ∧ is_tree h nr r
  end.

(** The state [s] holds the tree [t] at the root [root]. *)
Definition holds (s : st) (root : ptr) (t : bt) : Prop :=
  ∃ n, roots (glob s) !! root = Some n ∧ is_tree (trees (glob s)) n t ∧ NoDup (ptrs t).

(** *** Facts about reference trees *)

Lemma keys_elems t : keys t = (elems t).*2.
Proof. induction t; simpl; [done|]. rewrite fmap_app, fmap_cons. by f_equal; [|f_equal]. Qed.

Lemma ptrs_elems t : ptrs t = (elems t).*1.
Proof. induction t; simpl; [done|]. rewrite fmap_app, fmap_cons. by f_equal; [|f_equal]. Qed.

Lemma elem_of_keys v t : v ∈ keys t ↔ ∃ p, (p, v) ∈ elems t.
Proof.
  rewrite keys_elems, list_elem_of_fmap. split.
  - intros ([p w] & -> & Hp). by exists p.
  - intros [p Hp]. by exists (p, v).
Qed.

Ltac zcmp :=
  repeat match goal with
  | H : context [?a >? ?b] |- _ => rewrite (Z.gtb_ltb a b) in H
  | |- context [?a >? ?b] => rewrite (Z.gtb_ltb a b)
  | |- context [?a <? ?b] => destruct (Z.ltb_spec a b)
  | H : context [?a <? ?b] |- _ => destruct (Z.ltb_spec a b)
  end; try (exfalso; lia).

Lemma bst_insert_elems q v t x :
  bst_lookup v t = None → x ∈ elems (bst_insert q v t) ↔ x = (q, v) ∨ x ∈ elems t.
Proof.
  induction t as [|l IHl p d r IHr]; simpl; [intros _; set_solver|].
  zcmp; intros Hn; simpl; try rewrite !elem_of_app, !elem_of_cons;
    try rewrite IHl by done; try rewrite IHr by done; try done; tauto.
Qed.

Lemma bst_insert_dup q v t p : bst_lookup v t = Some p → bst_insert q v t = t.
Proof.
  induction t as [|l IHl p' d r IHr]; simpl; [done|].
  zcmp; intros Hn; rewrite ?IHl, ?IHr; done.
Qed.

Lemma bst_insert_keys q v t e : e ∈ keys (bst_insert q v t) → e = v ∨ e ∈ keys t.
Proof.
  induction t as [|l IHl p d r IHr]; simpl; [set_solver|].
  zcmp; simpl; rewrite ?elem_of_app, ?elem_of_cons; tauto.
Qed.

Lemma bst_insert_bst q v t : bst t → bst (bst_insert q v t).
Proof.
  induction t as [|l IHl p d r IHr]; simpl; [set_solver|].
  intros (Hl & Hr & Bl & Br). zcmp; simpl; repeat split; auto;
    intros e He; try apply bst_insert_keys in He as [->|He]; auto.
Qed.

Lemma bst_lookup_elems v t p : bst t → bst_lookup v t = Some p ↔ (p, v) ∈ elems t.
Proof.
  induction t as [|l IHl q d r IHr]; simpl; [set_solver|].
  intros (Hl & Hr & Bl & Br). rewrite elem_of_app, elem_of_cons.
  assert (Hkl : (p, v) ∈ elems l → v < d) by (intros ?; apply Hl, elem_of_keys; eauto).
  assert (Hkr : (p, v) ∈ elems r → d < v) by (intros ?; apply Hr, elem_of_keys; eauto).
  zcmp; rewrite ?IHl, ?IHr by done.
  - split; [by left|]. intros [?|[[= -> ->]|?%Hkr]]; [done|lia..].
  - split; [by right; right|]. intros [?%Hkl|[[= -> ->]|?]]; [lia..|done].
  - split; [intros [= ->]; right; left; f_equal; lia|].
    intros [?%Hkl|[[= -> ->]|?%Hkr]]; [lia|done|lia].
Qed.

Lemma bst_lookup_None v t : bst t → bst_lookup v t = None ↔ v ∉ keys t.
Proof.
  intros B. rewrite eq_None_not_Some, elem_of_keys. unfold is_Some.
  by setoid_rewrite bst_lookup_elems.
Qed.

Lemma bst_insert_height q v t : (height (bst_insert q v t) ≤ S (height t))%nat.
Proof. induction t; simpl; [lia|]. zcmp; simpl; lia. Qed.

Lemma bst_lookup_insert_ne q v w t :
  bst t → w ≠ v → bst_lookup v t = None →
  bst_lookup w (bst_insert q v t) = bst_lookup w t.
Proof.
  intros Hb Hw Hv. apply option_eq. intros p.
  rewrite !bst_lookup_elems by auto using bst_insert_bst.
  rewrite bst_insert_elems by done. split; [intros [[= -> ->]|]; done|by right].
Qed.

Lemma bst_keys_sorted t : bst t → StronglySorted Z.lt (keys t).
Proof.
  induction t as [|l IHl q d r IHr]; simpl; [constructor|].
  intros (Hl & Hr & Bl & Br). specialize (IHl Bl). specialize (IHr Br).
  induction (keys l) as [|x xs IH]; simpl.
  - constructor; [done|]. apply Forall_forall. auto.
  - apply StronglySorted_inv in IHl as [IHl Hx]. constructor.
    + apply IH; [done|]. intros e He. apply Hl. by right.
    + apply Forall_app; split; [done|].
      assert (x < d) by (apply Hl; set_solver).
      constructor; [done|]. apply Forall_forall. intros y Hy. specialize (Hr y Hy). lia.
Qed.

(** ** Loads *)

Section loads.
Context {R : Type}.
Implicit Types (s : st).

Lemma get_TREE_ok p s x :
  p ≠ Null → trees (glob s) !! p = Some x → get_TREE (R:=R) p s = Next x s.
Proof.
  intros Hp Hx. destruct p; [done|]. unfold get_TREE.
  erewrite bind_next by done. by rewrite Hx.
Qed.

Lemma ld_data_ok p s d nd :
  p ≠ Null → trees (glob s) !! p = Some (Tree (Some d) nd) → ld_data (R:=R) p s = Next d s.
Proof. intros. unfold ld_data. by erewrite bind_next by (by eapply get_TREE_ok). Qed.

Lemma ld_left_ok p s d pc n r :
  p ≠ Null → trees (glob s) !! p = Some (Tree d (RbNode pc (Some n) r)) →
  ld_left (R:=R) (node_of p) s = Next n s.
Proof.
  intros. unfold ld_left, rb_entry, node_of. rewrite container_member.
  by erewrite bind_next by (by eapply get_TREE_ok).
Qed.

Lemma ld_right_ok p s d pc n l :
  p ≠ Null → trees (glob s) !! p = Some (Tree d (RbNode pc l (Some n))) →
  ld_right (R:=R) (node_of p) s = Next n s.
Proof.
  intros. unfold ld_right, rb_entry, node_of. rewrite container_member.
  by erewrite bind_next by (by eapply get_TREE_ok).
Qed.

Lemma ld_root_ok root s n :
  roots (glob s) !! root = Some n → ld_root (R:=R) root s = Next n s.
Proof. intros Hn. unfold ld_root. erewrite bind_next by done. by rewrite Hn. Qed.
End loads.

Lemma rb_entry_node p : rb_entry (node_of p) = p.
Proof. apply container_member. Qed.

Lemma node_of_null p : p ≠ Null → is_null (node_of p) = false.
Proof. by destruct p. Qed.

Ltac run_load :=
  first
    [ erewrite bind_next by (eapply ld_data_ok; [done|eassumption])
    | erewrite bind_next by (eapply ld_left_ok; [done|eassumption])
    | erewrite bind_next by (eapply ld_right_ok; [done|eassumption])
    | erewrite bind_next by (eapply ld_root_ok; eassumption) ].

(** ** search refines the reference lookup *)

Lemma search_loop v t n s fuel :
  is_tree (trees (glob s)) n t → (height t ≤ fuel)%nat →
  while_ fuel (λ n, negb (is_null n)) (search_body v) n s =
    match bst_lookup v t with Some p => Return p s | None => Next Null s end.
Proof.
  revert n fuel; induction t as [|l IHl p d r IHr]; intros n fuel; simpl.
  - intros -> _. by destruct fuel.
  - intros (-> & Hp & pc & nl & nr & Hh & Hl & Hr) Hf.
    destruct fuel as [|fuel]; [lia|]. simpl. rewrite node_of_null by done. simpl.
    destruct (d >? v) eqn:E1; [|destruct (d <? v) eqn:E2].
    + rewrite (bind_next _ _ s (false, nl) s); [apply IHl; [done|lia]|].
      unfold search_body. rewrite rb_entry_node. run_load. rewrite E1. by run_load.
    + rewrite (bind_next _ _ s (false, nr) s); [apply IHr; [done|lia]|].
      unfold search_body. rewrite rb_entry_node. run_load. rewrite E1, E2. by run_load.
    + erewrite bind_return; [done|].
      unfold search_body. rewrite rb_entry_node. run_load. by rewrite E1, E2.
Qed.

Lemma search_run v t s root fuel :
  holds s root t → (height t ≤ fuel)%nat →
  search fuel root v s = Return (default Null (bst_lookup v t)) s.
Proof.
  intros (n & Hr & Ht & _) Hf. unfold search. run_load.
  pose proof (search_loop v t n s fuel Ht Hf) as Hl.
  destruct (bst_lookup v t); [by erewrite bind_return|by erewrite bind_next].
Qed.

(** ** insert refines the reference insertion *)

Lemma is_tree_frame h n t p x :
  p ∉ ptrs t → is_tree h n t → is_tree (<[p := x]> h) n t.
Proof.
  revert n; induction t as [|l IHl q d r IHr]; intros n Hp; simpl; [done|].
  simpl in Hp. rewrite not_elem_of_app, not_elem_of_cons in Hp.
  destruct Hp as (Hpl & Hpq & Hpr).
  intros (-> & Hq & pc & nl & nr & Hh & Hl & Hr). do 2 (split; [done|]).
  exists pc, nl, nr. rewrite lookup_insert_ne by done. auto.
Qed.

Lemma is_tree_null h n t : is_tree h n t → n = Null ↔ t = Leaf.
Proof.
  destruct t; simpl; [done|]. intros (-> & Hp & _). by destruct p.
Qed.

(** The new node [q] with key [v], before it is linked. *)
Definition unlinked (h : gmap ptr TREE) (q : ptr) (v : Z) : Prop :=
  q ≠ Null ∧ ∃ pc, h !! q = Some (Tree (Some v) (RbNode pc (Some Null) (Some Null))).

Lemma is_tree_unlinked h q v : unlinked h q v → is_tree h (node_of q) (Node Leaf q v Leaf).
Proof. intros [? [pc ?]]. simpl. eauto 10. Qed.

(** Where the loop of [insert] stops when the key is new: at a node whose
    child on the side of the key is absent. *)
Record slot (h : gmap ptr TREE) (n : ptr) (t : bt) (q : ptr) (v : Z)
    (p : ptr) (d : Z) (x : TREE) : Prop := Slot {
  slot_in : p ∈ ptrs t;
  slot_at : p ≠ Null ∧ h !! p = Some x ∧ data x = Some d;
  slot_link :
    is_tree (<[p := (if d >? v then with_left else with_right) (node_of q) x]> h)
      n (bst_insert q v t) }.

Lemma slot_left h n l p0 d0 r nl q v p d x pc nr :
  n = node_of p0 → p0 ≠ Null → (d0 >? v) = true → NoDup (ptrs (Node l p0 d0 r)) →
  h !! p0 = Some (Tree (Some d0) (RbNode pc (Some nl) (Some nr))) → is_tree h nr r →
  slot h nl l q v p d x → slot h n (Node l p0 d0 r) q v p d x.
Proof.
  intros -> Hp0 E Hnd Hh Hr [Hin Hat Hlk]. simpl in Hnd.
  apply NoDup_app in Hnd as (_ & Hd & Hnd). pose proof (Hd p Hin) as Hp.
  rewrite not_elem_of_cons in Hp. destruct Hp as [Hne Hpr].
  split; [simpl; apply elem_of_app; by left | done |].
  simpl. rewrite E. split; [done|]. split; [done|]. exists pc, nl, nr.
  rewrite lookup_insert_ne by done. auto using is_tree_frame.
Qed.

Lemma slot_right h n l p0 d0 r nr q v p d x pc nl :
  n = node_of p0 → p0 ≠ Null → (d0 >? v) = false → (d0 <? v) = true →
  NoDup (ptrs (Node l p0 d0 r)) →
  h !! p0 = Some (Tree (Some d0) (RbNode pc (Some nl) (Some nr))) → is_tree h nl l →
  slot h nr r q v p d x → slot h n (Node l p0 d0 r) q v p d x.
Proof.
  intros -> Hp0 E E' Hnd Hh Hl [Hin Hat Hlk]. simpl in Hnd.
  apply NoDup_app in Hnd as (_ & Hd & Hnd). apply NoDup_cons in Hnd as [Hp0r _].
  assert (p0 ≠ p) by (intros ->; done).
  assert (p ∉ ptrs l) by (intros Hpl; apply (Hd p Hpl); by right).
  split; [simpl; apply elem_of_app; right; by right | done |].
  simpl. rewrite E, E'. split; [done|]. split; [done|]. exists pc, nl, nr.
  rewrite lookup_insert_ne by done. auto using is_tree_frame.
Qed.

(** The node where the new one is linked: the child on its side is absent. *)
Lemma slot_here h n l p d r q v x :
  is_tree h n (Node l p d r) → NoDup (ptrs (Node l p d r)) → unlinked h q v →
  q ∉ ptrs (Node l p d r) → h !! p = Some x →
  ((d >? v) = true ∧ l = Leaf ∨ (d >? v) = false ∧ (d <? v) = true ∧ r = Leaf) →
  slot h n (Node l p d r) q v p d x.
Proof.
  intros (-> & Hp & pc & nl & nr & Hh & Hl & Hr) Hnd Hu Hq Hx Hc.
  rewrite Hx in Hh. injection Hh as ->. simpl in Hnd, Hq.
  rewrite not_elem_of_app, not_elem_of_cons in Hq. destruct Hq as (? & ? & ?).
  apply NoDup_app in Hnd as (_ & Hd & Hnd). apply NoDup_cons in Hnd as [Hpr _].
  assert (p ∉ ptrs l) by (intros Hpl; apply (Hd p Hpl); by left).
  assert (is_tree (<[p := (if d >? v then with_left else with_right) (node_of q)
    (Tree (Some d) (RbNode pc (Some nl) (Some nr)))]> h) (node_of q) (Node Leaf q v Leaf)).
  { apply is_tree_frame; [simpl; set_solver|]. by apply is_tree_unlinked. }
  split; [simpl; set_solver | by auto |].
  destruct Hc as [[E ->]|(E & E' & ->)]; simpl; rewrite ?E, ?E' in *; simpl;
    (split; [done|]); (split; [done|]).
  - exists pc, (node_of q), nr. rewrite lookup_insert_eq. auto using is_tree_frame.
  - exists pc, nl, (node_of q). rewrite lookup_insert_eq. auto using is_tree_frame.
Qed.

Definition insert_cond (x : ptr * ptr * ptr) : bool := let '(tmp, _, _) := x in negb (is_null tmp).

(** One iteration of the loop of [insert] at the node [p] of key [d]. *)
Lemma insert_body_step s q v ndq p d pc nl nr a b :
  q ≠ Null → trees (glob s) !! q = Some (Tree (Some v) ndq) →
  p ≠ Null → trees (glob s) !! p = Some (Tree (Some d) (RbNode pc (Some nl) (Some nr))) →
  insert_body q (node_of p, a, b) s =
    Next (if d >? v then (false, (nl, node_of p, p))
          else if d <? v then (false, (nr, node_of p, p))
          else (true, (node_of p, node_of p, p))) s.
Proof.
  intros Hq Hhq Hp Hhp. unfold insert_body. rewrite rb_entry_node. run_load.
  erewrite bind_next by (eapply ld_data_ok; [done|exact Hhq]).
  destruct (d >? v); [by run_load|]. destruct (d <? v); [by run_load|done].
Qed.

Lemma insert_loop s q v t n fuel a b :
  is_tree (trees (glob s)) n t → t ≠ Leaf → NoDup (ptrs t) → (height t ≤ fuel)%nat →
  unlinked (trees (glob s)) q v → q ∉ ptrs t →
  match bst_lookup v t with
  | Some p => while_ fuel insert_cond (insert_body q) (n, a, b) s
              = Next (node_of p, node_of p, p) s ∧ p ≠ Null
  | None => ∃ p d x,
      while_ fuel insert_cond (insert_body q) (n, a, b) s = Next (Null, node_of p, p) s ∧
      slot (trees (glob s)) n t q v p d x
  end.
Proof.
  intros Ht Hne Hnd Hf Hu Hq. pose proof Hu as [Hq0 [pcq Hhq]].
  revert n a b fuel Ht Hne Hnd Hf Hq.
  induction t as [|l IHl p d r IHr]; intros n a b fuel Ht Hne Hnd Hf Hq; [done|].
  pose proof Ht as (-> & Hp & pc & nl & nr & Hh & Hl & Hr). simpl in Hf.
  destruct fuel as [|fuel]; [lia|]. simpl. rewrite node_of_null by done. simpl.
  rewrite (bind_next _ _ _ _ _ (insert_body_step s q v _ p d pc nl nr a b Hq0 Hhq Hp Hh)).
  simpl in Hq. rewrite not_elem_of_app, not_elem_of_cons in Hq. destruct Hq as (Hql & Hqp & Hqr).
  pose proof Hnd as Hnd'. simpl in Hnd'. apply NoDup_app in Hnd' as (Hndl & _ & Hndr).
  apply NoDup_cons in Hndr as [_ Hndr].
  destruct (d >? v) eqn:E; [|destruct (d <? v) eqn:E'].
  - destruct l as [|ll lp ld lr].
    + simpl in Hl; subst nl. exists p, d, (Tree (Some d) (RbNode pc (Some Null) (Some nr))).
      split; [by destruct fuel|]. apply slot_here; auto. simpl; set_solver.
    + specialize (IHl nl (node_of p) p fuel Hl ltac:(done) Hndl ltac:(lia) Hql).
      destruct (bst_lookup v (Node ll lp ld lr)); [done|]. destruct IHl as (p' & d' & x & Hrun & Hs).
      exists p', d', x. split; [done|]. eapply slot_left; eauto.
  - destruct r as [|rl rp rd rr].
    + simpl in Hr; subst nr. exists p, d, (Tree (Some d) (RbNode pc (Some nl) (Some Null))).
      split; [by destruct fuel|]. apply slot_here; auto. simpl; set_solver.
    + specialize (IHr nr (node_of p) p fuel Hr ltac:(done) Hndr ltac:(lia) Hqr).
      clear IHl. destruct (bst_lookup v (Node rl rp rd rr)); [done|]. destruct IHr as (p' & d' & x & Hrun & Hs).
      exists p', d', x. split; [done|]. eapply slot_right; eauto.
  - done.
Qed.

(** What is stored in the parent word of the node of [p]. *)
Definition parent_of (h : gmap ptr TREE) (p : ptr) : option (option ptr) :=
  rb_parent_color ∘ node <$> h !! p.

(** The state after linking: it holds [t], nothing outside it has changed, and
    no parent word has been written. *)
Definition linked_st (s s' : st) (root : ptr) (t : bt) : Prop :=
  holds s' root t ∧ klog s' = klog s ∧
  (∀ p, p ∉ ptrs t → trees (glob s') !! p = trees (glob s) !! p) ∧
  (∀ p, parent_of (trees (glob s')) p = parent_of (trees (glob s)) p) ∧
  (∀ r, r ≠ root → roots (glob s') !! r = roots (glob s) !! r).

Definition dup_msg : msg := Msg KERN_INFO "Data Already present in tree\n" [].

Lemma bst_insert_ptrs q v t : bst_lookup v t = None → ptrs (bst_insert q v t) ≡ₚ q :: ptrs t.
Proof.
  induction t as [|l IHl p d r IHr]; simpl; [done|].
  zcmp; intros Hn; simpl.
  - by rewrite IHl.
  - rewrite IHr by done. rewrite (Permutation_swap q p). by rewrite <- Permutation_middle.
  - done.
Qed.

Lemma insert_empty fuel s root q v :
  holds s root Leaf → unlinked (trees (glob s)) q v →
  ∃ s', insert fuel q root s = Return 0 s' ∧ linked_st s s' root (Node Leaf q v Leaf).
Proof.
  intros (n & Hr & Ht & _) Hu. simpl in Ht; subst n. unfold insert. run_load.
  eexists; split.
  { erewrite bind_return; [done|]. simpl. unfold st_root. erewrite bind_next; [done|]. by run_load. }
  repeat split; simpl; auto.
  - exists (node_of q). simpl. rewrite lookup_insert_eq. split; [done|]. split.
    + by apply is_tree_unlinked.
    + apply NoDup_singleton.
  - intros r Hrr. by rewrite lookup_insert_ne.
Qed.

Lemma upd_TREE_run {R} p s x f :
  p ≠ Null → trees (glob s) !! p = Some x →
  upd_TREE (R:=R) p f s =
    Next tt (upd_glob (λ h, Heap (<[p := f x]> (trees h)) (roots h)) s).
Proof. intros. unfold upd_TREE. by erewrite bind_next by (by apply get_TREE_ok). Qed.

(** Linking at a slot keeps the root and everything outside the tree. *)
Lemma slot_linked s root n t q v p d x :
  roots (glob s) !! root = Some n → NoDup (ptrs t) → q ∉ ptrs t → bst_lookup v t = None →
  slot (trees (glob s)) n t q v p d x →
  linked_st s (upd_glob (λ h, Heap (<[p := (if d >? v then with_left else with_right)
    (node_of q) x]> (trees h)) (roots h)) s) root (bst_insert q v t).
Proof.
  intros Hr Hnd Hq Hv [Hin Hat Hlk]. pose proof (bst_insert_ptrs q v t Hv) as Hperm.
  repeat split; simpl; auto.
  - exists n. split; [done|]. split; [done|]. rewrite Hperm. by constructor.
  - intros p' Hp'. rewrite lookup_insert_ne; [done|]. intros <-. apply Hp'.
    rewrite Hperm. by right.
  - intros p'. unfold parent_of. destruct (decide (p' = p)) as [->|].
    + rewrite lookup_insert_eq. destruct Hat as (_ & -> & _). simpl. by destruct (d >? v).
    + by rewrite lookup_insert_ne.
Qed.

Lemma insert_nonempty fuel s root t q v :
  holds s root t → t ≠ Leaf → unlinked (trees (glob s)) q v → q ∉ ptrs t →
  (height t ≤ fuel)%nat →
  match bst_lookup v t with
  | Some _ => insert fuel q root s = Return 1 (add_log dup_msg s)
  | None => ∃ s', insert fuel q root s = Return 0 s' ∧ linked_st s s' root (bst_insert q v t)
  end.
Proof.
  intros (n & Hr & Ht & Hnd) Hne Hu Hq Hf.
  assert (Hn : is_null n = false) by (apply is_null_false; by rewrite (is_tree_null _ _ _ Ht)).
  pose proof (insert_loop s q v t n fuel Null Null Ht Hne Hnd Hf Hu Hq) as Hloop.
  unfold insert. run_load. rewrite Hn. erewrite bind_next by done. run_load.
  change (λ '(tmp, _, _), negb (is_null tmp)) with insert_cond.
  destruct (bst_lookup v t) as [p|] eqn:Hv.
  - destruct Hloop as [Hrun Hp]. rewrite (bind_next _ _ _ _ _ Hrun).
    rewrite (node_of_null p Hp). by erewrite bind_return.
  - destruct Hloop as (p & d & x & Hrun & Hs). pose proof Hs as [Hin (Hp & Hx & Hd) Hlk].
    rewrite (bind_next _ _ _ _ _ Hrun). simpl. erewrite bind_next by done.
    destruct x as [xd nd]. simpl in Hd; subst xd. pose proof Hu as [Hq0 [pcq Hhq]]. run_load.
    erewrite bind_next by (eapply ld_data_ok; [done|exact Hhq]).
    eexists. split; [|by eapply slot_linked].
    destruct (d >? v); (erewrite bind_next; [done|]); unfold st_left, st_right;
      rewrite rb_entry_node; by apply upd_TREE_run.
Qed.

Lemma insert_run fuel s root t q v :
  holds s root t → unlinked (trees (glob s)) q v → q ∉ ptrs t → (height t ≤ fuel)%nat →
  match bst_lookup v t with
  | Some _ => insert fuel q root s = Return 1 (add_log dup_msg s)
  | None => ∃ s', insert fuel q root s = Return 0 s' ∧ linked_st s s' root (bst_insert q v t)
  end.
Proof.
  destruct t as [|l p d r]; intros; [by apply insert_empty|by apply insert_nonempty].
Qed.

(** C1: [insert] refines the insertion of the reference search tree: on a heap
    that holds the tree [t], with a new unlinked node [q] of key [v] and as many
    loop iterations as the tree is high, it returns 1, prints the duplicate
    message and changes no object when the key is there, and otherwise returns 0
    in a heap that holds exactly the reference result, every object and root
    outside that tree being as before. *)
Theorem insert_refines fuel s root t q v :
  holds s root t → unlinked (trees (glob s)) q v → q ∉ ptrs t → (height t ≤ fuel)%nat →
  match bst_lookup v t with
  | Some _ => insert fuel q root s = Return 1 (add_log dup_msg s)
  | None => ∃ s', insert fuel q root s = Return 0 s' ∧ linked_st s s' root (bst_insert q v t)
  end.
Proof. apply insert_run. Qed.

(** [insert] keeps the search-tree order: whatever it answers, the heap
    still holds a tree that is ordered, and its elements are the old ones plus
    the new one when the answer is 0. *)
Theorem insert_keeps_order fuel s root t q v :
  holds s root t → bst t → unlinked (trees (glob s)) q v → q ∉ ptrs t →
  (height t ≤ fuel)%nat →
  ∃ r s' t', insert fuel q root s = Return r s' ∧ holds s' root t' ∧ bst t' ∧
    ((v ∈ keys t) ∧ r = 1 ∧ t' = t ∨
     (v ∉ keys t) ∧ r = 0 ∧ (∀ x, x ∈ elems t' ↔ x = (q, v) ∨ x ∈ elems t)).
Proof.
  intros Hh Hb Hu Hq Hf. pose proof (bst_lookup_None v t Hb) as Hk.
  pose proof (insert_run fuel s root t q v Hh Hu Hq Hf) as Hm.
  destruct (bst_lookup v t) eqn:E.
  - exists 1, (add_log dup_msg s), t. repeat split; auto. left.
    split; [|done]. destruct (decide (v ∈ keys t)) as [|n]; [done|]. by apply Hk in n.
  - destruct Hm as (s' & ? & Hl & _). exists 0, s', (bst_insert q v t).
    split; [done|]. split; [done|]. split; [by apply bst_insert_bst|].
    right. split; [by apply Hk|]. split; [done|]. intros x. by apply bst_insert_elems.
Qed.

(** C3: [search] decides membership: on a heap that holds an ordered tree it
    returns, in an unchanged state, the node that carries the value, and NULL
    exactly when no node does. *)
Theorem search_correct fuel s root t v :
  holds s root t → bst t → (height t ≤ fuel)%nat →
  ∃ p, search fuel root v s = Return p s ∧
    (p ≠ Null → (p, v) ∈ elems t) ∧ (p = Null ↔ v ∉ keys t).
Proof.
  intros Hh Hb Hf. eexists. split; [by apply search_run|].
  pose proof (bst_lookup_None v t Hb) as Hk.
  destruct (bst_lookup v t) as [p|] eqn:E; simpl.
  - apply bst_lookup_elems in E; [|done]. split; [done|].
    destruct Hh as (n & _ & Ht & _). split; [|by intros ?%Hk].
    intros ->. exfalso. clear -Ht E. revert n Ht.
    induction t as [|l IHl q d r IHr]; intros n; simpl in *; [set_solver|].
    intros (_ & Hp & _ & nl & nr & _ & Hl & Hr). set_solver.
  - split; [done|]. split; [|done]. intros _. by apply Hk.
Qed.

(** What [insert] puts in, [search] finds: after the insertion of a node
    with key [v] a search for [v] returns a node with that key (the new node,
    or the one that was there), and any other search answers as before. *)
Theorem search_after_insert fuel s root t q v :
  holds s root t → bst t → unlinked (trees (glob s)) q v → q ∉ ptrs t →
  (S (height t) ≤ fuel)%nat →
  ∃ r s', insert fuel q root s = Return r s' ∧
    search fuel root v s' =
      Return (if decide (r = 0) then q else default Null (bst_lookup v t)) s' ∧
    ∀ w p, w ≠ v → search fuel root w s = Return p s → search fuel root w s' = Return p s'.
Proof.
  intros Hh Hb Hu Hq Hf.
  assert (Hfl : (height t ≤ fuel)%nat) by lia.
  pose proof (insert_run fuel s root t q v Hh Hu Hq Hfl) as Hm.
  destruct (bst_lookup v t) eqn:E.
  - eexists 1, _. split; [done|]. split.
    + rewrite (search_run v t) by (done || lia). by rewrite E.
    + intros w p' _. rewrite !(search_run w t) by (done || lia). by intros [= ->].
  - destruct Hm as (s' & Hrun & Hl & _). exists 0, s'. split; [done|].
    assert (Hfi : (height (bst_insert q v t) ≤ fuel)%nat)
      by (pose proof (bst_insert_height q v t); lia).
    pose proof (bst_insert_bst q v t Hb) as Hbi. split.
    + rewrite (search_run v _ _ _ _ Hl Hfi). do 2 f_equal. simpl.
      assert (bst_lookup v (bst_insert q v t) = Some q) as ->; [|done].
      apply bst_lookup_elems; [done|]. apply bst_insert_elems; auto.
    + intros w p Hw. rewrite (search_run w t), (search_run w _ _ _ _ Hl Hfi) by (done || lia).
      intros [= <-]. do 2 f_equal. apply bst_lookup_insert_ne; done.
Qed.

(** ** In-order traversal *)

(** The shape of a tree of [rb_node]s, as the kernel's traversal sees it. *)
Inductive shape :=
  | SLeaf
  | SNode (l : shape) (n : ptr) (r : shape).

Fixpoint inorder (sh : shape) : list ptr :=
  match sh with SLeaf => [] | SNode l n r => inorder l ++ n :: inorder r end.

Fixpoint is_shape (m : rb_mem) (n : ptr) (sh : shape) : Prop :=
  match sh with
  | SLeaf => n = Null
  | SNode l n' r =>
      n = n' ∧ n ≠ Null ∧ ∃ pc nl nr, m !! n = Some (RbNode pc (Some nl) (Some nr)) ∧
        is_shape m nl l ∧ is_shape m nr r
  end.

(** Every node points to its parent, the root to [par]. *)
Fixpoint parented (m : rb_mem) (par : ptr) (sh : shape) : Prop :=
  match sh with
  | SLeaf => True
  | SNode l n r =>
      (rb_parent_color <$> m !! n) = Some (Some par) ∧ parented m n l ∧ parented m n r
  end.

(** [m'] is [m] with some of its indeterminate words filled in. *)
Definition word_le (x y : option ptr) : Prop := x = None ∨ x = y.
Definition node_le (a b : rb_node) : Prop :=
  word_le (rb_parent_color a) (rb_parent_color b) ∧ word_le (rb_left a) (rb_left b) ∧
  word_le (rb_right a) (rb_right b).
Definition fills (m m' : rb_mem) : Prop := ∀ p, option_Forall2 node_le (m !! p) (m' !! p).

(** What linux/rbtree.h documents of the traversal: [rb_first] is the leftmost
    node; with the parent links set [rb_next] is the in-order successor; a node
    whose parent word is its own address (RB_CLEAR_NODE, RB_EMPTY_NODE) is in no
    tree and has no successor.  The last law is the meaning of an answer on a
    memory with indeterminate words: it is the same whatever they hold. *)
Class RbLaws `{RbApi} : Prop := {
  rb_first_leftmost m n sh :
    is_shape m n sh → NoDup (inorder sh) → rb_first m n = Some (hd Null (inorder sh));
  rb_next_successor m n sh l1 p l2 :
    is_shape m n sh → parented m Null sh → NoDup (inorder sh) →
    inorder sh = l1 ++ p :: l2 → rb_next m p = Some (hd Null l2);
  rb_next_empty m p l r : m !! p = Some (RbNode (Some p) l r) → rb_next m p = Some Null;
  rb_next_fills m m' p q : fills m m' → rb_next m p = Some q → rb_next m' p = Some q }.

Fixpoint shape_of (t : bt) : shape :=
  match t with Leaf => SLeaf | Node l p _ r => SNode (shape_of l) (node_of p) (shape_of r) end.

Lemma inorder_shape_of t : inorder (shape_of t) = node_of <$> ptrs t.
Proof. induction t; simpl; [done|]. rewrite fmap_app, fmap_cons. congruence. Qed.

Lemma rb_view_lookup h p : rb_view h !! node_of p = node <$> h !! p.
Proof. unfold rb_view, node_of. by rewrite (lookup_kmap _), lookup_fmap. Qed.

Lemma is_tree_shape h n t : is_tree h n t → is_shape (rb_view h) n (shape_of t).
Proof.
  revert n; induction t as [|l IHl p d r IHr]; intros n; simpl; [done|].
  intros (-> & Hp & pc & nl & nr & Hh & Hl & Hr). split; [done|]. split; [by destruct p|].
  exists pc, nl, nr. rewrite rb_view_lookup, Hh. auto.
Qed.

Lemma is_tree_elem h n t p d :
  is_tree h n t → (p, d) ∈ elems t → p ≠ Null ∧ ∃ nd, h !! p = Some (Tree (Some d) nd).
Proof.
  revert n; induction t as [|l IHl q e r IHr]; intros n; simpl; [set_solver|].
  intros (-> & Hp & pc & nl & nr & Hh & Hl & Hr) [?|[[= -> ->]|?]%elem_of_cons]%elem_of_app;
    eauto.
Qed.

Lemma shape_of_NoDup t : NoDup (ptrs t) → NoDup (inorder (shape_of t)).
Proof. rewrite inorder_shape_of. apply NoDup_fmap_2, _. Qed.

Section traversal.
Context `{RbLaws}.

Definition data_msg (d : Z) : msg := Msg KERN_INFO "Data = %d\n" [AInt d].

Lemma print_body_run p s d nd tmp' :
  p ≠ Null → trees (glob s) !! p = Some (Tree (Some d) nd) →
  rb_next (rb_view (trees (glob s))) (node_of p) = Some tmp' →
  print_body (node_of p) s = Next (false, tmp') (add_log (data_msg d) s).
Proof.
  intros Hp Hh Hn. unfold print_body. rewrite rb_entry_node. run_load.
  erewrite bind_next by done. erewrite bind_next by done. simpl. by rewrite Hn.
Qed.

Lemma print_body_fault p s d nd :
  p ≠ Null → trees (glob s) !! p = Some (Tree (Some d) nd) →
  rb_next (rb_view (trees (glob s))) (node_of p) = None →
  print_body (node_of p) s = Fault UninitRead (add_log (data_msg d) s).
Proof.
  intros Hp Hh Hn. unfold print_body. rewrite rb_entry_node. run_load.
  erewrite bind_next by done. erewrite bind_next by done. simpl. by rewrite Hn.
Qed.

Lemma print_loop n t l1 l2 s fuel :
  is_tree (trees (glob s)) n t → NoDup (ptrs t) →
  parented (rb_view (trees (glob s))) Null (shape_of t) →
  elems t = l1 ++ l2 → (length l2 ≤ fuel)%nat →
  while_ fuel (λ tmp, negb (is_null tmp)) print_body (hd Null (node_of <$> l2.*1)) s =
    Next Null (add_logs (data_msg <$> l2.*2) s).
Proof.
  revert l1 s fuel. induction l2 as [|[p d] l2 IH]; intros l1 s fuel Ht Hnd Hpar Hel Hf; simpl.
  - rewrite add_logs_nil. by destruct fuel.
  - destruct (is_tree_elem _ _ _ p d Ht) as [Hp [nd Hh]]; [rewrite Hel; set_solver|].
    destruct fuel as [|fuel]; simpl in Hf; [lia|]. simpl. rewrite node_of_null by done. simpl.
    rewrite (bind_next _ _ s (false, hd Null (node_of <$> l2.*1)) (add_log (data_msg d) s)).
    2:{ eapply print_body_run; [done..|]. eapply (rb_next_successor _ _ (shape_of t)
          (node_of <$> l1.*1)); eauto using is_tree_shape, shape_of_NoDup.
        rewrite inorder_shape_of, ptrs_elems, Hel. by rewrite !fmap_app. }
    rewrite (IH (l1 ++ [(p, d)])); [by rewrite add_logs_cons|done..| |lia].
    by rewrite <- app_assoc.
Qed.

(** C4: on a tree whose parent links are set, [print] ends, changes no object
    and prints every key once, in increasing order. *)
Theorem print_sorted fuel root s t :
  holds s root t → bst t → parented (rb_view (trees (glob s))) Null (shape_of t) →
  (length (ptrs t) ≤ fuel)%nat →
  print fuel root s = Next tt (add_logs (data_msg <$> keys t) s) ∧
  StronglySorted Z.lt (keys t).
Proof.
  intros (n & Hr & Ht & Hnd) Hb Hpar Hf. split; [|by apply bst_keys_sorted].
  unfold print. run_load. erewrite bind_next by done.
  rewrite (rb_first_leftmost _ _ (shape_of t)) by auto using is_tree_shape, shape_of_NoDup.
  erewrite bind_next by done. rewrite inorder_shape_of, ptrs_elems in *.
  rewrite keys_elems. rewrite length_fmap in Hf.
  erewrite bind_next; [done|]. apply (print_loop n t []); try done. by rewrite ptrs_elems.
Qed.

(** *** Nodes without parent words *)

#[local] Instance word_le_refl : Reflexive word_le.
Proof. intros x. by right. Qed.
#[local] Instance node_le_refl : Reflexive node_le.
Proof. intros x. by split_and!. Qed.

(** The parent of the node [x] in the shape [sh] below [par]. *)
Fixpoint par_of (par : ptr) (sh : shape) (x : ptr) : option ptr :=
  match sh with
  | SLeaf => None
  | SNode l n r =>
      if decide (x = n) then Some par
      else match par_of n l x with Some q => Some q | None => par_of n r x end
  end.

(** The memory with the parent words that are missing filled from [sh]. *)
Definition fill_parents (sh : shape) (m : rb_mem) : rb_mem :=
  map_imap (λ x nd, Some (RbNode
    (match rb_parent_color nd with Some q => Some q | None => par_of Null sh x end)
    (rb_left nd) (rb_right nd))) m.

Lemma fill_parents_fills sh m : fills m (fill_parents sh m).
Proof.
  intros x. unfold fill_parents. rewrite map_lookup_imap.
  destruct (m !! x) as [[[q|] l r]|]; simpl; constructor; split_and!; simpl; by (left + right).
Qed.

Lemma is_shape_fills m m' n sh : fills m m' → is_shape m n sh → is_shape m' n sh.
Proof.
  intros Hf. revert n. induction sh as [|l IHl k r IHr]; intros n; simpl; [done|].
  intros (-> & Hk & pc & nl & nr & Hm & Hl & Hr). split; [done|]. split; [done|].
  specialize (Hf k). rewrite Hm in Hf. destruct (m' !! k) as [[pc' l' r']|] eqn:E; [|by inversion Hf].
  inversion Hf as [? ? (Hp & Hl' & Hr') E1 E2|]; subst.
  destruct Hl' as [?|Hl'], Hr' as [?|Hr']; try done. simpl in Hl', Hr'. subst l' r'. exists pc', nl, nr. auto.
Qed.

Lemma par_of_None par sh x : x ∉ inorder sh → par_of par sh x = None.
Proof.
  revert par. induction sh as [|l IHl k r IHr]; intros par; simpl; [done|].
  rewrite elem_of_app, elem_of_cons. intros Hx. rewrite decide_False by tauto.
  rewrite IHl by tauto. apply IHr. tauto.
Qed.

Lemma par_of_Some par sh x : x ∈ inorder sh → is_Some (par_of par sh x).
Proof.
  revert par. induction sh as [|l IHl k r IHr]; intros par; simpl; [set_solver|].
  rewrite elem_of_app, elem_of_cons. intros Hx. case_decide; [by eauto|].
  destruct (par_of k l x) eqn:E; [by eauto|]. destruct Hx as [Hx|[?|?]]; [|done|by apply IHr].
  destruct (IHl k Hx) as [q Hq]. congruence.
Qed.

Lemma parented_par_of m par sh :
  (∀ x, x ∈ inorder sh → rb_parent_color <$> m !! x = Some (par_of par sh x)) →
  NoDup (inorder sh) → parented m par sh.
Proof.
  revert par. induction sh as [|l IHl k r IHr]; intros par; simpl; [done|].
  intros Hp (Hndl & Hdis & (Hkr & Hndr)%NoDup_cons)%NoDup_app. split_and!.
  - rewrite Hp by set_solver. by rewrite decide_True.
  - apply IHl; [|done]. intros x Hx. rewrite Hp by set_solver.
    rewrite decide_False by (intros ->; set_solver). by destruct (par_of_Some k l x Hx) as [q ->].
  - apply IHr; [|done]. intros x Hx. rewrite Hp by set_solver.
    rewrite decide_False by (intros ->; set_solver). rewrite par_of_None; [done|]. intros ?. set_solver.
Qed.

(** The successor of a node of a tree without parent words cannot be told, when
    it has one: with its own address in the parent word the node is in no tree,
    with the parent words of the tree it has a successor. *)
Lemma rb_next_unwritten m n sh l1 p q l2 :
  is_shape m n sh → NoDup (inorder sh) → inorder sh = l1 ++ p :: q :: l2 →
  (∀ x, x ∈ inorder sh → rb_parent_color <$> m !! x = Some None) → q ≠ Null → rb_next m p = None.
Proof.
  intros Hsh Hnd Heq Hun Hq. apply eq_None_not_Some. intros [v Hv].
  assert (Hp : p ∈ inorder sh) by (rewrite Heq; set_solver).
  assert (H1 : rb_next (fill_parents sh m) p = Some q).
  { apply (rb_next_successor _ n sh l1 p (q :: l2)); [|..|done|done].
    - eapply is_shape_fills; [apply fill_parents_fills|done].
    - apply parented_par_of; [|done]. intros x Hx. specialize (Hun x Hx). unfold fill_parents.
      rewrite map_lookup_imap. destruct (m !! x) as [[[]]|]; simplify_eq/=. done. }
  specialize (Hun p Hp). destruct (m !! p) as [[pc l r]|] eqn:Em; simplify_eq/=.
  assert (H2 : rb_next (<[p := RbNode (Some p) l r]> m) p = Some Null).
  { eapply rb_next_empty. by rewrite lookup_insert_eq. }
  eapply rb_next_fills in Hv as Hv1; [|apply (fill_parents_fills sh)].
  eapply rb_next_fills in Hv as Hv2; [rewrite H2 in Hv2; congruence|].
  intros x. destruct (decide (x = p)) as [->|Hne].
  - rewrite Em, lookup_insert_eq. constructor. split_and!; simpl; [by left|done..].
  - rewrite lookup_insert_ne by done. by destruct (m !! x); constructor.
Qed.

Lemma unwritten_view h t p :
  (∀ p, p ∈ ptrs t → parent_of h p = Some None) → p ∈ inorder (shape_of t) →
  rb_parent_color <$> rb_view h !! p = Some None.
Proof.
  intros Hun. rewrite inorder_shape_of, list_elem_of_fmap. intros (x & -> & Hx). specialize (Hun x Hx).
  unfold parent_of in Hun. rewrite rb_view_lookup. by destruct (h !! x).
Qed.

(** [print] on a tree of two nodes or more, none with a parent word. *)
Lemma print_unlinked_run fuel root s t p d l :
  holds s root t → elems t = (p, d) :: l → l ≠ [] →
  (∀ p, p ∈ ptrs t → parent_of (trees (glob s)) p = Some None) → (1 ≤ fuel)%nat →
  print fuel root s = Fault UninitRead (add_log (data_msg d) s).
Proof.
  intros (n & Hr & Ht & Hnd) Hel Hl Hun Hf. unfold print. run_load. erewrite bind_next by done.
  rewrite (rb_first_leftmost _ _ (shape_of t)) by auto using is_tree_shape, shape_of_NoDup.
  erewrite bind_next by done. destruct (is_tree_elem _ _ _ p d Ht) as [Hp [nd Hh]]; [rewrite Hel; set_solver|].
  destruct l as [|[q e] l]; [done|].
  destruct (is_tree_elem _ _ _ q e Ht) as [Hq _]; [rewrite Hel; set_solver|].
  assert (Hi : inorder (shape_of t) = [] ++ node_of p :: node_of q :: (node_of <$> l.*1)).
  { by rewrite inorder_shape_of, ptrs_elems, Hel. }
  rewrite Hi. simpl hd. destruct fuel as [|fuel]; [lia|]. simpl. rewrite node_of_null by done. simpl.
  erewrite bind_fault; [done|]. erewrite bind_fault; [done|]. eapply print_body_fault; [done..|].
  eapply (rb_next_unwritten _ n (shape_of t)); [by apply is_tree_shape|by apply shape_of_NoDup|exact Hi|..].
  - intros x. by apply unwritten_view.
  - by destruct q.
Qed.

(** [insert] links a node without ever writing its parent word, and on any tree
    of two nodes linked that way [print] reads a parent word that was never
    written after its first line. *)
Theorem insert_then_print_faults fuel s root t q v :
  holds s root t → bst t → unlinked (trees (glob s)) q v → q ∉ ptrs t → v ∉ keys t → t ≠ Leaf →
  (∀ p, p ∈ q :: ptrs t → parent_of (trees (glob s)) p = Some None) →
  (S (height t) ≤ fuel)%nat →
  ∃ s', insert fuel q root s = Return 0 s' ∧
    print fuel root s' =
      Fault UninitRead (add_log (data_msg (hd 0 (keys (bst_insert q v t)))) s').
Proof.
  intros Hh Hb Hu Hq Hv Hne Hun Hf. pose proof (insert_run fuel s root t q v Hh Hu Hq) as Hm.
  assert (Hn : bst_lookup v t = None) by by apply bst_lookup_None. rewrite Hn in Hm.
  destruct Hm as (s' & Hrun & Hl & _ & _ & Hpar & _); [lia|]. exists s'. split; [done|].
  pose proof (bst_insert_ptrs q v t Hn) as Hperm.
  assert (Hlen : (2 ≤ length (elems (bst_insert q v t)))%nat).
  { rewrite <- (length_fmap fst), <- ptrs_elems, Hperm. simpl.
    destruct t as [|tl tp td tr]; [done|]. simpl. rewrite length_app. simpl. lia. }
  rewrite keys_elems. destruct (elems (bst_insert q v t)) as [|[p d] l] eqn:E; simpl in Hlen; [lia|].
  eapply print_unlinked_run; [done|exact E| | |lia].
  - intros ->. simpl in Hlen. lia.
  - intros x Hx. rewrite Hpar. apply Hun. by rewrite <- Hperm.
Qed.
End traversal.

(** ** The module's start *)

(** The tree after the first [i] insertions of [start]. *)
Fixpoint built (i : nat) : bt :=
  match i with
  | O => Leaf
  | S i => bst_insert (tree_at (Z.of_nat i)) (Z.of_nat i * 100) (built i)
  end.

Lemma bst_insert_ptrs_sub q v t p : p ∈ ptrs (bst_insert q v t) → p = q ∨ p ∈ ptrs t.
Proof.
  induction t as [|l IHl q' d r IHr]; simpl; [set_solver|].
  zcmp; simpl; rewrite ?elem_of_app, ?elem_of_cons; tauto.
Qed.

Lemma built_ptrs i p : p ∈ ptrs (built i) → ∃ j, (j < i)%nat ∧ p = tree_at (Z.of_nat j).
Proof.
  induction i as [|i IH]; simpl; [set_solver|].
  intros [->|(j & Hj & ->)%IH]%bst_insert_ptrs_sub; [exists i|exists j]; split; done || lia.
Qed.

Lemma built_keys i v : v ∈ keys (built i) → v < Z.of_nat i * 100.
Proof.
  induction i as [|i IH]; simpl keys; [set_solver|].
  intros [->|Hv%IH]%bst_insert_keys; lia.
Qed.

Lemma built_bst i : bst (built i).
Proof. induction i; simpl; auto using bst_insert_bst. Qed.

Lemma built_height i : (height (built i) ≤ i)%nat.
Proof.
  induction i as [|i IH]; simpl; [lia|].
  pose proof (bst_insert_height (tree_at (Z.of_nat i)) (Z.of_nat i * 100) (built i)). lia.
Qed.

#[global] Instance tree_at_inj : Inj (=) (=) tree_at.
Proof. unfold tree_at, sizeof_TREE. intros i j [= ?]. lia. Qed.

Lemma tree_at_fresh i j : (i ≤ j)%nat → tree_at (Z.of_nat j) ∉ ptrs (built i).
Proof. intros Hj (k & Hk & Heq%(inj _))%built_ptrs. lia. Qed.

(** Before the [i]-th insertion: the tree built so far, the nodes to come not
    linked yet, no parent word written. *)
Record start_inv (i : Z) (s : st) : Prop := StartInv {
  si_holds : holds s root_addr (built (Z.to_nat i));
  si_rest : ∀ j, i ≤ j < Z.of_nat element → unlinked (trees (glob s)) (tree_at j) (j * 100);
  si_parent : ∀ j, 0 ≤ j < Z.of_nat element → parent_of (trees (glob s)) (tree_at j) = Some None;
  si_log : klog s = [Msg KERN_INFO "Start...!\n" []] }.

Lemma start_insert fuel i s :
  (element ≤ fuel)%nat → 0 ≤ i < Z.of_nat element → start_inv i s →
  ∃ s', insert fuel (tree_at i) root_addr s = Return 0 s' ∧ start_inv (i + 1) s'.
Proof.
  intros Hf Hi [Hh Hrest Hpar Hlog]. set (n := Z.to_nat i) in *.
  assert (Hin : i = Z.of_nat n) by lia.
  assert (Hq : tree_at i ∉ ptrs (built n)) by (rewrite Hin; by apply tree_at_fresh).
  assert (Hv : bst_lookup (i * 100) (built n) = None).
  { apply bst_lookup_None; [apply built_bst|]. intros ?%built_keys. lia. }
  pose proof (insert_run fuel s root_addr _ _ (i * 100) Hh (Hrest i ltac:(lia)) Hq) as Hm.
  rewrite Hv in Hm. destruct Hm as (s' & Hrun & Hl & Hlg & Hout & Hp & _).
  { pose proof (built_height n). lia. }
  assert (Hb : bst_insert (tree_at i) (i * 100) (built n) = built (S n)) by (by rewrite Hin).
  exists s'. split; [done|]. rewrite Hb in *. split.
  - by replace (Z.to_nat (i + 1)) with (S n) by lia.
  - intros j Hj. unfold unlinked. rewrite Hout; [apply Hrest; lia|].
    replace j with (Z.of_nat (Z.to_nat j)) by lia. apply tree_at_fresh. lia.
  - intros j Hj. rewrite Hp. by apply Hpar.
  - congruence.
Qed.

Lemma start_inserts fuel s :
  (element ≤ fuel)%nat → start_inv 0 s →
  ∃ s', for_from 0 element (λ i, _ ← call (insert fuel (tree_at i) root_addr); mret tt) s
          = Next (R:=Z) tt s' ∧ start_inv (Z.of_nat element) s'.
Proof.
  intros Hf Hs.
  assert (Hw : wp (for_from 0 element (λ i, _ ← call (insert fuel (tree_at i) root_addr); mret tt)) s
    (safely (R:=Z) (λ _ s', start_inv (Z.of_nat element) s'))).
  { apply (wp_for start_inv); [done| |done]. intros i s1 Hi Hs1.
    destruct (start_insert fuel i s1 Hf Hi Hs1) as (s' & Hrun & Hs').
    apply wp_bind, wp_call. unfold wp. by rewrite Hrun. }
  apply wp_safely_inv in Hw as ([] & s' & ? & ?). eauto.
Qed.

(** The prefix of [start] before the insertions. *)
Definition start_prefix : M Z st unit :=
  pr_info "Start...!\n" [];;
  for_from 0 element (λ i,
    st_data (tree_at i) (i * 100);;
    st_left (node_of (tree_at i)) Null;;
    st_right (node_of (tree_at i)) Null).

(** A node as the first loop of [start] leaves it. *)
Definition fresh_TREE (j : Z) : TREE :=
  Tree (Some (j * 100)) (RbNode None (Some Null) (Some Null)).

Definition prefix_check (o : outcome Z st unit) : bool :=
  match o with
  | Next _ s =>
      forallb (λ j, bool_decide (trees (glob s) !! tree_at (Z.of_nat j) =
        Some (fresh_TREE (Z.of_nat j)))) (seq 0 element) &&
      bool_decide (roots (glob s) !! root_addr = Some Null) &&
      bool_decide (klog s = [Msg KERN_INFO "Start...!\n" []])
  | _ => false
  end.

Lemma prefix_checked : prefix_check (start_prefix (enter_locals loaded)) = true.
Proof. vm_compute. reflexivity. Qed.

Lemma start_prefix_run : ∃ s, start_prefix (enter_locals loaded) = Next tt s ∧ start_inv 0 s.
Proof.
  pose proof prefix_checked as Hc. destruct (start_prefix (enter_locals loaded)) as [[] s| |] eqn:E; [|done..].
  exists s. split; [done|]. unfold prefix_check in Hc.
  apply andb_prop in Hc as [[Hn Hr]%andb_prop Hl]. apply bool_decide_eq_true in Hr, Hl.
  assert (Hj : ∀ j, 0 ≤ j < Z.of_nat element → trees (glob s) !! tree_at j = Some (fresh_TREE j)).
  { intros j Hj. rewrite forallb_forall in Hn. specialize (Hn (Z.to_nat j)).
    rewrite bool_decide_eq_true, in_seq, Z2Nat.id in Hn by lia. apply Hn. lia. }
  clear Hn. split; [|intros j Hj'..|done].
  - exists Null. split; [done|]. split; [done|constructor].
  - split; [done|]. exists None. apply Hj. lia.
  - unfold parent_of. by rewrite Hj.
Qed.

(** [start] after its first loop. *)
Definition start_rest `{RbApi} (fuel : nat) : M Z st Z :=
  for_from 0 element (λ i, _ ← call (insert fuel (tree_at i) root_addr); mret tt);;
  t ← call (search fuel root_addr 200);
  (if is_null t then pr_info "Data %d Not found \n" [AInt 200]
   else d ← ld_data t; pr_info "Data %d found \n" [AInt d]);;
  call (print fuel root_addr);;
  return_ 0.

Lemma start_after_prefix `{RbApi} fuel s s' f :
  start_prefix (enter_locals loaded) = Next tt s → start_rest fuel s = Fault f s' →
  start fuel loaded = Fault f s'.
Proof.
  intros Hp Hr. unfold start_prefix in Hp. unfold start, scoped.
  erewrite bind_next in Hp by done. erewrite bind_next by done.
  rewrite (bind_next _ _ _ _ _ Hp). unfold start_rest in Hr. simpl in *. by rewrite Hr.
Qed.

Lemma built_lookup_200 : bst_lookup 200 (built element) = Some (tree_at 2).
Proof. vm_compute. reflexivity. Qed.

Lemma built_first : ∃ l, elems (built element) = (tree_at 0, 0) :: l ∧ l ≠ [].
Proof. eexists. split; [vm_compute; reflexivity|done]. Qed.

(** C5: what loading the module does, with any traversal that behaves as
    documented and enough loop iterations: the fourteen nodes are inserted, the
    search for 200 finds node 2, the first key is printed, and then the traversal
    asks for the successor of the first node, which depends on a parent word that
    was never written.  The fourteen nodes form a list: nothing balances. *)
Theorem start_reads_unwritten_parent `{RbLaws} fuel :
  (element ≤ fuel)%nat →
  ∃ s, start fuel loaded = Fault UninitRead s ∧
    klog s = [Msg KERN_INFO "Start...!\n" []; Msg KERN_INFO "Data %d found \n" [AInt 200];
              data_msg 0] ∧
    holds s root_addr (built element) ∧ height (built element) = element.
Proof.
  intros Hf. destruct start_prefix_run as (s0 & Hp & Hi0).
  destruct (start_inserts fuel s0 Hf Hi0) as (s1 & Hrun & [Hh _ Hpar Hlog]).
  rewrite Nat2Z.id in Hh. pose proof (built_height element) as Hhe.
  eexists. split.
  { apply (start_after_prefix _ _ _ _ Hp). unfold start_rest. rewrite (bind_next _ _ _ _ _ Hrun).
    rewrite (bind_next _ _ s1 (tree_at 2) s1).
    2:{ unfold call. rewrite (search_run 200 (built element)) by (done || lia).
        by rewrite built_lookup_200. }
    pose proof Hh as (n & _ & Ht & _).
    destruct (is_tree_elem _ _ _ (tree_at 2) 200 Ht) as [_ [nd Hnd]].
    { apply bst_lookup_elems; [apply built_bst|apply built_lookup_200]. }
    rewrite (bind_next _ _ s1 tt (add_log (Msg KERN_INFO "Data %d found \n" [AInt 200]) s1)).
    2:{ simpl. by erewrite bind_next by (by eapply ld_data_ok). }
    destruct built_first as (l & Hel & Hne). erewrite bind_fault; [done|]. unfold call.
    erewrite print_unlinked_run; [done|exact Hh|exact Hel|exact Hne| |unfold element in Hf; lia].
    intros p Hin. apply built_ptrs in Hin as (j & Hj & ->). apply Hpar. lia. }
  split; [|by split]. simpl. by rewrite Hlog.
Qed.
