(* ===== verification/RbModel.v ===== *)
(** * A traversal that meets the laws of RbTree.v

    An executable [rb_first] and [rb_next] on a finite memory of nodes, written
    from the behaviour linux/rbtree.h documents, the proof that they meet
    [RbLaws], and the concrete runs of the module's functions. *)
From stdpp Require Import base gmap strings list sorting.
From Stdlib Require Import ZArith Lia.
From S2P Require Import Prelude RbTree.

(** Down the left links.  A path of a tree is no longer than its memory, so
    [size m] is enough fuel. *)
Fixpoint leftmost (fuel : nat) (m : rb_mem) (n : ptr) : option ptr :=
  nd ← m !! n; l ← rb_left nd;
  match l, fuel with
  | Null, _ => Some n
  | _, O => None
  | _, S fuel => leftmost fuel m l
  end.

(** Up the parent links, as long as the node is a right child. *)
Fixpoint climb (fuel : nat) (m : rb_mem) (p : ptr) : option ptr :=
  nd ← m !! p; q ← rb_parent_color nd;
  match q with
  | Null => Some Null
  | _ => ndq ← m !! q; r ← rb_right ndq;
      if bool_decide (r = p) then
        match fuel with O => None | S fuel => climb fuel m q end
      else Some q
  end.

#[global] Instance rb_model : RbApi := {
  rb_first m n := match n with Null => Some Null | _ => leftmost (size m) m n end;
  rb_next m p :=
    nd ← m !! p; q ← rb_parent_color nd;
    if bool_decide (q = p) then Some Null else
    r ← rb_right nd;
    match r with Null => climb (size m) m p | _ => leftmost (size m) m r end }.

Lemma shape_dom m n sh x : is_shape m n sh → x ∈ inorder sh → x ∈ dom m.
Proof.
  revert n; induction sh as [|l IHl k r IHr]; intros n; simpl; [set_solver|].
  intros (-> & _ & pc & nl & nr & Hk & Hl & Hr) [?|[->|?]%elem_of_cons]%elem_of_app; eauto.
  apply elem_of_dom. eauto.
Qed.

Lemma shape_fields m n sh x :
  is_shape m n sh → x ∈ inorder sh → ∃ pc l r, m !! x = Some (RbNode pc (Some l) (Some r)).
Proof.
  revert n; induction sh as [|l IHl k r IHr]; intros n; simpl; [set_solver|].
  intros (-> & _ & pc & nl & nr & Hk & Hl & Hr) [?|[->|?]%elem_of_cons]%elem_of_app; eauto.
Qed.

Lemma shape_size m n sh : is_shape m n sh → NoDup (inorder sh) → (length (inorder sh) ≤ size m)%nat.
Proof.
  intros Hsh Hnd. rewrite <- (size_list_to_set (C:=gset ptr)) by done. rewrite <- size_dom.
  apply subseteq_size. intros x Hx%elem_of_list_to_set. by eapply shape_dom.
Qed.

Lemma shape_null m n sh : is_shape m n sh → n = Null ↔ sh = SLeaf.
Proof. destruct sh; simpl; [done|]. by intros (-> & ? & _). Qed.

Lemma shape_root_in m n sh : is_shape m n sh → n ≠ Null → n ∈ inorder sh.
Proof. destruct sh; simpl; [done|]. intros (-> & _) _. set_solver. Qed.

Lemma leftmost_spec fuel m n sh :
  is_shape m n sh → n ≠ Null → (length (inorder sh) ≤ fuel)%nat →
  leftmost fuel m n = Some (hd Null (inorder sh)).
Proof.
  revert n fuel; induction sh as [|l IHl k r IHr]; intros n fuel; simpl; [done|].
  intros (-> & Hk & pc & nl & nr & Hm & Hl & Hr) _ Hf. rewrite length_app in Hf. simpl in Hf.
  destruct (decide (nl = Null)) as [->|Hnl].
  - apply shape_null in Hl as Hl'. destruct Hl' as [Hl' _]. rewrite Hl' by done.
    destruct fuel; simpl; by rewrite Hm.
  - destruct l as [|ll lk lr]; [by simpl in Hl|].
    destruct fuel as [|fuel]; [lia|]. simpl. rewrite Hm. simpl.
    destruct nl as [|b o] eqn:En; [done|]. rewrite <- En in *.
    rewrite (IHl nl) by (done || lia). simpl. by destruct (inorder ll).
Qed.

(** One step up from the root of a subtree. *)
Lemma climb_parent fuel m n q pc pcq l r lq rq :
  m !! n = Some (RbNode pc l r) → pc = Some q → q ≠ Null →
  m !! q = Some (RbNode pcq lq (Some rq)) →
  climb fuel m n = if decide (rq = n)
    then match fuel with O => None | S fuel => climb fuel m q end else Some q.
Proof.
  intros Hn -> Hq Hmq. destruct fuel; simpl; rewrite Hn; simpl; destruct q as [|b o]; try done;
    rewrite Hmq; simpl; (case_decide as E; [by rewrite bool_decide_true|]);
    by rewrite bool_decide_false.
Qed.

Lemma parented_root m n par sh :
  is_shape m n sh → parented m par sh → n ≠ Null →
  ∃ l r, m !! n = Some (RbNode (Some par) l r).
Proof.
  destruct sh; simpl; [done|]. intros (-> & _ & pc & nl & nr & Hm & _) (Hp & _) _.
  rewrite Hm in Hp. simpl in Hp. injection Hp as ->. eauto.
Qed.

(** Climbing from a node without a right child: to the root of its subtree when
    it is the last of it, to its successor otherwise. *)
Lemma climb_spec m n par sh l1 p l2 pc l :
  is_shape m n sh → parented m par sh → NoDup (inorder sh) →
  inorder sh = l1 ++ p :: l2 → m !! p = Some (RbNode pc l (Some Null)) →
  ∃ k, (k ≤ length (inorder sh))%nat ∧ ∀ fuel, climb (k + fuel) m p =
    match l2 with [] => climb fuel m n | q :: _ => Some q end.
Proof.
  revert n par l1 l2; induction sh as [|sl IHl k sr IHr]; intros n par l1 l2;
    simpl; [intros _ _ _ ?; by destruct l1|].
  intros (-> & Hk & pck & nl & nr & Hm & Hl & Hr) (Hpar & Hpl & Hpr) Hnd Heq Hp.
  pose proof Hnd as (Hndl & Hdis & (Hkr & Hndr)%NoDup_cons)%NoDup_app.
  rewrite length_app. apply app_eq_inv in Heq as [(t & Ht & Ht')|(t & Ht & Ht')].
  - destruct t as [|x t]; simpl in Ht'; injection Ht' as -> ->.
    + exists O. split; [lia|]. intros fuel. rewrite Hm in Hp. injection Hp as <- <- ->.
      simpl in Hr. by destruct sr as [|? ? ?]; [|destruct Hr as (_ & ? & _)].
    + destruct (IHl nl k l1 t Hl Hpl Hndl Ht Hp) as (j & Hj & Hc).
      exists j. split; [lia|]. intros fuel. rewrite Hc.
      destruct t as [|y t]; [|done]. simpl.
      assert (Hnl : nl ≠ Null).
      { intros E. apply (shape_null _ _ _ Hl) in E as ->. by destruct l1. }
      assert (Hin : nl ∈ inorder sl) by by apply (shape_root_in _ _ _ Hl).
      destruct (parented_root _ _ _ _ Hl Hpl Hnl) as (ll & lr & Hml).
      rewrite (climb_parent fuel m nl k _ _ _ _ _ nr Hml eq_refl Hk Hm).
      rewrite decide_False; [done|]. intros ->.
      apply (Hdis nl Hin). right. by apply (shape_root_in _ _ _ Hr).
  - destruct t as [|x t]; simpl in Ht'; injection Ht' as E1 E2.
    + subst p l2. exists O. split; [lia|]. intros fuel. rewrite Hm in Hp. injection Hp as <- <- ->.
      simpl in Hr. by destruct sr as [|? ? ?]; [|destruct Hr as (_ & ? & _)].
    + subst x. destruct (IHr nr k t l2 Hr Hpr Hndr E2 Hp) as (j & Hj & Hc).
      destruct l2 as [|y l2]; [|exists j; split; [simpl; lia|done]].
      exists (S j). split; [simpl; lia|]. intros fuel.
      replace (S j + fuel)%nat with (j + S fuel)%nat by lia. rewrite Hc.
      assert (Hnr : nr ≠ Null).
      { intros E. apply (shape_null _ _ _ Hr) in E as ->. by destruct t. }
      destruct (parented_root _ _ _ _ Hr Hpr Hnr) as (rl & rr & Hmr).
      rewrite (climb_parent (S fuel) m nr k _ _ _ _ _ nr Hmr eq_refl Hk Hm).
      by rewrite decide_True.
Qed.

Lemma shape_hd m n sh : is_shape m n sh → n ≠ Null → hd Null (inorder sh) ≠ Null.
Proof.
  revert n; induction sh as [|l IHl k r _]; intros n; simpl; [done|].
  intros (-> & Hk & _ & nl & nr & _ & Hl & _) _.
  destruct (inorder l) as [|x xs] eqn:E; [done|]. simpl. apply (IHl nl Hl).
  rewrite (shape_null _ _ _ Hl). by intros ->.
Qed.

(** Below a node with a right child, the successor is the leftmost there. *)
Lemma successor_right m n sh l1 p l2 pc l r :
  is_shape m n sh → NoDup (inorder sh) → inorder sh = l1 ++ p :: l2 →
  m !! p = Some (RbNode pc l (Some r)) → r ≠ Null →
  ∃ sr, is_shape m r sr ∧ NoDup (inorder sr) ∧ hd Null (inorder sr) = hd Null l2.
Proof.
  revert n l1 l2; induction sh as [|sl IHl k sr IHr]; intros n l1 l2;
    simpl; [intros _ _ ?; by destruct l1|].
  intros (-> & Hk & pck & nl & nr & Hm & Hl & Hr) Hnd Heq Hp Hr0.
  pose proof Hnd as (Hndl & Hdis & (Hkr & Hndr)%NoDup_cons)%NoDup_app.
  assert (Hhere : p = k → l2 = inorder sr → ∃ sr, is_shape m r sr ∧ NoDup (inorder sr) ∧
    hd Null (inorder sr) = hd Null l2).
  { intros -> ->. rewrite Hm in Hp. injection Hp as <- <- <-. eauto. }
  apply app_eq_inv in Heq as [(t & Ht & Ht')|(t & Ht & Ht')].
  - destruct t as [|x t]; simpl in Ht'; injection Ht' as E1 E2; [auto|]. subst x l2.
    destruct (IHl nl l1 t Hl Hndl Ht Hp Hr0) as (s & ? & ? & Hhd). exists s.
    split; [done|]. split; [done|]. rewrite Hhd. destruct t as [|y t]; [|done].
    by eapply shape_hd in Hhd.
  - destruct t as [|x t]; simpl in Ht'; injection Ht' as E1 E2; [auto|]. eauto.
Qed.

(** A node with its parent word set is not its own parent. *)
Lemma shape_not_null m n sh x : is_shape m n sh → x ∈ inorder sh → x ≠ Null.
Proof.
  revert n; induction sh as [|l IHl k r IHr]; intros n; simpl; [set_solver|].
  intros (-> & Hk & pc & nl & nr & _ & Hl & Hr) [?|[->|?]%elem_of_cons]%elem_of_app; eauto.
Qed.

Lemma parented_word m n par sh p :
  is_shape m n sh → parented m par sh → NoDup (inorder sh) → par ∉ inorder sh → p ∈ inorder sh →
  ∃ q, rb_parent_color <$> m !! p = Some (Some q) ∧ q ≠ p.
Proof.
  revert n par; induction sh as [|l IHl k r IHr]; intros n par; simpl; [set_solver|].
  intros (-> & Hk & pc & nl & nr & Hm & Hl & Hr) (Hpk & Hpl & Hpr) Hnd Hpar Hp.
  pose proof Hnd as (Hndl & Hdis & (Hkr & Hndr)%NoDup_cons)%NoDup_app.
  apply elem_of_app in Hp as [Hp|[->|Hp]%elem_of_cons].
  - apply (IHl nl k); try done. intros Hk'. apply (Hdis _ Hk'). by left.
  - exists par. split; [done|]. intros ->. set_solver.
  - by apply (IHr nr k).
Qed.

(** *** Filling in indeterminate words *)

Lemma fills_lookup m m' p nd :
  fills m m' → m !! p = Some nd → ∃ nd', m' !! p = Some nd' ∧
    (∀ q, rb_parent_color nd = Some q → rb_parent_color nd' = Some q) ∧
    (∀ q, rb_left nd = Some q → rb_left nd' = Some q) ∧
    (∀ q, rb_right nd = Some q → rb_right nd' = Some q).
Proof.
  intros Hf Hp. specialize (Hf p). rewrite Hp in Hf. destruct (m' !! p) as [nd'|]; [|by inversion Hf].
  exists nd'. split; [done|]. inversion Hf as [? ? (Ha & Hb & Hc)|]; subst.
  split_and!; intros q Hq; [destruct Ha|destruct Hb|destruct Hc]; congruence.
Qed.

Lemma fills_size m m' : fills m m' → size m = size m'.
Proof.
  intros Hf. rewrite <- !size_dom. f_equal. apply set_eq. intros p. rewrite !elem_of_dom.
  specialize (Hf p). by destruct (m !! p), (m' !! p); inversion Hf.
Qed.

Lemma leftmost_fills fuel m m' n v : fills m m' → leftmost fuel m n = Some v → leftmost fuel m' n = Some v.
Proof.
  intros Hf. revert n. induction fuel as [|fuel IH]; intros n; simpl;
    intros (nd & Hn & (l & Hl & Hv)%bind_Some)%bind_Some;
    destruct (fills_lookup _ _ _ _ Hf Hn) as (nd' & Hn' & _ & Hl' & _);
    rewrite Hn'; simpl; apply bind_Some; exists l; (split; [by apply Hl'|]); destruct l; auto.
Qed.

Lemma climb_fills fuel m m' p v : fills m m' → climb fuel m p = Some v → climb fuel m' p = Some v.
Proof.
  intros Hf. revert p. induction fuel as [|fuel IH]; intros p; simpl;
    intros (nd & Hn & (q & Hq & Hv)%bind_Some)%bind_Some;
    destruct (fills_lookup _ _ _ _ Hf Hn) as (nd' & Hn' & Hq' & _);
    rewrite Hn'; simpl; apply bind_Some; exists q; (split; [by apply Hq'|]); destruct q as [|b o]; [done| |done|];
    apply bind_Some in Hv as (ndq & Hmq & (r & Hr & Hv)%bind_Some);
    destruct (fills_lookup _ _ _ _ Hf Hmq) as (ndq' & Hmq' & _ & _ & Hr');
    rewrite Hmq'; simpl; rewrite (Hr' _ Hr); simpl; case_bool_decide; auto.
Qed.

#[global] Instance rb_model_laws : RbLaws.
Proof.
  split.
  - intros m n sh Hsh Hnd. simpl. destruct n as [|b o] eqn:En.
    + apply shape_null in Hsh as [-> _]; done.
    + rewrite <- En in *. assert (n ≠ Null) by congruence.
      apply leftmost_spec; [done..|]. by eapply shape_size.
  - intros m n sh l1 p l2 Hsh Hpar Hnd Heq. simpl.
    assert (Hin : p ∈ inorder sh) by (rewrite Heq; set_solver).
    destruct (shape_fields m n sh p Hsh Hin) as (pc & l & r & Hp).
    destruct (parented_word m n Null sh p) as (q & Hq & Hqp); [done..| |done|].
    { intros Hn. by apply (shape_not_null _ _ _ _ Hsh) in Hn. }
    rewrite Hp in Hq |- *. injection Hq as ->. simpl. rewrite bool_decide_false by done.
    destruct r as [|b o] eqn:Er; [|rewrite <- Er in *].
    + destruct (climb_spec _ _ _ _ _ _ _ _ _ Hsh Hpar Hnd Heq Hp) as (k & Hk & Hc).
      pose proof (shape_size _ _ _ Hsh Hnd). replace (size m) with (k + (size m - k))%nat by lia.
      rewrite Hc. destruct l2 as [|q' l2]; [|done]. simpl.
      assert (n ≠ Null) by (rewrite (shape_null _ _ _ Hsh); intros ->; by destruct l1).
      destruct (parented_root _ _ _ _ Hsh Hpar) as (l' & r' & Hn); [done|].
      destruct (size m - k)%nat; simpl; by rewrite Hn.
    + assert (Hr0 : r ≠ Null) by congruence.
      destruct (successor_right _ _ _ _ _ _ _ _ _ Hsh Hnd Heq Hp Hr0) as (sr & Hsr & Hndr & <-).
      apply leftmost_spec; [done..|]. by eapply shape_size.
  - intros m p l r Hp. simpl. rewrite Hp. simpl. by rewrite bool_decide_true.
  - intros m m' p v Hf. simpl. rewrite <- (fills_size _ _ Hf).
    intros (nd & Hn & (q & Hq & Hv)%bind_Some)%bind_Some.
    destruct (fills_lookup _ _ _ _ Hf Hn) as (nd' & Hn' & Hq' & _ & Hr').
    rewrite Hn'. simpl. rewrite (Hq' _ Hq). simpl. case_bool_decide; [done|].
    apply bind_Some in Hv as (r & Hr & Hv). rewrite (Hr' _ Hr). simpl.
    destruct r; eauto using climb_fills, leftmost_fills.
Qed.

(** ** Concrete runs *)

(** A heap with the nodes 100 and 50 linked and a node 75 to insert; [w] says
    whether the parent words of the linked nodes are written. *)
Definition ex_tree : bt := Node (Node Leaf (tree_at 1) 50 Leaf) (tree_at 0) 100 Leaf.

Definition ex_heap (w : bool) : gmap ptr TREE :=
  list_to_map
    [ (tree_at 0, Tree (Some 100) (RbNode (if w then Some Null else None)
        (Some (node_of (tree_at 1))) (Some Null)));
      (tree_at 1, Tree (Some 50) (RbNode (if w then Some (node_of (tree_at 0)) else None)
        (Some Null) (Some Null)));
      (tree_at 2, Tree (Some 75) (RbNode None (Some Null) (Some Null))) ].

Definition ex_st (w : bool) : st :=
  Sys tt (Heap (ex_heap w) {[ root_addr := node_of (tree_at 0) ]}) [].

Lemma ex_holds w : holds (ex_st w) root_addr ex_tree.
Proof.
  exists (node_of (tree_at 0)). split; [by destruct w|]. split.
  - split; [done|]. split; [done|].
    exists (if w then Some Null else None), (node_of (tree_at 1)), Null.
    split; [by destruct w|]. split; [|done]. split; [done|]. split; [done|].
    exists (if w then Some (node_of (tree_at 0)) else None), Null, Null.
    split; [by destruct w|done].
  - apply (bool_decide_unpack _). vm_compute. done.
Defined.

Lemma ex_bst : bst ex_tree.
Proof. simpl. repeat split; set_solver by lia. Defined.

Lemma ex_unlinked w : unlinked (trees (glob (ex_st w))) (tree_at 2) 75.
Proof. split; [done|]. exists None. by destruct w. Defined.

Lemma ex_new : tree_at 2 ∉ ptrs ex_tree.
Proof. apply (bool_decide_unpack _). vm_compute. done. Defined.

Lemma insert_refines_witness :
  ∃ s', insert 2 (tree_at 2) root_addr (ex_st false) = Return 0 s' ∧
    linked_st (ex_st false) s' root_addr
      (Node (Node Leaf (tree_at 1) 50 (Node Leaf (tree_at 2) 75 Leaf)) (tree_at 0) 100 Leaf).
Proof.
  exact (insert_refines 2 (ex_st false) root_addr ex_tree (tree_at 2) 75
    (ex_holds false) (ex_unlinked false) ex_new (le_n 2)).
Defined.

Lemma insert_keeps_order_witness :
  ∃ r s' t', insert 2 (tree_at 2) root_addr (ex_st false) = Return r s' ∧
    holds s' root_addr t' ∧ bst t' ∧
    ((75 ∈ keys ex_tree) ∧ r = 1 ∧ t' = ex_tree ∨
     (75 ∉ keys ex_tree) ∧ r = 0 ∧
       (∀ x, x ∈ elems t' ↔ x = (tree_at 2, 75) ∨ x ∈ elems ex_tree)).
Proof.
  exact (insert_keeps_order 2 (ex_st false) root_addr ex_tree (tree_at 2) 75
    (ex_holds false) ex_bst (ex_unlinked false) ex_new (le_n 2)).
Defined.

Lemma search_correct_witness :
  ∃ p, search 2 root_addr 50 (ex_st false) = Return p (ex_st false) ∧
    (p ≠ Null → (p, 50) ∈ elems ex_tree) ∧ (p = Null ↔ 50 ∉ keys ex_tree).
Proof.
  exact (search_correct 2 (ex_st false) root_addr ex_tree 50 (ex_holds false) ex_bst (le_n 2)).
Defined.

Lemma search_after_insert_witness :
  ∃ r s', insert 3 (tree_at 2) root_addr (ex_st false) = Return r s' ∧
    search 3 root_addr 75 s' =
      Return (if decide (r = 0) then tree_at 2 else default Null (bst_lookup 75 ex_tree)) s' ∧
    ∀ w p, w ≠ 75 → search 3 root_addr w (ex_st false) = Return p (ex_st false) →
      search 3 root_addr w s' = Return p s'.
Proof.
  exact (search_after_insert 3 (ex_st false) root_addr ex_tree (tree_at 2) 75
    (ex_holds false) ex_bst (ex_unlinked false) ex_new (le_n 3)).
Defined.

Lemma print_sorted_witness :
  print 2 root_addr (ex_st true) = Next tt (add_logs (data_msg <$> [50; 100]) (ex_st true)) ∧
  StronglySorted Z.lt [50; 100].
Proof.
  apply (print_sorted 2 root_addr (ex_st true) ex_tree (ex_holds true) ex_bst); [|exact (le_n 2)].
  by vm_compute.
Defined.

Lemma insert_then_print_faults_witness :
  ∃ s', insert 3 (tree_at 2) root_addr (ex_st false) = Return 0 s' ∧
    print 3 root_addr s' = Fault UninitRead (add_log (data_msg 50) s').
Proof.
  apply (insert_then_print_faults 3 (ex_st false) root_addr ex_tree (tree_at 2) 75
    (ex_holds false) ex_bst (ex_unlinked false) ex_new); [|discriminate| |exact (le_n 3)].
  - apply (bool_decide_unpack _). vm_compute. done.
  - apply Forall_forall. apply (bool_decide_unpack _). vm_compute. done.
Defined.

Lemma start_reads_unwritten_parent_witness :
  ∃ s, start 14 loaded = Fault UninitRead s ∧
    klog s = [Msg KERN_INFO "Start...!\n" []; Msg KERN_INFO "Data %d found \n" [AInt 200];
              data_msg 0] ∧
    holds s root_addr (built element) ∧ height (built element) = element.
Proof. exact (start_reads_unwritten_parent 14 (le_n 14)). Defined.
