(* ===== verification/RbSet.v ===== *)
(** * red_black_tree/code.c as a set

    [insert] and [search] together, called in any order with any values: the
    answers are those of a finite set of integers. *)
From stdpp Require Import base gmap strings list sorting.
From Stdlib Require Import ZArith Lia.
From S2P Require Import Prelude RbTree RbModel.

(** ** The contract *)

(** A call of the module: [insert] with a node that carries [v], or [search]. *)
Inductive request := RInsert (q : ptr) (v : Z) | RSearch (v : Z).

(** The result of [insert], or the value in the node that [search] returned. *)
Inductive answer := Inserted (r : Z) | Found (d : option Z).

#[global] Instance answer_eq_dec : EqDecision answer.
Proof. solve_decision. Defined.

(** What a set of integers answers. *)
Definition set_answer (c : request) (X : gset Z) : answer * gset Z :=
  match c with
  | RInsert _ v => if decide (v ∈ X) then (Inserted 1, X) else (Inserted 0, {[v]} ∪ X)
  | RSearch v => (Found (if decide (v ∈ X) then Some v else None), X)
  end.

Fixpoint set_answers (cs : list request) (X : gset Z) : list answer * gset Z :=
  match cs with
  | [] => ([], X)
  | c :: cs =>
      let '(a, X1) := set_answer c X in
      let '(l, X2) := set_answers cs X1 in (a :: l, X2)
  end.

(** What the module answers. *)
Definition ask (fuel : nat) (root : ptr) (c : request) : M Z st answer :=
  match c with
  | RInsert q _ => r ← call (insert fuel q root); mret (Inserted r)
  | RSearch v =>
      t ← call (search fuel root v);
      if is_null t then mret (Found None) else d ← ld_data t; mret (Found (Some d))
  end.

Fixpoint asks (fuel : nat) (root : ptr) (cs : list request) : M Z st (list answer) :=
  match cs with
  | [] => mret []
  | c :: cs => a ← ask fuel root c; l ← asks fuel root cs; mret (a :: l)
  end.

(** The nodes the calls bring. *)
Definition new_node (c : request) : list (ptr * Z) :=
  match c with RInsert q v => [(q, v)] | RSearch _ => [] end.
Definition new_nodes (cs : list request) : list (ptr * Z) := cs ≫= new_node.

(** ** The representation *)

(** The heap holds the ordered tree [t], whose keys are [X]. *)
Definition represents (s : st) (root : ptr) (t : bt) (X : gset Z) : Prop :=
  holds s root t ∧ bst t ∧ ∀ v, v ∈ keys t ↔ v ∈ X.

(** The nodes [l] are there, unlinked, and not in the tree. *)
Definition spare (s : st) (t : bt) (l : list (ptr * Z)) : Prop :=
  ∀ q v, (q, v) ∈ l → unlinked (trees (glob s)) q v ∧ q ∉ ptrs t.

Lemma represents_lookup s root t X v :
  represents s root t X → bst_lookup v t = None ↔ v ∉ X.
Proof. intros (_ & Hb & Hk). by rewrite bst_lookup_None, Hk. Qed.

(** [search] and a load of the value it found. *)
Lemma search_value s root t X v fuel :
  represents s root t X → (height t ≤ fuel)%nat →
  ask fuel root (RSearch v) s = Next (Found (if decide (v ∈ X) then Some v else None)) s.
Proof.
  intros Hr Hf. pose proof Hr as (Hh & Hb & Hk). pose proof (represents_lookup _ _ _ _ v Hr) as Hv.
  simpl. unfold call. rewrite (bind_next _ _ s (default Null (bst_lookup v t)) s)
    by (by rewrite (search_run v t)).
  destruct (bst_lookup v t) as [q|] eqn:E.
  - rewrite decide_True by (destruct (decide (v ∈ X)); [done|naive_solver]).
    destruct Hh as (n & _ & Ht & _). apply bst_lookup_elems in E; [|done].
    destruct (is_tree_elem _ _ _ q v Ht E) as [Hq [nd Hnd]]. simpl.
    rewrite (proj2 (is_null_false q) Hq). by erewrite bind_next by (by eapply ld_data_ok).
  - by rewrite decide_False by (by apply Hv).
Qed.

(** One call: its answer, and what it leaves. *)
Lemma ask_run fuel s root t X c :
  represents s root t X → spare s t (new_node c) → (height t ≤ fuel)%nat →
  ∃ s' t', ask fuel root c s = Next (set_answer c X).1 s' ∧
    represents s' root t' (set_answer c X).2 ∧ (height t' ≤ S (height t))%nat ∧
    ∀ p, p ∉ ptrs t → p ∉ (new_node c).*1 →
      (p ∉ ptrs t') ∧ trees (glob s') !! p = trees (glob s) !! p.
Proof.
  intros Hr Hs Hf. destruct c as [q v|v].
  2: { exists s, t. rewrite (search_value s root t X) by done. repeat split; [by apply Hr..|lia|done]. }
  pose proof Hr as (Hh & Hb & Hk). destruct (Hs q v) as [Hu Hq]; [by left|].
  pose proof (represents_lookup _ _ _ _ v Hr) as Hv.
  pose proof (insert_run fuel s root t q v Hh Hu Hq Hf) as Hm. simpl. unfold call.
  destruct (bst_lookup v t) as [p|] eqn:E.
  - rewrite decide_True by (destruct (decide (v ∈ X)); [done|naive_solver]).
    exists (add_log dup_msg s), t. rewrite (bind_next _ _ s 1 (add_log dup_msg s)) by (by rewrite Hm).
    repeat split; [by apply Hr..|lia|done].
  - rewrite decide_False by (by apply Hv). destruct Hm as (s' & Hrun & Hl & _ & Hout & _ & _).
    exists s', (bst_insert q v t). rewrite (bind_next _ _ s 0 s') by (by rewrite Hrun).
    split; [done|]. split; [split; [done|split]|].
    + by apply bst_insert_bst.
    + intros w. simpl. rewrite !elem_of_keys. setoid_rewrite (bst_insert_elems q v t); [|done].
      rewrite elem_of_union, elem_of_singleton, <- Hk, elem_of_keys. naive_solver.
    + split; [apply bst_insert_height|]. intros p Hp Hn.
      assert (Hp' : p ∉ ptrs (bst_insert q v t)).
      { intros [->|?]%bst_insert_ptrs_sub; [|done]. apply Hn. by left. }
      by split; [|apply Hout].
Qed.

(** C2: [insert] and [search] behave as a set of integers: called in any order,
    with new nodes of any values and enough loop iterations, the module returns
    0 from [insert] exactly when the value was not there yet and 1 otherwise,
    [search] returns a node with the value exactly when it is there, and the heap
    holds an ordered tree of the values of the set all the time. *)
Theorem calls_equivalent fuel root cs s t X :
  represents s root t X → spare s t (new_nodes cs) → NoDup (new_nodes cs).*1 →
  (height t + length cs ≤ fuel)%nat →
  ∃ s' t', asks fuel root cs s = Next (set_answers cs X).1 s' ∧
    represents s' root t' (set_answers cs X).2.
Proof.
  revert s t X. induction cs as [|c cs IH]; intros s t X Hr Hs Hnd Hf; [by exists s, t|].
  simpl in Hf. unfold new_nodes in Hs, Hnd. rewrite bind_cons in Hs, Hnd. fold (new_nodes cs) in Hs, Hnd.
  rewrite fmap_app in Hnd. apply NoDup_app in Hnd as (_ & Hdis & Hnd).
  destruct (ask_run fuel s root t X c) as (s1 & t1 & Hrun & Hr1 & Hh1 & Hout); [done| |lia|].
  { intros q v Hq. apply Hs, elem_of_app. by left. }
  destruct (IH s1 t1 _ Hr1) as (s2 & t2 & Hrun2 & Hr2); [|done|lia|].
  { intros q v Hq. destruct (Hs q v) as [Hu Hqt]; [apply elem_of_app; by right|].
    destruct (Hout q Hqt) as [? E].
    - intros Hin. apply (Hdis q Hin), list_elem_of_fmap. by exists (q, v).
    - split; [|done]. unfold unlinked in *. by rewrite E. }
  exists s2, t2. simpl. destruct (set_answer c X) as [a X1]. simpl in *.
  destruct (set_answers cs X1) as [l X2]. simpl in *.
  rewrite (bind_next _ _ _ _ _ Hrun), (bind_next _ _ _ _ _ Hrun2). by split.
Qed.

(** ** A concrete run *)

Definition some_calls : list request := [RSearch 75; RInsert (tree_at 2) 75; RSearch 75; RSearch 10].

Lemma calls_equivalent_witness :
  ∃ s' t', asks 10 root_addr some_calls (ex_st false) =
      Next [Found None; Inserted 0; Found (Some 75); Found None] s' ∧
    represents s' root_addr t' {[75; 50; 100]}.
Proof.
  refine (calls_equivalent 10 root_addr some_calls (ex_st false) ex_tree {[50; 100]} _ _ _ _).
  - split; [apply ex_holds|]. split; [apply ex_bst|]. intros v. simpl. set_solver.
  - intros q v Hq. apply list_elem_of_singleton in Hq. injection Hq as -> ->.
    split; [apply ex_unlinked|apply ex_new].
  - apply NoDup_singleton.
  - apply Nat.leb_le. reflexivity.
Defined.
