(* ===== verification/LinkList.v ===== *)
(** * link_list/code.c

    The module's one global list, the loop that prints it and the whole of
    [start], against any allocator and any list implementation that meet the
    laws of Kernel.v. *)
From stdpp Require Import base gmap strings list.
From Stdlib Require Import ZArith Lia.
From S2P Require Import Prelude Kernel KernelModel.

(** ** Data *)

(** [struct foo]; [None] is an indeterminate member. *)
Record foo := Foo { a : option Z }.

(** [offsetof(struct foo, list)] and [sizeof(struct foo)] (LP64). *)
Definition foo_list : Z := 8.
Definition sizeof_foo : Z := 24.

(** [struct list_head mylist] and the automatic [struct foo temp]. *)
Definition mylist : ptr := Ptr 1 0.
Definition temp : ptr := Ptr 2 0.

(** The automatic array [struct foo *fvar[5]]. *)
Record locals := Locals { fvar : list (option ptr) }.

Definition list_of (f : ptr) : ptr := member_of foo_list f.

Section module.
Context {A L : Type} `{Slab A, KList L}.
Abbreviation st := (sys (kstate A L unit) (objs foo locals)).

(** [fvar[i]]. *)
Definition get_fvar {R} (i : Z) : M R st ptr :=
  v ← gets (λ s, fvar (var s));
  match v !! Z.to_nat i with
  | Some o => liftO UninitRead o
  | None => fail OutOfBounds
  end.
Definition set_fvar {R} (i : Z) (p : ptr) : M R st unit :=
  modify (λ s, set_var (Locals (<[Z.to_nat i := Some p]> (fvar (var s)))) s).

(** [f->a]. *)
Definition ld_a {R} (f : ptr) : M R st Z := x ← get_obj f; liftO UninitRead (a x).

(** [void print_list()]. *)
Definition print_list (fuel : nat) : M unit st unit :=
  list_for_each_entry fuel foo_list mylist (λ f,
    v ← ld_a f;
    pr_info "Data = %d\n" [AInt v]);;
  pr_info "==============\n" [].

Definition enter_locals (s : st) : st :=
  set_var (Locals (replicate 5 None)) (set_heap (<[temp := Foo None]> (heap s)) s).
Definition leave_locals (s : st) : st :=
  set_var (Locals []) (set_heap (delete temp (heap s)) s).

(** The allocation loop of [start]. *)
Definition alloc_body (i : Z) : M Z st unit :=
  p ← kmalloc_obj sizeof_foo GFP_KERNEL (Foo None);
  set_fvar i p;;
  (if is_null p then pr_info "Kmalloc Failed %d\n" [AInt i];; return_ (-1) else mret tt);;
  f ← get_fvar i;
  upd_obj f (λ _, Foo (Some (i * 100))).

Definition add_fvar (i : Z) : M Z st unit :=
  f ← get_fvar i;
  on_node foo_list (list_of f) (list_add (list_of f) mylist).

(** [static int __init start(void)]. *)
Definition start (fuel : nat) : M Z st Z := scoped enter_locals leave_locals (
  modify (λ s, set_lists (INIT_LIST_HEAD mylist (lists s)) s);;
  for_from 0 5 alloc_body;;
  add_fvar 0;;
  add_fvar 1;;
  add_fvar 2;;
  add_fvar 3;;
  add_fvar 4;;
  call (print_list fuel);;
  upd_obj temp (λ _, Foo (Some 1400));;
  on_node foo_list (list_of temp) (list_add_tail (list_of temp) mylist);;
  call (print_list fuel);;
  on_node foo_list (list_of temp) (list_del (list_of temp));;
  f ← get_fvar 0;
  on_node foo_list (list_of f) (list_del (list_of f));;
  call (print_list fuel);;
  for_from 0 5 (λ i, f ← get_fvar i; kfree_obj f);;
  return_ 0).

(** [static void __exit stops(void)]: nothing. *)
Definition stops : M unit st unit := mret tt.
End module.

(** ** Theorems *)

Section proofs.
Context {A L : Type} `{Slab A, !SlabLaws A, KList L, !KListLaws L}.
Abbreviation st := (sys (kstate A L unit) (objs foo locals)).
Implicit Types (s : st).

Definition data_line (d : Z) : msg := Msg KERN_INFO "Data = %d\n" [AInt d].
Definition rule_line : msg := Msg KERN_INFO "==============\n" [].

(** The node [n] belongs to a live object with value [d]. *)
Definition holds_val s (n : ptr) (d : Z) : Prop :=
  container_of foo_list n ≠ Null ∧ heap s !! container_of foo_list n = Some (Foo (Some d)).

Lemma print_list_run fuel s ns ds :
  is_list (lists s) mylist ns → Forall2 (holds_val s) ns ds → (length ns ≤ fuel)%nat →
  wp (print_list fuel) s
    (safely (λ _ s', s' = add_logs ((data_line <$> ds) ++ [rule_line]) s)).
Proof.
  intros Hl Hv Hf. unfold print_list. apply wp_bind.
  apply (wp_for_each_read (λ xs s', s' = add_logs (data_line <$> take (length xs) ds) s)
    fuel foo_list mylist _ s ns); [done|done| | | |].
  - simpl. by rewrite add_logs_nil.
  - intros p Hp. apply list_elem_of_lookup in Hp as [i Hi].
    destruct (Forall2_lookup_l _ _ _ _ _ Hv Hi) as (d & _ & _ & ->). eauto.
  - intros xs p ys s1 Heq _ _ ->.
    destruct (Forall2_lookup_l _ _ _ (length xs) p Hv) as (d & Hd & Hp & Hh).
    { rewrite Heq. by apply list_lookup_middle. }
    apply wp_bind. unfold ld_a. apply wp_bind. eapply wp_get_obj; [done..|].
    apply wp_ret. simpl. split; [|done].
    rewrite add_logs_snoc, length_app, Nat.add_1_r, (take_S_r _ _ _ Hd).
    by rewrite fmap_app.
  - intros s1 _ _ ->. rewrite (Forall2_length _ _ _ Hv), firstn_all. simpl.
    wp_step. by rewrite add_logs_snoc.
Qed.

(** *** The run of [start]

    From [s0], the blocks [bs] are allocated and filled in, [mylist] links the
    nodes [ns], the lines [log] have been printed and [temp] is [tv]. *)
Record mid s0 (bs : list positive) (ns : list ptr) (log : list msg) (tv : foo) s : Prop := Mid {
  mid_nodup : NoDup bs;
  mid_blocks : ∀ b, b ∈ bs → (static_blocks < b)%positive ∧ b ∉ live (slab s0);
  mid_live : live (slab s) = list_to_set bs ∪ live (slab s0);
  mid_fvar : fvar (var s) = ((λ b, Some (Ptr b 0)) <$> bs) ++ replicate (5 - length bs) None;
  mid_objs : ∀ j b, bs !! j = Some b → heap s !! Ptr b 0 = Some (Foo (Some (Z.of_nat j * 100)));
  mid_only : ∀ p, is_Some (heap s !! p) → p = temp ∨ ∃ b, b ∈ bs ∧ p = Ptr b 0;
  mid_temp : heap s !! temp = Some tv;
  mid_lists : is_list (lists s) mylist ns;
  mid_log : klog s = klog s0 ++ log }.

(** An allocation has failed after [bs]; those blocks are still allocated. *)
Definition failed s0 (bs : list positive) s : Prop :=
  NoDup bs ∧ (∀ b, b ∈ bs → b ∉ live (slab s0)) ∧
  live (slab s) = list_to_set bs ∪ live (slab s0) ∧
  is_list (lists s) mylist [] ∧
  klog s = klog s0 ++ [Msg KERN_INFO "Kmalloc Failed %d\n" [AInt (Z.of_nat (length bs))]].

Lemma get_fvar_run {R} s bs i b :
  fvar (var s) = ((λ b, Some (Ptr b 0)) <$> bs) ++ replicate (5 - length bs) None →
  bs !! Z.to_nat i = Some b → get_fvar (R:=R) i s = Next (Ptr b 0) s.
Proof.
  intros Hf Hb. unfold get_fvar. erewrite bind_next by done. rewrite Hf.
  rewrite lookup_app_l by (rewrite length_fmap; eauto using lookup_lt_Some).
  by rewrite list_lookup_fmap, Hb.
Qed.

Lemma fvar_insert bs p :
  (length bs < 5)%nat →
  <[length bs := Some p]> (((λ b, Some (Ptr b 0)) <$> bs) ++ replicate (5 - length bs) None)
  = ((λ b, Some (Ptr b 0)) <$> bs) ++ Some p :: replicate (4 - length bs) None.
Proof.
  intros Hl. rewrite insert_app_r_alt by (by rewrite length_fmap).
  rewrite length_fmap, Nat.sub_diag. by replace (5 - length bs)%nat with (S (4 - length bs)) by lia.
Qed.

Lemma alloc_body_spec s0 bs s :
  mid s0 bs [] [] (Foo None) s → (length bs < 5)%nat →
  wp (alloc_body (Z.of_nat (length bs))) s
    (Post (λ _ s', ∃ b, mid s0 (bs ++ [b]) [] [] (Foo None) s')
          (λ r s', r = -1 ∧ failed s0 bs s') (λ _ _, False)).
Proof.
  intros [Hnd Hbl Hlive Hfv Hob Hon Htm Hls Hlog] Hlen. unfold alloc_body. apply wp_bind.
  apply wp_kmalloc_obj.
  - intros a' Ha. simpl. wp_steps. split; [done|]. unfold failed. simpl.
    simpl_st. rewrite Ha, Hlive, Hlog, <- app_assoc. repeat split; auto. intros b Hb. by apply Hbl.
  - intros b a' Hst Hfr Ha. simpl. wp_steps. apply wp_bind, wp_ret.
    assert (Hbn : b ∉ bs) by (intros ?; apply Hfr; rewrite Hlive; set_solver).
    unfold on_next. apply wp_bind. eapply wp_eq.
    { apply (get_fvar_run _ (bs ++ [b]) _ b).
      - simpl_st. simpl. rewrite Nat2Z.id, Hfv, fvar_insert by done.
        rewrite fmap_app, length_app, <- app_assoc. simpl.
        by replace (5 - (length bs + 1))%nat with (4 - length bs)%nat by lia.
      - rewrite Nat2Z.id. by apply list_lookup_middle. }
    simpl. eapply wp_upd_obj; [simpl_st; apply lookup_insert_eq|done|]. simpl. exists b.
    split; simpl_st.
    + apply NoDup_app. repeat split; [done|set_solver|apply NoDup_singleton].
    + intros b' [? | ->%list_elem_of_singleton]%elem_of_app; [by apply Hbl|]. set_solver.
    + rewrite Ha, Hlive, list_to_set_app_L. set_solver.
    + simpl. rewrite Nat2Z.id, Hfv, fvar_insert by done.
      rewrite fmap_app, length_app, <- app_assoc. simpl.
      by replace (5 - (length bs + 1))%nat with (4 - length bs)%nat by lia.
    + intros j b' Hj.
      apply lookup_snoc_Some in Hj as [[Hj Hj']|[-> <-]].
      * assert (b' ∈ bs) by (eapply list_elem_of_lookup_2; eauto).
        rewrite !lookup_insert_ne by (intros [= ->]; done). by apply Hob.
      * by rewrite lookup_insert_eq.
    + intros p. rewrite !lookup_insert. case_decide; [subst; set_solver|].
      intros [->|(b' & ? & ->)]%Hon; [by left|]. right. exists b'. set_solver.
    + assert (Ptr b 0 ≠ temp) by (intros [= ->]; by compute in Hst).
      by rewrite !lookup_insert_ne.
    + done.
    + done.
Qed.

Lemma alloc_loop s0 s (P : post Z st unit) :
  mid s0 [] [] [] (Foo None) s →
  (∀ bs s', length bs = 5%nat → mid s0 bs [] [] (Foo None) s' → on_next P tt s') →
  (∀ bs s', (length bs < 5)%nat → failed s0 bs s' → on_return P (-1) s') →
  wp (for_from 0 5 alloc_body) s P.
Proof.
  intros Hm HN HR.
  apply (wp_for (λ i s', ∃ bs, i = Z.of_nat (length bs) ∧ mid s0 bs [] [] (Foo None) s')).
  - by exists [].
  - intros i s1 Hi (bs & -> & Hs1). eapply wp_mono; [apply (alloc_body_spec s0 bs); [done|lia]| | |done].
    + intros u s' (b & Hb). exists (bs ++ [b]). rewrite length_app. simpl. split; [lia|done].
    + intros r s' [-> Hfl]. apply (HR bs); [lia|done].
  - intros s1 (bs & Hb & Hs1). apply (HN bs); [lia|done].
Qed.

Definition node (b : positive) : ptr := list_of (Ptr b 0).

Lemma node_obj b : container_of foo_list (node b) = Ptr b 0.
Proof. done. Qed.

Lemma node_mylist b : node b ≠ mylist.
Proof. done. Qed.

(** A change of the links only. *)
Lemma mid_relink s0 bs ns log tv s l ns' :
  mid s0 bs ns log tv s → is_list l mylist ns' → mid s0 bs ns' log tv (set_lists l s).
Proof. intros []. split; simpl_st; auto. Qed.

Lemma mid_print s0 bs ns log tv s ms :
  mid s0 bs ns log tv s → mid s0 bs ns (log ++ ms) tv (add_logs ms s).
Proof. intros []. split; simpl_st; auto. rewrite app_assoc. congruence. Qed.

Lemma add_fvar_spec s0 bs ns log tv s i b (P : post Z st unit) :
  mid s0 bs ns log tv s → bs !! Z.to_nat i = Some b → node b ∉ ns →
  (∀ s', mid s0 bs (node b :: ns) log tv s' → on_next P tt s') →
  wp (add_fvar i) s P.
Proof.
  intros Hm Hb Hn HP. unfold add_fvar. apply wp_bind. eapply wp_eq.
  { eapply get_fvar_run; [by eapply mid_fvar|done]. }
  simpl. apply wp_on_node.
  { exists (Foo (Some (Z.of_nat (Z.to_nat i) * 100))). by apply (mid_objs _ _ _ _ _ _ Hm). }
  apply HP. eapply mid_relink; [done|]. apply add_spec; [by eapply mid_lists|].
  by apply not_elem_of_cons.
Qed.

Lemma add_node_spec s0 bs bs' log tv s i b (P : post Z st unit) :
  mid s0 bs (node <$> bs') log tv s → bs !! Z.to_nat i = Some b → b ∉ bs' →
  (∀ s', mid s0 bs (node <$> b :: bs') log tv s' → on_next P tt s') →
  wp (add_fvar i) s P.
Proof.
  intros Hm Hb Hn HP. eapply add_fvar_spec; [done|done| |done].
  intros (b' & [= ->] & ?)%list_elem_of_fmap. done.
Qed.

Lemma print_list_spec s0 bs ns log tv s ds fuel (P : post Z st unit) :
  mid s0 bs ns log tv s → Forall2 (holds_val s) ns ds → (length ns ≤ fuel)%nat →
  (∀ s', mid s0 bs ns (log ++ (data_line <$> ds) ++ [rule_line]) tv s' → on_next P tt s') →
  wp (call (print_list fuel)) s P.
Proof.
  intros Hm Hv Hf HP. apply wp_call. eapply wp_safely_mono.
  { eapply print_list_run; [by eapply mid_lists|done..]. }
  intros [] s' ->. by apply HP, mid_print.
Qed.

Lemma holds_node s0 bs ns log tv s j b :
  mid s0 bs ns log tv s → bs !! j = Some b → holds_val s (node b) (Z.of_nat j * 100).
Proof. intros Hm Hj. split; [done|]. by apply (mid_objs _ _ _ _ _ _ Hm). Qed.

Lemma node_inj b b' : node b = node b' → b = b'.
Proof. by intros [= ->]. Qed.

Lemma node_temp b : (static_blocks < b)%positive → node b ≠ list_of temp.
Proof. by intros Hb [= ->]. Qed.

(** The last loop frees the five objects. *)
Definition freed s0 (bs : list positive) (i : nat) ns log s : Prop :=
  live (slab s) = list_to_set (drop i bs) ∪ live (slab s0) ∧
  fvar (var s) = ((λ b, Some (Ptr b 0)) <$> bs) ++ replicate (5 - length bs) None ∧
  (∀ p, is_Some (heap s !! p) → p = temp ∨ ∃ b, b ∈ drop i bs ∧ p = Ptr b 0) ∧
  is_list (lists s) mylist ns ∧ klog s = klog s0 ++ log.

Lemma free_loop s0 bs ns log tv s (P : post Z st unit) :
  mid s0 bs ns log tv s → length bs = 5%nat →
  (∀ s', freed s0 bs 5 ns log s' → on_next P tt s') →
  wp (for_from 0 5 (λ i, f ← get_fvar i; kfree_obj f)) s P.
Proof.
  intros [Hnd Hbl Hlive Hfv Hob Hon Htm Hls Hlog] Hlen HP.
  apply (wp_for (λ i s', freed s0 bs (Z.to_nat i) ns log s')).
  - done.
  - intros i s1 Hi (Hlv & Hf & Hob1 & Hls1 & Hlog1).
    destruct (lookup_lt_is_Some_2 bs (Z.to_nat i)) as [b Hb]; [lia|].
    apply wp_bind. eapply wp_eq; [by eapply get_fvar_run|]. simpl.
    pose proof (drop_S _ _ _ Hb) as Hd.
    assert (Hbd : b ∉ drop (S (Z.to_nat i)) bs).
    { rewrite <- (take_drop (Z.to_nat i) bs), Hd in Hnd.
      by apply NoDup_app in Hnd as (_ & _ & [? _]%NoDup_cons). }
    assert (Hb0 : b ∉ live (slab s0)) by (apply Hbl; by eapply list_elem_of_lookup_2).
    rewrite Hd in *. apply wp_kfree_obj; [rewrite Hlv; set_solver|]. simpl.
    replace (Z.to_nat (i + 1)) with (S (Z.to_nat i)) by lia.
    split; [|split; [|split; [|split]]]; simpl_st; auto.
    + rewrite kfree_live, Hlv. set_solver.
    + intros p. rewrite lookup_delete. case_decide as E; [by intros [? ?]|].
      intros [->|(b' & [->|Hb']%elem_of_cons & ->)]%Hob1; [by left|done|]. right. eauto.
  - intros s1. by apply HP.
Qed.

(** What the three calls of [print_list] print. *)
Definition start_log : list msg :=
  ((data_line <$> [400; 300; 200; 100; 0]) ++ [rule_line]) ++
  ((data_line <$> [400; 300; 200; 100; 0; 1400]) ++ [rule_line]) ++
  ((data_line <$> [400; 300; 200; 100]) ++ [rule_line]).

Lemma mid_set_temp s0 bs ns log tv s :
  mid s0 bs ns log tv s →
  mid s0 bs ns log (Foo (Some 1400)) (set_heap (<[temp := Foo (Some 1400)]> (heap s)) s).
Proof.
  intros [Hnd Hbl Hlive Hfv Hob Hon Htm Hls Hlog]. split; simpl_st; auto.
  - intros j b Hj. assert (Ptr b 0 ≠ temp).
    { intros [= ->]. by destruct (Hbl 2%positive) as [? _]; [by eapply list_elem_of_lookup_2|]. }
    rewrite lookup_insert_ne by done. auto.
  - intros p. rewrite lookup_insert. case_decide; [by left|auto].
  - apply lookup_insert_eq.
Qed.

Lemma temp_fresh s0 bs bs' log tv s :
  mid s0 bs (node <$> bs') log tv s → bs' ⊆ bs → list_of temp ∉ mylist :: (node <$> bs').
Proof.
  intros Hm Hs [?|(b & Hb & ?)%list_elem_of_fmap]%elem_of_cons; [done|].
  destruct (mid_blocks _ _ _ _ _ _ Hm b) as [? _]; [by apply Hs|]. by eapply node_temp.
Qed.

(** The values behind the nodes of five objects in the order of the list. *)
Lemma five_vals s0 b0 b1 b2 b3 b4 ns log tv s :
  mid s0 [b0; b1; b2; b3; b4] ns log tv s →
  Forall2 (holds_val s) (node <$> [b4; b3; b2; b1; b0]) [400; 300; 200; 100; 0].
Proof.
  intros Hm. repeat constructor; try done;
    first [apply (holds_node _ _ _ _ _ _ 0 _ Hm eq_refl)|apply (holds_node _ _ _ _ _ _ 1 _ Hm eq_refl)
      |apply (holds_node _ _ _ _ _ _ 2 _ Hm eq_refl)|apply (holds_node _ _ _ _ _ _ 3 _ Hm eq_refl)
      |apply (holds_node _ _ _ _ _ _ 4 _ Hm eq_refl)].
Qed.

Lemma temp_add_spec s0 bs bs' log v s (P : post Z st unit) :
  mid s0 bs (node <$> bs') log v s → bs' ⊆ bs →
  (∀ s', mid s0 bs ((node <$> bs') ++ [list_of temp]) log v s' → on_next P tt s') →
  wp (on_node foo_list (list_of temp) (list_add_tail (list_of temp) mylist)) s P.
Proof.
  intros Hm Hs HP. apply wp_on_node; [exists v; by eapply mid_temp|]. apply HP.
  eapply mid_relink; [done|]. apply add_tail_spec; [by eapply mid_lists|by eapply temp_fresh].
Qed.

Lemma del_node_spec s0 bs xs n ys log v s x (P : post Z st unit) :
  mid s0 bs (xs ++ n :: ys) log v s → heap s !! container_of foo_list n = Some x →
  (∀ s', mid s0 bs (xs ++ ys) log v s' → on_next P tt s') →
  wp (on_node foo_list n (list_del n)) s P.
Proof.
  intros Hm Hx HP. apply wp_on_node; [eauto|]. apply HP.
  eapply mid_relink; [done|]. apply del_spec. by eapply mid_lists.
Qed.

Ltac next_add :=
  apply wp_bind; eapply add_node_spec;
  [eassumption|reflexivity
  |rewrite ?not_elem_of_cons; repeat split; auto using not_elem_of_nil|];
  let s' := fresh "s" in let Hm := fresh "Hm" in intros s' Hm; simpl on_next.

(** From the end of the allocation loop to the freeing loop. *)
Lemma middle fuel s0 s b0 b1 b2 b3 b4 (P : post Z st Z) :
  (6 ≤ fuel)%nat → mid s0 [b0; b1; b2; b3; b4] (node <$> []) [] (Foo None) s →
  (∀ s', mid s0 [b0; b1; b2; b3; b4] (node <$> [b4; b3; b2; b1]) start_log (Foo (Some 1400)) s' →
     wp (for_from 0 5 (λ i, f ← get_fvar i; kfree_obj f);; return_ 0) s' P) →
  wp (add_fvar 0;; add_fvar 1;; add_fvar 2;; add_fvar 3;; add_fvar 4;;
      call (print_list fuel);;
      upd_obj temp (λ _, Foo (Some 1400));;
      on_node foo_list (list_of temp) (list_add_tail (list_of temp) mylist);;
      call (print_list fuel);;
      on_node foo_list (list_of temp) (list_del (list_of temp));;
      f ← get_fvar 0;
      on_node foo_list (list_of f) (list_del (list_of f));;
      call (print_list fuel);;
      for_from 0 5 (λ i, f ← get_fvar i; kfree_obj f);;
      return_ 0) s P.
Proof.
  intros Hf Hm HP. pose proof (mid_nodup _ _ _ _ _ _ Hm) as Hnd.
  repeat setoid_rewrite NoDup_cons in Hnd. repeat setoid_rewrite not_elem_of_cons in Hnd.
  destruct_and!. do 5 next_add. clear dependent s s1 s2 s3 s4.
  apply wp_bind. eapply print_list_spec; [done|by eapply five_vals|simpl; lia|].
  clear dependent s5. intros s Hm. unfold on_next at 1.
  apply wp_bind. eapply wp_upd_obj; [by eapply mid_temp|done|]. apply mid_set_temp in Hm.
  simpl on_next. revert Hm. generalize (set_heap (<[temp:=Foo (Some 1400)]> (heap s)) s).
  clear s. intros s Hm.
  apply wp_bind. eapply temp_add_spec; [done|set_solver|]. clear dependent s. intros s Hm.
  apply wp_bind. eapply print_list_spec; [done| |simpl; lia|].
  { apply Forall2_app; [by eapply five_vals|]. repeat constructor; [done|].
    by eapply mid_temp. }
  clear dependent s. intros s Hm.
  apply wp_bind. eapply (del_node_spec _ _ _ _ []); [done|exact (mid_temp _ _ _ _ _ _ Hm)|].
  rewrite app_nil_r. clear dependent s. intros s Hm.
  apply wp_bind. eapply wp_eq; [eapply (get_fvar_run _ _ 0 b0); [by eapply mid_fvar|done]|].
  apply wp_bind. eapply (del_node_spec _ _ (node <$> [b4; b3; b2; b1]) _ []);
    [done|by apply (mid_objs _ _ _ _ _ _ Hm 0)|].
  rewrite app_nil_r. clear dependent s. intros s Hm.
  apply wp_bind. eapply (print_list_spec _ _ _ _ _ _ [400; 300; 200; 100]); [done| |simpl; lia|].
  { apply (Forall2_app_inv _ _ [node b0] _ [0]); [done|]. exact (five_vals _ _ _ _ _ _ _ _ _ _ Hm). }
  clear dependent s. intros s Hm. apply HP. exact Hm.
Qed.

(** C6: what loading the module does, with any allocator and list that behave
    as documented: when every allocation succeeds [start] returns 0 after
    printing the list after the five insertions at the front, with 1400 at
    the tail and after the two removals, every block it allocated is free
    again, no object is left, and [mylist] still links the four freed nodes
    that were never removed.  When an allocation fails it returns -1, with the
    blocks of the earlier iterations still allocated. *)
Theorem start_spec fuel s :
  heap s = ∅ → (6 ≤ fuel)%nat →
  wp (start fuel) s (returns (λ r s',
    (r = 0 ∧ klog s' = klog s ++ start_log ∧ live (slab s') = live (slab s) ∧ heap s' = ∅ ∧
     ∃ bs, length bs = 4%nat ∧ is_list (lists s') mylist (node <$> bs) ∧
       ∀ b, b ∈ bs → b ∉ live (slab s')) ∨
    (r = -1 ∧ ∃ bs, (length bs < 5)%nat ∧ failed s bs s'))).
Proof.
  intros Hh Hf. unfold start. apply wp_scoped, wp_bind. unfold wp at 1. simpl sat.
  apply wp_bind. eapply (alloc_loop s).
  - unfold enter_locals. split; simpl_st; [constructor|set_solver|set_solver|done|done| |apply lookup_insert_eq| |].
    + intros p. rewrite lookup_insert, Hh. case_decide; [by left|]. rewrite lookup_empty.
      by intros [? ?].
    + apply init_spec.
    + by rewrite app_nil_r.
  - intros bs s' Hlen Hm. destruct bs as [|b0 [|b1 [|b2 [|b3 [|b4 [|]]]]]]; try done.
    simpl on_next. eapply middle; [done|done|]. clear s' Hm. intros s' Hm. apply wp_bind.
    eapply free_loop; [done|done|]. intros s1 (Hlv & _ & Hob & Hls & Hlog).
    unfold wp, return_, leave_locals. simpl. left.
    split; [done|]. split; [done|]. simpl_st. split; [rewrite Hlv; set_solver|]. split.
    + apply map_empty. intros p. rewrite lookup_delete. case_decide; [done|].
      destruct (heap s1 !! p) eqn:E; [|done]. destruct (Hob p) as [->|(b & Hb & _)]; [done|done|].
      by apply elem_of_nil in Hb.
    + exists [b4; b3; b2; b1]. split; [done|]. split; [done|]. intros b Hb. simpl_st.
      rewrite Hlv. destruct (mid_blocks _ _ _ _ _ _ Hm b) as [_ ?]; set_solver.
  - intros bs s' Hb Hfl. simpl. right. eauto.
Qed.
End proofs.

(** The module as it is loaded, with an allocator whose coming outcomes are [o]. *)
Definition loaded (o : list bool) : sys (kstate slab_model links unit) (objs foo locals) :=
  Sys (KState (SlabModel o ∅) ∅ tt) (Objs ∅ (Locals [])) [].

Lemma start_spec_witness :
  wp (start 6) (loaded []) (returns (λ r s',
    (r = 0 ∧ klog s' = start_log ∧ live (slab s') = ∅ ∧ heap s' = ∅ ∧
     ∃ bs, length bs = 4%nat ∧ is_list (lists s') mylist (node <$> bs) ∧
       ∀ b, b ∈ bs → b ∉ live (slab s')) ∨
    (r = -1 ∧ ∃ bs, (length bs < 5)%nat ∧ failed (loaded []) bs s'))).
Proof. exact (start_spec 6 (loaded []) eq_refl (le_n 6)). Defined.

(** Two concrete runs: all allocations succeed, the third fails. *)
Example start_runs :
  returned (start 6 (loaded [])) = Some (0, start_log) ∧
  returned (start 6 (loaded [true; true; false])) =
    Some (-1, [Msg KERN_INFO "Kmalloc Failed %d\n" [AInt 2]]).
Proof. split; vm_compute; reflexivity. Qed.
