(* ===== verification/WqDedicated.v ===== *)
(** * work_queue_dedicated/code.c

    The interrupt handler, the deferred work that builds and flushes the list,
    module load and unload, and the interleaving of interrupts, work and load as
    a step relation. *)
From stdpp Require Import base gmap strings list.
From Stdlib Require Import ZArith Lia.
From S2P Require Import Prelude Kernel KernelModel.

(** ** Interrupt line, work queue and spin lock

    What the module can observe of these services: whether its handler is
    installed, whether its work item has been initialised and is queued, and
    the locks the running context holds. *)
Record wq_view := WqView {
  v_irq : bool;
  v_ready : bool;
  v_pending : bool;
  v_held : gset ptr }.

Class WqApi (X : Type) := {
  view : X → wq_view;
  request_irq : Z → X → Z * X;
  free_irq : Z → X → X;
  synchronize_irq : Z → X → X;
  create_singlethread_workqueue : X → ptr * X;
  destroy_workqueue : ptr → X → X;
  INIT_WORK : X → X;
  queue_work : ptr → X → X;
  dequeue_work : X → X;                 (* the worker takes the queued item *)
  spin_lock_init : ptr → X → X;
  spin_lock : ptr → X → X;
  spin_unlock : ptr → X → X }.

Class WqLaws (X : Type) `{WqApi X} : Prop := {
  request_irq_view i x r x' : request_irq i x = (r, x') →
    view x' = (let v := view x in
      if decide (r = 0) then WqView true (v_ready v) (v_pending v) (v_held v) else v);
  free_irq_view i x : view (free_irq i x) =
    (let v := view x in WqView false (v_ready v) (v_pending v) (v_held v));
  synchronize_irq_view i x : view (synchronize_irq i x) = view x;
  create_view x p x' : create_singlethread_workqueue x = (p, x') → view x' = view x;
  destroy_view p x : view (destroy_workqueue p x) = view x;
  init_work_view x : view (INIT_WORK x) =
    (let v := view x in WqView (v_irq v) true false (v_held v));
  queue_work_view p x : view (queue_work p x) =
    (let v := view x in WqView (v_irq v) (v_ready v) true (v_held v));
  dequeue_work_view x : view (dequeue_work x) =
    (let v := view x in WqView (v_irq v) (v_ready v) false (v_held v));
  spin_lock_init_view p x : view (spin_lock_init p x) =
    (let v := view x in WqView (v_irq v) (v_ready v) (v_pending v) (v_held v ∖ {[p]}));
  spin_lock_view p x : view (spin_lock p x) =
    (let v := view x in WqView (v_irq v) (v_ready v) (v_pending v) ({[p]} ∪ v_held v));
  spin_unlock_view p x : view (spin_unlock p x) =
    (let v := view x in WqView (v_irq v) (v_ready v) (v_pending v) (v_held v ∖ {[p]})) }.

(** ** Data *)

(** [struct data]. *)
Record data := Data { value : option Z }.
Definition data_next : Z := 8.
Definition sizeof_data : Z := 24.

(** [LIST_HEAD(head)] and the automatic [spinlock_t sl]. *)
Definition head : ptr := Ptr 1 0.
Definition sl : ptr := Ptr 3 0.

Definition SIRQ : Z := 19.
Definition irq : Z := SIRQ.

(** [moving_val], [f[14]] and [wq]. *)
Record globals := Globals { moving_val : Z; f : list ptr; wq : ptr }.

Definition next_of (d : ptr) : ptr := member_of data_next d.

(** [-EIO] *)
Definition EIO : Z := 5.

Inductive irqreturn := IRQ_NONE | IRQ_HANDLED.

Section module.
Context {A L X : Type} `{Slab A, KList L, WqApi X}.
Abbreviation st := (sys (kstate A L X) (objs data globals)).

Definition on_x {R} (g : X → X) : M R st unit :=
  modify (λ s, set_extra (g (extra s)) s).

Definition get_f {R} (i : Z) : M R st ptr :=
  v ← gets (λ s, f (var s));
  if (0 <=? i) then liftO OutOfBounds (v !! Z.to_nat i) else fail OutOfBounds.
Definition set_f {R} (i : Z) (p : ptr) : M R st unit :=
  _ ← get_f i;
  modify (λ s, let v := var s in
    set_var (Globals (moving_val v) (<[Z.to_nat i := p]> (f v)) (wq v)) s).
Definition set_moving_val {R} (n : Z) : M R st unit :=
  modify (λ s, let v := var s in set_var (Globals n (f v) (wq v)) s).

(** [spin_lock] on a lock this context holds never returns. *)
Definition lock {R} (l : ptr) : M R st unit :=
  h ← gets (λ s, v_held (view (extra s)));
  guard_ (bool_decide (l ∉ h)) Deadlock;; on_x (spin_lock l).
Definition unlock {R} (l : ptr) : M R st unit :=
  h ← gets (λ s, v_held (view (extra s)));
  guard_ (bool_decide (l ∈ h)) UnlockNotHeld;; on_x (spin_unlock l).

(** [irqreturn_t my_interrupt(int irq, void *dev_id)]: queueing on a queue that
    does not exist, or an item that is not initialised, is an error. *)
Definition my_interrupt : M irqreturn st irqreturn :=
  w ← gets (λ s, wq (var s));
  guard_ (negb (is_null w)) NullDeref;;
  r ← gets (λ s, v_ready (view (extra s)));
  guard_ r UninitRead;;
  on_x (queue_work w);;
  return_ IRQ_NONE.

(** [void print_list(void)]. *)
Definition print_list (fuel : nat) : M unit st unit :=
  printk KERN_DEFAULT "***** Flush *****\n" [];;
  list_for_each_entry fuel data_next head (λ d,
    x ← get_obj d;
    v ← liftO UninitRead (value x);
    pr_info "link list = %d\n" [AInt v]).

(** [kmalloc(..., GFP_KERNEL)] may sleep; a kernel that checks it ([strict])
    stops here when a spin lock is held. *)
Definition might_sleep {R} (strict : bool) : M R st unit :=
  h ← gets (λ s, v_held (view (extra s)));
  guard_ (negb strict || bool_decide (h = ∅)) SleepInAtomic.

(** The branch of [work_handler] that adds a node. *)
Definition grow (strict : bool) : M unit st unit :=
  mv ← gets (λ s, moving_val (var s));
  might_sleep strict;;
  p ← kmalloc_obj sizeof_data GFP_KERNEL (Data None);
  set_f mv p;;
  q ← get_f mv;
  (if is_null q then pr_info "kmalloc failed %d\n" [AInt mv];; return_ tt
   else pr_info "kmalloc passed for  %d\n" [AInt mv]);;
  upd_obj q (λ _, Data (Some mv));;
  on_node data_next (next_of q) (list_add (next_of q) head);;
  set_moving_val (mv + 1).

(** The branch that prints and empties the list. *)
Definition flush (fuel : nat) : M unit st unit :=
  set_moving_val 0;;
  call (print_list fuel);;
  for_from 0 14 (λ i,
    pr_info "deleting for  %d\n" [AInt i];;
    q ← get_f i;
    on_node data_next (next_of q) (list_del (next_of q))).

(** [void work_handler(struct work_struct *work)]. *)
Definition work_handler (strict : bool) (fuel : nat) : M unit st unit :=
  on_x (spin_lock_init sl);;
  lock sl;;
  mv ← gets (λ s, moving_val (var s));
  (if mv <? 14 then grow strict else flush fuel);;
  unlock sl.

(** [static int __init start(void)], in the steps between which an interrupt
    can be taken. *)
Definition start_irq : M Z st unit :=
  pr_info "***** Hello world! ***** \n" [];;
  r ← (λ s, let '(r, x) := request_irq irq (extra s) in Next r (set_extra x s));
  if negb (r =? 0) then
    printk KERN_INFO "request_irq error %d\n" [AInt irq];; return_ (- EIO)
  else mret tt.
Definition start_wq : M Z st unit := λ s,
  let '(p, x) := create_singlethread_workqueue (extra s) in
  Next tt (set_var (Globals (moving_val (var s)) (f (var s)) p) (set_extra x s)).
Definition start_work : M Z st Z := on_x INIT_WORK;; return_ 0.
Definition start : M Z st Z := start_irq;; start_wq;; start_work.

(** [flush_workqueue(w)]: the queued item, if any, is executed before the
    return. *)
Definition flush_workqueue (strict : bool) (fuel : nat) (w : ptr) : M unit st unit :=
  guard_ (negb (is_null w)) NullDeref;;
  p ← gets (λ s, v_pending (view (extra s)));
  if (p : bool) then on_x dequeue_work;; call (work_handler strict fuel) else mret tt.

(** [static void __exit stops(void)]. *)
Definition stops (strict : bool) (fuel : nat) : M unit st unit :=
  on_x (synchronize_irq irq);;
  on_x (free_irq irq);;
  w ← gets (λ s, wq (var s));
  flush_workqueue strict fuel w;;
  w ← gets (λ s, wq (var s));
  on_x (destroy_workqueue w);;
  printk KERN_INFO "Cleaning up module.\n" [].
End module.

(** ** The invariant of the deferred work *)

Section proofs.
Context {A L X : Type} `{Slab A, !SlabLaws A, KList L, !KListLaws L, WqApi X, !WqLaws X}.
Abbreviation st := (sys (kstate A L X) (objs data globals)).
Implicit Types (s : st).

Definition mv s : nat := Z.to_nat (moving_val (var s)).
Definition built s : list ptr := take (mv s) (f (var s)).

(** The first [moving_val] entries of [f] are different live objects with
    their index as value, and [head] links exactly these, the youngest
    first. *)
Record wq_inv s : Prop := WqInv {
  wi_range : 0 ≤ moving_val (var s) ≤ 14;
  wi_len : length (f (var s)) = 14%nat;
  wi_objs : ∀ i p, built s !! i = Some p →
    p ≠ Null ∧ heap s !! p = Some (Data (Some (Z.of_nat i)));
  wi_nodup : NoDup (built s);
  wi_list : is_list (lists s) head (next_of <$> reverse (built s));
  wi_live : ∀ p, is_Some (heap s !! p) → ∃ b, p = Ptr b 0 ∧ b ∈ live (slab s) }.

Lemma wp_set_f i p s (P : post unit st unit) :
  0 ≤ i → (Z.to_nat i < length (f (var s)))%nat →
  on_next P tt (set_var (Globals (moving_val (var s)) (<[Z.to_nat i := p]> (f (var s)))
    (wq (var s))) s) → wp (set_f i p) s P.
Proof.
  intros Hi Hl HP. unfold wp, set_f. destruct (lookup_lt_is_Some_2 _ _ Hl) as [q Hq].
  rewrite (bind_next _ _ s q s); [done|]. unfold get_f. erewrite bind_next by done.
  rewrite (proj2 (Z.leb_le 0 i) Hi). by rewrite Hq.
Qed.

Lemma wp_get_f {R} i p s (P : post R st ptr) :
  0 ≤ i → f (var s) !! Z.to_nat i = Some p → on_next P p s → wp (get_f i) s P.
Proof.
  intros Hi Hq HP. unfold wp, get_f. erewrite bind_next by done.
  rewrite (proj2 (Z.leb_le 0 i) Hi). by rewrite Hq.
Qed.

(** *** Adding a node *)

Definition failed_line (n : Z) : msg := Msg KERN_INFO "kmalloc failed %d\n" [AInt n].
Definition passed_line (n : Z) : msg := Msg KERN_INFO "kmalloc passed for  %d\n" [AInt n].

Lemma built_set s i p g : (i = mv s) →
  built (set_var (Globals (moving_val (var s)) (<[i := p]> (f (var s))) g) s) = built s.
Proof.
  intros ->. unfold built, mv. simpl_st. simpl. by rewrite take_insert_ge.
Qed.

(** The state after the kmalloc of [grow] failed. *)
Lemma grow_failed s a :
  wq_inv s → moving_val (var s) < 14 → live a = live (slab s) →
  wq_inv (set_var (Globals (moving_val (var s)) (<[mv s := Null]> (f (var s))) (wq (var s)))
    (set_slab a s)).
Proof.
  intros [Hr Hlen Hob Hnd Hls Hlv] Hmv Ha.
  assert (Hb : built (set_var (Globals (moving_val (var s)) (<[mv s := Null]> (f (var s)))
    (wq (var s))) (set_slab a s)) = built s) by apply (built_set s (mv s)), eq_refl.
  split; rewrite ?Hb; simpl_st; simpl; auto.
  - by rewrite length_insert.
  - by rewrite Ha.
Qed.

(** The state after a node was added. *)
Lemma grow_added s a b l :
  wq_inv s → moving_val (var s) < 14 →
  b ∉ live (slab s) → live a = {[b]} ∪ live (slab s) →
  is_list l head (next_of (Ptr b 0) :: (next_of <$> reverse (built s))) →
  let s' := set_var (Globals (moving_val (var s) + 1) (<[mv s := Ptr b 0]> (f (var s))) (wq (var s)))
    (set_lists l (set_heap (<[Ptr b 0 := Data (Some (moving_val (var s)))]> (heap s)) (set_slab a s))) in
  wq_inv s' ∧ built s' = built s ++ [Ptr b 0].
Proof.
  intros [Hr Hlen Hob Hnd Hls Hlv] Hmv Hb Ha Hl s'.
  assert (Hbs : built s' = built s ++ [Ptr b 0]).
  { unfold s', built, mv. simpl_st. simpl.
    replace (Z.to_nat (moving_val (var s) + 1)) with (S (mv s)) by (unfold mv; lia).
    erewrite take_S_r; [f_equal; by apply take_insert_ge|].
    apply list_lookup_insert_eq. unfold mv. lia. }
  assert (Hlen' : length (built s) = mv s) by (unfold built; rewrite length_take; unfold mv; lia).
  assert (Hnew : heap s !! Ptr b 0 = None).
  { destruct (heap s !! Ptr b 0) eqn:E; [|done]. destruct (Hlv (Ptr b 0)) as (b' & [= <-] & ?); [eauto|done]. }
  assert (Hfresh : Ptr b 0 ∉ built s).
  { intros [i Hi]%list_elem_of_lookup. destruct (Hob i _ Hi) as [_ Hx]. congruence. }
  split; [|done]. split; rewrite ?Hbs; unfold s'; simpl_st; simpl.
  - lia.
  - by rewrite length_insert.
  - intros i p Hi. apply lookup_snoc_Some in Hi as [[Hi Hp]|[-> <-]].
    + destruct (Hob i p Hp) as [? Hx]. split; [done|]. rewrite lookup_insert_ne; [done|].
      intros E. rewrite E in Hnew. congruence.
    + split; [done|]. rewrite lookup_insert_eq, Hlen'. do 3 f_equal. unfold mv. lia.
  - apply NoDup_app. split; [done|]. split; [set_solver|apply NoDup_singleton].
  - by rewrite reverse_snoc.
  - intros p. rewrite lookup_insert. case_decide as E; [intros _; exists b; rewrite Ha; set_solver|].
    intros Hp. destruct (Hlv p Hp) as (b' & -> & ?). exists b'. rewrite Ha. set_solver.
Qed.

(** The list the new node is put on. *)
Lemma list_add_built s b :
  wq_inv s → b ∉ live (slab s) →
  is_list (list_add (next_of (Ptr b 0)) head (lists s)) head
    (next_of (Ptr b 0) :: (next_of <$> reverse (built s))).
Proof.
  intros [Hr Hlen Hob Hnd Hls Hlv] Hb. apply add_spec; [done|].
  apply not_elem_of_cons. split; [done|].
  intros (p & Hp & Hin)%list_elem_of_fmap. apply (inj (member_of data_next)) in Hp as <-.
  rewrite elem_of_reverse in Hin. apply list_elem_of_lookup in Hin as [i Hi].
  destruct (Hob i _ Hi) as [_ Hx]. destruct (Hlv (Ptr b 0)) as (b' & [= <-] & ?); [eauto|done].
Qed.

Lemma wq_inv_ext s s' :
  wq_inv s → var s' = var s → heap s' = heap s → lists s' = lists s → slab s' = slab s → wq_inv s'.
Proof.
  intros [] Hv Hh Hl Ha.
  assert (Hb : built s' = built s) by (unfold built, mv; by rewrite Hv).
  split; rewrite ?Hb, ?Hv, ?Hh, ?Hl, ?Ha; auto.
Qed.

Lemma wq_inv_set_wq s q : wq_inv s → wq_inv (set_var (Globals (moving_val (var s)) (f (var s)) q) s).
Proof. intros []. by split. Qed.

(** The queue and the other services are untouched. *)
Definition keeps s s' : Prop := extra s' = extra s ∧ wq (var s') = wq (var s).

Lemma wp_might_sleep_off s (P : post unit st unit) : on_next P tt s → wp (might_sleep false) s P.
Proof. done. Qed.

Lemma grow_spec s (P : post unit st unit) :
  wq_inv s → moving_val (var s) < 14 →
  (∀ s', wq_inv s' → moving_val (var s') = moving_val (var s) + 1 → keeps s s' →
     klog s' = klog s ++ [passed_line (moving_val (var s))] →
     (∃ b, (b ∉ live (slab s)) ∧ live (slab s') = {[b]} ∪ live (slab s) ∧
       built s' = built s ++ [Ptr b 0]) → on_next P tt s') →
  (∀ s', wq_inv s' → moving_val (var s') = moving_val (var s) → keeps s s' →
     klog s' = klog s ++ [failed_line (moving_val (var s))] →
     live (slab s') = live (slab s) → built s' = built s → on_return P tt s') →
  wp (grow false) s P.
Proof.
  intros Hi Hmv HN HR. pose proof (wi_range _ Hi). pose proof (wi_len _ Hi) as Hlen.
  unfold grow. apply wp_bind. unfold wp at 1. simpl sat. apply wp_bind, wp_might_sleep_off.
  simpl on_next. apply wp_bind, wp_kmalloc_obj.
  - intros a Ha. simpl on_next. apply wp_bind, wp_set_f; simpl_st; [lia|lia|].
    simpl on_next. apply wp_bind, (wp_get_f _ Null); simpl_st; [lia| |].
    { simpl. apply list_lookup_insert_eq. lia. }
    simpl. wp_steps. apply HR; unfold keeps; simpl_st; auto.
    + pose proof (grow_failed s a Hi Hmv Ha) as Hf. destruct Hf. split; auto.
    + apply (built_set s (mv s)), eq_refl.
  - intros b a Hst Hb Ha. simpl on_next. apply wp_bind, wp_set_f; simpl_st; [lia|lia|].
    simpl on_next. apply wp_bind, (wp_get_f _ (Ptr b 0)); simpl_st; [lia| |].
    { simpl. apply list_lookup_insert_eq. lia. }
    simpl. wp_steps. simpl.
    eapply wp_upd_obj; [simpl_st; apply lookup_insert_eq|done|].
    simpl on_next. apply wp_bind, wp_on_node; [simpl_st; rewrite lookup_insert_eq; eauto|].
    pose proof (list_add_built s b Hi Hb) as Hl. revert Hl.
    set (l := list_add (next_of (Ptr b 0)) head (lists s)). intros Hl.
    pose proof (grow_added s a b l Hi Hmv Hb Ha Hl) as [Hinv Hbt].
    unfold set_moving_val. wp_steps. apply HN; unfold keeps; simpl_st; auto.
    + eapply wq_inv_ext; [exact Hinv|..]; simpl_st; try done. by rewrite insert_insert_eq.
    + exists b. split; [done|]. split; [done|]. exact Hbt.
Qed.

(** *** Flushing the list *)

Definition flush_line : msg := Msg KERN_DEFAULT "***** Flush *****\n" [].
Definition value_line (v : Z) : msg := Msg KERN_INFO "link list = %d\n" [AInt v].
Definition delete_line (i : Z) : msg := Msg KERN_INFO "deleting for  %d\n" [AInt i].

(** The object [ps !! i] has the value [i]. *)
Definition numbered s (ps : list ptr) : Prop :=
  ∀ i p, ps !! i = Some p → p ≠ Null ∧ heap s !! p = Some (Data (Some (Z.of_nat i))).

(** The values behind the nodes of the list, in its order. *)
Lemma numbered_vals s ps i n : numbered s ps → (next_of <$> reverse ps) !! i = Some n →
  (i < length ps)%nat ∧ container_of data_next n ≠ Null ∧
  heap s !! container_of data_next n = Some (Data (Some (Z.of_nat (length ps - S i)))).
Proof.
  intros Hi Hn. rewrite list_lookup_fmap in Hn. apply fmap_Some in Hn as (p & Hp & ->).
  pose proof (lookup_lt_Some _ _ _ Hp) as Hlt. rewrite length_reverse in Hlt.
  rewrite reverse_lookup in Hp by done. unfold next_of. rewrite container_member.
  split; [done|]. by apply Hi.
Qed.

Definition vals (n : nat) : list Z := reverse (Z.of_nat <$> seq 0 n).

Lemma vals_lookup n i : (i < n)%nat → vals n !! i = Some (Z.of_nat (n - S i)).
Proof.
  intros Hi. unfold vals. rewrite reverse_lookup by (by rewrite length_fmap, length_seq).
  rewrite length_fmap, length_seq, list_lookup_fmap, lookup_seq_lt by lia. done.
Qed.

Lemma wq_print_list_run fuel s ps :
  is_list (lists s) head (next_of <$> reverse ps) → numbered s ps → (length ps ≤ fuel)%nat →
  wp (print_list fuel) s
    (safely (λ _ s', s' = add_logs (flush_line :: (value_line <$> vals (length ps))) s)).
Proof.
  intros Hl Hi Hf. unfold print_list. apply wp_bind. wp_step.
  apply (wp_for_each_read (λ xs s', s' =
    add_logs (value_line <$> take (length xs) (vals (length ps))) (add_log flush_line s))
    fuel data_next head _ _ (next_of <$> reverse ps)); simpl_st.
  - done.
  - by rewrite length_fmap, length_reverse.
  - simpl. by rewrite add_logs_nil.
  - intros p [i Hp]%list_elem_of_lookup.
    destruct (numbered_vals s ps i p Hi Hp) as (_ & _ & ->). eauto.
  - intros xs p ys s1 Heq _ _ ->.
    destruct (numbered_vals s ps (length xs) p Hi) as (Hlt & Hp & Hh).
    { rewrite Heq. by apply list_lookup_middle. }
    apply wp_bind. eapply wp_get_obj; [done..|]. simpl. apply wp_bind, wp_ret. simpl. wp_step.
    split; [|done]. rewrite add_logs_snoc, length_app, Nat.add_1_r.
    by rewrite (take_S_r _ _ _ (vals_lookup _ _ Hlt)), fmap_app.
  - intros s1 _ _ ->. simpl. rewrite length_fmap, length_reverse, firstn_all2.
    + by rewrite add_logs_cons.
    + unfold vals. by rewrite length_reverse, length_fmap, length_seq.
Qed.

(** After [i] removals. *)
Definition unlinking s0 (i : Z) s : Prop :=
  is_list (lists s) head (next_of <$> reverse (drop (Z.to_nat i) (f (var s0)))) ∧
  var s = var s0 ∧ heap s = heap s0 ∧ slab s = slab s0 ∧ extra s = extra s0 ∧
  klog s = klog s0 ++ (delete_line ∘ Z.of_nat <$> seq 0 (Z.to_nat i)).

Lemma unlink_loop s (P : post unit st unit) :
  length (f (var s)) = 14%nat →
  is_list (lists s) head (next_of <$> reverse (f (var s))) →
  (∀ p, p ∈ f (var s) → is_Some (heap s !! p)) →
  (∀ s', unlinking s 14 s' → on_next P tt s') →
  wp (for_from 0 14 (λ i, pr_info "deleting for  %d\n" [AInt i];; q ← get_f i;
        on_node data_next (next_of q) (list_del (next_of q)))) s P.
Proof.
  intros Hlen Hls Hlv HP. apply (wp_for (unlinking s)); [| |by apply HP].
  - split; [done|]. repeat split. by rewrite app_nil_r.
  - intros i s1 Hi (Hl & Hv & Hh & Ha & Hx & Hlog). apply wp_bind. wp_step.
    destruct (lookup_lt_is_Some_2 (f (var s)) (Z.to_nat i)) as [p Hp]; [lia|].
    apply wp_bind, (wp_get_f _ p); simpl_st; [lia|by rewrite Hv|]. simpl on_next.
    apply wp_on_node.
    { simpl_st. unfold next_of. rewrite container_member, Hh. apply Hlv.
      by eapply list_elem_of_lookup_2. }
    simpl. unfold unlinking. replace (Z.to_nat (i + 1)) with (S (Z.to_nat i)) by lia.
    split; [|repeat split; simpl_st; auto].
    + simpl_st. rewrite (drop_S _ _ _ Hp), reverse_cons, fmap_app in Hl. simpl in Hl.
      apply del_spec in Hl. by rewrite app_nil_r in Hl.
    + rewrite Hlog, <- app_assoc. f_equal. rewrite seq_S, fmap_app. simpl.
      by rewrite Z2Nat.id by lia.
Qed.

(** What one flush prints. *)
Definition flush_log : list msg :=
  flush_line :: (value_line <$> vals 14) ++ (delete_line ∘ Z.of_nat <$> seq 0 14).

Lemma flush_spec fuel s (P : post unit st unit) :
  wq_inv s → moving_val (var s) = 14 → (14 ≤ fuel)%nat →
  (∀ s', wq_inv s' → moving_val (var s') = 0 → keeps s s' → heap s' = heap s →
     live (slab s') = live (slab s) → klog s' = klog s ++ flush_log →
     is_list (lists s') head [] → on_next P tt s') →
  wp (flush fuel) s P.
Proof.
  intros Hi Hmv Hf HP. pose proof (wi_len _ Hi) as Hlen.
  assert (Hb : built s = f (var s)) by (unfold built, mv; rewrite Hmv; by apply firstn_all2; lia).
  pose proof (wi_list _ Hi) as Hls. pose proof (wi_objs _ Hi) as Hob. rewrite Hb in Hls, Hob.
  unfold flush, set_moving_val. apply wp_bind. unfold wp at 1. simpl sat.
  apply wp_bind, wp_call. eapply wp_safely_mono.
  { by apply (wq_print_list_run fuel _ (f (var s))); simpl_st; [| |lia]. }
  intros [] s2 ->. simpl on_next. rewrite Hlen.
  apply unlink_loop; simpl_st; simpl; [done|done| |].
  - intros p [i Hp]%list_elem_of_lookup. destruct (Hob _ _ Hp) as [_ ->]. eauto.
  - intros s2 (Hl & Hv & Hh & Ha & Hx & Hlog). simpl_st in *. simpl in Hl.
    rewrite skipn_all2 in Hl by (rewrite Hlen; done). simpl in Hl.
    assert (Hbe : built s2 = []) by (unfold built, mv; by rewrite Hv).
    apply HP; rewrite ?Ha; auto.
    + split; rewrite ?Hbe, ?Hv, ?Hh, ?Ha; simpl;
        [lia|done|done|constructor|done|by apply wi_live].
    + by rewrite Hv.
    + split; [done|by rewrite Hv].
    + rewrite Hlog. unfold flush_log. by rewrite <- app_assoc.
Qed.

(** *** The handler *)

Lemma wp_lock_sl p s (P : post unit st unit) :
  p ∉ v_held (view (extra s)) → on_next P tt (set_extra (spin_lock p (extra s)) s) →
  wp (lock p) s P.
Proof.
  intros Hp HP. unfold wp, lock. erewrite bind_next by done.
  rewrite bool_decide_true by done. by erewrite bind_next by done.
Qed.

Lemma wp_unlock_sl p s (P : post unit st unit) :
  p ∈ v_held (view (extra s)) → on_next P tt (set_extra (spin_unlock p (extra s)) s) →
  wp (unlock p) s P.
Proof.
  intros Hp HP. unfold wp, unlock. erewrite bind_next by done.
  rewrite bool_decide_true by done. by erewrite bind_next by done.
Qed.

Definition held s : gset ptr := v_held (view (extra s)).

(** The three ways a run of [work_handler] can go. *)
Inductive handled s s' : Prop :=
  | Added b : moving_val (var s) < 14 → moving_val (var s') = moving_val (var s) + 1 →
      b ∉ live (slab s) → live (slab s') = {[b]} ∪ live (slab s) →
      built s' = built s ++ [Ptr b 0] →
      klog s' = klog s ++ [passed_line (moving_val (var s))] →
      held s' = held s ∖ {[sl]} → handled s s'
  | NoMemory : moving_val (var s) < 14 → moving_val (var s') = moving_val (var s) →
      live (slab s') = live (slab s) → built s' = built s →
      klog s' = klog s ++ [failed_line (moving_val (var s))] →
      held s' = {[sl]} ∪ held s → handled s s'
  | Flushed : moving_val (var s) = 14 → moving_val (var s') = 0 →
      live (slab s') = live (slab s) → heap s' = heap s → is_list (lists s') head [] →
      klog s' = klog s ++ flush_log →
      held s' = held s ∖ {[sl]} → handled s s'.

(** Interrupt line, queue and work item are as before. *)
Definition same_queue s s' : Prop :=
  wq (var s') = wq (var s) ∧
  view (extra s') = (let v := view (extra s) in
    WqView (v_irq v) (v_ready v) (v_pending v) (held s')).

Lemma work_handler_run fuel s :
  wq_inv s → (14 ≤ fuel)%nat →
  wp (work_handler false fuel) s (returns (λ _ s', wq_inv s' ∧ handled s s' ∧ same_queue s s')).
Proof.
  intros Hi Hf. unfold work_handler. apply wp_bind. unfold on_x. wp_step.
  apply wp_bind. apply wp_lock_sl; simpl_st; [rewrite spin_lock_init_view; set_solver|]. simpl.
  set (x := spin_lock sl _). apply wp_bind. unfold wp at 1. simpl sat.
  assert (Hx : v_held (view x) = {[sl]} ∪ held s).
  { unfold x. rewrite spin_lock_view, spin_lock_init_view. simpl.
    apply set_eq. intros p. destruct (decide (p = sl)); set_solver. }
  assert (Hsl : v_held (view (spin_unlock sl x)) = held s ∖ {[sl]}).
  { rewrite spin_unlock_view. simpl. rewrite Hx. set_solver. }
  assert (Hq : ∀ y, y = x ∨ y = spin_unlock sl x → view y = (let v := view (extra s) in
    WqView (v_irq v) (v_ready v) (v_pending v) (v_held (view y)))).
  { unfold x. intros y [-> | ->]; by rewrite ?spin_unlock_view, spin_lock_view, spin_lock_init_view. }
  clearbody x. set (s1 := set_extra x _).
  assert (Hi1 : wq_inv s1) by by apply (wq_inv_ext s).
  destruct (Z.ltb_spec (moving_val (var s)) 14) as [Hmv|Hmv]; apply wp_bind.
  - replace (moving_val (var s1) <? 14) with true by (symmetry; by apply Z.ltb_lt).
    apply grow_spec; [done|done| |].
    + intros s' Hi' Hm' [Hx' Hw] Hlog (b & Hb & Hl & Hbt). simpl on_next.
      apply wp_unlock_sl; rewrite Hx'; unfold s1; simpl_st; [rewrite Hx; set_solver|].
      simpl. split; [by apply (wq_inv_ext s')|]. split; [by eapply (Added _ _ b)|].
      split; [done|]. simpl_st. apply Hq. by right.
    + intros s' Hi' Hm' [Hx' Hw] Hlog Hl Hbt. simpl. split; [done|]. split.
      * apply NoMemory; auto. unfold held. by rewrite Hx'.
      * split; [done|]. unfold held. rewrite Hx'. apply Hq. by left.
  - pose proof (wi_range _ Hi). assert (Hmv' : moving_val (var s1) = 14) by (unfold s1; simpl_st; lia).
    rewrite Hmv'. simpl. apply flush_spec; [done|done|done|].
    intros s' Hi' Hm' [Hx' Hw] Hh Hl Hlog Hls. simpl on_next.
    apply wp_unlock_sl; rewrite Hx'; unfold s1; simpl_st; [rewrite Hx; set_solver|].
    simpl. split; [by apply (wq_inv_ext s')|]. split; [by apply Flushed|].
    split; [done|]. simpl_st. apply Hq. by right.
Qed.

(** C7: every branch of [work_handler], from any state of the invariant and
    with any outcome of the allocation: it ends without a fault in a state of
    the invariant, having either added one node of value [moving_val] at the
    front of the list, or printed the failure and changed nothing but left the
    lock held, or, at 14, printed the values 13 down to 0 and emptied the list
    without releasing a block. *)
Theorem work_handler_correct fuel s :
  wq_inv s → (14 ≤ fuel)%nat →
  wp (work_handler false fuel) s (returns (λ _ s', wq_inv s' ∧ handled s s')).
Proof.
  intros Hi Hf. eapply wp_mono; [by apply work_handler_run|..|done]; simpl; tauto.
Qed.

(** C17: [work_handler] asks for memory with [GFP_KERNEL], which may sleep, while
    it holds its spin lock: on a kernel that checks this, every run of the work
    that would add a node stops there, with the lock held and before anything is
    allocated or printed; the other runs are not affected by the check. *)
Theorem handler_sleeps_locked fuel s :
  if decide (moving_val (var s) < 14) then
    ∃ s', work_handler true fuel s = Fault SleepInAtomic s' ∧ sl ∈ held s' ∧
      slab s' = slab s ∧ klog s' = klog s ∧ var s' = var s
  else work_handler true fuel s = work_handler false fuel s.
Proof.
  unfold work_handler. case_decide as Hm.
  - set (x := spin_lock_init sl (extra s)).
    assert (Hx : sl ∉ v_held (view x)) by (unfold x; rewrite spin_lock_init_view; set_solver).
    rewrite (bind_next _ _ s tt (set_extra x s)) by done.
    rewrite (bind_next _ _ _ tt (set_extra (spin_lock sl x) s)).
    2: { unfold lock. erewrite bind_next by done. simpl_st. by rewrite bool_decide_true by done. }
    assert (Hh : sl ∈ v_held (view (spin_lock sl x))) by (rewrite spin_lock_view; set_solver).
    exists (set_extra (spin_lock sl x) s). erewrite bind_next by done. simpl_st.
    rewrite (proj2 (Z.ltb_lt _ _) Hm). split; [|split; [exact Hh|done]].
    eapply bind_fault. unfold grow. erewrite bind_next by done. eapply bind_fault.
    unfold might_sleep. erewrite bind_next by done. simpl_st. rewrite bool_decide_false by set_solver. done.
  - unfold on_x, modify, lock, mbind, M_bind, gets, guard_. simpl.
    case_bool_decide; [|done]. simpl. simpl_st. by rewrite (proj2 (Z.ltb_ge _ _)) by lia.
Qed.

(** ** Interrupts and deferred work interleaved *)

(** One step of the loaded module: an interrupt on the line, or the worker
    thread taking the queued item and running it. *)
Inductive step (fuel : nat) : st → st → Prop :=
  | IrqStep s s' : v_irq (view (extra s)) = true →
      my_interrupt s = Return IRQ_NONE s' → step fuel s s'
  | WorkStep s s' : v_pending (view (extra s)) = true →
      (on_x (R:=unit) dequeue_work;; call (work_handler false fuel)) s = Next tt s' → step fuel s s'.

(** The module after a successful [start]. *)
Record running s : Prop := Running {
  run_inv : wq_inv s;
  run_wq : wq (var s) ≠ Null;
  run_ready : v_ready (view (extra s)) = true }.

Lemma my_interrupt_run s :
  running s → my_interrupt s = Return IRQ_NONE (set_extra (queue_work (wq (var s)) (extra s)) s).
Proof.
  intros [Hi Hw Hr]. unfold my_interrupt. erewrite bind_next by done.
  rewrite (proj2 (is_null_false _) Hw). simpl. erewrite bind_next by done.
  erewrite bind_next by done. rewrite Hr. by erewrite bind_next by done.
Qed.

Lemma queue_work_running s : running s → running (set_extra (queue_work (wq (var s)) (extra s)) s).
Proof.
  intros [Hi Hw Hr]. split; [by apply (wq_inv_ext s)|done|].
  simpl_st. by rewrite queue_work_view.
Qed.

Lemma work_run fuel s :
  running s → (14 ≤ fuel)%nat →
  ∃ s', (on_x (R:=unit) dequeue_work;; call (work_handler false fuel)) s = Next tt s' ∧ running s' ∧
    handled s s' ∧ v_pending (view (extra s')) = false ∧
    v_irq (view (extra s')) = v_irq (view (extra s)).
Proof.
  intros [Hi Hw Hr] Hf. set (s1 := set_extra (dequeue_work (extra s)) s).
  assert (Hi1 : wq_inv s1) by by apply (wq_inv_ext s).
  pose proof (work_handler_run fuel s1 Hi1 Hf) as Hrun. unfold wp in Hrun.
  rewrite (bind_next _ _ s tt s1) by done. unfold call.
  assert (Hv : view (extra s1) = let v := view (extra s) in
    WqView (v_irq v) (v_ready v) false (v_held v)) by (unfold s1; simpl_st; apply dequeue_work_view).
  assert (Hhan : ∀ s', handled s1 s' → handled s s').
  { assert (He : held s1 = held s) by (unfold held; by rewrite Hv).
    intros s' []; rewrite He in *; [eapply Added|eapply NoMemory|eapply Flushed]; eauto. }
  destruct (work_handler false fuel s1) as [[] s'|[] s'|? ?]; simpl in Hrun; [..|done];
    destruct Hrun as (Hi' & Hh & Hw' & Hq); exists s'; (split; [done|]); rewrite Hv in Hq; simpl in Hq;
    (split; [split; [done|by rewrite Hw'|by rewrite Hq]|]); rewrite Hq; auto.
Qed.

(** A loaded module is safe under every interleaving: from any running
    state, whatever interrupts and executions of the queued work follow, the
    invariant of the list holds, and neither the next interrupt nor the next
    execution of the work can fault. *)
Theorem interleaving_safe fuel s0 s :
  running s0 → (14 ≤ fuel)%nat → rtc (step fuel) s0 s →
  wq_inv s ∧
  (∃ s', my_interrupt s = Return IRQ_NONE s') ∧
  (∃ s', (on_x (R:=unit) dequeue_work;; call (work_handler false fuel)) s = Next tt s').
Proof.
  intros Hr Hf Hst. assert (Hrun : running s).
  { induction Hst as [|s1 s2 s3 Hs _ IH]; [done|]. apply IH. destruct Hs as [s1 s2 _ Hs|s1 s2 _ Hs].
    - rewrite my_interrupt_run in Hs by done. injection Hs as <-. by apply queue_work_running.
    - destruct (work_run fuel s1 Hr Hf) as (s' & Hs' & ? & _). congruence. }
  split; [by apply run_inv|]. split; [eexists; by apply my_interrupt_run|].
  destruct (work_run fuel s Hrun Hf) as (s' & ? & _). eauto.
Qed.

(** C18: [start] installs the interrupt handler before the queue exists: when
    the request of the line succeeds, an interrupt taken at once dereferences
    the null queue; when it fails, [start] returns -EIO and nothing has been
    installed. *)
Theorem start_irq_race s :
  wq (var s) = Null →
  wp start_irq s (Post
    (λ _ s', v_irq (view (extra s')) = true ∧ my_interrupt s' = Fault NullDeref s')
    (λ r s', r = - EIO ∧ view (extra s') = view (extra s) ∧
       klog s' = klog s ++ [Msg KERN_INFO "***** Hello world! ***** \n" [];
                            Msg KERN_INFO "request_irq error %d\n" [AInt 19]])
    (λ _ _, False)).
Proof.
  intros Hw. unfold start_irq. apply wp_bind. wp_step. apply wp_bind. unfold wp at 1.
  simpl_st. destruct (request_irq irq (extra s)) as [r x] eqn:E.
  pose proof (request_irq_view _ _ _ _ E) as Hv. simpl sat.
  destruct (Z.eqb_spec r 0) as [->|Hr]; simpl.
  - apply wp_ret. simpl. simpl_st. rewrite Hv, decide_True by done. split; [done|].
    unfold my_interrupt. erewrite bind_next by done. simpl_st. by rewrite Hw.
  - wp_steps. split; [done|]. simpl_st. rewrite Hv, decide_False by done.
    split; [done|]. by rewrite <- app_assoc.
Qed.

(** Unloading: from a running state [stops] ends without a fault with the
    interrupt line released and no work queued, but the blocks that were
    allocated are still allocated. *)
Theorem stops_leaks fuel s :
  running s → (14 ≤ fuel)%nat →
  wp (stops false fuel) s (safely (λ _ s',
    v_irq (view (extra s')) = false ∧ v_pending (view (extra s')) = false ∧
    wq_inv s' ∧ live (slab s) ⊆ live (slab s'))).
Proof.
  intros [Hi Hw Hr] Hf. unfold stops. do 2 (apply wp_bind; unfold on_x at 1; wp_step). simpl_st.
  set (x := free_irq irq _). set (s1 := set_extra x _).
  assert (Hv : view x = let v := view (extra s) in
    WqView false (v_ready v) (v_pending v) (v_held v)).
  { unfold x. by rewrite free_irq_view, synchronize_irq_view. }
  assert (Hr1 : running s1).
  { split; [by apply (wq_inv_ext s)|done|]. unfold s1. simpl_st. by rewrite Hv. }
  apply wp_bind. unfold wp at 1. simpl sat.
  apply wp_bind. eapply (wp_safely_mono _ _ (λ _ s2, running s2 ∧ v_irq (view (extra s2)) = false ∧
    v_pending (view (extra s2)) = false ∧ live (slab s) ⊆ live (slab s2))).
  - unfold flush_workqueue. apply wp_bind.
    rewrite (proj2 (is_null_false (wq (var s1))) Hw). apply wp_ret. simpl on_next.
    apply wp_bind. unfold wp at 1. simpl sat.
    destruct (v_pending (view (extra s1))) eqn:Ep.
    + destruct (work_run fuel s1 Hr1 Hf) as (s2 & Hs2 & Hr2 & Hh & Hp & Hq).
      eapply wp_eq; [exact Hs2|]. simpl. split; [done|]. rewrite Hq. unfold s1. simpl_st.
      rewrite Hv. split; [done|]. split; [done|].
      destruct Hh as [b _ _ _ Hl|_ _ Hl|_ _ Hl]; rewrite Hl; set_solver.
    + apply wp_ret. simpl. split; [done|]. split; [|split; [done|done]].
      unfold s1. simpl_st. by rewrite Hv.
  - intros [] s2 (Hr2 & Hirq & Hp & Hl). simpl. apply wp_bind. unfold wp at 1. simpl sat.
    apply wp_bind. unfold on_x. wp_step. wp_step. simpl_st. rewrite destroy_view.
    split; [done|]. split; [done|]. split; [|done]. apply (wq_inv_ext s2); auto. by apply run_inv.
Qed.

(** C19: what [start] establishes from the state the module is loaded in: it
    returns -EIO with the services as they were, or 0 with the handler
    installed; the result of the queue creation is not looked at, so with 0
    the module is running as the interleaving theorem asks or there is no
    queue, and then the first interrupt and [stops] both fault. *)
Theorem start_establishes s :
  wq_inv s → wq (var s) = Null →
  wp start s (returns (λ r s',
    (r = - EIO ∧ view (extra s') = view (extra s) ∧ wq (var s') = Null) ∨
    (r = 0 ∧ v_irq (view (extra s')) = true ∧ wq_inv s' ∧
     (running s' ∨
      wq (var s') = Null ∧ my_interrupt s' = Fault NullDeref s' ∧
      ∀ fuel, ∃ s'', stops false fuel s' = Fault NullDeref s'')))).
Proof.
  intros Hi Hw. unfold start, start_irq. apply wp_bind, wp_bind. wp_step. apply wp_bind.
  unfold wp at 1. simpl_st. destruct (request_irq irq (extra s)) as [r x] eqn:E.
  pose proof (request_irq_view _ _ _ _ E) as Hv. simpl sat.
  destruct (Z.eqb_spec r 0) as [->|Hr]; simpl.
  - apply wp_ret. simpl. apply wp_bind. unfold start_wq, wp at 1. simpl_st.
    destruct (create_singlethread_workqueue x) as [p x'] eqn:E'.
    pose proof (create_view _ _ _ E') as Hv'. simpl sat. unfold start_work, on_x. wp_steps.
    right. simpl_st. rewrite init_work_view, Hv', Hv, decide_True by done. split; [done|].
    split; [done|]. set (s' := set_extra _ _).
    assert (wq_inv s') by by eapply wq_inv_ext; [apply (wq_inv_set_wq s p)|..].
    split; [done|]. destruct p as [|b o].
    + right. split; [done|]. split; [done|]. intros fuel. by eexists.
    + left. split; [done|done|]. unfold s'. simpl_st. by rewrite init_work_view.
  - wp_steps. left. simpl_st. by rewrite Hv, decide_False by done.
Qed.
End proofs.

(** ** Concrete services *)

(** The outcome of the request of the line and of the queue creation. *)
Record wq_model := WqModel { w_request : Z; w_queue : ptr; w_view : wq_view }.

Definition on_view (g : wq_view → wq_view) (x : wq_model) : wq_model :=
  WqModel (w_request x) (w_queue x) (g (w_view x)).

#[global] Instance wq_model_ops : WqApi wq_model := {
  view := w_view;
  request_irq _ x := (w_request x, on_view (λ v,
    if decide (w_request x = 0) then WqView true (v_ready v) (v_pending v) (v_held v) else v) x);
  free_irq _ := on_view (λ v, WqView false (v_ready v) (v_pending v) (v_held v));
  synchronize_irq _ x := x;
  create_singlethread_workqueue x := (w_queue x, x);
  destroy_workqueue _ x := x;
  INIT_WORK := on_view (λ v, WqView (v_irq v) true false (v_held v));
  queue_work _ := on_view (λ v, WqView (v_irq v) (v_ready v) true (v_held v));
  dequeue_work := on_view (λ v, WqView (v_irq v) (v_ready v) false (v_held v));
  spin_lock_init p := on_view (λ v, WqView (v_irq v) (v_ready v) (v_pending v) (v_held v ∖ {[p]}));
  spin_lock p := on_view (λ v, WqView (v_irq v) (v_ready v) (v_pending v) ({[p]} ∪ v_held v));
  spin_unlock p := on_view (λ v, WqView (v_irq v) (v_ready v) (v_pending v) (v_held v ∖ {[p]})) }.

#[global] Instance wq_model_laws : WqLaws wq_model.
Proof. split; try done; intros; by simplify_eq/=. Qed.

Abbreviation model_st := (sys (kstate slab_model links wq_model) (objs data globals)).

(** The module as it is loaded ([head] is statically initialised to the empty
    list), and after a successful [start]. *)
Definition loaded (r : Z) (q : ptr) : model_st :=
  Sys (KState (SlabModel [] ∅) {[ head := (head, head) ]} (WqModel r q (WqView false false false ∅)))
    (Objs ∅ (Globals 0 (replicate 14 Null) Null)) [].
Definition started : model_st :=
  match start (loaded 0 (Ptr 200 0)) with Return _ s => s | _ => loaded 0 Null end.

Lemma loaded_inv r q : wq_inv (loaded r q).
Proof.
  split; simpl; [lia|done|done|constructor| |].
  - repeat split; apply NoDup_singleton.
  - intros p [? ?]. done.
Qed.

Lemma started_running : running started.
Proof.
  split; [|done|done].
  by apply (wq_inv_ext _ _ (wq_inv_set_wq _ (Ptr 200 0) (loaded_inv 0 (Ptr 200 0)))).
Qed.

Lemma work_handler_correct_witness :
  wp (work_handler false 14) started (returns (λ _ s', wq_inv s' ∧ handled started s')).
Proof. exact (work_handler_correct 14 started (run_inv _ started_running) (le_n 14)). Defined.

Lemma handler_sleeps_locked_witness :
  ∃ s', work_handler true 14 started = Fault SleepInAtomic s' ∧ sl ∈ held s' ∧
    slab s' = slab started ∧ klog s' = klog started ∧ var s' = var started.
Proof. exact (handler_sleeps_locked 14 started). Defined.

(** An interrupt, then the work it queued. *)
Definition after_irq : model_st := set_extra (queue_work (Ptr 200 0) (extra started)) started.

Lemma interleaving_safe_witness :
  wq_inv after_irq ∧ (∃ s', my_interrupt after_irq = Return IRQ_NONE s') ∧
  (∃ s', (on_x (R:=unit) dequeue_work;; call (work_handler false 14)) after_irq = Next tt s').
Proof.
  refine (interleaving_safe 14 started after_irq started_running (le_n 14) _).
  apply rtc_once, IrqStep; [reflexivity|exact (my_interrupt_run _ started_running)].
Defined.

Lemma start_irq_race_witness :
  wp start_irq (loaded 0 Null) (Post
    (λ _ s', v_irq (view (extra s')) = true ∧ my_interrupt s' = Fault NullDeref s')
    (λ r s', r = - EIO ∧ view (extra s') = view (extra (loaded 0 Null)) ∧
       klog s' = klog (loaded 0 Null) ++ [Msg KERN_INFO "***** Hello world! ***** \n" [];
                            Msg KERN_INFO "request_irq error %d\n" [AInt 19]])
    (λ _ _, False)).
Proof. exact (start_irq_race (loaded 0 Null) eq_refl). Defined.

Lemma stops_leaks_witness :
  wp (stops false 14) after_irq (safely (λ _ s',
    v_irq (view (extra s')) = false ∧ v_pending (view (extra s')) = false ∧
    wq_inv s' ∧ live (slab after_irq) ⊆ live (slab s'))).
Proof. exact (stops_leaks 14 after_irq (queue_work_running _ started_running) (le_n 14)). Defined.

Lemma start_establishes_witness :
  wp start (loaded 0 Null) (returns (λ r s',
    (r = - EIO ∧ view (extra s') = view (extra (loaded 0 Null)) ∧ wq (var s') = Null) ∨
    (r = 0 ∧ v_irq (view (extra s')) = true ∧ wq_inv s' ∧
     (running s' ∨
      wq (var s') = Null ∧ my_interrupt s' = Fault NullDeref s' ∧
      ∀ fuel, ∃ s'', stops false fuel s' = Fault NullDeref s'')))).
Proof. exact (start_establishes (loaded 0 Null) (loaded_inv 0 Null) eq_refl). Defined.

(** Fifteen interrupts, each followed by its work: the fifteenth run flushes. *)
Definition irq_work (s : model_st) : model_st :=
  match my_interrupt s with
  | Return _ s1 =>
      match (on_x (R:=unit) dequeue_work;; call (work_handler false 14)) s1 with
      | Next _ s2 => s2 | _ => loaded 1 Null
      end
  | _ => loaded 1 Null
  end.
Example flush_after_fifteen :
  let s := Nat.iter 15 irq_work started in
  moving_val (var s) = 0 ∧ size (live (slab s)) = 14%nat ∧
  klog s = klog started ++ (passed_line ∘ Z.of_nat <$> seq 0 14) ++ flush_log.
Proof. vm_compute. auto. Qed.
