(* ===== verification/WqTrace.v ===== *)
(** * work_queue_dedicated/code.c: what the module does over its life

    An abstract machine that counts interrupts, nodes and flushes, and the proof
    that the module of WqDedicated.v refines it: every interleaving of interrupts
    and deferred work is a run of the machine, with the same log, and the memory
    the module owns is the number the machine computes. *)
From stdpp Require Import base gmap strings list relations.
From Stdlib Require Import ZArith Lia.
From S2P Require Import Prelude Kernel KernelModel WqDedicated.

(** ** The abstract machine *)

(** Nodes on the list, whether work is queued, flushes so far, what was
    printed. *)
Record spec := Spec { nodes : nat; queued : bool; flushes : nat; out : list msg }.

Inductive spec_step : spec → spec → Prop :=
  | SIrq a : spec_step a (Spec (nodes a) true (flushes a) (out a))
  | SAdd a : queued a = true → (nodes a < 14)%nat →
      spec_step a (Spec (S (nodes a)) false (flushes a) (out a ++ [passed_line (Z.of_nat (nodes a))]))
  | SFail a : queued a = true → (nodes a < 14)%nat →
      spec_step a (Spec (nodes a) false (flushes a) (out a ++ [failed_line (Z.of_nat (nodes a))]))
  | SFlush a : queued a = true → nodes a = 14%nat →
      spec_step a (Spec 0 false (S (flushes a)) (out a ++ flush_log)).

(** The blocks the machine has taken: those on the list and 14 for each flush,
    which releases none. *)
Definition taken (a : spec) : nat := (nodes a + 14 * flushes a)%nat.

Section proofs.
Context {A L X : Type} `{Slab A, !SlabLaws A, KList L, !KListLaws L, WqApi X, !WqLaws X}.
Abbreviation st := (sys (kstate A L X) (objs data globals)).
Implicit Types (s : st).

(** The state [s], reached from [s0], is that of the machine. *)
Record sim s0 s (a : spec) : Prop := Sim {
  sim_run : running s;
  sim_nodes : moving_val (var s) = Z.of_nat (nodes a);
  sim_queued : v_pending (view (extra s)) = queued a;
  sim_live : live (slab s0) ⊆ live (slab s) ∧
    size (live (slab s)) = (size (live (slab s0)) + taken a)%nat;
  sim_log : klog s = klog s0 ++ out a }.

Lemma sim_step fuel s0 s s' a :
  (14 ≤ fuel)%nat → sim s0 s a → step fuel s s' → ∃ a', spec_step a a' ∧ sim s0 s' a'.
Proof.
  intros Hf [Hr Hn Hq [Hsub Hsz] Hl] Hst. destruct Hst as [s s' _ Hs|s s' Hp Hs].
  - rewrite my_interrupt_run in Hs by done. injection Hs as <-. eexists. split; [apply SIrq|].
    split; simpl; [by apply queue_work_running|done| |done|done]. simpl_st. by rewrite queue_work_view.
  - destruct (work_run fuel s Hr Hf) as (s2 & Hs2 & Hr2 & Hh & Hp2 & _). rewrite Hs in Hs2.
    injection Hs2 as <-. rewrite Hq in Hp. unfold taken in Hsz.
    destruct Hh as [b Hlt Hm Hb Hlv _ Hk _|Hlt Hm Hlv _ Hk _|Hm Hm' Hlv _ _ Hk _];
      rewrite ?Hn in Hk; rewrite Hl, <- app_assoc in Hk; eexists.
    + split; [by apply SAdd; [|lia]|]. split; simpl; [done|lia|done| |exact Hk].
      rewrite Hlv. split; [set_solver|]. rewrite size_union, size_singleton by set_solver.
      unfold taken. simpl. lia.
    + split; [by apply SFail; [|lia]|]. split; simpl; [done|lia|done|by rewrite Hlv|exact Hk].
    + split; [by apply SFlush; [|lia]|]. split; simpl; [done|lia|done| |exact Hk].
      rewrite Hlv. unfold taken. simpl. split; [done|lia].
Qed.

(** C8: the module refines the abstract machine: whatever interrupts and runs of
    the queued work follow a successful [start], the machine has a run with the
    same number of nodes, the same log and the same queued work; the module owns
    one block for each node and 14 more for each flush, which are lost, so its
    memory grows with every flush.  The invariant of the list holds throughout,
    and neither the next interrupt nor the next run of the work faults. *)
Theorem module_refines fuel s0 s :
  running s0 → moving_val (var s0) = 0 → v_pending (view (extra s0)) = false → (14 ≤ fuel)%nat →
  rtc (step fuel) s0 s →
  ∃ a, rtc spec_step (Spec 0 false 0 []) a ∧ (nodes a ≤ 14)%nat ∧
    moving_val (var s) = Z.of_nat (nodes a) ∧ v_pending (view (extra s)) = queued a ∧
    klog s = klog s0 ++ out a ∧
    size (live (slab s)) = (size (live (slab s0)) + nodes a + 14 * flushes a)%nat ∧
    wq_inv s ∧ (∃ s', my_interrupt s = Return IRQ_NONE s') ∧
    (∃ s', (on_x (R:=unit) dequeue_work;; call (work_handler false fuel)) s = Next tt s').
Proof.
  intros Hr Hn Hq Hf Hst.
  assert (Hg : ∀ s1 a, rtc (step fuel) s1 s → sim s0 s1 a → ∃ a', rtc spec_step a a' ∧ sim s0 s a').
  { clear Hst. intros s1 a Hst. revert a. induction Hst as [|s1 s2 s3 Hs _ IH]; intros a Ha.
    - exists a. by split; [apply rtc_refl|].
    - destruct (sim_step fuel s0 s1 s2 a Hf Ha Hs) as (a1 & Hst1 & Ha1).
      destruct (IH a1 Ha1) as (a2 & Hst2 & Ha2). exists a2. by split; [eapply rtc_l|]. }
  destruct (Hg s0 (Spec 0 false 0 []) Hst) as (a & Ha & [Hr' Hn' Hq' [_ Hs'] Hl']).
  { split; simpl; [done|done|done| |by rewrite app_nil_r]. unfold taken. simpl. split; [done|lia]. }
  exists a. unfold taken in Hs'. pose proof (wi_range _ (run_inv _ Hr')).
  split; [done|]. split; [lia|]. do 3 (split; [done|]). split; [lia|].
  by apply (interleaving_safe fuel s0).
Qed.
End proofs.

Lemma module_refines_witness :
  ∃ a, rtc spec_step (Spec 0 false 0 []) a ∧ (nodes a ≤ 14)%nat ∧
    moving_val (var after_irq) = Z.of_nat (nodes a) ∧ v_pending (view (extra after_irq)) = queued a ∧
    klog after_irq = klog started ++ out a ∧
    size (live (slab after_irq)) = (size (live (slab started)) + nodes a + 14 * flushes a)%nat ∧
    wq_inv after_irq ∧ (∃ s', my_interrupt after_irq = Return IRQ_NONE s') ∧
    (∃ s', (on_x (R:=unit) dequeue_work;; call (work_handler false 14)) after_irq = Next tt s').
Proof.
  refine (module_refines 14 started after_irq started_running eq_refl eq_refl (le_n 14) _).
  apply rtc_once, IrqStep; [reflexivity|exact (my_interrupt_run _ started_running)].
Defined.
