(* ===== verification/Sync.v ===== *)
(** * Spin locks and RCU

    The interface of linux/spinlock.h and linux/rcupdate.h that the modules
    use: what a running context can observe of its own locks, of the state of
    the interrupts and the bottom halves on its processor and of its RCU read
    sections, and what the documented calls do to it (on a multiprocessor
    kernel, where a spin lock is really taken). *)
From stdpp Require Import base gmap strings list.
From Stdlib Require Import ZArith Lia.
From S2P Require Import Prelude Kernel.

(** ** Spin locks *)

(** The locks the context holds, whether interrupts are enabled on its
    processor, and how often bottom halves have been disabled. *)
Record ctx_view := Ctx { c_held : gset ptr; c_irqs : bool; c_bh : nat }.

Class SpinLock (K : Type) := {
  ctx : K → ctx_view;
  spin_lock_init : ptr → K → K;
  spin_lock : ptr → K → K;
  spin_unlock : ptr → K → K;
  spin_is_locked : ptr → K → Z;
  spin_trylock : ptr → K → Z * K;
  spin_lock_irqsave : ptr → K → bool * K;          (* the saved flags *)
  spin_unlock_irqrestore : ptr → bool → K → K;
  spin_lock_irq : ptr → K → K;
  spin_unlock_irq : ptr → K → K;
  spin_lock_bh : ptr → K → K;
  spin_unlock_bh : ptr → K → K }.

Definition take_lock (p : ptr) (c : ctx_view) : ctx_view :=
  Ctx ({[p]} ∪ c_held c) (c_irqs c) (c_bh c).
Definition drop_lock (p : ptr) (c : ctx_view) : ctx_view :=
  Ctx (c_held c ∖ {[p]}) (c_irqs c) (c_bh c).
Definition with_irqs (b : bool) (c : ctx_view) : ctx_view := Ctx (c_held c) b (c_bh c).
Definition with_bh (n : nat) (c : ctx_view) : ctx_view := Ctx (c_held c) (c_irqs c) n.

Class SpinLaws (K : Type) `{SpinLock K} : Prop := {
  spin_lock_init_ctx p k : ctx (spin_lock_init p k) = drop_lock p (ctx k);
  spin_lock_ctx p k : ctx (spin_lock p k) = take_lock p (ctx k);
  spin_unlock_ctx p k : ctx (spin_unlock p k) = drop_lock p (ctx k);
  (** A lock this context holds is locked. *)
  spin_is_locked_held p k : p ∈ c_held (ctx k) → spin_is_locked p k ≠ 0;
  (** The attempt fails on a lock this context holds, and changes nothing; what
      it does to another lock depends on the other processors. *)
  spin_trylock_held p k r k' : spin_trylock p k = (r, k') → p ∈ c_held (ctx k) →
    r = 0 ∧ ctx k' = ctx k;
  spin_trylock_other p k r k' : spin_trylock p k = (r, k') →
    ctx k' = if decide (r = 0) then ctx k else take_lock p (ctx k);
  irqsave_ctx p k b k' : spin_lock_irqsave p k = (b, k') →
    b = c_irqs (ctx k) ∧ ctx k' = take_lock p (with_irqs false (ctx k));
  irqrestore_ctx p b k :
    ctx (spin_unlock_irqrestore p b k) = drop_lock p (with_irqs b (ctx k));
  lock_irq_ctx p k : ctx (spin_lock_irq p k) = take_lock p (with_irqs false (ctx k));
  unlock_irq_ctx p k : ctx (spin_unlock_irq p k) = drop_lock p (with_irqs true (ctx k));
  lock_bh_ctx p k : ctx (spin_lock_bh p k) = take_lock p (with_bh (S (c_bh (ctx k))) (ctx k));
  unlock_bh_ctx p k : ctx (spin_unlock_bh p k) = drop_lock p (with_bh (pred (c_bh (ctx k))) (ctx k)) }.

(** The kernel state of a list-based module keeps the lock state in its last
    part. *)
Section lift.
Context {A L X : Type} `{SpinLock X}.
Abbreviation K := (kstate A L X).

Definition on_k_x (g : X → X) (k : K) : K := KState (k_slab k) (k_list k) (g (k_x k)).
Definition on_k_x' {B} (g : X → B * X) (k : K) : B * K :=
  let '(b, x) := g (k_x k) in (b, KState (k_slab k) (k_list k) x).

#[global] Instance kstate_spin : SpinLock K := {
  ctx k := ctx (k_x k);
  spin_lock_init p := on_k_x (spin_lock_init p);
  spin_lock p := on_k_x (spin_lock p);
  spin_unlock p := on_k_x (spin_unlock p);
  spin_is_locked p k := spin_is_locked p (k_x k);
  spin_trylock p := on_k_x' (spin_trylock p);
  spin_lock_irqsave p := on_k_x' (spin_lock_irqsave p);
  spin_unlock_irqrestore p b := on_k_x (spin_unlock_irqrestore p b);
  spin_lock_irq p := on_k_x (spin_lock_irq p);
  spin_unlock_irq p := on_k_x (spin_unlock_irq p);
  spin_lock_bh p := on_k_x (spin_lock_bh p);
  spin_unlock_bh p := on_k_x (spin_unlock_bh p) }.
End lift.

(** ** The statements

    A lock the context already holds is never obtained, and releasing a lock
    that is not held is an error. *)
Section statements.
Context {R K G : Type} `{SpinLock K}.
Abbreviation st := (sys K G).

Definition free_lock (p : ptr) : M R st unit :=
  h ← gets (λ s, c_held (ctx (kern s))); guard_ (bool_decide (p ∉ h)) Deadlock.
Definition own_lock (p : ptr) : M R st unit :=
  h ← gets (λ s, c_held (ctx (kern s))); guard_ (bool_decide (p ∈ h)) UnlockNotHeld.

Definition lock (p : ptr) : M R st unit := free_lock p;; on_kern (spin_lock p).
Definition unlock (p : ptr) : M R st unit := own_lock p;; on_kern (spin_unlock p).
Definition lock_irqsave (p : ptr) : M R st bool :=
  free_lock p;; on_kern' (spin_lock_irqsave p).
Definition unlock_irqrestore (p : ptr) (flags : bool) : M R st unit :=
  own_lock p;; on_kern (spin_unlock_irqrestore p flags).
Definition lock_irq (p : ptr) : M R st unit := free_lock p;; on_kern (spin_lock_irq p).
Definition unlock_irq (p : ptr) : M R st unit := own_lock p;; on_kern (spin_unlock_irq p).
Definition lock_bh (p : ptr) : M R st unit := free_lock p;; on_kern (spin_lock_bh p).
Definition unlock_bh (p : ptr) : M R st unit := own_lock p;; on_kern (spin_unlock_bh p).

(** A call that may sleep is forbidden while a spin lock is held. *)
Definition might_sleep : M R st unit :=
  h ← gets (λ s, c_held (ctx (kern s))); guard_ (bool_decide (h = ∅)) SleepInAtomic.

Lemma wp_free_lock p s (P : post R st unit) :
  p ∉ c_held (ctx (kern s)) → on_next P tt s → wp (free_lock p) s P.
Proof.
  intros Hp HP. unfold wp, free_lock. erewrite bind_next by done. by rewrite bool_decide_true.
Qed.

Lemma wp_own_lock p s (P : post R st unit) :
  p ∈ c_held (ctx (kern s)) → on_next P tt s → wp (own_lock p) s P.
Proof.
  intros Hp HP. unfold wp, own_lock. erewrite bind_next by done. by rewrite bool_decide_true.
Qed.

Lemma wp_might_sleep s (P : post R st unit) :
  c_held (ctx (kern s)) = ∅ → on_next P tt s → wp might_sleep s P.
Proof.
  intros Hh HP. unfold wp, might_sleep. erewrite bind_next by done. by rewrite Hh, bool_decide_true.
Qed.

Lemma wp_lock p s (P : post R st unit) :
  p ∉ c_held (ctx (kern s)) → on_next P tt (set_kern (spin_lock p (kern s)) s) → wp (lock p) s P.
Proof. intros. apply wp_bind. by apply wp_free_lock. Qed.

Lemma wp_unlock p s (P : post R st unit) :
  p ∈ c_held (ctx (kern s)) → on_next P tt (set_kern (spin_unlock p (kern s)) s) →
  wp (unlock p) s P.
Proof. intros. apply wp_bind. by apply wp_own_lock. Qed.
End statements.

(** ** Read-copy-update

    How deep the context is in read sections, and the callbacks that wait for
    the end of a grace period, the oldest first. *)
Class Rcu (X : Type) := {
  nesting : X → nat;
  pending : X → list ptr;
  rcu_read_lock : X → X;
  rcu_read_unlock : X → X;
  synchronize_rcu : X → X;
  call_rcu : ptr → X → X;
  take_callbacks : X → X }.              (* a grace period ended: the callbacks are taken *)

Definition rcu_view {X} `{SpinLock X, Rcu X} (x : X) : ctx_view * nat * list ptr :=
  (ctx x, nesting x, pending x).

Class RcuLaws (X : Type) `{SpinLock X, Rcu X} : Prop := {
  read_lock_view x : rcu_view (rcu_read_lock x) = (ctx x, S (nesting x), pending x);
  read_unlock_view x : rcu_view (rcu_read_unlock x) = (ctx x, pred (nesting x), pending x);
  synchronize_view x : rcu_view (synchronize_rcu x) = rcu_view x;
  call_rcu_view h x : rcu_view (call_rcu h x) = (ctx x, nesting x, pending x ++ [h]);
  take_callbacks_view x : rcu_view (take_callbacks x) = (ctx x, nesting x, []);
  spin_lock_rcu p x : rcu_view (spin_lock p x) = (ctx (spin_lock p x), nesting x, pending x);
  spin_unlock_rcu p x : rcu_view (spin_unlock p x) = (ctx (spin_unlock p x), nesting x, pending x) }.
