(* ===== verification/Vfs.v ===== *)
(** * Character devices and their file operations

    The table of methods of a character device, the way the kernel calls a
    method that is set and answers for one that is not, and the use of a driver
    inside a larger state. *)
From stdpp Require Import base gmap strings list.
From Stdlib Require Import ZArith Lia.
From S2P Require Import Prelude.

Definition ENODEV : Z := 19.
Definition ENOTTY : Z := 25.
Definition EBUSY : Z := 16.
Definition EWOULDBLOCK : Z := 11.

(** The members of [struct vm_area_struct] that a driver reads. *)
Record vm_area_struct := Vma {
  vm_start : Z; vm_end : Z; vm_pgoff : Z; vm_page_prot : Z }.

(** The members of [struct file_operations] that the drivers set, and [owner]:
    whether it is THIS_MODULE or, like every member that is not set, null.  An
    open file holds a reference to the owner of its table, and a module with
    references cannot be unloaded. *)
Record file_operations (S : Type) := FileOps {
  fo_owner : bool;
  fo_open : option (M Z S Z);
  fo_mmap : option (vm_area_struct → M Z S Z);
  fo_ioctl : option (Z → Z → M Z S Z);
  fo_unlocked_ioctl : option (Z → Z → M Z S Z);
  fo_release : option (M Z S Z) }.
Arguments FileOps {S} _ _ _ _ _ _.
Arguments fo_owner {S} _.
Arguments fo_open {S} _.
Arguments fo_mmap {S} _.
Arguments fo_ioctl {S} _.
Arguments fo_unlocked_ioctl {S} _.
Arguments fo_release {S} _.

Definition no_ops {S} : file_operations S := FileOps false None None None None None.

(** ** The calls of the kernel *)

Section calls.
Context {R S : Type}.
Implicit Types (t : file_operations S).

(** Without an open or a release method there is nothing to do; without an mmap
    or an ioctl method the call is an error.  A kernel calls [unlocked_ioctl]
    when it is set and otherwise [ioctl]. *)
Definition vfs_open t : M R S Z :=
  match fo_open t with Some h => call h | None => mret 0 end.
Definition vfs_mmap t (vma : vm_area_struct) : M R S Z :=
  match fo_mmap t with Some h => call (h vma) | None => mret (- ENODEV) end.
Definition vfs_ioctl t (cmd arg : Z) : M R S Z :=
  match fo_unlocked_ioctl t, fo_ioctl t with
  | Some h, _ | None, Some h => call (h cmd arg)
  | None, None => mret (- ENOTTY)
  end.
Definition vfs_release t : M R S Z :=
  match fo_release t with Some h => call h | None => mret 0 end.

(** [open] on a device node: [dev] is what is registered behind it.  The open
    file keeps the table. *)
Definition sys_open (dev : S → option (file_operations S)) (fd : Z) : M R S (Z * file_operations S) :=
  d ← gets dev;
  match d with
  | Some t => r ← vfs_open t; mret (if r <? 0 then -1 else fd, t)
  | None => mret (-1, no_ops)
  end.

(** [ioctl] of the C library: -1 and [errno] for an error of the driver. *)
Definition sys_ioctl t (cmd arg : Z) : M R S Z :=
  r ← vfs_ioctl t cmd arg; mret (if r <? 0 then -1 else r).
End calls.

(** ** A driver in a larger state

    [get] and [put] are the driver's part of a state [W]. *)
Section zoom.
Context {S W : Type} (get : W → S) (put : S → W → W).

Definition zoom {R A} (c : M R S A) : M R W A := λ w,
  match c (get w) with
  | Next a s => Next a (put s w)
  | Return r s => Return r (put s w)
  | Fault f s => Fault f (put s w)
  end.

Definition zoom_ops (t : file_operations S) : file_operations W :=
  FileOps (fo_owner t) (zoom <$> fo_open t) ((λ h vma, zoom (h vma)) <$> fo_mmap t)
    ((λ h cmd arg, zoom (h cmd arg)) <$> fo_ioctl t)
    ((λ h cmd arg, zoom (h cmd arg)) <$> fo_unlocked_ioctl t) (zoom <$> fo_release t).

Lemma wp_zoom {R A} (c : M R S A) w (P : post R W A) :
  wp c (get w) (Post (λ a s, on_next P a (put s w)) (λ r s, on_return P r (put s w))
    (λ f s, on_fault P f (put s w))) →
  wp (zoom c) w P.
Proof. unfold wp, zoom. by destruct (c (get w)). Qed.

Lemma zoom_fault {R A} (c : M R S A) w f s : c (get w) = Fault f s → zoom c w = Fault f (put s w).
Proof. unfold zoom. by intros ->. Qed.
End zoom.
