(* ===== verification/Spinlock.v ===== *)
(** * spinlock/code.c

    The four kinds of locking that [start] shows, on one automatic lock. *)
From stdpp Require Import base gmap strings list.
From Stdlib Require Import ZArith Lia.
From S2P Require Import Prelude Kernel Sync.

(** The automatic [spinlock_t sl]. *)
Definition sl : ptr := Ptr 1 0.

Section module.
Context {K : Type} `{SpinLock K}.
Abbreviation st := (sys K unit).

(** The part of [start] that locks, asks and tries ("Type 1"). *)
Definition type1 : M Z st unit :=
  lock sl;;
  i ← gets (λ s, spin_is_locked sl (kern s));
  (if i =? 0 then printk KERN_INFO "spin_is_lock:Lock is free" []
   else printk KERN_INFO "spin_is_lock:Lock is taken" []);;
  i ← on_kern' (spin_trylock sl);
  (if i =? 0 then printk KERN_INFO "spin_trylock:Lock already taken." []
   else printk KERN_INFO "spin_trylock:Lock is free and lock taken" []);;
  unlock sl.

(** [static int __init start(void)]. *)
Definition start : M Z st Z :=
  printk KERN_INFO "Start...!\n" [];;
  on_kern (spin_lock_init sl);;
  type1;;
  flag ← lock_irqsave sl;
  unlock_irqrestore sl flag;;
  lock_irq sl;;
  unlock_irq sl;;
  lock_bh sl;;
  unlock_bh sl;;
  return_ 0.

(** [static void __exit stops(void)]. *)
Definition stops : M unit st unit := printk KERN_INFO "Goodbye!\n" [].
End module.

(** ** Theorems *)

Section proofs.
Context {K : Type} `{SpinLock K, !SpinLaws K}.
Abbreviation st := (sys K unit).
Implicit Types (s : st).

Definition start_log : list msg :=
  [ Msg KERN_INFO "Start...!\n" [];
    Msg KERN_INFO "spin_is_lock:Lock is taken" [];
    Msg KERN_INFO "spin_trylock:Lock already taken." [] ].

(** A context that does not hold the lock takes it and drops it again. *)
Lemma take_drop p c : p ∉ c_held c → drop_lock p (take_lock p c) = c.
Proof. destruct c. intros. unfold drop_lock, take_lock. simpl. f_equal. set_solver. Qed.

(** The first section prints the two lines and leaves the context as it was. *)
Lemma type1_run s (P : post Z st unit) :
  sl ∉ c_held (ctx (kern s)) →
  (∀ s', ctx (kern s') = ctx (kern s) → klog s' = klog s ++ tl start_log → on_next P tt s') →
  wp type1 s P.
Proof.
  intros Hsl HP. unfold type1. apply wp_bind, wp_lock; [done|]. simpl.
  assert (Hin : sl ∈ c_held (ctx (spin_lock sl (kern s)))) by (rewrite spin_lock_ctx; set_solver).
  apply wp_bind. wp_step. apply wp_bind.
  rewrite (proj2 (Z.eqb_neq _ 0) (spin_is_locked_held _ _ Hin)). wp_step.
  apply wp_bind. unfold on_kern', wp at 1. simpl kern.
  destruct (spin_trylock sl (spin_lock sl (kern s))) as [r k] eqn:E. simpl sat.
  destruct (spin_trylock_held _ _ _ _ E Hin) as [-> Hk]. apply wp_bind. rewrite Z.eqb_refl. cbv iota. wp_step.
  apply wp_unlock; simpl; [by rewrite Hk|]. apply HP; simpl.
  - rewrite spin_unlock_ctx, Hk, spin_lock_ctx. by apply take_drop.
  - by rewrite <- app_assoc.
Qed.

(** The other three pairs. *)
Lemma irqsave_run s (P : post Z st Z) k :
  sl ∉ c_held (ctx (kern s)) →
  (∀ s', ctx (kern s') = ctx (kern s) → klog s' = klog s → wp k s' P) →
  wp (flag ← lock_irqsave sl; unlock_irqrestore sl flag;; k) s P.
Proof.
  intros Hsl HP. apply wp_bind. unfold lock_irqsave. apply wp_bind, wp_free_lock; [done|].
  simpl. unfold on_kern', wp at 1. destruct (spin_lock_irqsave sl (kern s)) as [b k'] eqn:E.
  destruct (irqsave_ctx _ _ _ _ E) as [-> Hk]. simpl. apply wp_bind, wp_bind, wp_own_lock.
  { simpl. rewrite Hk. set_solver. }
  simpl. unfold on_kern. wp_step. apply HP; [|done]. simpl. rewrite irqrestore_ctx, Hk.
  transitivity (drop_lock sl (take_lock sl (ctx (kern s)))); [by destruct (ctx (kern s))|].
  by apply take_drop.
Qed.

Lemma irq_run s (P : post Z st Z) k :
  sl ∉ c_held (ctx (kern s)) →
  (∀ s', ctx (kern s') = with_irqs true (ctx (kern s)) → klog s' = klog s → wp k s' P) →
  wp (lock_irq sl;; unlock_irq sl;; k) s P.
Proof.
  intros Hsl HP. apply wp_bind. unfold lock_irq. apply wp_bind, wp_free_lock; [done|].
  simpl. unfold on_kern. wp_step. apply wp_bind, wp_bind, wp_own_lock.
  { simpl. rewrite lock_irq_ctx. set_solver. }
  simpl. unfold on_kern. wp_step. apply HP; [|done]. simpl. rewrite unlock_irq_ctx, lock_irq_ctx.
  transitivity (drop_lock sl (take_lock sl (with_irqs true (ctx (kern s))))); [by destruct (ctx (kern s))|].
  by apply take_drop.
Qed.

Lemma bh_run s (P : post Z st Z) k :
  sl ∉ c_held (ctx (kern s)) →
  (∀ s', ctx (kern s') = ctx (kern s) → klog s' = klog s → wp k s' P) →
  wp (lock_bh sl;; unlock_bh sl;; k) s P.
Proof.
  intros Hsl HP. apply wp_bind. unfold lock_bh. apply wp_bind, wp_free_lock; [done|].
  simpl. unfold on_kern. wp_step. apply wp_bind, wp_bind, wp_own_lock.
  { simpl. rewrite lock_bh_ctx. set_solver. }
  simpl. unfold on_kern. wp_step. apply HP; [|done]. simpl. rewrite unlock_bh_ctx, lock_bh_ctx.
  transitivity (drop_lock sl (take_lock sl (ctx (kern s)))); [by destruct (ctx (kern s))|].
  by apply take_drop.
Qed.

(** C20: [start] never waits for itself and never releases a lock it does not
    have; it reports the lock as taken both times, and ends with the locks and
    the bottom halves as it found them but with interrupts enabled, also when
    they were disabled before. *)
Theorem spinlock_balanced s :
  wp start s (returns (λ r s', r = 0 ∧ klog s' = klog s ++ start_log ∧
    ctx (kern s') = with_irqs true (drop_lock sl (ctx (kern s))))).
Proof.
  unfold start. apply wp_bind. wp_step. apply wp_bind. unfold on_kern. wp_step.
  set (s1 := set_kern _ _). assert (H1 : ctx (kern s1) = drop_lock sl (ctx (kern s)))
    by apply spin_lock_init_ctx.
  assert (Hsl : sl ∉ c_held (ctx (kern s1))) by (rewrite H1; set_solver).
  apply wp_bind, type1_run; [done|]. intros s2 H2 L2. simpl.
  apply irqsave_run; [by rewrite H2|]. intros s3 H3 L3.
  apply irq_run; [by rewrite H3, H2|]. intros s4 H4 L4.
  apply bh_run; [rewrite H4, H3, H2; done|]. intros s5 H5 L5. wp_step.
  split; [done|]. rewrite L5, L4, L3, L2, H5, H4, H3, H2, H1. split; [|done].
  simpl. by rewrite <- app_assoc.
Qed.
End proofs.

(** ** A concrete lock service *)

(** One processor's view, with the outcome of an attempt on a free lock. *)
Record spin_model := SpinModel { sp_free : bool; sp_ctx : ctx_view }.

Definition on_ctx (g : ctx_view → ctx_view) (k : spin_model) : spin_model :=
  SpinModel (sp_free k) (g (sp_ctx k)).

#[global] Instance spin_model_ops : SpinLock spin_model := {
  ctx := sp_ctx;
  spin_lock_init p := on_ctx (drop_lock p);
  spin_lock p := on_ctx (take_lock p);
  spin_unlock p := on_ctx (drop_lock p);
  spin_is_locked p k := if bool_decide (p ∈ c_held (sp_ctx k)) then 1 else if sp_free k then 0 else 1;
  spin_trylock p k :=
    if bool_decide (p ∈ c_held (sp_ctx k)) || negb (sp_free k) then (0, k) else (1, on_ctx (take_lock p) k);
  spin_lock_irqsave p k := (c_irqs (sp_ctx k), on_ctx (λ c, take_lock p (with_irqs false c)) k);
  spin_unlock_irqrestore p b := on_ctx (λ c, drop_lock p (with_irqs b c));
  spin_lock_irq p := on_ctx (λ c, take_lock p (with_irqs false c));
  spin_unlock_irq p := on_ctx (λ c, drop_lock p (with_irqs true c));
  spin_lock_bh p := on_ctx (λ c, take_lock p (with_bh (S (c_bh c)) c));
  spin_unlock_bh p := on_ctx (λ c, drop_lock p (with_bh (pred (c_bh c)) c)) }.

#[global] Instance spin_model_laws : SpinLaws spin_model.
Proof.
  split; try done; simpl.
  - intros p k Hp. by rewrite bool_decide_true.
  - intros p k r k' E Hp. rewrite bool_decide_true in E by done. by simplify_eq/=.
  - intros p k r k' E. destruct (_ || _) in E; by simplify_eq/=.
  - intros p k b k' E. by simplify_eq/=.
Qed.

(** Loaded with interrupts disabled. *)
Definition loaded : sys spin_model unit := Sys (SpinModel true (Ctx ∅ false 0)) tt [].

Lemma spinlock_balanced_witness :
  wp start loaded (returns (λ r s', r = 0 ∧ klog s' = klog loaded ++ start_log ∧
    ctx (kern s') = with_irqs true (drop_lock sl (ctx (kern loaded))))).
Proof. exact (spinlock_balanced loaded). Defined.

Example spinlock_start_runs : returned (start loaded) = Some (0, start_log).
Proof. vm_compute. reflexivity. Qed.
