(* ===== verification/Rcu.v ===== *)
(** * rcu/code.c

    The RCU-protected list: the four read loops, the replacement, the deletion
    with its deferred release, and the callback. *)
From stdpp Require Import base gmap strings list.
From Stdlib Require Import ZArith Lia.
From S2P Require Import Prelude Kernel KernelModel Sync Spinlock.

(** ** Data *)

Definition element : nat := 5.

(** [struct mylist]; [None] is an indeterminate member. *)
Record mylist := MyList { data : option Z }.
Definition mylist_node : Z := 8.
Definition mylist_rcu : Z := 24.
Definition sizeof_mylist : Z := 40.

(** [LIST_HEAD(head_mylist)], [new_node] and [mylist_lock]. *)
Definition head_mylist : ptr := Ptr 1 0.
Definition new_node : ptr := Ptr 2 0.
Definition mylist_lock : ptr := Ptr 3 0.

(** [val[element]] and [flag]. *)
Record globals := Globals { val : list ptr; flag : Z }.

Definition node_of (t : ptr) : ptr := member_of mylist_node t.
Definition rcu_of (t : ptr) : ptr := member_of mylist_rcu t.

Section module.
Context {A L X : Type} `{Slab A, KList L, SpinLock X, Rcu X}.
Abbreviation st := (sys (kstate A L X) (objs mylist globals)).

Definition on_x {R} (g : X → X) : M R st unit := modify (λ s, set_extra (g (extra s)) s).

Definition get_val {R} (i : Z) : M R st ptr :=
  v ← gets (λ s, val (var s)); liftO OutOfBounds (v !! Z.to_nat i).
Definition set_val {R} (i : Z) (p : ptr) : M R st unit :=
  _ ← get_val i;
  modify (λ s, set_var (Globals (<[Z.to_nat i := p]> (val (var s))) (flag (var s))) s).
Definition set_flag {R} (n : Z) : M R st unit :=
  modify (λ s, set_var (Globals (val (var s)) n) s).

(** [t->data]. *)
Definition ld_data {R} (t : ptr) : M R st Z := x ← get_obj t; liftO UninitRead (data x).

(** [synchronize_rcu()]: it sleeps, and inside a read section it would wait for
    its own caller. *)
Definition synchronize {R} : M R st unit :=
  might_sleep;;
  n ← gets (λ s, nesting (extra s));
  guard_ (bool_decide (n = 0%nat)) Deadlock;;
  on_x synchronize_rcu.

(** [void destroy_old_structure(struct rcu_head *rcu_h)]. *)
Definition destroy_old_structure (rcu_h : ptr) : M unit st unit :=
  let t := container_of mylist_rcu rcu_h in
  printk KERN_INFO "Deleted old reference\n" [];;
  (if is_null t then printk KERN_INFO "Value (t) not valid. Will exit.\n" [];; return_ tt
   else mret tt);;
  d ← ld_data t;
  printk KERN_INFO "Data = %d\n" [AInt d];;
  kfree_obj t.

(** The end of a grace period: the callbacks handed to [call_rcu] run. *)
Fixpoint run_callbacks {R} (hs : list ptr) : M R st unit :=
  match hs with
  | [] => mret tt
  | h :: hs => call (destroy_old_structure h);; run_callbacks hs
  end.
Definition grace_period {R} : M R st unit :=
  hs ← gets (λ s, pending (extra s));
  on_x take_callbacks;;
  run_callbacks hs.

(** The loops of [start]. *)
Definition alloc_body (i : Z) : M Z st unit :=
  p ← kmalloc_obj sizeof_mylist GFP_KERNEL (MyList None);
  set_val i p;;
  p ← get_val i;
  (if is_null p then printk KERN_INFO "Malloc failed for %d\n" [AInt i];; return_ (-1)
   else mret tt);;
  upd_obj p (λ _, MyList (Some (10 * i))).

Definition add_body (i : Z) : M Z st unit :=
  lock mylist_lock;;
  p ← get_val i;
  on_node mylist_node (node_of p) (list_add_rcu (node_of p) head_mylist);;
  unlock mylist_lock.

(** When a grace period may end: after [call_rcu], while the code is in no read
    section, that is at the end of an iteration of the deletion loop or of the
    last loop, named by the value of its node, or after [start] and before the
    module is unloaded.  [gp] says at which of them one does; the callbacks that
    wait then run. *)
Inductive moment := InDelete (d : Z) | InRead (d : Z) | BeforeEnd.
Definition quiescent {R} (gp : moment → bool) (m : moment) : M R st unit :=
  if gp m then grace_period else mret tt.

(** The body of the three loops that print, with the format of each and what may
    happen after the read section. *)
Definition read_body (fmt : string) (after : Z → M Z st unit) (tmp1 : ptr) : M Z st unit :=
  on_x rcu_read_lock;;
  d ← ld_data tmp1;
  printk KERN_ERR fmt [AInt d];;
  on_x rcu_read_unlock;;
  after d.

Definition replace_body (tmp1 : ptr) : M Z st unit :=
  on_x rcu_read_lock;;
  d ← ld_data tmp1;
  (if d =? 10 then
     upd_obj new_node (λ _, MyList (Some 1400));;
     lock mylist_lock;;
     on_node mylist_node (node_of tmp1) (list_replace_rcu (node_of tmp1) (node_of new_node));;
     unlock mylist_lock
   else mret tt);;
  on_x rcu_read_unlock.

Definition delete_body (gp : moment → bool) (tmp1 : ptr) : M Z st unit :=
  d ← ld_data tmp1;
  (if d =? 20 then
     set_flag 1;;
     on_node mylist_node (node_of tmp1) (list_del_rcu (node_of tmp1));;
     unlock mylist_lock;;
     on_x (call_rcu (rcu_of tmp1))
   else mret tt);;
  quiescent gp (InDelete d).

(** [static int __init start(void)]. *)
Definition start (fuel : nat) (gp : moment → bool) : M Z st Z :=
  printk KERN_INFO "Hello!\n" [];;
  for_from 0 element alloc_body;;
  for_from 0 element add_body;;
  list_for_each_entry fuel mylist_node head_mylist (read_body "value(0) = %d\n" (λ _, mret tt));;
  synchronize;;
  list_for_each_entry fuel mylist_node head_mylist replace_body;;
  synchronize;;
  list_for_each_entry fuel mylist_node head_mylist (read_body "value(1) = %d\n" (λ _, mret tt));;
  set_flag 0;;
  lock mylist_lock;;
  list_for_each_entry fuel mylist_node head_mylist (delete_body gp);;
  fl ← gets (λ s, flag (var s));
  (if fl =? 0 then unlock mylist_lock else mret tt);;
  list_for_each_entry fuel mylist_node head_mylist
    (read_body "value(2) = %d\n" (λ d, quiescent gp (InRead d)));;
  return_ 0.

(** [static void __exit end(void)]. *)
Definition end_ : M unit st unit := printk KERN_INFO "Goodbye\n" [].

(** The end of a grace period after the unloading: a callback that still waits
    is code of the module, which is gone. *)
Definition gone_callbacks {R} : M R st unit :=
  hs ← gets (λ s, pending (extra s));
  guard_ (bool_decide (hs = [])) BadDeref.

(** Load, unload, and what comes after. *)
Definition lifecycle (fuel : nat) (gp : moment → bool) : M Z st Z :=
  r ← call (start fuel gp);
  if r =? 0 then quiescent gp BeforeEnd;; call end_;; gone_callbacks;; return_ r else return_ r.
End module.

(** ** The run of [start] *)

Section proofs.
Context {A L X : Type} `{ops_a : Slab A, !SlabLaws A, ops_l : KList L, !KListLaws L}.
Context `{ops_s : SpinLock X, !SpinLaws X, ops_r : Rcu X, !RcuLaws X}.
Abbreviation st := (sys (kstate A L X) (objs mylist globals)).
Implicit Types (s : st).

Definition view s : ctx_view * nat * list ptr := rcu_view (extra s).

(** The link of the object in block [b]. *)
Definition node (b : positive) : ptr := node_of (Ptr b 0).

(** From [s0], the blocks [bs] are allocated and filled in, [head_mylist]
    links [ns], [log] has been printed, [new_node] has the value [nv], [flag]
    is [fl] and locks, read sections and callbacks are [v]. *)
Record mid s0 (bs : list positive) (ns : list ptr) (log : list msg) (nv fl : Z)
    (v : ctx_view * nat * list ptr) s : Prop := Mid {
  mid_nodup : NoDup bs;
  mid_blocks : ∀ b, b ∈ bs → (static_blocks < b)%positive ∧ b ∉ live (slab s0);
  mid_live : live (slab s) = list_to_set bs ∪ live (slab s0);
  mid_val : val (var s) = filled 5 bs;
  mid_flag : flag (var s) = fl;
  mid_objs : ∀ j b, bs !! j = Some b → heap s !! Ptr b 0 = Some (MyList (Some (10 * Z.of_nat j)));
  mid_new : heap s !! new_node = Some (MyList (Some nv));
  mid_lists : is_list (lists s) head_mylist ns;
  mid_log : klog s = klog s0 ++ log;
  mid_view : view s = v }.

(** An allocation has failed after [bs]; those blocks are still allocated. *)
Definition failed s0 (bs : list positive) s : Prop :=
  NoDup bs ∧ (∀ b, b ∈ bs → b ∉ live (slab s0)) ∧
  live (slab s) = list_to_set bs ∪ live (slab s0) ∧
  is_list (lists s) head_mylist [] ∧ view s = view s0 ∧
  klog s = klog s0 ++ [Msg KERN_INFO "Hello!\n" [];
                       Msg KERN_INFO "Malloc failed for %d\n" [AInt (Z.of_nat (length bs))]].

(** *** The parts of the state that a statement leaves alone *)

Lemma mid_extra s0 bs ns log nv fl v v' s x :
  mid s0 bs ns log nv fl v s → rcu_view x = v' → mid s0 bs ns log nv fl v' (set_extra x s).
Proof. intros [] Hx. split; simpl_st; auto. Qed.

Lemma rcu_mid_relink s0 bs ns ns' log nv fl v s l :
  mid s0 bs ns log nv fl v s → is_list l head_mylist ns' → mid s0 bs ns' log nv fl v (set_lists l s).
Proof. intros [] Hx. split; simpl_st; auto. Qed.

Lemma rcu_mid_print s0 bs ns log nv fl v s ms :
  mid s0 bs ns log nv fl v s → mid s0 bs ns (log ++ ms) nv fl v (add_logs ms s).
Proof. intros []. split; simpl_st; auto. rewrite app_assoc. congruence. Qed.

Lemma mid_set_flag s0 bs ns log nv fl fl' v s :
  mid s0 bs ns log nv fl v s →
  mid s0 bs ns log nv fl' v (set_var (Globals (val (var s)) fl') s).
Proof. intros []. by split. Qed.

Lemma mid_set_new s0 bs ns log nv fl v s n :
  mid s0 bs ns log nv fl v s →
  mid s0 bs ns log n fl v (set_heap (<[new_node := MyList (Some n)]> (heap s)) s).
Proof.
  intros [Hnd Hbl]. split; simpl_st; auto; [|apply lookup_insert_eq].
  intros j b Hj. rewrite lookup_insert_ne; [auto|]. intros [= <-].
  by destruct (Hbl 2%positive) as [? _]; [by eapply list_elem_of_lookup_2|].
Qed.

Lemma view_inv s c n pd :
  view s = (c, n, pd) → ctx (extra s) = c ∧ nesting (extra s) = n ∧ pending (extra s) = pd.
Proof. unfold view, rcu_view. by intros [= -> -> ->]. Qed.

(** Taking and releasing the lock of the list. *)
Lemma lock_run s0 bs ns log nv fl c n pd s (P : post Z st unit) :
  mid s0 bs ns log nv fl (c, n, pd) s → mylist_lock ∉ c_held c →
  (∀ s', mid s0 bs ns log nv fl (take_lock mylist_lock c, n, pd) s' → on_next P tt s') →
  wp (lock mylist_lock) s P.
Proof.
  intros Hm Hc HP. pose proof (view_inv _ _ _ _ (mid_view _ _ _ _ _ _ _ _ Hm)) as (Ec & En & Ep).
  apply wp_lock; [simpl; unfold extra in Ec; by rewrite Ec|].
  apply HP, (mid_extra _ _ _ _ _ _ _ _ s (spin_lock mylist_lock (extra s)) Hm).
  by rewrite spin_lock_rcu, spin_lock_ctx, Ec, En, Ep.
Qed.

Lemma unlock_run s0 bs ns log nv fl c n pd s (P : post Z st unit) :
  mid s0 bs ns log nv fl (take_lock mylist_lock c, n, pd) s → mylist_lock ∉ c_held c →
  (∀ s', mid s0 bs ns log nv fl (c, n, pd) s' → lists s' = lists s → on_next P tt s') →
  wp (unlock mylist_lock) s P.
Proof.
  intros Hm Hc HP. pose proof (view_inv _ _ _ _ (mid_view _ _ _ _ _ _ _ _ Hm)) as (Ec & En & Ep).
  apply wp_unlock; [simpl; unfold extra in Ec; rewrite Ec; set_solver|]. apply HP; [|done].
  apply (mid_extra _ _ _ _ _ _ _ _ s (spin_unlock mylist_lock (extra s)) Hm).
  by rewrite spin_unlock_rcu, spin_unlock_ctx, Ec, En, Ep, take_drop.
Qed.

(** Entering and leaving a read section. *)
Lemma read_lock_run s0 bs ns log nv fl c n pd s (P : post Z st unit) :
  mid s0 bs ns log nv fl (c, n, pd) s →
  (∀ s', mid s0 bs ns log nv fl (c, S n, pd) s' → on_next P tt s') →
  wp (on_x rcu_read_lock) s P.
Proof.
  intros Hm HP. pose proof (view_inv _ _ _ _ (mid_view _ _ _ _ _ _ _ _ Hm)) as (Ec & En & Ep).
  apply wp_modify, HP. eapply mid_extra; [done|]. by rewrite read_lock_view, Ec, En, Ep.
Qed.

Lemma read_unlock_run s0 bs ns log nv fl c n pd s (P : post Z st unit) :
  mid s0 bs ns log nv fl (c, S n, pd) s →
  (∀ s', mid s0 bs ns log nv fl (c, n, pd) s' → lists s' = lists s → on_next P tt s') →
  wp (on_x rcu_read_unlock) s P.
Proof.
  intros Hm HP. pose proof (view_inv _ _ _ _ (mid_view _ _ _ _ _ _ _ _ Hm)) as (Ec & En & Ep).
  apply wp_modify, HP; [|done]. eapply mid_extra; [done|]. by rewrite read_unlock_view, Ec, En, Ep.
Qed.

Lemma synchronize_run s0 bs ns log nv fl c pd s (P : post Z st unit) :
  mid s0 bs ns log nv fl (c, 0%nat, pd) s → c_held c = ∅ →
  (∀ s', mid s0 bs ns log nv fl (c, 0%nat, pd) s' → on_next P tt s') →
  wp synchronize s P.
Proof.
  intros Hm Hc HP. pose proof (view_inv _ _ _ _ (mid_view _ _ _ _ _ _ _ _ Hm)) as (Ec & En & Ep).
  unfold synchronize. apply wp_bind, wp_might_sleep; [simpl; unfold extra in Ec; by rewrite Ec|].
  apply wp_bind, wp_gets. simpl. rewrite En. apply wp_bind, wp_ret. simpl.
  apply wp_modify, HP. eapply mid_extra; [done|].
  rewrite synchronize_view. exact (mid_view _ _ _ _ _ _ _ _ Hm).
Qed.

Lemma ld_data_run {R} t d s (P : post R st Z) :
  heap s !! t = Some (MyList (Some d)) → t ≠ Null → on_next P d s → wp (ld_data t) s P.
Proof. intros Hd Ht HP. apply wp_bind. eapply wp_get_obj; [done..|]. by apply wp_ret. Qed.
(** *** Allocation and insertion *)

Definition hello : msg := Msg KERN_INFO "Hello!\n" [].

Lemma get_val_run {R} s bs i b :
  val (var s) = filled 5 bs →
  bs !! Z.to_nat i = Some b → get_val (R:=R) i s = Next (Ptr b 0) s.
Proof.
  intros Hv Hb. unfold get_val. erewrite bind_next by done. by rewrite Hv, (filled_lookup _ _ _ _ Hb).
Qed.

Lemma wp_set_val i p s (P : post Z st unit) :
  (Z.to_nat i < length (val (var s)))%nat →
  on_next P tt (set_var (Globals (<[Z.to_nat i := p]> (val (var s))) (flag (var s))) s) →
  wp (set_val i p) s P.
Proof.
  intros Hl HP. destruct (lookup_lt_is_Some_2 _ _ Hl) as [q Hq].
  unfold set_val. apply wp_bind. eapply (wp_eq _ _ _ (Next q s)).
  { unfold get_val. erewrite bind_next by done. by rewrite Hq. }
  by apply wp_modify.
Qed.

Lemma rcu_alloc_body_spec s0 bs s v :
  mid s0 bs [] [hello] 0 0 v s → (length bs < 5)%nat → view s0 = v →
  wp (alloc_body (Z.of_nat (length bs))) s
    (Post (λ _ s', ∃ b, mid s0 (bs ++ [b]) [] [hello] 0 0 v s')
          (λ r s', r = -1 ∧ failed s0 bs s') (λ _ _, False)).
Proof.
  intros [Hnd Hbl Hlive Hval Hfl Hob Hnw Hls Hlog Hv] Hlen Hv0. unfold alloc_body.
  assert (Hl5 : length (val (var s)) = 5%nat)
    by (rewrite Hval, filled_length; lia).
  apply wp_bind, wp_kmalloc_obj.
  - intros a' Ha. simpl. apply wp_bind, wp_set_val; simpl_st; [lia|]. simpl.
    apply wp_bind. eapply (wp_eq _ _ _ (Next Null _)).
    { unfold get_val. erewrite bind_next by done. simpl_st. simpl.
      by rewrite list_lookup_insert_eq by lia. }
    simpl. wp_steps. split; [done|]. unfold failed, view. simpl_st.
    rewrite Ha, Hlive, Hlog, <- app_assoc. repeat split; auto; [|unfold view in *; congruence].
    intros b Hb. by apply Hbl.
  - intros b a' Hst Hfr Ha. simpl. apply wp_bind, wp_set_val; simpl_st; [lia|]. simpl.
    rewrite Nat2Z.id.
    assert (Hbn : b ∉ bs) by (intros ?; apply Hfr; rewrite Hlive; set_solver).
    apply wp_bind. eapply wp_eq.
    { apply (get_val_run _ (bs ++ [b]) _ b).
      - simpl_st. simpl. by rewrite Hval, filled_insert.
      - rewrite Nat2Z.id. by apply list_lookup_middle. }
    simpl. apply wp_bind, wp_ret. simpl.
    eapply wp_upd_obj; [simpl_st; apply lookup_insert_eq|done|]. simpl. exists b.
    split; unfold view; simpl_st; auto.
    + apply NoDup_app. repeat split; [done|set_solver|apply NoDup_singleton].
    + intros b' [? | ->%list_elem_of_singleton]%elem_of_app; [by apply Hbl|]. set_solver.
    + rewrite Ha, Hlive, list_to_set_app_L. set_solver.
    + simpl. by rewrite Hval, filled_insert.
    + intros j b' Hj. apply lookup_snoc_Some in Hj as [[Hj Hj']|[-> <-]].
      * assert (b' ∈ bs) by (eapply list_elem_of_lookup_2; eauto).
        rewrite !lookup_insert_ne by (intros [= ->]; done). by apply Hob.
      * by rewrite lookup_insert_eq.
    + assert (Ptr b 0 ≠ new_node) by (intros [= ->]; by compute in Hst).
      by rewrite !lookup_insert_ne.
Qed.

Lemma rcu_alloc_loop s0 s v (P : post Z st unit) :
  mid s0 [] [] [hello] 0 0 v s → view s0 = v →
  (∀ bs s', length bs = 5%nat → mid s0 bs [] [hello] 0 0 v s' → on_next P tt s') →
  (∀ bs s', (length bs < 5)%nat → failed s0 bs s' → on_return P (-1) s') →
  wp (for_from 0 element alloc_body) s P.
Proof.
  intros Hm Hv HN HR.
  apply (wp_for (λ i s', ∃ bs, i = Z.of_nat (length bs) ∧ mid s0 bs [] [hello] 0 0 v s')).
  - by exists [].
  - intros i s1 Hi (bs & -> & Hs1). unfold element in Hi.
    eapply wp_mono; [apply (rcu_alloc_body_spec s0 bs s1 v); [done|lia|done]| | |done].
    + intros u s' (b & Hb). exists (bs ++ [b]). rewrite length_app. simpl. split; [lia|done].
    + intros r s' [-> Hfl]. apply (HR bs); [lia|done].
  - intros s1 (bs & Hb & Hs1). unfold element in Hb. apply (HN bs); [lia|done].
Qed.

Lemma node_fresh b bs : b ∉ bs → node b ∉ head_mylist :: (node <$> bs).
Proof.
  intros Hb. apply not_elem_of_cons. split; [done|].
  by intros (b' & [= ->] & ?)%list_elem_of_fmap.
Qed.

Lemma add_loop s0 bs log nv fl c n pd s (P : post Z st unit) :
  mid s0 bs [] log nv fl (c, n, pd) s → length bs = 5%nat → mylist_lock ∉ c_held c →
  (∀ s', mid s0 bs (node <$> reverse bs) log nv fl (c, n, pd) s' → on_next P tt s') →
  wp (for_from 0 element add_body) s P.
Proof.
  intros Hm Hlen Hc HP.
  apply (wp_for (λ i s', mid s0 bs (node <$> reverse (take (Z.to_nat i) bs)) log nv fl (c, n, pd) s')).
  - done.
  - intros i s1 Hi Hs1. unfold element in Hi.
    destruct (lookup_lt_is_Some_2 bs (Z.to_nat i)) as [b Hb]; [lia|].
    unfold add_body. apply wp_bind. eapply lock_run; [done|done|].
    intros s2 Hs2. simpl. apply wp_bind. eapply wp_eq.
    { eapply get_val_run; [by eapply mid_val|done]. }
    simpl. apply wp_bind, wp_on_node.
    { eexists. exact (mid_objs _ _ _ _ _ _ _ _ Hs2 _ _ Hb). }
    simpl. eapply unlock_run; [|done|].
    + eapply rcu_mid_relink; [exact Hs2|]. apply add_rcu_spec; [by eapply mid_lists|].
      apply node_fresh. rewrite elem_of_reverse. intros Hin.
      pose proof (mid_nodup _ _ _ _ _ _ _ _ Hm) as Hnd.
      rewrite <- (take_drop_middle bs (Z.to_nat i) b Hb) in Hnd.
      apply NoDup_app in Hnd as (_ & Hd & _). apply (Hd b Hin). left.
    + intros s3 Hs3 _. simpl. replace (Z.to_nat (i + 1)) with (S (Z.to_nat i)) by lia.
      by rewrite (take_S_r _ _ _ Hb), reverse_snoc.
  - intros s1 Hs1. unfold element in Hs1. apply HP. by rewrite firstn_all2 in Hs1 by (simpl; lia).
Qed.
(** *** The loops over the list *)

(** The value behind a link: that of an allocated object or of [new_node]. *)
Inductive holds (bs : list positive) (nv : Z) : ptr → Z → Prop :=
  | HoldsBlock j b : bs !! j = Some b → holds bs nv (node b) (10 * Z.of_nat j)
  | HoldsNew : holds bs nv (node_of new_node) nv.

Lemma holds_heap s0 bs ns log nv fl v s p d :
  mid s0 bs ns log nv fl v s → holds bs nv p d →
  heap s !! container_of mylist_node p = Some (MyList (Some d)) ∧ container_of mylist_node p ≠ Null.
Proof.
  intros Hm [j b Hj|]; split; try done.
  - exact (mid_objs _ _ _ _ _ _ _ _ Hm _ _ Hj).
  - exact (mid_new _ _ _ _ _ _ _ _ Hm).
Qed.

Lemma mid_next s0 bs xs p ys log nv fl v s :
  mid s0 bs (xs ++ p :: ys) log nv fl v s → list_next (lists s) p = hd head_mylist ys.
Proof. intros Hm. eapply is_list_next. by eapply mid_lists. Qed.

Definition value_line (fmt : string) (d : Z) : msg := Msg KERN_ERR fmt [AInt d].

Lemma read_body_run fmt s0 bs ns log nv fl c n pd s p d :
  mid s0 bs ns log nv fl (c, n, pd) s → holds bs nv p d →
  wp (read_body fmt (λ _, mret tt) (container_of mylist_node p)) s
    (safely (λ _ s', mid s0 bs ns (log ++ [value_line fmt d]) nv fl (c, n, pd) s')).
Proof.
  intros Hm Hp. unfold read_body. apply wp_bind. eapply read_lock_run; [done|]. intros s1 H1. simpl.
  destruct (holds_heap _ _ _ _ _ _ _ _ _ _ H1 Hp) as [Hh Hn].
  apply wp_bind. eapply ld_data_run; [done|done|]. simpl. apply wp_bind, wp_printk.
  simpl. apply wp_bind. eapply read_unlock_run; [exact (rcu_mid_print _ _ _ _ _ _ _ _ _ H1)|]. by intros s2 H2 _.
Qed.

(** A loop that prints: one line per node, in the order of the list. *)
Lemma read_loop fmt fuel s0 bs ns ds log nv fl c n pd s (P : post Z st unit) :
  mid s0 bs ns log nv fl (c, n, pd) s → Forall2 (holds bs nv) ns ds → (length ns ≤ fuel)%nat →
  (∀ s', mid s0 bs ns (log ++ (value_line fmt <$> ds)) nv fl (c, n, pd) s' → on_next P tt s') →
  wp (list_for_each_entry fuel mylist_node head_mylist (read_body fmt (λ _, mret tt))) s P.
Proof.
  intros Hm Hv Hf HP. pose proof (mid_lists _ _ _ _ _ _ _ _ Hm) as Hl.
  pose proof (is_list_nodup _ _ _ Hl) as [Hh _]%NoDup_cons.
  apply (wp_for_each (λ xs _ s', mid s0 bs ns (log ++ (value_line fmt <$> take (length xs) ds))
    nv fl (c, n, pd) s') fuel _ _ _ s ns); auto using is_list_first.
  - simpl. by rewrite app_nil_r.
  - intros xs p ys s1 Heq H1. destruct (Forall2_lookup_l _ _ _ (length xs) p Hv) as (d & Hd & Hp).
    { rewrite Heq. by apply list_lookup_middle. }
    eapply wp_safely_mono; [by eapply read_body_run|]. intros [] s2 H2. simpl.
    destruct (holds_heap _ _ _ _ _ _ _ _ _ _ H2 Hp) as [-> _].
    rewrite length_app, Nat.add_1_r, (take_S_r _ _ _ Hd), fmap_app, app_assoc.
    split; [done|]. split; [|eauto]. rewrite Heq in H2. by eapply mid_next.
  - intros s1. rewrite (Forall2_length _ _ _ Hv), firstn_all. apply HP.
Qed.

(** One iteration on a node that the body leaves in the list. *)
Lemma quiet_step body fuel s0 bs xs p ys log nv fl v s d (P : post Z st unit) :
  mid s0 bs (xs ++ p :: ys) log nv fl v s → holds bs nv p d →
  wp (body (container_of mylist_node p)) s
    (safely (λ _ s', mid s0 bs (xs ++ p :: ys) log nv fl v s')) →
  (∀ s', mid s0 bs (xs ++ p :: ys) log nv fl v s' →
     wp (for_each_from fuel mylist_node head_mylist (hd head_mylist ys) body) s' P) →
  wp (for_each_from (S fuel) mylist_node head_mylist p body) s P.
Proof.
  intros Hm Hp Hb HP. apply wp_for_each_cons; [by destruct Hp|].
  eapply wp_safely_mono; [exact Hb|]. intros [] s1 H1. simpl.
  destruct (holds_heap _ _ _ _ _ _ _ _ _ _ H1 Hp) as [-> _].
  rewrite (mid_next _ _ _ _ _ _ _ _ _ _ H1). eauto.
Qed.

Lemma replace_skip s0 bs ns log nv fl c n pd s p d :
  mid s0 bs ns log nv fl (c, n, pd) s → holds bs nv p d → d ≠ 10 →
  wp (replace_body (container_of mylist_node p)) s
    (safely (λ _ s', mid s0 bs ns log nv fl (c, n, pd) s')).
Proof.
  intros Hm Hp Hd. unfold replace_body. apply wp_bind. eapply read_lock_run; [done|]. intros s1 H1. simpl.
  destruct (holds_heap _ _ _ _ _ _ _ _ _ _ H1 Hp) as [Hh Hn].
  apply wp_bind. eapply ld_data_run; [done|done|]. simpl. rewrite (proj2 (Z.eqb_neq _ _) Hd).
  apply wp_bind, wp_ret. simpl. eapply read_unlock_run; [done|]. by intros s2 H2 _.
Qed.

(** The node with value 10 is replaced; the old node still leads to the rest. *)
Lemma replace_hit s0 bs xs b ys log nv fl c n pd s :
  mid s0 bs (xs ++ node b :: ys) log nv fl (c, n, pd) s → bs !! 1%nat = Some b →
  mylist_lock ∉ c_held c → node_of new_node ∉ head_mylist :: xs ++ node b :: ys →
  wp (replace_body (Ptr b 0)) s (safely (λ _ s',
    mid s0 bs (xs ++ node_of new_node :: ys) log 1400 fl (c, n, pd) s' ∧
    list_next (lists s') (node b) = hd head_mylist ys)).
Proof.
  intros Hm Hb Hc Hnew. unfold replace_body. apply wp_bind. eapply read_lock_run; [done|].
  intros s1 H1. simpl. apply wp_bind.
  eapply (ld_data_run _ 10); [exact (mid_objs _ _ _ _ _ _ _ _ H1 _ _ Hb)|done|]. simpl.
  apply wp_bind, wp_bind. eapply wp_upd_obj; [by eapply mid_new|done|]. simpl.
  apply mid_set_new with (n := 1400) in H1. apply wp_bind. eapply lock_run; [done|done|].
  intros s2 H2. simpl. apply wp_bind, wp_on_node.
  { eexists. exact (mid_objs _ _ _ _ _ _ _ _ H2 _ _ Hb). }
  pose proof (mid_next _ _ _ _ _ _ _ _ _ _ H2) as Hnx.
  destruct (replace_rcu_spec _ _ _ _ _ _ (mid_lists _ _ _ _ _ _ _ _ H2) Hnew) as [Hl Hnx'].
  simpl. eapply unlock_run; [by eapply rcu_mid_relink|done|]. intros s3 H3 E3. simpl.
  eapply read_unlock_run; [done|]. intros s4 H4 E4. simpl. split; [done|].
  rewrite E4, E3. simpl_st. etransitivity; [exact Hnx'|exact Hnx].
Qed.
(** *** Deletion and the deferred release *)

(** A grace period that ends with nothing waiting. *)
Lemma quiescent_none {R} gp m s0 bs ns log nv fl c n s (P : post R st unit) :
  mid s0 bs ns log nv fl (c, n, []) s →
  (∀ s', mid s0 bs ns log nv fl (c, n, []) s' → lists s' = lists s → on_next P tt s') →
  wp (quiescent gp m) s P.
Proof.
  intros Hm HP. unfold quiescent. destruct (gp m); [|by apply wp_ret, HP].
  pose proof (view_inv _ _ _ _ (mid_view _ _ _ _ _ _ _ _ Hm)) as (Ec & En & Ep).
  unfold grace_period. apply wp_bind, wp_gets. simpl. rewrite Ep. apply wp_bind, wp_modify. simpl.
  apply wp_ret, HP; [|done]. eapply mid_extra; [done|]. by rewrite take_callbacks_view, Ec, En.
Qed.

Lemma delete_skip gp s0 bs ns log nv fl c n s p d :
  mid s0 bs ns log nv fl (c, n, []) s → holds bs nv p d → d ≠ 20 →
  wp (delete_body gp (container_of mylist_node p)) s (safely (λ _ s', mid s0 bs ns log nv fl (c, n, []) s')).
Proof.
  intros Hm Hp Hd. unfold delete_body. destruct (holds_heap _ _ _ _ _ _ _ _ _ _ Hm Hp) as [Hh Hn].
  apply wp_bind. eapply ld_data_run; [done|done|]. simpl. rewrite (proj2 (Z.eqb_neq _ _) Hd).
  apply wp_bind, wp_ret. simpl. by eapply quiescent_none.
Qed.

Lemma delete_hit gp s0 bs xs b ys log nv fl c n pd s (P : post Z st unit) :
  mid s0 bs (xs ++ node b :: ys) log nv fl (take_lock mylist_lock c, n, pd) s →
  bs !! 2%nat = Some b → mylist_lock ∉ c_held c →
  (∀ s', mid s0 bs (xs ++ ys) log nv 1 (c, n, pd ++ [rcu_of (Ptr b 0)]) s' →
     list_next (lists s') (node b) = hd head_mylist ys →
     wp (quiescent gp (InDelete 20)) s' P) →
  wp (delete_body gp (Ptr b 0)) s P.
Proof.
  intros Hm Hb Hc HP. unfold delete_body. apply wp_bind.
  eapply (ld_data_run _ 20); [exact (mid_objs _ _ _ _ _ _ _ _ Hm _ _ Hb)|done|]. simpl.
  apply wp_bind, wp_bind, wp_modify. simpl. apply mid_set_flag with (fl' := 1) in Hm.
  pose proof (mid_next _ _ _ _ _ _ _ _ _ _ Hm) as Hnx.
  destruct (del_rcu_spec _ _ _ _ _ (mid_lists _ _ _ _ _ _ _ _ Hm)) as [Hl Hnx'].
  apply wp_bind, wp_on_node.
  { eexists. exact (mid_objs _ _ _ _ _ _ _ _ Hm _ _ Hb). }
  simpl. apply wp_bind. eapply unlock_run; [by eapply rcu_mid_relink|done|].
  intros s2 H2 E2. simpl. apply wp_modify. simpl. apply HP.
  - eapply mid_extra; [done|].
    pose proof (view_inv _ _ _ _ (mid_view _ _ _ _ _ _ _ _ H2)) as (Ec & En & Ep).
    by rewrite call_rcu_view, Ec, En, Ep.
  - simpl_st. rewrite E2. simpl_st. etransitivity; [exact Hnx'|exact Hnx].
Qed.

Definition release_log : list msg :=
  [Msg KERN_INFO "Deleted old reference\n" []; Msg KERN_INFO "Data = %d\n" [AInt 20]].

(** From the deletion on: [b] is the block of the deleted node, [rel] whether
    the callback has released it; the rest is as in [mid]. *)
Record tail s0 (bs : list positive) (b : positive) (ns : list ptr) (log : list msg) (rel : bool)
    (c : ctx_view) s : Prop := Tail {
  tl_nodup : NoDup bs;
  tl_blocks : ∀ b', b' ∈ bs → (static_blocks < b')%positive ∧ b' ∉ live (slab s0);
  tl_dead : bs !! 2%nat = Some b;
  tl_live : live (slab s) = (list_to_set bs ∪ live (slab s0)) ∖ (if rel then {[b]} else ∅);
  tl_val : val (var s) = filled 5 bs;
  tl_flag : flag (var s) = 1;
  tl_gone : rel = true → heap s !! Ptr b 0 = None;
  tl_objs : ∀ j b', bs !! j = Some b' → b' ≠ b ∨ rel = false →
    heap s !! Ptr b' 0 = Some (MyList (Some (10 * Z.of_nat j)));
  tl_new : heap s !! new_node = Some (MyList (Some 1400));
  tl_lists : is_list (lists s) head_mylist ns;
  tl_log : klog s = klog s0 ++ log;
  tl_view : view s = (c, 0%nat, if rel then [] else [rcu_of (Ptr b 0)]) }.

Lemma mid_tail s0 bs b ns log c s :
  mid s0 bs ns log 1400 1 (c, 0%nat, [rcu_of (Ptr b 0)]) s → bs !! 2%nat = Some b →
  tail s0 bs b ns log false c s.
Proof. intros [] Hb. split; auto; [|done]. simpl. set_solver. Qed.

Lemma tail_extra s0 bs b ns log rel c s x :
  tail s0 bs b ns log rel c s → rcu_view x = (c, 0%nat, if rel then [] else [rcu_of (Ptr b 0)]) →
  tail s0 bs b ns log rel c (set_extra x s).
Proof. intros [] Hx. split; unfold view; simpl_st; auto. Qed.

Lemma tail_print s0 bs b ns log rel c s m :
  tail s0 bs b ns log rel c s → tail s0 bs b ns (log ++ [m]) rel c (add_log m s).
Proof. intros []. split; unfold view in *; simpl_st; auto. rewrite app_assoc. congruence. Qed.

(** The end of a grace period: the callback, if it still waits. *)
Definition release_lines (rel : bool) : list msg := if rel then [] else release_log.

Lemma tail_grace {R} s0 bs b ns log rel c s (P : post R st unit) :
  tail s0 bs b ns log rel c s →
  (∀ s', tail s0 bs b ns (log ++ release_lines rel) true c s' → lists s' = lists s → on_next P tt s') →
  wp grace_period s P.
Proof.
  intros Ht HP. pose proof (view_inv _ _ _ _ (tl_view _ _ _ _ _ _ _ _ Ht)) as (Ec & En & Ep).
  unfold grace_period. apply wp_bind, wp_gets. simpl. rewrite Ep. apply wp_bind, wp_modify. simpl.
  assert (Hv : rcu_view (take_callbacks (extra s)) = (c, 0%nat, [])) by by rewrite take_callbacks_view, Ec, En.
  destruct rel; simpl.
  - apply wp_ret, HP; [|done]. rewrite app_nil_r. by apply tail_extra.
  - pose proof (tl_objs _ _ _ _ _ _ _ _ Ht 2 b (tl_dead _ _ _ _ _ _ _ _ Ht) (or_intror eq_refl)) as Hh.
    apply wp_bind, wp_call. unfold destroy_old_structure. apply wp_bind, wp_printk. simpl.
    apply wp_bind, wp_ret. simpl. apply wp_bind.
    eapply (ld_data_run _ 20); [simpl_st; exact Hh|done|]. simpl. apply wp_bind, wp_printk. simpl.
    destruct Ht as [Hnd Hbl Hb Hlv Hval Hfl _ Hob Hnew Hls Hlog _].
    assert (Hin : b ∈ bs) by by eapply list_elem_of_lookup_2.
    apply (wp_kfree_obj b); [simpl_st; rewrite Hlv; set_solver|].
    simpl. apply wp_ret, HP; [|by simpl_st]. split; unfold view; simpl_st; auto.
    + rewrite kfree_live, Hlv. set_solver.
    + intros _. apply lookup_delete_eq.
    + intros j b' Hj [Hne|?]; [|done]. rewrite lookup_delete_ne by congruence. auto.
    + rewrite lookup_delete_ne; [done|]. intros [= ->]. by destruct (Hbl 2%positive Hin) as [? _].
    + by rewrite Hlog, <- !app_assoc.
Qed.

(** The log of a sequence of moments, each with the lines printed before it,
    when grace periods end as [gp] says, and whether the callback has run. *)
Fixpoint weave (gp : moment → bool) (rel : bool) (l : list (moment * list msg)) : list msg :=
  match l with
  | [] => []
  | (m, ls) :: l => ls ++ (if gp m then release_lines rel else []) ++ weave gp (rel || gp m) l
  end.
Definition released (gp : moment → bool) (rel : bool) (l : list (moment * list msg)) : bool :=
  rel || existsb (gp ∘ fst) l.

Lemma weave_app gp rel l l' : weave gp rel (l ++ l') = weave gp rel l ++ weave gp (released gp rel l) l'.
Proof.
  unfold released. revert rel. induction l as [|[m ls] l IH]; intros rel; simpl; [by rewrite orb_false_r|].
  by rewrite IH, <- !app_assoc, orb_assoc.
Qed.

Lemma released_app gp rel l l' : released gp rel (l ++ l') = released gp (released gp rel l) l'.
Proof. unfold released. by rewrite existsb_app, orb_assoc. Qed.

Lemma tail_quiescent {R} gp m s0 bs b ns log rel c s :
  tail s0 bs b ns log rel c s →
  wp (quiescent gp m) s (safely (R:=R) (λ _ s',
    tail s0 bs b ns (log ++ weave gp rel [(m, [])]) (released gp rel [(m, [])]) c s')).
Proof.
  intros Ht. unfold quiescent, released. simpl. rewrite app_nil_r, orb_false_r. destruct (gp m).
  - eapply tail_grace; [exact Ht|]. intros s' Hs' _. simpl. by rewrite orb_true_r.
  - apply wp_ret. simpl. by rewrite (app_nil_r log), orb_false_r.
Qed.

(** *** The loops after the deletion *)

Lemma tail_heap s0 bs b ns log rel c s p d :
  tail s0 bs b ns log rel c s → holds bs 1400 p d → p ≠ node b →
  heap s !! container_of mylist_node p = Some (MyList (Some d)) ∧ container_of mylist_node p ≠ Null ∧ d ≠ 20.
Proof.
  intros Ht [j b' Hj|] Hp; [|by repeat split; [apply (tl_new _ _ _ _ _ _ _ _ Ht)|..]].
  assert (Hne : b' ≠ b) by congruence.
  split; [exact (tl_objs _ _ _ _ _ _ _ _ Ht _ _ Hj (or_introl Hne))|]. split; [done|].
  intros Hd. assert (j = 2%nat) as -> by lia. pose proof (tl_dead _ _ _ _ _ _ _ _ Ht). congruence.
Qed.

(** What a body may do to a node that is still in the list. *)
Definition walks (gp : moment → bool) (f : Z → moment * list msg) (body : ptr → M Z st unit)
    s0 (bs : list positive) (b : positive) (ns : list ptr) (c : ctx_view) : Prop :=
  ∀ log rel s p d, tail s0 bs b ns log rel c s → holds bs 1400 p d → p ≠ node b →
  wp (body (container_of mylist_node p)) s (safely (λ _ s',
    tail s0 bs b ns (log ++ weave gp rel [f d]) (released gp rel [f d]) c s')).

Lemma delete_walks gp s0 bs b ns c :
  walks gp (λ d, (InDelete d, [])) (delete_body gp) s0 bs b ns c.
Proof.
  intros log rel s p d Ht Hp Hne. destruct (tail_heap _ _ _ _ _ _ _ _ _ _ Ht Hp Hne) as (Hh & Hn & Hd).
  unfold delete_body. apply wp_bind. eapply ld_data_run; [done|done|]. simpl on_next.
  rewrite (proj2 (Z.eqb_neq _ _) Hd). apply wp_bind, wp_ret. simpl on_next. by apply tail_quiescent.
Qed.

Definition read_line (fmt : string) (d : Z) : moment * list msg := (InRead d, [value_line fmt d]).

Lemma read_walks gp fmt s0 bs b ns c :
  walks gp (read_line fmt) (read_body fmt (λ d, quiescent gp (InRead d))) s0 bs b ns c.
Proof.
  intros log rel s p d Ht Hp Hne. destruct (tail_heap _ _ _ _ _ _ _ _ _ _ Ht Hp Hne) as (Hh & Hn & _).
  pose proof (view_inv _ _ _ _ (tl_view _ _ _ _ _ _ _ _ Ht)) as (Ec & En & Ep).
  unfold read_body. apply wp_bind, wp_modify. simpl. apply wp_bind.
  eapply ld_data_run; [simpl_st; exact Hh|done|]. simpl. apply wp_bind, wp_printk. simpl.
  apply wp_bind, wp_modify. simpl. set (s1 := set_extra _ _).
  assert (H1 : tail s0 bs b ns (log ++ [value_line fmt d]) rel c s1).
  { unfold s1. apply (tail_extra _ _ _ _ _ _ _ (add_log (value_line fmt d) s)); [by apply tail_print|].
    simpl_st. rewrite read_unlock_view. pose proof (read_lock_view (extra s)) as Hl.
    unfold rcu_view in Hl. injection Hl as -> -> ->. simpl. by rewrite Ec, En, Ep. }
  eapply wp_safely_mono; [by apply tail_quiescent|]. intros [] s2 H2. simpl in H2 |- *.
  by rewrite <- app_assoc in H2.
Qed.

(** The rest of a loop, from where it is on. *)
Lemma walk gp f body fuel s0 bs b xs ys ds c log rel s (P : post Z st unit) :
  walks gp f body s0 bs b (xs ++ ys) c → tail s0 bs b (xs ++ ys) log rel c s →
  Forall2 (λ p d, holds bs 1400 p d ∧ p ≠ node b) ys ds → (length ys ≤ fuel)%nat →
  (∀ s', tail s0 bs b (xs ++ ys) (log ++ weave gp rel (f <$> ds)) (released gp rel (f <$> ds)) c s' →
     on_next P tt s') →
  wp (for_each_from fuel mylist_node head_mylist (hd head_mylist ys) body) s P.
Proof.
  intros Hb Ht Hys. revert xs fuel log rel s Hb Ht.
  induction Hys as [|p d ys ds [Hp Hne] Hys IH]; intros xs fuel log rel s Hb Ht Hf HP; simpl in Hf.
  - apply wp_for_each_nil, HP. unfold released. simpl. by rewrite (app_nil_r log), orb_false_r.
  - destruct fuel as [|fuel]; [lia|]. pose proof (is_list_nodup _ _ _ (tl_lists _ _ _ _ _ _ _ _ Ht)) as [Hh _]%NoDup_cons.
    simpl hd. apply wp_for_each_cons; [intros E; apply Hh; rewrite <- E; set_solver|].
    eapply wp_safely_mono; [by eapply Hb|]. intros [] s1 H1. simpl.
    destruct (tail_heap _ _ _ _ _ _ _ _ _ _ H1 Hp Hne) as (-> & _). split; [eauto|].
    rewrite (is_list_next _ _ _ _ _ (tl_lists _ _ _ _ _ _ _ _ H1)).
    replace (xs ++ p :: ys) with ((xs ++ [p]) ++ ys) in H1, Hb, HP by (by rewrite <- app_assoc).
    eapply IH; [exact Hb|exact H1|lia|]. intros s2 H2. apply HP.
    change (f <$> d :: ds) with ([f d] ++ (f <$> ds)). by rewrite weave_app, app_assoc, released_app.
Qed.
(** *** The whole of [start] *)

Lemma five_steps (f : nat) : (5 ≤ f)%nat → ∃ g, f = S (S (S (S (S g)))).
Proof. intros. exists (f - 5)%nat. lia. Qed.

Lemma new_fresh s0 bs ns log nv fl v s bs' :
  mid s0 bs ns log nv fl v s → bs' ⊆ bs →
  node_of new_node ∉ head_mylist :: (node <$> bs').
Proof.
  intros Hm Hs. apply not_elem_of_cons. split; [done|].
  intros (b & [= <-] & Hb)%list_elem_of_fmap.
  by destruct (mid_blocks _ _ _ _ _ _ _ _ Hm 2%positive (Hs _ Hb)) as [? _].
Qed.

Section five.
Context (b0 b1 b2 b3 b4 : positive).
Let bs := [b0; b1; b2; b3; b4].

(** The next iteration is on the object of index [j], which the body skips. *)
Local Ltac quiet xs skip j :=
  match goal with Hm : mid _ _ _ _ _ _ _ ?s |- _ =>
    eapply (quiet_step _ _ _ _ xs); [exact Hm|by apply (HoldsBlock _ _ j)|
      eapply skip; [exact Hm|by apply (HoldsBlock _ _ j)|done]|];
    clear dependent s; intros s Hm
  end.

Lemma replace_loop fuel s0 log nv fl c n pd s (P : post Z st unit) :
  mid s0 bs (node <$> [b4; b3; b2; b1; b0]) log nv fl (c, n, pd) s →
  mylist_lock ∉ c_held c → (5 ≤ fuel)%nat →
  (∀ s', mid s0 bs [node b4; node b3; node b2; node_of new_node; node b0] log 1400 fl (c, n, pd) s' →
     on_next P tt s') →
  wp (list_for_each_entry fuel mylist_node head_mylist replace_body) s P.
Proof.
  intros Hm Hc [g ->]%five_steps HP. pose proof (new_fresh _ _ _ _ _ _ _ _ [b4; b3; b2; b1; b0] Hm) as Hnew.
  eapply wp_for_each_start; [by eapply mid_lists|]. simpl hd.
  quiet (@nil ptr) replace_skip (4%nat).
  quiet [node b4] replace_skip (3%nat).
  quiet [node b4; node b3] replace_skip (2%nat).
  apply wp_for_each_cons; [done|].
  eapply wp_safely_mono; [eapply (replace_hit _ _ [node b4; node b3; node b2]); [exact Hm|done|done|]|].
  { apply Hnew. unfold bs. set_solver. }
  clear s Hm. intros [] s [Hm Hnx]. simpl.
  split; [eexists; by apply (mid_objs _ _ _ _ _ _ _ _ Hm 1)|]. 
  rewrite Hnx.
  quiet [node b4; node b3; node b2; node_of new_node] replace_skip (0%nat).
  by apply wp_for_each_nil, HP.
Qed.

(** The list after the deletion, and the values behind its nodes. *)
Let ns := [node b4; node b3; node_of new_node; node b0].

Lemma tail_values s0 log rel c s :
  tail s0 bs b2 ns log rel c s →
  Forall2 (λ p d, holds bs 1400 p d ∧ p ≠ node b2) ns [40; 30; 1400; 0].
Proof.
  intros Ht. pose proof (tl_nodup _ _ _ _ _ _ _ _ Ht) as Hnd. unfold bs in Hnd.
  repeat setoid_rewrite NoDup_cons in Hnd.
  assert (∀ b, b ≠ b2 → node b ≠ node b2) by (intros b Hb E; apply Hb; by injection E).
  assert (node_of new_node ≠ node b2).
  { intros [= E]. destruct (tl_blocks _ _ _ _ _ _ _ _ Ht b2) as [Hs _]; [unfold bs; set_solver|].
    by rewrite <- E in Hs. }
  repeat constructor; try done;
    try (by apply (HoldsBlock _ _ 4)); try (by apply (HoldsBlock _ _ 3)); try (by apply (HoldsBlock _ _ 0));
    auto; set_solver.
Qed.

(** The part of the deletion loop up to the node that is deleted. *)
Lemma delete_reach gp fuel s0 log c s (P : post Z st unit) :
  mid s0 bs [node b4; node b3; node b2; node_of new_node; node b0] log 1400 0
    (take_lock mylist_lock c, 0%nat, []) s →
  mylist_lock ∉ c_held c → (5 ≤ fuel)%nat →
  (∀ g s', (2 ≤ g)%nat → tail s0 bs b2 ns log false c s' →
     list_next (lists s') (node b2) = node_of new_node →
     wp (quiescent gp (InDelete 20)) s' (Post (λ _ s',
       wp (b ← gets (node_live mylist_node (node b2)); guard_ b BadDeref;;
           nxt ← gets (λ s, list_next (lists s) (node b2));
           for_each_from g mylist_node head_mylist nxt (delete_body gp)) s' P)
       (on_return P) (on_fault P))) →
  wp (list_for_each_entry fuel mylist_node head_mylist (delete_body gp)) s P.
Proof.
  intros Hm Hc [g ->]%five_steps HP. eapply wp_for_each_start; [by eapply mid_lists|]. simpl hd.
  quiet (@nil ptr) delete_skip (4%nat).
  quiet [node b4] delete_skip (3%nat).
  simpl hd. rewrite for_each_from_S by done. apply wp_bind.
  eapply (delete_hit _ _ _ [node b4; node b3]); [exact Hm|done|done|]. clear s Hm. intros s Hm Hnx.
  apply HP; [lia|by apply mid_tail|exact Hnx].
Qed.

(** The moments of the deletion loop after that. *)
Definition delete_events : list (moment * list msg) := (λ d, (InDelete d, [])) <$> [1400; 0].

Lemma delete_loop gp fuel s0 log c s (P : post Z st unit) :
  mid s0 bs [node b4; node b3; node b2; node_of new_node; node b0] log 1400 0
    (take_lock mylist_lock c, 0%nat, []) s →
  mylist_lock ∉ c_held c → (5 ≤ fuel)%nat → gp (InDelete 20) = false →
  (∀ s', tail s0 bs b2 ns (log ++ weave gp false delete_events) (released gp false delete_events) c s' →
     on_next P tt s') →
  wp (list_for_each_entry fuel mylist_node head_mylist (delete_body gp)) s P.
Proof.
  intros Hm Hc Hf Hgp HP. eapply delete_reach; [exact Hm|done|done|]. clear s Hm.
  intros g s Hg Ht Hnx. unfold quiescent. rewrite Hgp. apply wp_ret. simpl. apply wp_bind, wp_gets. simpl.
  unfold node_live. rewrite bool_decide_true
    by (eexists; by apply (tl_objs _ _ _ _ _ _ _ _ Ht 2 b2); [|right]).
  apply wp_bind, wp_ret. simpl. apply wp_bind, wp_gets. simpl. rewrite Hnx.
  pose proof (tail_values _ _ _ _ _ Ht) as Hv.
  apply (walk gp (λ d, (InDelete d, [])) (delete_body gp) g s0 bs b2 [node b4; node b3]
    [node_of new_node; node b0] [1400; 0] c log false s P (delete_walks gp s0 bs b2 ns c) Ht); [|done|done].
  by apply Forall2_drop with (n := 2%nat) in Hv.
Qed.

(** A grace period that ends right after [call_rcu]. *)
Lemma delete_loop_early gp fuel s0 log c s (P : post Z st unit) :
  mid s0 bs [node b4; node b3; node b2; node_of new_node; node b0] log 1400 0
    (take_lock mylist_lock c, 0%nat, []) s →
  mylist_lock ∉ c_held c → (5 ≤ fuel)%nat → gp (InDelete 20) = true →
  (∀ s', klog s' = klog s0 ++ log ++ release_log → on_fault P BadDeref s') →
  wp (list_for_each_entry fuel mylist_node head_mylist (delete_body gp)) s P.
Proof.
  intros Hm Hc Hf Hgp HP. eapply delete_reach; [exact Hm|done|done|]. clear s Hm.
  intros g s Hg Ht Hnx. unfold quiescent. rewrite Hgp. eapply tail_grace; [exact Ht|].
  intros s1 H1 _. simpl. apply wp_bind, wp_gets. simpl. unfold node_live. rewrite bool_decide_false.
  - apply HP. exact (tl_log _ _ _ _ _ _ _ _ H1).
  - intros [y E]. change (heap s1 !! Ptr b2 0 = Some y) in E.
    rewrite (tl_gone _ _ _ _ _ _ _ _ H1) in E by done. done.
Qed.

Definition read_events : list (moment * list msg) := read_line "value(2) = %d\n" <$> [40; 30; 1400; 0].

Lemma last_loop gp fuel s0 log rel c s (P : post Z st unit) :
  tail s0 bs b2 ns log rel c s → (5 ≤ fuel)%nat →
  (∀ s', tail s0 bs b2 ns (log ++ weave gp rel read_events) (released gp rel read_events) c s' →
     on_next P tt s') →
  wp (list_for_each_entry fuel mylist_node head_mylist
        (read_body "value(2) = %d\n" (λ d, quiescent gp (InRead d)))) s P.
Proof.
  intros Ht Hf HP. eapply wp_for_each_start; [exact (tl_lists _ _ _ _ _ _ _ _ Ht)|].
  eapply (walk gp _ _ _ _ _ _ [] ns); [apply read_walks|exact Ht|by eapply tail_values|simpl; lia|done].
Qed.
End five.

(** *** Loading the module *)

(** The state the module is loaded in: the list is empty, [new_node] and the
    globals are zero, the context holds no lock and is in no read section, and
    no callback of the module waits. *)
Record fresh_module s : Prop := Fresh {
  fr_new : heap s !! new_node = Some (MyList (Some 0));
  fr_var : var s = Globals (replicate 5 Null) 0;
  fr_list : is_list (lists s) head_mylist [];
  fr_held : c_held (ctx (extra s)) = ∅;
  fr_nest : nesting (extra s) = 0%nat;
  fr_pending : pending (extra s) = [] }.

(** What is printed before the deletion, and the whole log with the lines of the
    callback where it runs. *)
Definition first_log : list msg :=
  hello :: (value_line "value(0) = %d\n" <$> [40; 30; 20; 10; 0]) ++
  (value_line "value(1) = %d\n" <$> [40; 30; 20; 1400; 0]).
Definition last_events : list (moment * list msg) := delete_events ++ read_events.
Definition start_log (gp : moment → bool) : list msg := first_log ++ weave gp false last_events.

(** Five blocks were allocated; [b2] was released or waits for the callback. *)
Inductive started (gp : moment → bool) s0 s : Prop :=
  | Started b0 b1 b2 b3 b4 :
      tail s0 [b0; b1; b2; b3; b4] b2 [node b4; node b3; node_of new_node; node b0] (start_log gp)
        (released gp false last_events) (ctx (extra s0)) s → started gp s0 s.

(** What is left of [start] after the third print loop. *)
Definition start_tail (fuel : nat) (gp : moment → bool) : M Z st Z :=
  list_for_each_entry fuel mylist_node head_mylist (delete_body gp);;
  fl ← gets (λ s, flag (var s));
  (if fl =? 0 then unlock mylist_lock else mret tt);;
  list_for_each_entry fuel mylist_node head_mylist
    (read_body "value(2) = %d\n" (λ d, quiescent gp (InRead d)));;
  return_ 0.

Lemma start_to_delete fuel gp s (P : post Z st Z) :
  fresh_module s → (5 ≤ fuel)%nat →
  (∀ b0 b1 b2 b3 b4 s',
     mid s [b0; b1; b2; b3; b4] [node b4; node b3; node b2; node_of new_node; node b0]
       first_log 1400 0
       (take_lock mylist_lock (ctx (extra s)), 0%nat, []) s' →
     wp (start_tail fuel gp) s' P) →
  (∀ bs s', (length bs < 5)%nat → failed s bs s' → on_return P (-1) s') →
  wp (start fuel gp) s P.
Proof.
  intros [Hn Hv Hl Hh Hne Hpd] Hf HN HR. unfold start. apply wp_bind, wp_printk. simpl.
  set (c := ctx (extra s)). set (pd := @nil ptr).
  assert (Hlk : mylist_lock ∉ c_held c) by (unfold c; rewrite Hh; set_solver).
  assert (Hvw : view s = (c, 0%nat, pd)) by (unfold view, rcu_view; by rewrite Hne, Hpd).
  apply wp_bind. eapply (rcu_alloc_loop s _ (c, 0%nat, pd)); [|done| |by intros; apply (HR bs)].
  { split; simpl_st; rewrite ?Hv; try done; [constructor|set_solver|set_solver]. }
  intros bs s1 Hlen Hm. destruct bs as [|b0 [|b1 [|b2 [|b3 [|b4 [|]]]]]]; try done. clear Hlen.
  simpl on_next. apply wp_bind. eapply add_loop; [exact Hm|done|done|]. clear s1 Hm. intros s1 Hm.
  simpl on_next. apply wp_bind. eapply (read_loop _ _ _ _ _ [40; 30; 20; 10; 0]); [exact Hm| |done|].
  { repeat constructor; [by apply (HoldsBlock _ _ 4)|by apply (HoldsBlock _ _ 3)|
      by apply (HoldsBlock _ _ 2)|by apply (HoldsBlock _ _ 1)|by apply (HoldsBlock _ _ 0)]. }
  clear s1 Hm. intros s1 Hm. simpl on_next. apply wp_bind.
  eapply synchronize_run; [exact Hm|done|]. clear s1 Hm. intros s1 Hm. simpl on_next. apply wp_bind.
  eapply replace_loop; [exact Hm|done|done|]. clear s1 Hm. intros s1 Hm. simpl on_next. apply wp_bind.
  eapply synchronize_run; [exact Hm|done|]. clear s1 Hm. intros s1 Hm. simpl on_next. apply wp_bind.
  eapply (read_loop _ _ _ _ _ [40; 30; 20; 1400; 0]); [exact Hm| |done|].
  { repeat constructor; [by apply (HoldsBlock _ _ 4)|by apply (HoldsBlock _ _ 3)|
      by apply (HoldsBlock _ _ 2)|by apply (HoldsBlock _ _ 0)]. }
  clear s1 Hm. intros s1 Hm. simpl on_next. apply wp_bind, wp_modify. simpl on_next.
  apply mid_set_flag with (fl' := 0) in Hm. apply wp_bind. eapply lock_run; [exact Hm|done|].
  clear s1 Hm. intros s1 Hm. simpl on_next. eapply HN. exact Hm.
Qed.

Lemma start_run fuel gp s :
  fresh_module s → (5 ≤ fuel)%nat → gp (InDelete 20) = false →
  wp (start fuel gp) s (returns (λ r s',
    (r = 0 ∧ started gp s s') ∨ (r = -1 ∧ ∃ bs, (length bs < 5)%nat ∧ failed s bs s'))).
Proof.
  intros Hfr Hf Hgp. pose proof (fr_held _ Hfr) as Hh.
  assert (Hlk : mylist_lock ∉ c_held (ctx (extra s))) by (rewrite Hh; set_solver).
  apply start_to_delete; [done|done| |by intros; right; eauto].
  intros b0 b1 b2 b3 b4 s1 Hm. unfold start_tail. apply wp_bind.
  eapply delete_loop; [exact Hm|done|done|done|]. clear s1 Hm. intros s1 Ht. simpl on_next.
  apply wp_bind, wp_gets. simpl on_next. rewrite (tl_flag _ _ _ _ _ _ _ _ Ht).
  apply wp_bind, wp_ret. simpl on_next. apply wp_bind. eapply last_loop; [exact Ht|done|].
  clear s1 Ht. intros s1 Ht. simpl on_next. apply wp_return. left. split; [done|].
  apply (Started _ _ _ b0 b1 b2 b3 b4). unfold start_log, last_events.
  by rewrite weave_app, released_app, app_assoc.
Qed.

(** C21: loading the module, with any services that behave as documented and
    whenever grace periods end, except inside the iteration that deletes the node: when every
    allocation succeeds [start] returns 0 and has printed the values of the
    sample output (not its lines of ===, which no statement prints), with the lines of the callback where the grace period ended;
    every spin lock it took is released, no read section is open, the list has
    lost the node of value 20 and has 1400 in the place of 10; the lost node was
    released once, by the callback, or its callback waits.  When an allocation
    fails it returns -1 and the blocks allocated before stay allocated. *)
Theorem rcu_start_correct fuel gp s :
  fresh_module s → (5 ≤ fuel)%nat → gp (InDelete 20) = false →
  wp (start fuel gp) s (returns (λ r s',
    (r = 0 ∧ started gp s s') ∨ (r = -1 ∧ ∃ bs, (length bs < 5)%nat ∧ failed s bs s'))).
Proof. apply start_run. Qed.

Definition goodbye : msg := Msg KERN_INFO "Goodbye\n" [].

(** The moments of the whole life, whether the callback runs in time, and the
    log. *)
Definition life_events : list (moment * list msg) := last_events ++ [(BeforeEnd, [])].
Definition in_time (gp : moment → bool) : bool := released gp false life_events.
Definition life_log (gp : moment → bool) : list msg :=
  first_log ++ weave gp false life_events ++ [goodbye].

(** Without the callback's two lines it is always the same, and those are there
    once when the callback runs in time and otherwise not at all. *)
Definition module_log : list msg :=
  first_log ++ (value_line "value(2) = %d\n" <$> [40; 30; 1400; 0]) ++ [goodbye].

Lemma life_log_once gp :
  filter (λ m, m ∈ release_log) (life_log gp) = (if in_time gp then release_log else []) ∧
  filter (λ m, m ∉ release_log) (life_log gp) = module_log.
Proof.
  unfold life_log, life_events, in_time, released. simpl.
  destruct (gp (InDelete 1400)), (gp (InDelete 0)), (gp (InRead 40)), (gp (InRead 30)),
    (gp (InRead 1400)), (gp (InRead 0)), (gp BeforeEnd); vm_compute; split; reflexivity.
Qed.

(** Of the five blocks the one of the deleted node is free again. *)
Definition four_leaked s0 s : Prop :=
  ∃ bs, length bs = 4%nat ∧ NoDup bs ∧ (∀ b, b ∈ bs → b ∉ live (slab s0)) ∧
    live (slab s) = list_to_set bs ∪ live (slab s0).

Lemma tail_leaks s0 b0 b1 b2 b3 b4 ns log c s :
  tail s0 [b0; b1; b2; b3; b4] b2 ns log true c s → four_leaked s0 s.
Proof.
  intros Ht. pose proof (tl_nodup _ _ _ _ _ _ _ _ Ht) as Hnd. pose proof (tl_blocks _ _ _ _ _ _ _ _ Ht) as Hbl.
  exists [b0; b1; b3; b4]. split; [done|]. repeat setoid_rewrite NoDup_cons in Hnd.
  repeat setoid_rewrite NoDup_cons. split; [set_solver|].
  split; [intros b Hb; apply Hbl; set_solver|].
  rewrite (tl_live _ _ _ _ _ _ _ _ Ht).
  assert (b2 ∉ live (slab s0)) by (apply Hbl; set_solver). set_solver.
Qed.

Lemma unload_run gp s s1 (P : post Z st Z) :
  started gp s s1 →
  (in_time gp = true → ∀ s', klog s' = klog s ++ life_log gp → four_leaked s s' → on_return P 0 s') →
  (in_time gp = false → ∀ s', klog s' = klog s ++ life_log gp → on_fault P BadDeref s') →
  wp (quiescent gp BeforeEnd;; call end_;; gone_callbacks;; return_ 0) s1 P.
Proof.
  intros [b0 b1 b2 b3 b4 Ht] HR HF. apply wp_bind. eapply wp_safely_mono; [by apply tail_quiescent|].
  clear s1 Ht. intros [] s1 Ht. unfold start_log in Ht.
  rewrite <- (app_assoc first_log), <- weave_app, <- released_app in Ht. fold life_events in Ht.
  fold (in_time gp) in Ht. apply tail_print with (m := goodbye) in Ht. rewrite <- app_assoc in Ht.
  fold (life_log gp) in Ht. apply wp_bind, wp_call, wp_printk. simpl. fold goodbye.
  set (s2 := add_log goodbye s1) in *. clearbody s2. clear s1.
  pose proof (view_inv _ _ _ _ (tl_view _ _ _ _ _ _ _ _ Ht)) as (_ & _ & Ep).
  pose proof (tl_log _ _ _ _ _ _ _ _ Ht) as Hl.
  apply wp_bind, wp_bind, wp_gets. simpl. rewrite Ep. destruct (in_time gp).
  - apply wp_ret. simpl. apply wp_return, HR; [done|done|by eapply tail_leaks].
  - by apply HF.
Qed.

(** C22: the whole life of the module, whenever the grace periods end.  If one
    ends before the unloading, the callback runs exactly once, its two lines are
    in the log once, it releases the node of value 20 and only it, and the other
    four blocks are never released: the node that was replaced and the three
    still linked are leaked.  If none does, the callback runs when its code is
    gone, since nothing waits for it in [end]. *)
Theorem lifecycle_leaks fuel gp s :
  fresh_module s → (5 ≤ fuel)%nat → gp (InDelete 20) = false →
  wp (lifecycle fuel gp) s (Post (λ _ _, False)
    (λ r s', (r = 0 ∧ in_time gp = true ∧ four_leaked s s' ∧
        ∃ log, klog s' = klog s ++ log ∧ filter (λ m, m ∈ release_log) log = release_log ∧
          filter (λ m, m ∉ release_log) log = module_log) ∨
      (r = -1 ∧ ∃ bs, (length bs < 5)%nat ∧ failed s bs s'))
    (λ f s', f = BadDeref ∧ in_time gp = false ∧ 
        ∃ log, klog s' = klog s ++ log ∧ filter (λ m, m ∈ release_log) log = [] ∧
          filter (λ m, m ∉ release_log) log = module_log)).
Proof.
  intros Hfr Hf Hgp. unfold lifecycle. apply wp_bind, wp_call.
  pose proof (life_log_once gp) as [H1 H2].
  eapply wp_mono; [by apply start_run|..|done]; simpl;
    (intros r s1 [[-> Hst]|[-> Hb]]; simpl; [|by right]); (eapply unload_run; [done|..]);
    intros E s' Hl; rewrite E in H1; simpl; eauto 10.
Qed.

(** C23: nothing keeps the grace period from ending right after [call_rcu],
    since the deletion loop runs in no read section and has already dropped
    the lock: then, when the allocations succeed, the callback frees the node
    the loop is on and the loop reads its link from freed memory. *)
Theorem early_grace_use_after_free fuel gp s :
  fresh_module s → (5 ≤ fuel)%nat → gp (InDelete 20) = true →
  wp (start fuel gp) s (Post (λ _ _, False)
    (λ r s', r = -1 ∧ ∃ bs, (length bs < 5)%nat ∧ failed s bs s')
    (λ f s', f = BadDeref ∧ klog s' = klog s ++ first_log ++ release_log)).
Proof.
  intros Hfr Hf Hgp. pose proof (fr_held _ Hfr) as Hh.
  assert (Hlk : mylist_lock ∉ c_held (ctx (extra s))) by (rewrite Hh; set_solver).
  apply start_to_delete; [done|done| |by intros bs s' ??; split; [|exists bs]].
  intros b0 b1 b2 b3 b4 s1 Hm. unfold start_tail. apply wp_bind.
  by eapply delete_loop_early; [exact Hm|..].
Qed.
End proofs.

(** ** A concrete RCU service *)

Record rcu_model := RcuModel { rm_ctx : spin_model; rm_nest : nat; rm_pending : list ptr }.

Definition on_rm (g : spin_model → spin_model) (x : rcu_model) : rcu_model :=
  RcuModel (g (rm_ctx x)) (rm_nest x) (rm_pending x).
Definition on_rm' {B} (g : spin_model → B * spin_model) (x : rcu_model) : B * rcu_model :=
  let '(b, c) := g (rm_ctx x) in (b, RcuModel c (rm_nest x) (rm_pending x)).

#[global] Instance rcu_model_spin : SpinLock rcu_model := {
  ctx x := ctx (rm_ctx x);
  spin_lock_init p := on_rm (spin_lock_init p);
  spin_lock p := on_rm (spin_lock p);
  spin_unlock p := on_rm (spin_unlock p);
  spin_is_locked p x := spin_is_locked p (rm_ctx x);
  spin_trylock p := on_rm' (spin_trylock p);
  spin_lock_irqsave p := on_rm' (spin_lock_irqsave p);
  spin_unlock_irqrestore p b := on_rm (spin_unlock_irqrestore p b);
  spin_lock_irq p := on_rm (spin_lock_irq p);
  spin_unlock_irq p := on_rm (spin_unlock_irq p);
  spin_lock_bh p := on_rm (spin_lock_bh p);
  spin_unlock_bh p := on_rm (spin_unlock_bh p) }.

#[global] Instance rcu_model_ops : Rcu rcu_model := {
  nesting := rm_nest;
  pending := rm_pending;
  rcu_read_lock x := RcuModel (rm_ctx x) (S (rm_nest x)) (rm_pending x);
  rcu_read_unlock x := RcuModel (rm_ctx x) (pred (rm_nest x)) (rm_pending x);
  synchronize_rcu x := x;
  call_rcu h x := RcuModel (rm_ctx x) (rm_nest x) (rm_pending x ++ [h]);
  take_callbacks x := RcuModel (rm_ctx x) (rm_nest x) [] }.

#[global] Instance rcu_model_spin_laws : SpinLaws rcu_model.
Proof.
  split; try done.
  - intros p x Hp. exact (spin_is_locked_held (K:=spin_model) p (rm_ctx x) Hp).
  - intros p x r x' E. change (on_rm' (spin_trylock p) x = (r, x')) in E. unfold on_rm' in E.
    destruct (spin_trylock p (rm_ctx x)) eqn:E'.
    injection E as <- <-. exact (spin_trylock_held (K:=spin_model) _ _ _ _ E').
  - intros p x r x' E. change (on_rm' (spin_trylock p) x = (r, x')) in E. unfold on_rm' in E.
    destruct (spin_trylock p (rm_ctx x)) eqn:E'.
    injection E as <- <-. exact (spin_trylock_other (K:=spin_model) _ _ _ _ E').
  - intros p x b x' [= <- <-]. done.
Qed.

#[global] Instance rcu_model_laws : RcuLaws rcu_model.
Proof. by split. Qed.

Abbreviation model_st := (sys (kstate slab_model links rcu_model) (objs mylist globals)).

(** The module as it is loaded, with the outcomes [o] of the coming requests. *)
Definition loaded (o : list bool) : model_st :=
  Sys (KState (SlabModel o ∅) {[ head_mylist := (head_mylist, head_mylist) ]}
         (RcuModel (SpinModel true (Ctx ∅ true 0)) 0 []))
    (Objs {[ new_node := MyList (Some 0) ]} (Globals (replicate 5 Null) 0)) [].

Lemma loaded_fresh o : fresh_module (loaded o).
Proof.
  split; [done|done| |done|done|done]. repeat split; apply NoDup_singleton.
Qed.

(** The grace period ends after [start], or while the last loop is on the node
    of value 30, or at once. *)
Definition late (m : moment) : bool := match m with BeforeEnd => true | _ => false end.
Definition never (m : moment) : bool := false.
Definition at_30 (m : moment) : bool := match m with InRead d => d =? 30 | _ => false end.
Definition at_once (m : moment) : bool := match m with InDelete d => d =? 20 | _ => false end.

Lemma rcu_start_correct_witness :
  wp (start 5 at_30) (loaded []) (returns (λ r s',
    (r = 0 ∧ started at_30 (loaded []) s') ∨
    (r = -1 ∧ ∃ bs, (length bs < 5)%nat ∧ failed (loaded []) bs s'))).
Proof. exact (rcu_start_correct 5 at_30 (loaded []) (loaded_fresh []) (le_n 5) eq_refl). Defined.

Lemma lifecycle_leaks_witness :
  wp (lifecycle 5 at_30) (loaded []) (Post (λ _ _, False)
    (λ r s', (r = 0 ∧ in_time at_30 = true ∧ four_leaked (loaded []) s' ∧
        ∃ log, klog s' = klog (loaded []) ++ log ∧ filter (λ m, m ∈ release_log) log = release_log ∧
          filter (λ m, m ∉ release_log) log = module_log) ∨
      (r = -1 ∧ ∃ bs, (length bs < 5)%nat ∧ failed (loaded []) bs s'))
    (λ f s', f = BadDeref ∧ in_time at_30 = false ∧ 
        ∃ log, klog s' = klog (loaded []) ++ log ∧ filter (λ m, m ∈ release_log) log = [] ∧
          filter (λ m, m ∉ release_log) log = module_log)).
Proof. exact (lifecycle_leaks 5 at_30 (loaded []) (loaded_fresh []) (le_n 5) eq_refl). Defined.

Lemma early_grace_use_after_free_witness :
  wp (start 5 at_once) (loaded []) (Post (λ _ _, False)
    (λ r s', r = -1 ∧ ∃ bs, (length bs < 5)%nat ∧ failed (loaded []) bs s')
    (λ f s', f = BadDeref ∧ klog s' = klog (loaded []) ++ first_log ++ release_log)).
Proof. exact (early_grace_use_after_free 5 at_once (loaded []) (loaded_fresh []) (le_n 5) eq_refl). Defined.

(** rcu/sample_output, less its remarks after a #.  Three of its lines are
    separators, which the module does not print. *)
Inductive sample_line := Printed (m : msg) | Separator.

Definition sample_output : list sample_line :=
  Printed hello
    :: (Printed ∘ value_line "value(0) = %d\n" <$> [40; 30; 20; 10; 0]) ++ Separator
    :: (Printed ∘ value_line "value(1) = %d\n" <$> [40; 30; 20; 1400; 0]) ++ Separator
    :: (Printed ∘ value_line "value(2) = %d\n" <$> [40; 30; 1400; 0]) ++ Separator
    :: (Printed <$> release_log) ++ [Printed goodbye].

Definition sample_log : list msg :=
  omap (λ l, match l with Printed m => Some m | Separator => None end) sample_output.

(** The sample output without its separators, the callback in the last loop, a failing third
    allocation, and no grace period before the unloading. *)
Example lifecycle_runs :
  returned (lifecycle 5 late (loaded [])) = Some (0, sample_log) ∧
  returned (lifecycle 5 at_30 (loaded [])) =
    Some (0, first_log ++ (value_line "value(2) = %d\n" <$> [40; 30]) ++ release_log ++
             (value_line "value(2) = %d\n" <$> [1400; 0]) ++ [goodbye]) ∧
  returned (lifecycle 5 late (loaded [true; true; false])) =
    Some (-1, [hello; Msg KERN_INFO "Malloc failed for %d\n" [AInt 2]]) ∧
  returned (lifecycle 5 never (loaded [])) = None.
Proof. repeat split; vm_compute; reflexivity. Qed.
