(* ===== verification/Mmap.v ===== *)
(** * mmap/code.c

    The character device whose buffer a process can map: load, open, mmap,
    release and unload, in any order the file system can call them, with the
    64-bit address arithmetic of [dev_mmap]. *)
From stdpp Require Import base gmap strings list.
From Stdlib Require Import ZArith Lia.
From S2P Require Import Prelude Kernel KernelModel Vfs.

(** ** 64-bit words *)

Definition w64 : Z := 2 ^ 64.
Definition wrap64 (z : Z) : Z := z mod w64.

Definition PAGE_SHIFT : Z := 12.

(** [x << PAGE_SHIFT] and [x >> PAGE_SHIFT] on [unsigned long]. *)
Definition shl_page (x : Z) : Z := wrap64 (Z.shiftl x PAGE_SHIFT).
Definition shr_page (x : Z) : Z := Z.shiftr x PAGE_SHIFT.

(** ** The services

    Registration of the device, the physical address of a kernel pointer, and
    the installation of page table entries, which the mapped frames record.
    Memory from [kmalloc] is mapped linearly. *)

(** A call of [remap_pfn_range]: address, first frame, size, protection. *)
Record mapping := Mapping { m_addr : Z; m_pfn : Z; m_size : Z; m_prot : Z }.

Definition majorNumber : Z := 150.

Class DevApi (X : Type) := {
  registered : X → bool;
  mapped : X → list mapping;
  register_chrdev : Z → X → Z * X;
  unregister_chrdev : Z → X → X;
  virt_to_phys : ptr → Z;
  remap_pfn_range : mapping → X → Z * X }.

Class DevLaws (X : Type) `{DevApi X} : Prop := {
  register_spec x r x' : register_chrdev majorNumber x = (r, x') →
    mapped x' = mapped x ∧ registered x' = if decide (r < 0) then registered x else true;
  unregister_spec x :
    mapped (unregister_chrdev majorNumber x) = mapped x ∧
    registered (unregister_chrdev majorNumber x) = false;
  remap_spec v x r x' : remap_pfn_range v x = (r, x') →
    registered x' = registered x ∧
    mapped x' = if decide (r = 0) then mapped x ++ [v] else mapped x;
  virt_linear b o : virt_to_phys (Ptr b o) = wrap64 (virt_to_phys (Ptr b 0) + o) }.

(** The physical address of a block. *)
Definition phys_base {X} `{DevApi X} (b : positive) : Z := virt_to_phys (Ptr b 0).

(** ** Data *)

Definition SIZE : Z := 4096.
Definition EAGAIN : Z := 11.

(** [buffer]; the bytes it points to are not accessed by the module. *)
Record globals := Globals { buffer : ptr }.

Section module.
Context {A X : Type} `{Slab A, DevApi X}.
Abbreviation st := (sys (kstate A unit X) (objs unit globals)).

Definition on_x' {R B} (g : X → B * X) : M R st B := λ s,
  let '(b, x) := g (extra s) in Next b (set_extra x s).

(** [static int __init mmap_example_init(void)]. *)
Definition mmap_example_init : M Z st Z :=
  ret ← on_x' (register_chrdev majorNumber);
  (if ret <? 0 then
     printk KERN_ALERT "failed to register a major number %d\n" [AInt ret];; return_ ret
   else mret tt);;
  printk KERN_INFO "registered correctly with major number %d\n" [AInt majorNumber];;
  p ← kmalloc_obj SIZE GFP_KERNEL tt;
  modify (λ s, set_var (Globals p) s);;
  b ← gets (λ s, buffer (var s));
  (if is_null b then printk KERN_ALERT "failed to allocate memory \n" [];; return_ (-1)
   else mret tt);;
  return_ 0.

(** [int dev_open(...)]. *)
Definition dev_open : M Z st Z :=
  printk KERN_INFO "Device opened\n" [];; return_ 0.

(** [if (buffer) kfree(buffer);] *)
Definition free_buffer {R} : M R st unit :=
  b ← gets (λ s, buffer (var s));
  if negb (is_null b) then kfree_obj b else mret tt.

(** [int dev_release(...)]. *)
Definition dev_release : M Z st Z :=
  free_buffer;;
  printk KERN_INFO "Device successfully closed\n" [];;
  return_ 0.

(** [int dev_mmap(...)], with the area as its argument. *)
Definition dev_mmap (vma : vm_area_struct) : M Z st Z :=
  let offset := shl_page (vm_pgoff vma) in
  let size := wrap64 (vm_end vma - vm_start vma) in
  printk KERN_INFO "Nothing for mmap now %lu %lu\n" [AInt size; AInt offset];;
  b ← gets (λ s, buffer (var s));
  let pfn := shr_page (virt_to_phys (member_of offset b)) in
  r ← on_x' (remap_pfn_range (Mapping (vm_start vma) pfn size (vm_page_prot vma)));
  rc ← (if negb (r =? 0) then
          printk KERN_INFO "mmap allocation FAILED \n" [];; mret (- EAGAIN)
        else printk KERN_INFO "mmap allocation PASSED \n" [];; mret 0);
  return_ rc.

(** [static struct file_operations fops]. *)
Definition fops : file_operations st :=
  FileOps false (Some dev_open) (Some dev_mmap) None None (Some dev_release).

(** [static void __exit mmap_example_exit(void)]. *)
Definition mmap_example_exit : M unit st unit :=
  free_buffer;;
  modify (λ s, set_extra (unregister_chrdev majorNumber (extra s)) s);;
  printk KERN_INFO "Goodbye, World!\n" [].
End module.

(** ** The device in use *)

(** A call the file system makes on the open device. *)
Inductive dev_op := Open | MMap (vma : vm_area_struct) | Release.

Definition is_release (o : dev_op) : bool := match o with Release => true | _ => false end.
Definition releases (os : list dev_op) : nat := length (filter is_release os).

Section proofs.
Context {A X : Type} `{ops_a : Slab A, !SlabLaws A, ops_x : DevApi X, !DevLaws X}.
Abbreviation st := (sys (kstate A unit X) (objs unit globals)).
Implicit Types (s : st).

Definition dev_call {R} (o : dev_op) : M R st Z :=
  match o with
  | Open => vfs_open fops
  | MMap vma => vfs_mmap fops vma
  | Release => vfs_release fops
  end.

Fixpoint run_ops (os : list dev_op) : M Z st unit :=
  match os with
  | [] => mret tt
  | o :: os => dev_call o;; run_ops os
  end.

(** The module is loaded with the block [b] as its buffer. *)
Definition serving (b : positive) s : Prop := buffer (var s) = Ptr b 0 ∧ b ∈ live (slab s).
(** The block was released but [buffer] still points to it. *)
Definition stale (b : positive) s : Prop := buffer (var s) = Ptr b 0 ∧ b ∉ live (slab s).

(** [mmap_example_init] by the answer of [register_chrdev] and that of the
    allocator. *)
Definition failed_line (r : Z) : msg := Msg KERN_ALERT "failed to register a major number %d\n" [AInt r].
Definition registered_line : msg :=
  Msg KERN_INFO "registered correctly with major number %d\n" [AInt majorNumber].
Definition no_memory_line : msg := Msg KERN_ALERT "failed to allocate memory \n" [].

Lemma init_run s r x (P : post Z st Z) :
  register_chrdev majorNumber (extra s) = (r, x) →
  (r < 0 → ∀ s', extra s' = x → slab s' = slab s → glob s' = glob s →
     klog s' = klog s ++ [failed_line r] → on_return P r s') →
  (0 ≤ r → ∀ s', extra s' = x → live (slab s') = live (slab s) → buffer (var s') = Null →
     klog s' = klog s ++ [registered_line; no_memory_line] → on_return P (-1) s') →
  (0 ≤ r → ∀ b s', extra s' = x → b ∉ live (slab s) → live (slab s') = {[b]} ∪ live (slab s) →
     buffer (var s') = Ptr b 0 → klog s' = klog s ++ [registered_line] → on_return P 0 s') →
  wp mmap_example_init s P.
Proof.
  intros E HF HN HS. unfold mmap_example_init. apply wp_bind. unfold on_x', wp at 1. rewrite E.
  simpl sat. apply wp_bind. destruct (Z.ltb_spec r 0) as [Hlt|Hge].
  - apply wp_bind, wp_printk. simpl. apply wp_return. apply HF; by simpl_st.
  - apply wp_ret. simpl. apply wp_bind, wp_printk. simpl. apply wp_bind, wp_kmalloc_obj.
    + intros a Ha. simpl. wp_steps. apply HN; simpl_st; [done|done|by rewrite Ha|done|by rewrite <- app_assoc].
    + intros b a Hst Hb Ha. simpl. wp_steps. simpl_st in *. by apply (HS Hge b); simpl_st.
Qed.

(** [mmap_example_init] on every branch: a failed registration returns the
    error with nothing installed or allocated; a failed allocation returns -1
    although the device stays registered; otherwise it returns 0 with the
    device registered and a new block as its buffer. *)
Theorem init_spec s :
  wp mmap_example_init s (returns (λ r s',
    (r < 0 ∧ registered (extra s') = registered (extra s) ∧ live (slab s') = live (slab s) ∧
     buffer (var s') = buffer (var s) ∧
     klog s' = klog s ++ [Msg KERN_ALERT "failed to register a major number %d\n" [AInt r]]) ∨
    (r = -1 ∧ registered (extra s') = true ∧ live (slab s') = live (slab s) ∧
     buffer (var s') = Null) ∨
    (r = 0 ∧ registered (extra s') = true ∧
     ∃ b, (b ∉ live (slab s)) ∧ live (slab s') = {[b]} ∪ live (slab s) ∧ serving b s'))).
Proof.
  destruct (register_chrdev majorNumber (extra s)) as [r x] eqn:E.
  destruct (register_spec _ _ _ E) as [_ Hr]. eapply init_run; [exact E|..].
  - intros Hlt s' Hx Ha Hg Hl. left. unfold var. rewrite Hx, Ha, Hg, Hr, decide_True by done. done.
  - intros Hge s' Hx Ha Hb Hl. right. left. by rewrite Hx, Hr, decide_False by lia.
  - intros Hge b s' Hx Hb Ha Hv Hl. right. right. unfold serving. rewrite Hx, Hr, decide_False by lia.
    rewrite Hv, Ha. split; [done|]. split; [done|]. exists b. set_solver.
Qed.

(** *** One call *)

Lemma open_run s (P : post Z st Z) :
  (∀ s', extra s' = extra s → var s' = var s → slab s' = slab s → on_return P 0 s') →
  wp dev_open s P.
Proof. intros HP. unfold dev_open. apply wp_bind, wp_printk. simpl. by apply wp_return, HP. Qed.

Lemma release_run b s (P : post Z st Z) :
  serving b s →
  (∀ s', stale b s' → live (slab s') = live (slab s) ∖ {[b]} → extra s' = extra s →
     on_return P 0 s') →
  wp dev_release s P.
Proof.
  intros [Hb Hl] HP. unfold dev_release, free_buffer. apply wp_bind, wp_bind, wp_gets. simpl.
  rewrite Hb. simpl. apply (wp_kfree_obj b); [done|]. simpl. apply wp_bind, wp_printk. simpl.
  apply wp_return, HP; unfold stale; simpl_st; rewrite ?kfree_live; set_solver.
Qed.

Lemma stale_release b s : stale b s → dev_release s = Fault DoubleFree s.
Proof.
  intros [Hb Hl]. unfold dev_release, free_buffer, kfree_obj. erewrite bind_fault; [done|].
  erewrite bind_next by done. rewrite Hb. simpl. rewrite bool_decide_false; [done|]. by intros [_ ?].
Qed.

Lemma stale_exit b s : stale b s → mmap_example_exit s = Fault DoubleFree s.
Proof.
  intros [Hb Hl]. unfold mmap_example_exit, free_buffer, kfree_obj. erewrite bind_fault; [done|].
  erewrite bind_next by done. rewrite Hb. simpl. rewrite bool_decide_false; [done|]. by intros [_ ?].
Qed.

Lemma mmap_run vma b s (P : post Z st Z) :
  buffer (var s) = Ptr b 0 →
  let m := Mapping (vm_start vma) (shr_page (wrap64 (phys_base b + 0 + shl_page (vm_pgoff vma))))
    (wrap64 (vm_end vma - vm_start vma)) (vm_page_prot vma) in
  (∀ r s', r = - EAGAIN ∧ mapped (extra s') = mapped (extra s) ∨
           r = 0 ∧ mapped (extra s') = mapped (extra s) ++ [m] →
     var s' = var s → slab s' = slab s → registered (extra s') = registered (extra s) →
     on_return P r s') →
  wp (dev_mmap vma) s P.
Proof.
  intros Hb m HP. unfold dev_mmap. apply wp_bind, wp_printk. simpl. apply wp_bind, wp_gets.
  simpl. simpl_st. rewrite Hb. simpl member_of. rewrite virt_linear, Z.add_assoc. fold (phys_base b).
  apply wp_bind. unfold on_x', wp at 1. simpl_st. fold m. destruct (remap_pfn_range m (extra s)) as [r x] eqn:E.
  destruct (remap_spec _ _ _ _ E) as [Hr Hm]. simpl sat. apply wp_bind.
  destruct (Z.eqb_spec r 0) as [->|Hn]; simpl negb; cbv iota.
  - apply wp_bind, wp_printk. simpl. apply wp_ret, wp_return, HP; simpl_st; try done.
    right. by rewrite Hm, decide_True.
  - apply wp_bind, wp_printk. simpl. apply wp_ret, wp_return, HP; simpl_st; try done.
    left. by rewrite Hm, decide_False.
Qed.

(** *** What is mapped *)

(** The frames of the mapping are those of the buffer, whose first is [q]. *)
Definition inside (q : Z) (m : mapping) : Prop :=
  q ≤ m_pfn m ∧ 4096 * m_pfn m + m_size m ≤ 4096 * q + SIZE.

Lemma pfn_of_offset q o :
  0 ≤ q → 0 ≤ o →
  shr_page (wrap64 (4096 * q + 0 + shl_page o)) = (q + o) mod 2 ^ 52.
Proof.
  intros Hq Ho. unfold shr_page, shl_page, wrap64, PAGE_SHIFT.
  rewrite Z.shiftl_mul_pow2, Z.shiftr_div_pow2 by lia. rewrite Zplus_mod_idemp_r.
  replace (4096 * q + 0 + o * 2 ^ 12) with ((q + o) * 2 ^ 12) by lia.
  replace w64 with (2 ^ 52 * 2 ^ 12) by done.
  rewrite Z.mul_mod_distr_r by lia. by rewrite Z.div_mul by lia.
Qed.

(** C24: what [dev_mmap] maps, for a buffer that starts at frame [q]: the call
    returns -EAGAIN and maps nothing, or 0 and maps, at the start of the area,
    as many bytes as the area has from frame [q + vm_pgoff] on (modulo the
    width of a frame number).  Nothing limits it to the buffer: unless the
    frame number wraps, the mapping is inside the buffer exactly when the
    caller's offset and length are. *)
Theorem mmap_maps vma b q s :
  buffer (var s) = Ptr b 0 → phys_base b = 4096 * q → 0 ≤ q → 0 ≤ vm_pgoff vma →
  0 ≤ vm_start vma ≤ vm_end vma → vm_end vma < w64 →
  wp (dev_mmap vma) s (returns (λ r s',
    (r = - EAGAIN ∧ mapped (extra s') = mapped (extra s)) ∨
    (r = 0 ∧ ∃ m, mapped (extra s') = mapped (extra s) ++ [m] ∧
       m_addr m = vm_start vma ∧ m_size m = vm_end vma - vm_start vma ∧
       m_prot m = vm_page_prot vma ∧ m_pfn m = (q + vm_pgoff vma) mod 2 ^ 52 ∧
       (q + vm_pgoff vma < 2 ^ 52 →
          inside q m ↔ 4096 * vm_pgoff vma + (vm_end vma - vm_start vma) ≤ SIZE)))).
Proof.
  intros Hb Hq Hq0 Ho Hv Hw. apply (mmap_run vma b); [done|]. rewrite Hq, pfn_of_offset by done.
  intros r s' [[-> Hm]|[-> Hm]] _ _ _; simpl; [by left|]. right. split; [done|].
  eexists. split; [exact Hm|]. simpl. unfold wrap64, inside. rewrite Z.mod_small by lia.
  do 4 (split; [done|]). intros Hlt. simpl. rewrite Z.mod_small by lia. lia.
Qed.

(** *** Traces *)

Lemma run_ops_cons b o os s (P : post Z st unit) :
  buffer (var s) = Ptr b 0 → is_release o = false →
  (∀ s', var s' = var s → slab s' = slab s → wp (run_ops os) s' P) →
  wp (run_ops (o :: os)) s P.
Proof.
  intros Hb Ho HP. simpl. apply wp_bind. destruct o as [|vma|]; [..|done]; apply wp_call; simpl.
  - apply open_run. intros s' _ Hv Ha. by apply HP.
  - apply (mmap_run vma b); [done|]. intros r s' _ Hv Ha _. by apply HP.
Qed.

Lemma run_stale b os s :
  stale b s →
  wp (run_ops os) s (Post (λ _ s', releases os = 0%nat ∧ stale b s') (λ _ _, False)
    (λ f s', f = DoubleFree ∧ (0 < releases os)%nat)).
Proof.
  revert s. induction os as [|o os IH]; intros s Hs; [by apply wp_ret|].
  destruct (is_release o) eqn:Ho.
  - destruct o; try done. simpl. apply wp_bind; apply wp_call. unfold wp. simpl.
    rewrite (stale_release b s Hs). simpl. split; [done|]. unfold releases. simpl. lia.
  - eapply (run_ops_cons b); [by destruct Hs|done|]. intros s' Hv Ha.
    assert (releases (o :: os) = releases os) as -> by (by destruct o).
    apply IH. unfold stale. by rewrite Hv, Ha.
Qed.

Lemma run_serving b os s :
  serving b s →
  wp (run_ops os) s (Post
    (λ _ s', releases os = 0%nat ∧ serving b s' ∨ releases os = 1%nat ∧ stale b s')
    (λ _ _, False)
    (λ f s', f = DoubleFree ∧ (1 < releases os)%nat)).
Proof.
  revert s. induction os as [|o os IH]; intros s Hs; [by apply wp_ret; left|].
  destruct (is_release o) eqn:Ho.
  - destruct o; try done. simpl. apply wp_bind; apply wp_call. apply (release_run b); [done|].
    intros s' Hst _ _. simpl. assert (releases (Release :: os) = S (releases os)) as -> by done.
    eapply wp_mono; [by apply run_stale|..]; simpl; intuition lia.
  - eapply (run_ops_cons b); [by destruct Hs|done|]. intros s' Hv Ha.
    assert (releases (o :: os) = releases os) as -> by (by destruct o).
    apply IH. unfold serving. by rewrite Hv, Ha.
Qed.

Lemma exit_run b s :
  serving b s →
  wp mmap_example_exit s (safely (λ _ s',
    live (slab s') = live (slab s) ∖ {[b]} ∧ extra s' = unregister_chrdev majorNumber (extra s))).
Proof.
  intros [Hb Hl]. unfold mmap_example_exit, free_buffer. apply wp_bind, wp_bind, wp_gets. simpl.
  rewrite Hb. apply (wp_kfree_obj b); [done|]. simpl. apply wp_bind, wp_modify. simpl.
  apply wp_printk. simpl. simpl_st. by rewrite kfree_live.
Qed.

(** C25: the loaded device under every sequence of open, mmap and close: it
    runs without a fault exactly as long as the device is closed at most once;
    the second close frees the buffer twice.  Unloading afterwards is clean
    only if the device was never closed, since after one close the exit frees
    the buffer a second time. *)
Theorem trace_safe b os s :
  serving b s →
  wp (run_ops os) s (Post
    (λ _ s', (releases os = 0%nat ∧ serving b s' ∧
              wp mmap_example_exit s' (safely (λ _ s'',
                (b ∉ live (slab s'')) ∧ registered (extra s'') = false))) ∨
             (releases os = 1%nat ∧ mmap_example_exit s' = Fault DoubleFree s'))
    (λ _ _, False)
    (λ f s', f = DoubleFree ∧ (1 < releases os)%nat)).
Proof.
  intros Hs. eapply wp_mono; [by apply (run_serving b os)|..]; simpl; [|done|done].
  intros _ s' [[Hr Hs']|[Hr Hs']]; [left|right; by eauto using stale_exit].
  split; [done|]. split; [done|]. eapply wp_safely_mono; [by apply (exit_run b)|].
  intros [] s'' [Hlv Hx]. simpl. rewrite Hlv, Hx.
  destruct (unregister_spec (extra s')) as [_ ->]. set_solver.
Qed.
End proofs.

(** ** Concrete services *)

Record dev_model := DevModel {
  d_register : Z; d_remap : Z; d_registered : bool; d_mapped : list mapping }.

#[global] Instance dev_model_ops : DevApi dev_model := {
  registered := d_registered;
  mapped := d_mapped;
  register_chrdev _ x := (d_register x, DevModel (d_register x) (d_remap x)
    (if decide (d_register x < 0) then d_registered x else true) (d_mapped x));
  unregister_chrdev _ x := DevModel (d_register x) (d_remap x) false (d_mapped x);
  virt_to_phys p := match p with Null => 0 | Ptr b o => wrap64 (4096 * Zpos b + o) end;
  remap_pfn_range m x := (d_remap x, DevModel (d_register x) (d_remap x) (d_registered x)
    (if decide (d_remap x = 0) then d_mapped x ++ [m] else d_mapped x)) }.

#[global] Instance dev_model_laws : DevLaws dev_model.
Proof.
  split; try done; intros; simplify_eq/=; try done. unfold wrap64. by rewrite Zplus_mod_idemp_l.
Qed.

Definition loaded : sys (kstate slab_model unit dev_model) (objs unit globals) :=
  Sys (KState (SlabModel [] ∅) tt (DevModel 0 0 false [])) (Objs ∅ (Globals Null)) [].
Definition inited : sys (kstate slab_model unit dev_model) (objs unit globals) :=
  match mmap_example_init loaded with Return _ s => s | _ => loaded end.

Lemma inited_serving : serving 101 inited.
Proof. split; vm_compute; reflexivity. Qed.

Lemma init_spec_witness :
  wp mmap_example_init loaded (returns (λ r s',
    (r < 0 ∧ registered (extra s') = false ∧ live (slab s') = ∅ ∧
     buffer (var s') = Null ∧
     klog s' = [] ++ [Msg KERN_ALERT "failed to register a major number %d\n" [AInt r]]) ∨
    (r = -1 ∧ registered (extra s') = true ∧ live (slab s') = ∅ ∧ buffer (var s') = Null) ∨
    (r = 0 ∧ registered (extra s') = true ∧
     ∃ b, (b ∉ (∅ : gset positive)) ∧ live (slab s') = {[b]} ∪ ∅ ∧ serving b s'))).
Proof. exact (init_spec loaded). Defined.

(** The call of mmap.c: one page from offset 0; and one that leaves the buffer. *)
Definition vma_ok : vm_area_struct := Vma 8192 12288 0 0.
Definition vma_far : vm_area_struct := Vma 8192 16384 7 0.

Lemma mmap_maps_witness :
  wp (dev_mmap vma_far) inited (returns (λ r s',
    (r = - EAGAIN ∧ mapped (extra s') = mapped (extra inited)) ∨
    (r = 0 ∧ ∃ m, mapped (extra s') = mapped (extra inited) ++ [m] ∧
       m_addr m = 8192 ∧ m_size m = 16384 - 8192 ∧
       m_prot m = 0 ∧ m_pfn m = (101 + 7) mod 2 ^ 52 ∧
       (101 + 7 < 2 ^ 52 → inside 101 m ↔ 4096 * 7 + (16384 - 8192) ≤ SIZE)))).
Proof.
  refine (mmap_maps vma_far 101 101 inited eq_refl eq_refl _ _ _ _); vm_compute; intuition congruence.
Defined.

Lemma trace_safe_witness :
  wp (run_ops [Open; MMap vma_ok; Release]) inited (Post
    (λ _ s', (1%nat = 0%nat ∧ serving 101 s' ∧
              wp mmap_example_exit s' (safely (λ _ s'',
                (101%positive ∉ live (slab s'')) ∧ registered (extra s'') = false))) ∨
             (1%nat = 1%nat ∧ mmap_example_exit s' = Fault DoubleFree s'))
    (λ _ _, False)
    (λ f s', f = DoubleFree ∧ (1 < 1)%nat)).
Proof. exact (trace_safe 101 [Open; MMap vma_ok; Release] inited inited_serving). Defined.
