(* ===== verification/MmapUser.v ===== *)
(** * mmap/mmap.c

    The user program of the mmap device: open, mmap, a store and a load through
    the mapping, close, and the end of the process.  The kernel calls the
    driver's release method when the last reference to the open file goes, and a
    mapping holds one. *)
From stdpp Require Import base gmap strings list.
From Stdlib Require Import ZArith Lia.
From S2P Require Import Prelude Kernel KernelModel Vfs Mmap.

(** The process: what it printed, the methods of the file it has open and the
    references to that file, its mapping and the first byte behind it. *)
Record proc (D : Type) := Proc {
  uout : list (string * list arg);
  f_op : file_operations D;
  refs : nat;
  area : option Z;
  byte0 : option Z }.
Arguments Proc {D} _ _ _ _ _.
Arguments uout {D} _.
Arguments f_op {D} _.
Arguments refs {D} _.
Arguments area {D} _.
Arguments byte0 {D} _.

Definition no_proc {D} (out : list (string * list arg)) : proc D := Proc out no_ops 0 None None.

(** What it prints when the mapping succeeds and when it does not. *)
Definition ok_out : list (string * list arg) := [("ALL OK\n", []); ("Char = [%c]\n", [AInt 65])].
Definition failed_out : list (string * list arg) := [("Failed to mmap\n", [])].

(** The program on any state [D] of the drivers, with what [dev] says is
    registered behind the device node. *)
Section program.
Context {D : Type}.
Abbreviation pst := (D * proc D)%type.
Implicit Types (u : proc D).

(** A call into the driver. *)
Definition drv {R A} (c : M R D A) : M R pst A := zoom fst (λ s w, (s, w.2)) c.
Definition on_proc {R} (g : proc D → proc D) : M R pst unit := modify (λ '(s, u), (s, g u)).

Definition printf {R} (fmt : string) (args : list arg) : M R pst unit :=
  on_proc (λ u, Proc (uout u ++ [(fmt, args)]) (f_op u) (refs u) (area u) (byte0 u)).

(** One reference to the open file less. *)
Definition put {R} : M R pst unit :=
  on_proc (λ u, Proc (uout u) (f_op u) (pred (refs u)) (area u) (byte0 u));;
  u ← gets snd;
  if decide (refs u = 0%nat) then _ ← drv (vfs_release (f_op u)); mret tt else mret tt.

Definition open_ {R} (dev : D → option (file_operations D)) (fd : Z) : M R pst Z :=
  '(r, t) ← drv (sys_open dev fd);
  (if r <? 0 then mret tt else on_proc (λ u, Proc (uout u) t (S (refs u)) (area u) (byte0 u)));;
  mret r.

(** [mmap(NULL, 4096, ..., fd, 0)], for which the kernel chooses the address [a];
    [None] is [MAP_FAILED]. *)
Definition sys_mmap {R} (a : Z) : M R pst (option Z) :=
  u ← gets snd;
  r ← drv (vfs_mmap (f_op u) (Vma a (a + 4096) 0 3));
  if r <? 0 then mret None else
  on_proc (λ u, Proc (uout u) (f_op u) (S (refs u)) (Some a) None);; mret (Some a).

(** [addr[0] = c] and [addr[0]]. *)
Definition store0 {R} (addr c : Z) : M R pst unit :=
  m ← gets (λ '(_, u), area u);
  guard_ (bool_decide (m = Some addr)) BadDeref;;
  on_proc (λ u, Proc (uout u) (f_op u) (refs u) (area u) (Some c)).
Definition load0 {R} (addr : Z) : M R pst Z :=
  m ← gets (λ '(_, u), area u);
  guard_ (bool_decide (m = Some addr)) BadDeref;;
  v ← gets (λ '(_, u), byte0 u);
  liftO UninitRead v.

(** [int main(void)]; ['A'] is 65. *)
Definition main (dev : D → option (file_operations D)) (fd a : Z) : M Z pst Z :=
  r ← open_ dev fd;
  (if r <? 0 then
     printf "open failed\n" [];; printf "make sure insmod code.ko is done\n" [];; return_ (-1)
   else mret tt);;
  addr ← sys_mmap a;
  match addr with
  | None => printf "Failed to mmap\n" [];; put;; return_ (-1)
  | Some addr =>
      printf "ALL OK\n" [];;
      store0 addr 65;;
      c ← load0 addr;
      printf "Char = [%c]\n" [AInt c];;
      put;;
      return_ 0
  end.

(** The end of the process: the mapping goes, and the memory of the process. *)
Definition exit_proc {R} : M R pst unit :=
  m ← gets (λ '(_, u), area u);
  (match m with Some _ => put | None => mret tt end);;
  on_proc (λ u, no_proc (uout u)).

Definition run_prog {R} (dev : D → option (file_operations D)) (fd a : Z) : M R pst Z :=
  r ← call (main dev fd a); exit_proc;; mret r.

Lemma wp_drv {R A} (c : M R D A) s u (P : post R pst A) :
  wp c s (Post (λ r s', on_next P r (s', u)) (λ r s', on_return P r (s', u)) (λ f s', on_fault P f (s', u))) →
  wp (drv c) (s, u) P.
Proof. exact (wp_zoom fst (λ s w, (s, w.2)) c (s, u) P). Qed.

Lemma wp_on_proc {R} g s u (P : post R pst unit) : on_next P tt (s, g u) → wp (on_proc g) (s, u) P.
Proof. done. Qed.

(** The reference that is not the last. *)
Lemma put_more {R} s u n (P : post R pst unit) :
  refs u = S (S n) → on_next P tt (s, Proc (uout u) (f_op u) (S n) (area u) (byte0 u)) → wp put (s, u) P.
Proof.
  intros Hr HP. unfold put. apply wp_bind, wp_on_proc. simpl. apply wp_bind, wp_gets. simpl.
  rewrite Hr. simpl. by apply wp_ret.
Qed.

(** The reference that is: the release method runs. *)
Lemma put_one {R} s u (P : post R pst unit) :
  refs u = 1%nat →
  wp (vfs_release (f_op u)) s (Post (λ _ s', on_next P tt (s', Proc (uout u) (f_op u) 0 (area u) (byte0 u)))
    (λ r s', on_return P r (s', Proc (uout u) (f_op u) 0 (area u) (byte0 u)))
    (λ f s', on_fault P f (s', Proc (uout u) (f_op u) 0 (area u) (byte0 u)))) →
  wp put (s, u) P.
Proof.
  intros Hr HP. unfold put. apply wp_bind, wp_on_proc. simpl. apply wp_bind, wp_gets. simpl.
  rewrite Hr. simpl. apply wp_bind, wp_drv. eapply wp_mono; [exact HP|..]; simpl; auto.
Qed.

(** One run of the program on a device with the methods [t]: while the file is
    open [I] holds, the mmap method answers with a [Q], and the last reference
    leaves [J], or a fault with [F]. *)
Section run.
Context (t : file_operations D) (I J : D → Prop) (Q : Z → Prop) (F : fault → D → Prop).
Context (open_ok : ∀ s, I s → wp (vfs_open t) s (safely (R:=Z) (λ r s', 0 ≤ r ∧ I s'))).
Context (mmap_ok : ∀ s vma, I s → wp (vfs_mmap t vma) s (safely (R:=Z) (λ r s', Q r ∧ I s'))).
Context (release_ok : ∀ R s, I s →
  wp (vfs_release t) s (Post (R:=R) (λ _ s', J s') (λ _ _, False) F)).

Lemma put_run {R} s u (P : post R pst unit) :
  I s → f_op u = t → refs u = 1%nat →
  (∀ s', J s' → on_next P tt (s', Proc (uout u) (f_op u) 0 (area u) (byte0 u))) →
  (∀ f s' u', F f s' → on_fault P f (s', u')) → wp put (s, u) P.
Proof.
  intros Hi Ht Hr HN HF. apply put_one; [done|]. rewrite Ht. rewrite Ht in HN.
  eapply wp_mono; [by apply release_ok|..]; simpl; auto. done.
Qed.

Lemma run_prog_on {R} dev fd a s out :
  0 ≤ fd → dev s = Some t → I s →
  wp (run_prog dev fd a) (s, no_proc out) (Post (R:=R)
    (λ r '(s', u), J s' ∧ ∃ r0, Q r0 ∧
       (r0 < 0 ∧ r = -1 ∧ u = no_proc (out ++ failed_out) ∨ 0 ≤ r0 ∧ r = 0 ∧ u = no_proc (out ++ ok_out)))
    (λ _ _, False) (λ f '(s', _), F f s')).
Proof.
  intros Hfd Hd Hi. unfold run_prog. apply wp_bind, wp_call. unfold main. apply wp_bind. unfold open_.
  apply wp_bind, wp_drv. unfold sys_open. apply wp_bind, wp_gets. simpl. rewrite Hd. apply wp_bind.
  eapply wp_safely_mono; [by apply open_ok|]. intros r1 s1 [Hr1 H1]. simpl.
  rewrite (proj2 (Z.ltb_ge _ _) Hr1). apply wp_ret. simpl. rewrite (proj2 (Z.ltb_ge _ _) Hfd).
  apply wp_bind, wp_on_proc, wp_ret. simpl. rewrite (proj2 (Z.ltb_ge _ _) Hfd).
  apply wp_bind, wp_ret. simpl. apply wp_bind. unfold sys_mmap. apply wp_bind, wp_gets. simpl.
  apply wp_bind, wp_drv. eapply wp_safely_mono; [by apply mmap_ok|]. intros r2 s2 [Hq H2]. simpl.
  destruct (Z.ltb_spec r2 0) as [Hlt|Hge].
  - apply wp_ret. simpl. apply wp_bind, wp_on_proc. simpl. apply wp_bind.
    apply put_run; [done|done|done| |done]. intros s3 H3. simpl. apply wp_return. simpl.
    apply wp_bind, wp_bind, wp_gets. simpl. apply wp_bind, wp_ret. simpl. apply wp_on_proc. simpl.
    apply wp_ret. simpl. split; [done|]. exists r2. split; [done|]. by left.
  - apply wp_bind, wp_on_proc. simpl. apply wp_ret. simpl. apply wp_bind, wp_on_proc. simpl.
    apply wp_bind. unfold store0. apply wp_bind, wp_gets. simpl. rewrite bool_decide_true by done.
    apply wp_bind, wp_ret. simpl. apply wp_on_proc. simpl. apply wp_bind. unfold load0.
    apply wp_bind, wp_gets. simpl. rewrite bool_decide_true by done. apply wp_bind, wp_ret. simpl.
    apply wp_bind, wp_gets. simpl. apply wp_ret. simpl. apply wp_bind, wp_on_proc. simpl.
    apply wp_bind, (put_more _ _ 0); [done|]. simpl. apply wp_return. simpl.
    apply wp_bind, wp_bind, wp_gets. simpl. apply wp_bind.
    apply put_run; [done|done|done| |done]. intros s3 H3. simpl. apply wp_on_proc. simpl.
    apply wp_ret. simpl. split; [done|]. exists r2. split; [done|]. right. by rewrite <- app_assoc.
Qed.
End run.
End program.

Section proofs.
Context {A X : Type} `{ops_a : Slab A, !SlabLaws A, ops_x : DevApi X, !DevLaws X}.
Abbreviation st := (sys (kstate A unit X) (objs unit globals)).
Abbreviation pst := (st * proc st)%type.
Implicit Types (s : st).

(** What [b] is like for the driver: still the buffer, or dangling. *)
Definition buffer_of (ok : bool) (b : positive) s : Prop := if ok then serving b s else stale b s.

(** What is registered behind the device node. *)
Definition dev_node s : option (file_operations st) :=
  if registered (extra s) then Some fops else None.

(** The methods of the driver, for a buffer that is still there or is not. *)
Definition in_use (ok : bool) (b : positive) s : Prop :=
  registered (extra s) = true ∧ buffer_of ok b s.

Lemma in_use_keep ok b s s' :
  in_use ok b s → registered (extra s') = registered (extra s) → var s' = var s → slab s' = slab s →
  in_use ok b s'.
Proof.
  unfold in_use, buffer_of, serving, stale. intros [Hr Hb] -> -> ->. done.
Qed.

Lemma in_use_open ok b s :
  in_use ok b s → wp (vfs_open fops) s (safely (R:=Z) (λ r s', 0 ≤ r ∧ in_use ok b s')).
Proof.
  intros Hs. apply wp_call, open_run. intros s' Hx Hv Ha. simpl. split; [lia|].
  eapply in_use_keep; [done|congruence|done|done].
Qed.

Lemma in_use_mmap ok b s vma :
  in_use ok b s →
  wp (vfs_mmap fops vma) s (safely (R:=Z) (λ r s', (r = 0 ∨ r = - EAGAIN) ∧ in_use ok b s')).
Proof.
  intros Hs. apply wp_call. apply (mmap_run vma b); [destruct Hs as [_ Hs]; by destruct ok, Hs|].
  intros r s' Hr Hv Ha Hg. simpl. split; [by destruct Hr as [[-> _]|[-> _]]; auto|].
  by eapply in_use_keep.
Qed.

Lemma in_use_release {R} ok b s :
  in_use ok b s →
  wp (vfs_release fops) s (Post (R:=R) (λ _ s', ok = true ∧ in_use false b s') (λ _ _, False)
    (λ f s', f = DoubleFree ∧ ok = false ∧ in_use ok b s')).
Proof.
  intros [Hr Hs]. apply wp_call. destruct ok.
  - apply (release_run b); [done|]. intros s' Hst _ Hx. simpl. split; [done|]. split; [congruence|done].
  - unfold wp. by rewrite (stale_release b s Hs).
Qed.

Lemma in_use_prog ok b fd a s out :
  0 ≤ fd → in_use ok b s →
  wp (run_prog dev_node fd a) (s, no_proc out) (Post (R:=Z)
    (λ r '(s', u), (ok = true ∧ in_use false b s') ∧ ∃ r0, (r0 = 0 ∨ r0 = - EAGAIN) ∧
       (r0 < 0 ∧ r = -1 ∧ u = no_proc (out ++ failed_out) ∨ 0 ≤ r0 ∧ r = 0 ∧ u = no_proc (out ++ ok_out)))
    (λ _ _, False) (λ f '(s', _), f = DoubleFree ∧ ok = false ∧ in_use ok b s')).
Proof.
  intros Hfd Hi. apply (run_prog_on fops (in_use ok b) (λ s', ok = true ∧ in_use false b s')
    (λ r, r = 0 ∨ r = - EAGAIN) (λ f s', f = DoubleFree ∧ ok = false ∧ in_use ok b s'));
    [apply in_use_open|by intros; apply in_use_mmap|intros; apply in_use_release; done|done| |done].
  unfold dev_node. by destruct Hi as [-> _].
Qed.

(** The user program works once per load of the module: the first run prints
    that all is well and the character it stored (or that it could not map), and
    its end releases the buffer; the second run always ends in a double free in
    the driver. *)
Theorem second_run_faults b fd a a' s :
  0 ≤ fd → registered (extra s) = true → serving b s →
  wp (run_prog dev_node fd a) (s, no_proc []) (safely (R:=Z) (λ r '(s', u),
    (r = 0 ∧ uout u = ok_out ∨ r = -1 ∧ uout u = failed_out) ∧ stale b s' ∧
    wp (run_prog dev_node fd a') (s', u) (Post (R:=Z) (λ _ _, False) (λ _ _, False) (λ f _, f = DoubleFree)))).
Proof.
  intros Hfd Hreg Hs.
  eapply wp_mono; [by apply (in_use_prog true b)|..]; simpl; [|done|].
  - intros r [s' u] [[_ Hst] (r0 & _ & Hr)]. split; [|split; [by destruct Hst|]].
    + destruct Hr as [(_ & -> & ->)|(_ & -> & ->)]; auto.
    + assert (∃ out, u = no_proc out) as [out ->] by (destruct Hr as [(_ & _ & ->)|(_ & _ & ->)]; eauto).
      eapply wp_mono; [by apply (in_use_prog false b)|..]; simpl; [by intros ? [? ?] [[? _] _]|done|by intros ? [? ?] (? & _)].
  - by intros f [s' u] (_ & ? & _).
Qed.
End proofs.

Lemma second_run_faults_witness :
  wp (run_prog dev_node 3 8192) (inited, no_proc []) (safely (R:=Z) (λ r '(s', u),
    (r = 0 ∧ uout u = ok_out ∨ r = -1 ∧ uout u = failed_out) ∧ stale 101 s' ∧
    wp (run_prog dev_node 3 16384) (s', u) (Post (R:=Z) (λ _ _, False) (λ _ _, False) (λ f _, f = DoubleFree)))).
Proof.
  refine (second_run_faults 101 3 8192 16384 inited _ eq_refl inited_serving). lia.
Defined.
