(* ===== verification/MmapShare.v ===== *)
(** * mmap/code.c with several processes

    The file system around the driver of Mmap.v: open files with their
    descriptors and mappings, the release of a file when the last reference to
    it goes, the physical bytes behind the mappings, and the unloading of the
    module, which is refused while the module has references: one for each open
    file, if its table names the module as the owner. *)
From stdpp Require Import base gmap strings list.
From Stdlib Require Import ZArith Lia.
From S2P Require Import Prelude Kernel KernelModel Vfs Mmap.

(** What processes and the administrator can do.  A file is named by a number,
    a mapping by its position in the list of all mappings. *)
Inductive event :=
  | EOpen (f : nat)
  | EMMap (f : nat) (vma : vm_area_struct)
  | EStore (i : nat) (o v : Z)
  | EClose (f : nat)
  | EUnmap (i : nat)
  | EUnload.

Section world.
Context {A X : Type} `{Slab A, DevApi X}.
Abbreviation st := (sys (kstate A unit X) (objs unit globals)).

(** The driver, the files with an open descriptor, the mappings with their
    files, the written bytes of physical memory, whether the module is gone. *)
Record world := World {
  driver : st;
  fds : gset nat;
  areas : list (nat * mapping);
  bytes : gmap Z Z;
  gone : bool }.

Definition set_driver (s : st) (w : world) : world := World s (fds w) (areas w) (bytes w) (gone w).
Definition set_fds (d : gset nat) (w : world) : world := World (driver w) d (areas w) (bytes w) (gone w).
Definition set_areas (l : list (nat * mapping)) (w : world) : world :=
  World (driver w) (fds w) l (bytes w) (gone w).
Definition set_bytes (m : gmap Z Z) (w : world) : world :=
  World (driver w) (fds w) (areas w) m (gone w).

(** The references to the open file [f]: its descriptor and its mappings. *)
Definition refs (f : nat) (w : world) : nat :=
  ((if decide (f ∈ fds w) then 1 else 0) + length (filter (λ a, a.1 = f) (areas w)))%nat.

(** A call of the driver; its code is not there any more once the module is
    unloaded. *)
Definition enter {R} (c : M R st R) : M unit world R := λ w,
  if gone w then Fault BadDeref w else
  match c (driver w) with
  | Next r s | Return r s => Next r (set_driver s w)
  | Fault f s => Fault f (set_driver s w)
  end.

(** After a reference to [f] was dropped. *)
Definition put (f : nat) : M unit world unit :=
  n ← gets (refs f);
  if decide (n = 0%nat) then _ ← enter (vfs_release (R:=Z) fops); mret tt else mret tt.

(** The physical address of offset [o] of a mapping. *)
Definition phys_of (m : mapping) (o : Z) : Z := 4096 * m_pfn m + o.

(** The references to the module. *)
Definition module_refs (w : world) : nat :=
  if fo_owner (fops : file_operations st) then size (fds w ∪ list_to_set (areas w).*1) else 0%nat.

Definition handle (e : event) : M unit world unit :=
  match e with
  | EOpen f =>
      n ← gets (refs f);
      b ← gets (λ w, registered (extra (driver w)));
      if decide (n = 0%nat ∧ b = true) then
        r ← enter (vfs_open (R:=Z) fops);
        if r <? 0 then mret tt else modify (λ w, set_fds ({[f]} ∪ fds w) w)
      else mret tt
  | EMMap f vma =>
      d ← gets fds;
      if decide (f ∈ d) then
        r ← enter (vfs_mmap (R:=Z) fops vma);
        if r <? 0 then mret tt else
        modify (λ w, match last (mapped (extra (driver w))) with
                     | Some m => set_areas (areas w ++ [(f, m)]) w
                     | None => w
                     end)
      else mret tt
  | EStore i o v =>
      modify (λ w, match areas w !! i with
                   | Some (_, m) => if decide (0 ≤ o < m_size m)
                                    then set_bytes (<[phys_of m o := v]> (bytes w)) w else w
                   | None => w
                   end)
  | EClose f =>
      d ← gets fds;
      if decide (f ∈ d) then modify (λ w, set_fds (fds w ∖ {[f]}) w);; put f else mret tt
  | EUnmap i =>
      l ← gets areas;
      match l !! i with
      | Some (f, _) => modify (λ w, set_areas (delete i (areas w)) w);; put f
      | None => mret tt
      end
  | EUnload =>
      g ← gets gone;
      n ← gets module_refs;
      if (g || negb (n =? 0)%nat : bool) then mret tt else
      enter mmap_example_exit;;
      modify (λ w, World (driver w) (fds w) (areas w) (bytes w) true)
  end.

Fixpoint run (es : list event) : M unit world unit :=
  match es with [] => mret tt | e :: es => handle e;; run es end.

(** A load through a mapping; a byte nobody wrote is indeterminate. *)
Definition load_area (m : mapping) (o : Z) (w : world) : option Z := bytes w !! phys_of m o.
End world.
#[global] Arguments world A X : clear implicits.



Section proofs.
Context {A X : Type} `{ops_a : Slab A, !SlabLaws A, ops_x : DevApi X, !DevLaws X}.
Abbreviation st := (sys (kstate A unit X) (objs unit globals)).
Implicit Types (s : st) (w : world A X).

(** What [dev_mmap] installs for an area on the block [b]. *)
Definition frames (b : positive) (vma : vm_area_struct) : mapping :=
  Mapping (vm_start vma) (shr_page (wrap64 (phys_base b + 0 + shl_page (vm_pgoff vma))))
    (wrap64 (vm_end vma - vm_start vma)) (vm_page_prot vma).

Lemma wp_enter {R} (c : M R st R) w (P : post unit (world A X) R) :
  gone w = false →
  wp c (driver w) (Post (λ r s, on_next P r (set_driver s w)) (λ r s, on_next P r (set_driver s w))
    (λ f s, on_fault P f (set_driver s w))) →
  wp (enter c) w P.
Proof. intros Hg. unfold wp, enter. rewrite Hg. by destruct (c (driver w)). Qed.


(** *** One open file at a time *)

(** The life of the buffer [b] when [n] more files may be opened: not yet used,
    in use by the one open file, or released with nobody left. *)
Inductive phase (b : positive) w : nat → Prop :=
  | Fresh n : serving b (driver w) → fds w = ∅ → areas w = [] → phase b w n
  | Used f : serving b (driver w) → fds w ⊆ {[f]} → Forall (λ a, a.1 = f) (areas w) →
      refs f w ≠ 0%nat → phase b w 0
  | Over : stale b (driver w) → fds w = ∅ → areas w = [] → phase b w 0.








Lemma phase_buffer b w n : phase b w n → buffer (var (driver w)) = Ptr b 0.
Proof. by intros [? []|? []|[]]. Qed.









(** *** Several open files *)

Lemma close_last b g w :
  serving b (driver w) → gone w = false → g ∈ fds w → refs g w = 1%nat →
  wp (handle (EClose g)) w (safely (λ _ w',
    stale b (driver w') ∧ fds w' = fds w ∖ {[g]} ∧ areas w' = areas w ∧ gone w' = false)).
Proof.
  intros Hs Hg Hin Hr. simpl. apply wp_bind, wp_gets. simpl. rewrite decide_True by done.
  apply wp_bind, wp_modify. simpl. unfold put. apply wp_bind, wp_gets. simpl.
  rewrite decide_True.
  - apply wp_bind, wp_enter; [done|]. apply wp_call, (release_run b); [done|]. intros s' Hst _ _.
    simpl. by apply wp_ret.
  - unfold refs in *. simpl. rewrite decide_True in Hr by done. rewrite decide_False by set_solver. lia.
Qed.

(** C26: the device does not bear a second open file.  When a file is closed for
    the last time while a mapping of another file exists, the mapping stays and
    the buffer under it is freed: a store through it writes memory the allocator
    may have given to anybody.  And since [fops] names no owner, the module can
    be unloaded while the device is open: the last close then calls code that is
    gone. *)
Theorem share_hazard b f m i g w :
  serving b (driver w) → gone w = false → g ∈ fds w → refs g w = 1%nat →
  areas w !! i = Some (f, m) → 0 < m_size m →
  wp (run [EClose g; EStore i 0 65]) w (safely (λ _ w',
    (b ∉ live (slab (driver w'))) ∧ areas w' !! i = Some (f, m) ∧
    bytes w' !! phys_of m 0 = Some 65)) ∧
  wp (run [EUnload; EClose g]) w (Post (λ _ _, False) (λ _ _, False) (λ e w',
    e = BadDeref ∧ gone w' = true ∧ b ∉ live (slab (driver w')))).
Proof.
  intros Hs Hg Hin Hr Hi Hm. split.
  - apply wp_bind. eapply wp_safely_mono; [by apply close_last|].
    intros [] w1 ([_ Hl] & _ & Ha & _). simpl. apply wp_bind, wp_modify. simpl. rewrite Ha, Hi.
    rewrite decide_True by lia. apply wp_ret. simpl. rewrite lookup_insert_eq. by rewrite Ha.
  - apply wp_bind. simpl handle. apply wp_bind, wp_gets. simpl. rewrite Hg. apply wp_bind, wp_gets. simpl.
    apply wp_bind, wp_enter; [done|]. eapply wp_safely_mono; [by apply (exit_run b)|]. intros [] s' [Hl _]. simpl. apply wp_modify. simpl.
    apply wp_bind, wp_bind, wp_gets. simpl. rewrite decide_True by done. apply wp_bind, wp_modify. simpl.
    unfold put. apply wp_bind, wp_gets. simpl. rewrite decide_True.
    + unfold wp. simpl. split; [done|]. split; [done|]. rewrite Hl. set_solver.
    + unfold refs in *. simpl. rewrite decide_True in Hr by done. rewrite decide_False by set_solver. lia.
Qed.

(** *** Shared bytes *)

Lemma mmap_event b f vma w :
  buffer (var (driver w)) = Ptr b 0 → gone w = false → f ∈ fds w →
  wp (handle (EMMap f vma)) w (safely (λ _ w',
    buffer (var (driver w')) = Ptr b 0 ∧ gone w' = false ∧ fds w' = fds w ∧ bytes w' = bytes w ∧
    (areas w' = areas w ∨ areas w' = areas w ++ [(f, frames b vma)]))).
Proof.
  intros Hb Hg Hf. simpl. apply wp_bind, wp_gets. simpl. rewrite decide_True by done.
  apply wp_bind, wp_enter; [done|]. apply wp_call, (mmap_run vma b); [done|].
  intros r s' [[-> _]|[-> Hm]] Hv _ _; simpl.
  - apply wp_ret. simpl. rewrite Hv. auto 6.
  - apply wp_modify. simpl. rewrite Hm, last_snoc. simpl. rewrite Hv. auto 6.
Qed.

(** The bytes [vma] asks for are in the range of the frame numbers. *)
Definition addressable (q : Z) (vma : vm_area_struct) : Prop :=
  0 ≤ vm_pgoff vma ∧ q + vm_pgoff vma < 2 ^ 52 ∧ 0 ≤ vm_start vma ≤ vm_end vma ∧ vm_end vma < w64.

Lemma frames_phys b q vma o :
  phys_base b = 4096 * q → 0 ≤ q → addressable q vma →
  phys_of (frames b vma) o = 4096 * q + 4096 * vm_pgoff vma + o ∧
  m_size (frames b vma) = vm_end vma - vm_start vma.
Proof.
  intros Hq Hq0 (Ho & Hlt & Hv & Hw). unfold phys_of, frames. simpl.
  rewrite Hq, pfn_of_offset by lia. unfold wrap64. rewrite !Z.mod_small by lia. lia.
Qed.

(** C29: the buffer is shared: when two open files have mapped areas [v1] and
    [v2], a byte stored through the first is what the second reads exactly at
    the offset of the same byte of the buffer, and every other byte the second
    reads is as it was. *)
Theorem share_aliases b q f g v1 v2 o1 v w :
  buffer (var (driver w)) = Ptr b 0 → gone w = false → f ∈ fds w → g ∈ fds w →
  phys_base b = 4096 * q → 0 ≤ q → addressable q v1 → addressable q v2 →
  0 ≤ o1 < vm_end v1 - vm_start v1 →
  wp (run [EMMap f v1; EMMap g v2; EStore (length (areas w)) o1 v]) w (safely (λ _ w',
    length (areas w') = (length (areas w) + 2)%nat →
    areas w' !! length (areas w) = Some (f, frames b v1) ∧
    areas w' !! S (length (areas w)) = Some (g, frames b v2) ∧
    ∀ o2, load_area (frames b v2) o2 w' =
      if decide (4096 * vm_pgoff v1 + o1 = 4096 * vm_pgoff v2 + o2) then Some v
      else load_area (frames b v2) o2 w)).
Proof.
  intros Hb Hg Hf Hg' Hq Hq0 H1 H2 Ho. apply wp_bind.
  eapply wp_safely_mono; [by apply (mmap_event b)|]. intros [] w1 (Hb1 & Hg1 & Hd1 & Hy1 & Ha1). simpl.
  apply wp_bind. eapply wp_safely_mono; [apply (mmap_event b g v2); [done|done|by rewrite Hd1]|].
  intros [] w2 (_ & _ & _ & Hy2 & Ha2). simpl. apply wp_bind, wp_modify. apply wp_ret. simpl.
  set (w' := match areas w2 !! _ with Some _ => _ | None => _ end).
  assert (Ha : areas w' = areas w2) by
    (unfold w'; destruct (areas w2 !! _) as [[??]|]; [case_decide|]; done).
  intros Hl. rewrite Ha in *.
  assert (E : areas w2 = areas w ++ [(f, frames b v1); (g, frames b v2)]).
  { destruct Ha1 as [E1|E1], Ha2 as [E2|E2]; rewrite E2, E1 in *; rewrite ?length_app in Hl; simpl in Hl;
      try lia. by rewrite <- app_assoc. }
  assert (Hi : areas w2 !! length (areas w) = Some (f, frames b v1)).
  { rewrite E, lookup_app_r, Nat.sub_diag by lia. done. }
  split; [done|]. split; [rewrite E, lookup_app_r by lia; by rewrite Nat.sub_succ_l, Nat.sub_diag by lia|].
  intros o2. unfold load_area, w'. rewrite Hi.
  destruct (frames_phys b q v1 o1 Hq Hq0 H1) as [P1 S1], (frames_phys b q v2 o2 Hq Hq0 H2) as [P2 _].
  rewrite S1, (decide_True (P := 0 ≤ o1 < _)) by done. simpl. rewrite P1, P2, Hy2, Hy1.
  case_decide; [|by rewrite lookup_insert_ne by lia].
  replace (4096 * q + 4096 * vm_pgoff v1 + o1) with (4096 * q + 4096 * vm_pgoff v2 + o2) by lia.
  by rewrite lookup_insert_eq.
Qed.
End proofs.

(** ** Concrete runs *)

Definition idle : world slab_model dev_model := World inited ∅ [] ∅ false.
Definition busy : world slab_model dev_model :=
  match run [EOpen 1; EOpen 2; EMMap 1 vma_ok] idle with Next _ w => w | _ => idle end.



Lemma share_hazard_witness :
  wp (run [EClose 2; EStore 0 0 65]) busy (safely (λ _ w',
    (101%positive ∉ live (slab (driver w'))) ∧ areas w' !! 0%nat = Some (1%nat, Mapping 8192 101 4096 0) ∧
    bytes w' !! phys_of (Mapping 8192 101 4096 0) 0 = Some 65)) ∧
  wp (run [EUnload; EClose 2]) busy (Post (λ _ _, False) (λ _ _, False) (λ e w',
    e = BadDeref ∧ gone w' = true ∧ 101%positive ∉ live (slab (driver w')))).
Proof.
  refine (share_hazard 101 1 (Mapping 8192 101 4096 0) 0 2 busy _ eq_refl _ eq_refl eq_refl eq_refl).
  - split; vm_compute; reflexivity.
  - vm_compute. reflexivity.
Defined.

Lemma share_aliases_witness :
  wp (run [EMMap 1 vma_far; EMMap 2 (Vma 0 4096 8 0); EStore 1 5000 7]) busy (safely (λ _ w',
    length (areas w') = 3%nat →
    areas w' !! 1%nat = Some (1%nat, frames 101 vma_far) ∧
    areas w' !! 2%nat = Some (2%nat, frames 101 (Vma 0 4096 8 0)) ∧
    ∀ o2, load_area (frames 101 (Vma 0 4096 8 0)) o2 w' =
      if decide (4096 * 7 + 5000 = 4096 * 8 + o2) then Some 7
      else load_area (frames 101 (Vma 0 4096 8 0)) o2 busy)).
Proof.
  refine (share_aliases 101 101 1 2 vma_far (Vma 0 4096 8 0) 5000 7 busy eq_refl eq_refl
    _ _ eq_refl _ _ _ _); vm_compute; try reflexivity; intuition congruence.
Defined.
