(* ===== verification/Ioctl.v ===== *)
(** * ioctl/code.c and ioctl/ioctl.c

    The driver's [dev_ioctl] on the bytes of the calling process, registration,
    open and close, and the user program that calls it. *)
From stdpp Require Import base gmap strings list.
From Stdlib Require Import ZArith Lia.
From S2P Require Import Prelude Vfs.

(** ** Bytes *)

(** The [n] bytes of a number, the least significant first, and back. *)
Fixpoint le_bytes (n : nat) (z : Z) : list Z :=
  match n with O => [] | S n => z mod 256 :: le_bytes n (z / 256) end.
Fixpoint le_value (bs : list Z) : Z :=
  match bs with [] => 0 | b :: bs => b + 256 * le_value bs end.

Definition is_byte (b : Z) : Prop := 0 ≤ b < 256.

Lemma le_bytes_length n z : length (le_bytes n z) = n.
Proof. revert z. induction n as [|n IH]; intros z; simpl; [done|]. by rewrite IH. Qed.

Lemma le_bytes_is_byte n z : Forall is_byte (le_bytes n z).
Proof.
  revert z. induction n as [|n IH]; intros z; simpl; constructor; [|done].
  apply Z.mod_pos_bound. lia.
Qed.

Lemma le_value_bytes n z : 0 ≤ z < 256 ^ Z.of_nat n → le_value (le_bytes n z) = z.
Proof.
  revert z. induction n as [|n IH]; intros z Hz; simpl.
  - rewrite Z.pow_0_r in Hz. lia.
  - replace (Z.of_nat (S n)) with (Z.succ (Z.of_nat n)) in Hz by lia.
    rewrite Z.pow_succ_r in Hz by lia. pose proof (Z.div_mod z 256).
    rewrite IH; [lia|]. split; [apply Z.div_pos; lia|]. apply Z.div_lt_upper_bound; lia.
Qed.

Lemma le_value_bound bs : Forall is_byte bs → 0 ≤ le_value bs < 256 ^ Z.of_nat (length bs).
Proof.
  induction 1 as [|b bs Hb _ IH]; [simpl; lia|]. cbn [le_value length].
  replace (Z.of_nat (S (length bs))) with (Z.succ (Z.of_nat (length bs))) by lia.
  rewrite Z.pow_succ_r by lia. unfold is_byte in Hb. lia.
Qed.

Lemma le_value_app bs bs' :
  le_value (bs ++ bs') = le_value bs + 256 ^ Z.of_nat (length bs) * le_value bs'.
Proof.
  induction bs as [|b bs IH]; cbn [app le_value length]; [lia|].
  replace (Z.of_nat (S (length bs))) with (Z.succ (Z.of_nat (length bs))) by lia.
  rewrite Z.pow_succ_r by lia. rewrite IH. lia.
Qed.

#[global] Arguments le_bytes n z : simpl never.

(** ** The memory of the calling process *)

(** Its accessible bytes. *)
Abbreviation umem := (gmap Z Z).

Fixpoint read_bytes (n : nat) (a : Z) (m : umem) : option (list Z) :=
  match n with
  | O => Some []
  | S n => b ← m !! a; bs ← read_bytes n (a + 1) m; Some (b :: bs)
  end.
Fixpoint write_bytes (bs : list Z) (a : Z) (m : umem) : umem :=
  match bs with
  | [] => m
  | b :: bs => <[a := b]> (write_bytes bs (a + 1) m)
  end.

Lemma write_bytes_lookup bs a m j :
  write_bytes bs a m !! j =
    if decide (a ≤ j < a + Z.of_nat (length bs)) then bs !! Z.to_nat (j - a) else m !! j.
Proof.
  revert a. induction bs as [|b bs IH]; intros a; cbn [write_bytes length].
  - by rewrite decide_False by lia.
  - rewrite lookup_insert. destruct (decide (a = j)) as [->|Hj].
    + rewrite decide_True by lia. by rewrite Z.sub_diag.
    + rewrite IH. destruct (decide (a + 1 ≤ j < a + 1 + Z.of_nat (length bs))).
      * rewrite decide_True by lia. by replace (Z.to_nat (j - a)) with (S (Z.to_nat (j - (a + 1)))) by lia.
      * by rewrite decide_False by lia.
Qed.

Lemma read_bytes_ext n a m m' :
  (∀ j, a ≤ j < a + Z.of_nat n → m !! j = m' !! j) → read_bytes n a m = read_bytes n a m'.
Proof.
  revert a. induction n as [|n IH]; intros a Hm; [done|]. cbn [read_bytes].
  rewrite (Hm a) by lia. by rewrite (IH (a + 1)) by (intros; apply Hm; lia).
Qed.

Lemma read_write_bytes bs a m : read_bytes (length bs) a (write_bytes bs a m) = Some bs.
Proof.
  revert a. induction bs as [|b bs IH]; intros a; [done|]. cbn [read_bytes write_bytes length].
  rewrite lookup_insert_eq. simpl.
  rewrite (read_bytes_ext _ _ _ (write_bytes bs (a + 1) m)); [by rewrite IH|].
  intros j Hj. rewrite lookup_insert_ne by lia. done.
Qed.

Lemma read_bytes_app n n' a m bs :
  read_bytes (n + n') a m = Some bs ↔
  ∃ b1 b2, bs = b1 ++ b2 ∧ read_bytes n a m = Some b1 ∧ read_bytes n' (a + Z.of_nat n) m = Some b2.
Proof.
  revert a bs. induction n as [|n IH]; intros a bs.
  - simpl. rewrite Z.add_0_r. split; [by exists [], bs|]. by intros (? & ? & -> & [= <-] & ?).
  - cbn [read_bytes Nat.add]. destruct (m !! a) as [b|]; simpl; [|split; [done|by intros (?&?&_&?&_)]].
    split.
    + intros (bs' & Hr & [= <-])%bind_Some. apply IH in Hr as (b1 & b2 & -> & H1 & H2).
      exists (b :: b1), b2. rewrite H1. simpl. split; [done|]. split; [done|].
      rewrite <- H2. f_equal. lia.
    + intros (b1 & b2 & -> & (b1' & H1 & [= <-])%bind_Some & H2). apply bind_Some.
      exists (b1' ++ b2). split; [|done]. apply IH. exists b1', b2. split; [done|]. split; [done|].
      rewrite <- H2. f_equal. lia.
Qed.

Lemma read_bytes_length n a m bs : read_bytes n a m = Some bs → length bs = n.
Proof.
  revert a bs. induction n as [|n IH]; intros a bs; simpl; [by intros [= <-]|].
  intros (b & _ & (bs' & Hr & [= <-])%bind_Some)%bind_Some. simpl. f_equal. by eapply IH.
Qed.

(** ** The services *)

Definition majorNumber : Z := 150.

Class IoctlApi (X : Type) := {
  registered : X → bool;
  user : X → umem;                              (* the calling process *)
  register_chrdev : Z → X → Z * X;
  unregister_chrdev : Z → X → X;
  copy_to_user : Z → list Z → X → Z * X;        (* the number of bytes not copied *)
  copy_from_user : Z → nat → X → Z * list Z;
  user_store : Z → list Z → X → X;              (* a store of the process *)
  _IO : Z → Z → Z;                              (* type, number *)
  _IOR : Z → Z → Z → Z;                         (* type, number, size *)
  _IOW : Z → Z → Z → Z;
  _IOC_NR : Z → Z }.                            (* the number in a command *)

Class IoctlLaws (X : Type) `{IoctlApi X} : Prop := {
  register_spec x r x' : register_chrdev majorNumber x = (r, x') →
    user x' = user x ∧ registered x' = if decide (r < 0) then registered x else true;
  unregister_spec x :
    user (unregister_chrdev majorNumber x) = user x ∧
    registered (unregister_chrdev majorNumber x) = false;
  (** All bytes are copied when all are accessible; otherwise some are not, and
      what was copied is a prefix. *)
  copy_to_all a bs x old : read_bytes (length bs) a (user x) = Some old →
    ∃ x', copy_to_user a bs x = (0, x') ∧ user x' = write_bytes bs a (user x) ∧
      registered x' = registered x;
  copy_to_part a bs x r x' :
    copy_to_user a bs x = (r, x') → read_bytes (length bs) a (user x) = None →
    r ≠ 0 ∧ registered x' = registered x ∧ ∃ k, (k < length bs)%nat ∧
      is_Some (read_bytes k a (user x)) ∧ user x' = write_bytes (take k bs) a (user x);
  copy_from_all a n x bs : read_bytes n a (user x) = Some bs → copy_from_user a n x = (0, bs);
  copy_from_part a n x : read_bytes n a (user x) = None → (copy_from_user a n x).1 ≠ 0;
  user_store_spec a bs x :
    user (user_store a bs x) = write_bytes bs a (user x) ∧
    registered (user_store a bs x) = registered x;
  nr_IO t n : 0 ≤ n < 256 → _IOC_NR (_IO t n) = n;
  nr_IOR t n z : 0 ≤ n < 256 → _IOC_NR (_IOR t n z) = n;
  nr_IOW t n z : 0 ≤ n < 256 → _IOC_NR (_IOW t n z) = n }.

Definition EACCES : Z := 13.

(** What the user program has printed. *)
Record user_prog := UserProg { uout : list (string * list arg) }.

Section module.
Context {X : Type} `{IoctlApi X}.
Abbreviation st := (sys X user_prog).

(** The command numbers ([sizeof(int * )] is 8, ['q'] is 113). *)
Definition QUERY_GET_VARIABLES : Z := _IOR 113 1 8.
Definition QUERY_CLR_VARIABLES : Z := _IO 113 2.
Definition QUERY_SET_VARIABLES : Z := _IOW 113 3 8.

(** [static int __init ioctl_init(void)]. *)
Definition ioctl_init : M Z st Z :=
  ret ← on_kern' (register_chrdev majorNumber);
  (if ret <? 0 then
     printk KERN_ALERT "failed to register a major number %d\n" [AInt ret];; return_ ret
   else mret tt);;
  printk KERN_INFO "registered with major number %d\n" [AInt majorNumber];;
  return_ 0.

Definition dev_open : M Z st Z := printk KERN_INFO "Device opened\n" [];; return_ 0.
Definition dev_release : M Z st Z :=
  printk KERN_INFO "Device successfully closed\n" [];; return_ 0.

(** [long dev_ioctl(struct file *filep, unsigned int cmd, unsigned long arg)];
    [sizeof(unsigned long)] is 8. *)
Definition dev_ioctl (cmd arg : Z) : M Z st Z :=
  let a := 14 in
  rc ← (if decide (cmd = QUERY_GET_VARIABLES) then
          n ← on_kern' (copy_to_user arg (le_bytes 8 a));
          if negb (n =? 0) then printk KERN_INFO "COPY_TO_USER FAILED\n" [];; mret (- EACCES)
          else mret 0
        else if decide (cmd = QUERY_CLR_VARIABLES) then
          printk KERN_INFO "CLR_VARIABLES .....\n" [];; mret 0
        else if decide (cmd = QUERY_SET_VARIABLES) then
          '(n, x) ← gets (λ s, copy_from_user arg 8 (kern s));
          if negb (n =? 0) then printk KERN_INFO "COPY_FROM_USER FAILED\n" [];; mret (- EACCES)
          else printk KERN_INFO "I got [%lu] from user\n" [AInt (le_value x)];; mret 0
        else printk KERN_INFO "No matching IOCTL\n" [];; mret 0);
  return_ rc.

(** [static struct file_operations fops], where [old] is the condition of the
    #if, LINUX_VERSION_CODE < KERNEL_VERSION(2,6,35). *)
Definition fops (old : bool) : file_operations st :=
  FileOps false (Some dev_open) None (if old then Some dev_ioctl else None)
    (if old then None else Some dev_ioctl) (Some dev_release).

(** [static void __exit ioctl_exit(void)]. *)
Definition ioctl_exit : M unit st unit :=
  on_kern (unregister_chrdev majorNumber);;
  printk KERN_INFO "Goodbye, World!\n" [].

(** ** The user program *)

Definition printf {R} (fmt : string) (args : list arg) : M R st unit :=
  modify (λ s, set_glob (UserProg (uout (glob s) ++ [(fmt, args)])) s).

(** [int main(void)] of ioctl.c, with [q] at address [q], what is not
    compiled ([#if 0]) left out, and with what [dev] says is registered behind
    the device node. *)
Definition main (dev : st → option (file_operations st)) (fd q : Z) : M Z st Z :=
  on_kern (user_store q (le_bytes 4 0));;
  '(r, t) ← sys_open dev fd;
  (if r <? 0 then
     printf "open failed\n" [];; printf "make sure insmod code.ko is done\n" [];; return_ (-1)
   else mret tt);;
  on_kern (user_store q (le_bytes 4 140));;
  r ← sys_ioctl t QUERY_SET_VARIABLES q;
  (if r =? -1 then printf "error ioctl get" [] else mret tt);;
  printf "five ... done...SET\n" [];;
  _ ← vfs_release t;
  return_ 0.

(** The node when this driver is the one that can be registered. *)
Definition dev_node (old : bool) (s : st) : option (file_operations st) :=
  if registered (kern s) then Some (fops old) else None.
End module.

Section proofs.
Context {X : Type} `{ops_x : IoctlApi X, !IoctlLaws X}.
Abbreviation st := (sys X user_prog).
Implicit Types (s : st).

Lemma get_clr : QUERY_GET_VARIABLES ≠ QUERY_CLR_VARIABLES.
Proof. intros E%(f_equal _IOC_NR). unfold QUERY_GET_VARIABLES, QUERY_CLR_VARIABLES in E.
  by rewrite nr_IOR, nr_IO in E by lia. Qed.
Lemma get_set : QUERY_GET_VARIABLES ≠ QUERY_SET_VARIABLES.
Proof. intros E%(f_equal _IOC_NR). unfold QUERY_GET_VARIABLES, QUERY_SET_VARIABLES in E.
  by rewrite nr_IOR, nr_IOW in E by lia. Qed.
Lemma clr_set : QUERY_CLR_VARIABLES ≠ QUERY_SET_VARIABLES.
Proof. intros E%(f_equal _IOC_NR). unfold QUERY_CLR_VARIABLES, QUERY_SET_VARIABLES in E.
  by rewrite nr_IO, nr_IOW in E by lia. Qed.

Definition info (fmt : string) (args : list arg) : msg := Msg KERN_INFO fmt args.

(** What [dev_ioctl] is to do with the memory [m] of the process: the result,
    the memory after it and the line it prints. *)
Inductive ioctl_result (cmd arg : Z) (m : umem) : Z → umem → list msg → Prop :=
  | GetOk old : cmd = QUERY_GET_VARIABLES → read_bytes 8 arg m = Some old →
      ioctl_result cmd arg m 0 (write_bytes (le_bytes 8 14) arg m) []
  | GetFault k : cmd = QUERY_GET_VARIABLES → read_bytes 8 arg m = None → (k < 8)%nat →
      is_Some (read_bytes k arg m) →
      ioctl_result cmd arg m (- EACCES) (write_bytes (take k (le_bytes 8 14)) arg m)
        [info "COPY_TO_USER FAILED\n" []]
  | Clr : cmd = QUERY_CLR_VARIABLES →
      ioctl_result cmd arg m 0 m [info "CLR_VARIABLES .....\n" []]
  | SetOk bs : cmd = QUERY_SET_VARIABLES → read_bytes 8 arg m = Some bs →
      ioctl_result cmd arg m 0 m [info "I got [%lu] from user\n" [AInt (le_value bs)]]
  | SetFault : cmd = QUERY_SET_VARIABLES → read_bytes 8 arg m = None →
      ioctl_result cmd arg m (- EACCES) m [info "COPY_FROM_USER FAILED\n" []]
  | NoMatch : cmd ≠ QUERY_GET_VARIABLES → cmd ≠ QUERY_CLR_VARIABLES →
      cmd ≠ QUERY_SET_VARIABLES →
      ioctl_result cmd arg m 0 m [info "No matching IOCTL\n" []].

Lemma ioctl_run cmd arg s :
  wp (dev_ioctl cmd arg) s (returns (λ r s',
    ∃ m ls, ioctl_result cmd arg (user (kern s)) r m ls ∧ user (kern s') = m ∧
      klog s' = klog s ++ ls ∧ registered (kern s') = registered (kern s) ∧ glob s' = glob s)).
Proof.
  unfold dev_ioctl. apply wp_bind. case_decide as Hg.
  { apply wp_bind, wp_on_kern'. intros n x E. simpl.
    destruct (read_bytes 8 arg (user (kern s))) as [old|] eqn:Hr.
    - destruct (copy_to_all arg (le_bytes 8 14) (kern s) old Hr) as (x' & E' & Hu & Hreg).
      rewrite E' in E. injection E as <- <-. simpl. apply wp_ret, wp_return. simpl.
      eexists _, []. split; [by eapply GetOk|]. rewrite app_nil_r. done.
    - destruct (copy_to_part _ _ _ _ _ E Hr) as (Hn & Hreg & k & Hk & Hs & Hu).
      rewrite (proj2 (Z.eqb_neq _ _) Hn). apply wp_bind, wp_printk, wp_ret, wp_return. simpl.
      eexists _, _. split; [by eapply (GetFault _ _ _ k)|]. done. }
  case_decide as Hc.
  { apply wp_bind, wp_printk, wp_ret, wp_return. simpl. eexists _, _. by split; [apply Clr|]. }
  case_decide as Hs.
  - apply wp_bind, wp_gets. simpl. destruct (read_bytes 8 arg (user (kern s))) as [bs|] eqn:Hr.
    + rewrite (copy_from_all _ _ _ _ Hr). simpl. apply wp_bind, wp_printk, wp_ret, wp_return. simpl.
      eexists _, _. by split; [eapply SetOk|].
    + pose proof (copy_from_part _ _ _ Hr) as Hn. destruct (copy_from_user arg 8 (kern s)) as [n x].
      simpl in Hn. rewrite (proj2 (Z.eqb_neq _ _) Hn). apply wp_bind, wp_printk, wp_ret, wp_return.
      simpl. eexists _, _. by split; [apply SetFault|].
  - apply wp_bind, wp_printk, wp_ret, wp_return. simpl. eexists _, _. by split; [apply NoMatch|].
Qed.

(** C16: [dev_ioctl] refines its specification on every command, every
    argument and every memory of the process: which bytes of the process it
    writes, what it returns and what it prints, with the failing copies and
    the unknown commands (for which it returns 0) included. *)
Theorem ioctl_refines cmd arg s :
  wp (dev_ioctl cmd arg) s (returns (λ r s',
    ∃ m ls, ioctl_result cmd arg (user (kern s)) r m ls ∧ user (kern s') = m ∧
      klog s' = klog s ++ ls)).
Proof.
  eapply wp_mono; [apply ioctl_run|..|done]; simpl; intros r s' (m & ls & ? & ? & ? & _); eauto.
Qed.

(** Memory is typed: what a process can read are bytes. *)
Definition typed (m : umem) : Prop := map_Forall (λ _ b, is_byte b) m.

Lemma read_bytes_in n a m bs j :
  read_bytes n a m = Some bs → a ≤ j < a + Z.of_nat n → is_Some (m !! j).
Proof.
  revert a bs. induction n as [|n IH]; intros a bs Hr Hj; [lia|]. simpl in Hr.
  apply bind_Some in Hr as (b & Hb & Hr). apply bind_Some in Hr as (bs' & Hr & _).
  destruct (decide (j = a)) as [->|]; [eauto|]. eapply IH; [exact Hr|lia].
Qed.

Lemma read_bytes_typed n a m bs : typed m → read_bytes n a m = Some bs → Forall is_byte bs.
Proof.
  intros Hm. revert a bs. induction n as [|n IH]; intros a bs Hr; simpl in Hr; [by simplify_eq|].
  apply bind_Some in Hr as (b & Hb & Hr). apply bind_Some in Hr as (bs' & Hr & [= <-]).
  constructor; [by eapply Hm|by eapply IH].
Qed.

(** A store to accessible bytes makes no byte accessible. *)
Lemma write_bytes_typed bs n a m old :
  typed m → Forall is_byte bs → read_bytes n a m = Some old → (length bs ≤ n)%nat →
  typed (write_bytes bs a m) ∧ dom (write_bytes bs a m) = dom m.
Proof.
  intros Hm Hbs Hr Hl. split.
  - intros j b. rewrite write_bytes_lookup. case_decide; [|apply Hm].
    intros Hb%list_elem_of_lookup_2. by eapply Forall_forall.
  - apply set_eq. intros j. rewrite !elem_of_dom, write_bytes_lookup. case_decide as Hj; [|done].
    split; intros _; [eapply read_bytes_in; [done|lia]|]. apply lookup_lt_is_Some. lia.
Qed.

Lemma ioctl_result_typed cmd arg m r m' ls :
  typed m → ioctl_result cmd arg m r m' ls →
  typed m' ∧ dom m' = dom m ∧ (r = 0 ∨ r = - EACCES) ∧
  ∀ l x, l ∈ ls → msg_args l = [AInt x] → 0 ≤ x < 2 ^ 64.
Proof.
  intros Hm Hr.
  assert (H8 : Forall is_byte (le_bytes 8 14)) by apply le_bytes_is_byte.
  destruct Hr as [old _ Hr|k _ _ Hk [old Hr]|_|bs _ Hr|_ _|_ _ _].
  - destruct (write_bytes_typed (le_bytes 8 14) 8 arg m old) as [? ?]; [done..|by rewrite le_bytes_length|].
    do 3 (split; [by auto|]). by intros l x ?%not_elem_of_nil.
  - destruct (write_bytes_typed (take k (le_bytes 8 14)) k arg m old) as [? ?];
      [done|by apply Forall_take|done|rewrite length_take; lia|].
    do 3 (split; [by auto|]). by intros l x ->%list_elem_of_singleton.
  - do 3 (split; [by auto|]). by intros l x ->%list_elem_of_singleton.
  - assert (Hb : 0 ≤ le_value bs < 256 ^ Z.of_nat (length bs))
      by (by eapply le_value_bound, read_bytes_typed).
    rewrite (read_bytes_length _ _ _ _ Hr) in Hb.
    do 3 (split; [by auto|]). intros l x ->%list_elem_of_singleton [= <-]. exact Hb.
  - do 3 (split; [by auto|]). by intros l x ->%list_elem_of_singleton.
  - do 3 (split; [by auto|]). by intros l x ->%list_elem_of_singleton.
Qed.

(** C30: [dev_ioctl] is type safe on every command, argument and memory: bytes
    stay bytes, no address becomes accessible or stops being so, the result is
    one of the two an [int] rc is set to, and a number it prints is an
    [unsigned long]. *)
Theorem ioctl_typed cmd arg s :
  typed (user (kern s)) →
  wp (dev_ioctl cmd arg) s (returns (λ r s',
    typed (user (kern s')) ∧ dom (user (kern s')) = dom (user (kern s)) ∧ (r = 0 ∨ r = - EACCES) ∧
    ∃ ls, klog s' = klog s ++ ls ∧
      ∀ l x, l ∈ ls → msg_args l = [AInt x] → 0 ≤ x < 2 ^ 64)).
Proof.
  intros Hm. eapply wp_mono; [apply ioctl_run|..|done]; simpl;
    intros r s' (m & ls & Hr & <- & Hl & _);
    destruct (ioctl_result_typed _ _ _ _ _ _ Hm Hr) as (? & ? & ? & ?); eauto 7.
Qed.

(** The outcome of a command that matches, by its specification. *)
Lemma get_outcome arg m r m' ls old :
  ioctl_result QUERY_GET_VARIABLES arg m r m' ls → read_bytes 8 arg m = Some old →
  r = 0 ∧ m' = write_bytes (le_bytes 8 14) arg m ∧ ls = [].
Proof. pose proof get_clr. pose proof get_set. intros [] Hr; by simplify_eq. Qed.

Lemma set_outcome arg m r m' ls :
  ioctl_result QUERY_SET_VARIABLES arg m r m' ls →
  m' = m ∧
  match read_bytes 8 arg m with
  | Some bs => r = 0 ∧ ls = [info "I got [%lu] from user\n" [AInt (le_value bs)]]
  | None => r = - EACCES ∧ ls = [info "COPY_FROM_USER FAILED\n" []]
  end.
Proof.
  pose proof get_set. pose proof clr_set.
  intros [? Hc|? Hc|Hc|? Hc Hr|Hc Hr|]; try (by symmetry in Hc); by rewrite ?Hr.
Qed.

(** The eight bytes that QUERY_GET writes, as two halves. *)
Lemma get_bytes arg (m : umem) :
  read_bytes 4 arg (write_bytes (le_bytes 8 14) arg m) = Some (le_bytes 4 14) ∧
  read_bytes 4 (arg + 4) (write_bytes (le_bytes 8 14) arg m) = Some [0; 0; 0; 0] ∧
  ∀ j, ¬ (arg ≤ j < arg + 8) → write_bytes (le_bytes 8 14) arg m !! j = m !! j.
Proof.
  pose proof (read_write_bytes (le_bytes 8 14) arg m) as Hw.
  apply (read_bytes_app 4 4) in Hw as (b1 & b2 & E & H1 & H2).
  pose proof (read_bytes_length _ _ _ _ H1) as L1.
  destruct b1 as [|? [|? [|? [|? [|]]]]]; try done. injection E as <- <- <- <- <-.
  split; [exact H1|]. split; [exact H2|]. intros j Hj.
  by rewrite write_bytes_lookup, decide_False by (simpl; lia).
Qed.

(** The caller passes the address of a 4-byte [int], the driver copies 8
    bytes: a successful QUERY_GET sets the [int] to 14 and the four bytes
    behind it to 0, whatever object of the process they belong to, and
    changes no other byte. *)
Theorem get_overwrites arg s old :
  read_bytes 8 arg (user (kern s)) = Some old →
  wp (dev_ioctl QUERY_GET_VARIABLES arg) s (returns (λ r s',
    r = 0 ∧ read_bytes 4 arg (user (kern s')) = Some (le_bytes 4 14) ∧
    read_bytes 4 (arg + 4) (user (kern s')) = Some [0; 0; 0; 0] ∧
    ∀ j, ¬ (arg ≤ j < arg + 8) → user (kern s') !! j = user (kern s) !! j)).
Proof.
  intros Hr. eapply wp_mono; [apply ioctl_run|..|done]; simpl;
    intros r s' (m & ls & Hi & Hu & _); destruct (get_outcome _ _ _ _ _ _ Hi Hr) as (-> & -> & _);
    rewrite Hu; (split; [done|]); apply get_bytes.
Qed.

Lemma set_after_get arg s s1 :
  user (kern s1) = write_bytes (le_bytes 8 14) arg (user (kern s)) → klog s1 = klog s →
  wp (call (dev_ioctl QUERY_SET_VARIABLES arg)) s1
    (safely (R:=unit) (λ r s', r = 0 ∧ klog s' = klog s ++ [info "I got [%lu] from user\n" [AInt 14]])).
Proof.
  intros Hu Hl. apply wp_call. eapply wp_mono; [apply ioctl_run|..|done]; simpl;
    intros r s2 (m & ls & Hi & _ & Hl2 & _); apply set_outcome in Hi as [_ Hi];
    rewrite Hu, (read_write_bytes (le_bytes 8 14)) in Hi; destruct Hi as [-> ->];
    rewrite le_value_bytes in Hl2 by lia; by rewrite Hl2, Hl.
Qed.

(** C31: a value set by the driver is read back by it: QUERY_GET followed by
    QUERY_SET on the same address prints the 14 that the driver had stored. *)
Theorem get_set_roundtrip arg s old :
  read_bytes 8 arg (user (kern s)) = Some old →
  wp (_ ← call (dev_ioctl QUERY_GET_VARIABLES arg); call (dev_ioctl QUERY_SET_VARIABLES arg)) s
    (safely (R:=unit) (λ r s', r = 0 ∧ klog s' = klog s ++ [info "I got [%lu] from user\n" [AInt 14]])).
Proof.
  intros Hr. apply wp_bind, wp_call. eapply wp_mono; [apply ioctl_run|..|done]; simpl;
    intros r s1 (m & ls & Hi & Hu & Hl & _); destruct (get_outcome _ _ _ _ _ _ Hi Hr) as (_ & -> & ->);
    rewrite app_nil_r in Hl; eapply set_after_get; eauto.
Qed.

(** ** The user program *)

(** What the program makes the driver print: the [int] it set to 140 together
    with the four bytes that follow it. *)
Definition sent (hi : list Z) : Z := 140 + 2 ^ 32 * le_value hi.

Definition after_q (q : Z) (m : umem) : option (list Z) := read_bytes 4 (q + 4) m.

Lemma stored_140 q (m : umem) :
  read_bytes 8 q (write_bytes (le_bytes 4 140) q (write_bytes (le_bytes 4 0) q m)) =
    (hi ← after_q q m; Some (le_bytes 4 140 ++ hi)).
Proof.
  set (m' := write_bytes _ _ _).
  assert (Hlo : read_bytes 4 q m' = Some (le_bytes 4 140)) by exact (read_write_bytes (le_bytes 4 140) q _).
  assert (Hhi : read_bytes 4 (q + 4) m' = after_q q m).
  { apply read_bytes_ext. intros j Hj. unfold m'. rewrite !write_bytes_lookup.
    by rewrite !decide_False by (simpl; lia). }
  destruct (read_bytes 8 q m') as [bs|] eqn:E.
  - apply (read_bytes_app 4 4) in E as (b1 & b2 & -> & H1 & H2).
    rewrite Hlo in H1. injection H1 as <-. change (q + Z.of_nat 4) with (q + 4) in H2. by rewrite <- Hhi, H2.
  - destruct (after_q q m) as [hi|] eqn:Eq; [|done].
    assert (read_bytes 8 q m' = Some (le_bytes 4 140 ++ hi)); [|congruence].
    apply (read_bytes_app 4 4). eexists _, _. split; [done|]. split; [done|]. done.
Qed.

Lemma sent_value hi : le_value (le_bytes 4 140 ++ hi) = sent hi.
Proof. rewrite le_value_app. done. Qed.

(** Either table leads to [dev_ioctl]. *)
Lemma vfs_ioctl_dev {R} old cmd arg : vfs_ioctl (R:=R) (fops old) cmd arg = call (dev_ioctl cmd arg).
Proof. by destruct old. Qed.

(** The rest of [main] after the driver has answered. *)
Lemma main_rest old q s s2 r ls :
  klog s2 = klog s ++ info "Device opened\n" [] :: ls → glob s2 = glob s →
  match (hi ← after_q q (user (kern s)); Some (le_bytes 4 140 ++ hi)) with
  | Some bs => r = 0 ∧ ls = [info "I got [%lu] from user\n" [AInt (le_value bs)]]
  | None => r = - EACCES ∧ ls = [info "COPY_FROM_USER FAILED\n" []]
  end →
  wp ((if (if r <? 0 then -1 else r) =? -1 then printf "error ioctl get" [] else mret tt);;
      printf "five ... done...SET\n" [];; _ ← vfs_release (fops old); return_ 0) s2
    (returns (λ r s', r = 0 ∧ ∃ l out,
        klog s' = klog s ++ [info "Device opened\n" []; l; info "Device successfully closed\n" []] ∧
        uout (glob s') = uout (glob s) ++ out ++ [("five ... done...SET\n", [])] ∧
        match after_q q (user (kern s)) with
        | Some hi => l = info "I got [%lu] from user\n" [AInt (sent hi)] ∧ out = [] ∧
            (sent hi = 140 ↔ le_value hi = 0)
        | None => l = info "COPY_FROM_USER FAILED\n" [] ∧ out = [("error ioctl get", [])]
        end)).
Proof.
  intros Hl Hg Hi. unfold printf, vfs_release, fops, dev_release. simpl fo_release.
  destruct (after_q q (user (kern s))) as [hi|]; cbn [mbind option_bind] in Hi;
    [rewrite sent_value in Hi|]; destruct Hi as [-> ->].
  - apply wp_bind, wp_ret. simpl. wp_steps. split; [done|]. unfold add_log. simpl. eexists _, [].
    rewrite Hl, Hg, <- app_assoc.
    split; [done|]. split; [done|]. split; [done|]. split; [done|]. unfold sent. lia.
  - apply wp_bind, wp_modify. simpl. wp_steps. split; [done|]. unfold add_log. simpl. eexists _, [_].
    rewrite Hl, Hg, <- !app_assoc. done.
Qed.

(** C32: the user program on any memory and with either table of methods: without the device it prints the two
    lines and returns -1.  With it, it returns 0; the driver reads eight bytes
    where the program has a 4-byte [int], so it prints 140 exactly when the
    four bytes behind [q] are accessible and zero, and when they are not
    accessible the call fails although [q] itself is. *)
Theorem main_sends old fd q s :
  0 ≤ fd →
  wp (main (dev_node old) fd q) s (returns (λ r s',
    if registered (kern s) then
      r = 0 ∧ ∃ l out,
      klog s' = klog s ++ [info "Device opened\n" []; l; info "Device successfully closed\n" []] ∧
      uout (glob s') = uout (glob s) ++ out ++ [("five ... done...SET\n", [])] ∧
      match after_q q (user (kern s)) with
      | Some hi => l = info "I got [%lu] from user\n" [AInt (sent hi)] ∧ out = [] ∧
          (sent hi = 140 ↔ le_value hi = 0)
      | None => l = info "COPY_FROM_USER FAILED\n" [] ∧ out = [("error ioctl get", [])]
      end
    else
      r = -1 ∧ klog s' = klog s ∧
      uout (glob s') = uout (glob s) ++
        [("open failed\n", []); ("make sure insmod code.ko is done\n", [])])).
Proof.
  intros Hfd. unfold main. apply wp_bind, wp_on_kern. simpl.
  destruct (user_store_spec q (le_bytes 4 0) (kern s)) as [Hu Hreg].
  apply wp_bind. unfold sys_open. apply wp_bind, wp_gets. simpl. unfold dev_node. simpl. rewrite Hreg.
  destruct (registered (kern s)) eqn:E.
  - apply wp_bind, wp_call, wp_bind, wp_printk, wp_return. simpl. apply wp_ret. simpl.
    rewrite (proj2 (Z.ltb_ge _ _) Hfd). apply wp_bind, wp_ret. simpl. apply wp_bind, wp_on_kern. simpl.
    set (k := user_store q _ _). set (s1 := set_kern k _).
    assert (Hk : read_bytes 8 q (user (kern s1)) =
      (hi ← after_q q (user (kern s)); Some (le_bytes 4 140 ++ hi))).
    { unfold s1. simpl. unfold k. destruct (user_store_spec q (le_bytes 4 140) (user_store q (le_bytes 4 0) (kern s))) as [-> _].
      rewrite Hu. apply stored_140. }
    apply wp_bind. unfold sys_ioctl. rewrite vfs_ioctl_dev. apply wp_bind, wp_call.
    assert (Hl1 : klog s1 = klog s ++ [info "Device opened\n" []]) by done.
    assert (Hg1 : glob s1 = glob s) by done. clearbody s1 k.
    eapply wp_mono; [apply ioctl_run| | |intros ?? []]; simpl; intros r s2 (m & ls & Hi & _ & Hl & _ & Hg);
      apply set_outcome in Hi as [_ Hi]; rewrite Hk in Hi; apply wp_ret;
      (eapply main_rest; [|by rewrite Hg|exact Hi]); by rewrite Hl, Hl1, <- app_assoc.
  - apply wp_ret. simpl. unfold printf. wp_steps. split; [done|]. split; [done|].
    by rewrite <- app_assoc.
Qed.
End proofs.

(** ** Concrete services *)

Record io_model := IoModel { i_registered : bool; i_user : umem }.

(** The longest accessible prefix. *)
Fixpoint reach (n : nat) (a : Z) (m : umem) : nat :=
  match n with
  | O => O
  | S n => match m !! a with Some _ => S (reach n (a + 1) m) | None => O end
  end.

Lemma reach_read n a m : is_Some (read_bytes (reach n a m) a m).
Proof.
  revert a. induction n as [|n IH]; intros a; [by eexists|]. simpl.
  destruct (m !! a) as [b|] eqn:E; [|by eexists]. simpl. rewrite E. simpl.
  destruct (IH (a + 1)) as [bs ->]. by eexists.
Qed.

Lemma reach_short n a m : read_bytes n a m = None → (reach n a m < n)%nat.
Proof.
  revert a. induction n as [|n IH]; intros a; [done|]. simpl.
  destruct (m !! a) as [b|]; simpl; [|lia].
  destruct (read_bytes n (a + 1) m) eqn:E; [done|]. intros _. specialize (IH _ E). lia.
Qed.

(** The layout of a command: direction, size, type, number. *)
Definition ioc (dir t n z : Z) : Z := dir * 2 ^ 30 + z * 2 ^ 16 + t * 2 ^ 8 + n.

#[global] Instance io_model_ops : IoctlApi io_model := {
  registered := i_registered;
  user := i_user;
  register_chrdev _ x := (0, IoModel true (i_user x));
  unregister_chrdev _ x := IoModel false (i_user x);
  copy_to_user a bs x :=
    match read_bytes (length bs) a (i_user x) with
    | Some _ => (0, IoModel (i_registered x) (write_bytes bs a (i_user x)))
    | None => let k := reach (length bs) a (i_user x) in
        (Z.of_nat (length bs - k),
         IoModel (i_registered x) (write_bytes (take k bs) a (i_user x)))
    end;
  copy_from_user a n x :=
    match read_bytes n a (i_user x) with
    | Some bs => (0, bs)
    | None => (1, [])
    end;
  user_store a bs x := IoModel (i_registered x) (write_bytes bs a (i_user x));
  _IO t n := ioc 0 t n 0;
  _IOR t n z := ioc 2 t n z;
  _IOW t n z := ioc 1 t n z;
  _IOC_NR c := c mod 256 }.

Lemma ioc_nr dir t n z : 0 ≤ n < 256 → ioc dir t n z mod 256 = n.
Proof.
  intros Hn. unfold ioc.
  replace (dir * 2 ^ 30 + z * 2 ^ 16 + t * 2 ^ 8 + n) with (n + (dir * 2 ^ 22 + z * 2 ^ 8 + t) * 256) by lia.
  rewrite Z_mod_plus_full. by apply Z.mod_small.
Qed.

#[global] Instance io_model_laws : IoctlLaws io_model.
Proof.
  split; try done; try (intros; apply ioc_nr; lia); simpl.
  - intros x r x' [= <- <-]. done.
  - intros a bs x old ->. eauto.
  - intros a bs x r x' E Hr. rewrite Hr in E. injection E as <- <-. pose proof (reach_short _ _ _ Hr).
    split; [lia|]. split; [done|]. eexists. split; [done|]. split; [apply reach_read|done].
  - intros a n x bs ->. done.
  - intros a n x ->. done.
Qed.

(** A process with sixteen accessible bytes at 1000, all of them 7. *)
Definition running : sys io_model user_prog :=
  Sys (IoModel true (write_bytes (replicate 16 7) 1000 ∅)) (UserProg []) [].

Lemma ioctl_refines_witness :
  wp (dev_ioctl QUERY_SET_VARIABLES 1000) running (returns (λ r s',
    ∃ m ls, ioctl_result QUERY_SET_VARIABLES 1000 (user (kern running)) r m ls ∧
      user (kern s') = m ∧ klog s' = klog running ++ ls)).
Proof. exact (ioctl_refines QUERY_SET_VARIABLES 1000 running). Defined.

Lemma ioctl_typed_witness :
  wp (dev_ioctl QUERY_SET_VARIABLES 1000) running (returns (λ r s',
    typed (user (kern s')) ∧ dom (user (kern s')) = dom (user (kern running)) ∧
    (r = 0 ∨ r = - EACCES) ∧
    ∃ ls, klog s' = klog running ++ ls ∧
      ∀ l x, l ∈ ls → msg_args l = [AInt x] → 0 ≤ x < 2 ^ 64)).
Proof.
  refine (ioctl_typed QUERY_SET_VARIABLES 1000 running _).
  intros j b. change (user (kern running)) with (write_bytes (replicate 16 7) 1000 ∅).
  rewrite write_bytes_lookup. case_decide; [|done].
  intros [-> _]%lookup_replicate. split; reflexivity || discriminate.
Defined.

Lemma get_overwrites_witness :
  wp (dev_ioctl QUERY_GET_VARIABLES 1004) running (returns (λ r s',
    r = 0 ∧ read_bytes 4 1004 (user (kern s')) = Some (le_bytes 4 14) ∧
    read_bytes 4 1008 (user (kern s')) = Some [0; 0; 0; 0] ∧
    ∀ j, ¬ (1004 ≤ j < 1012) → user (kern s') !! j = user (kern running) !! j)).
Proof. exact (get_overwrites 1004 running (replicate 8 7) eq_refl). Defined.

Lemma get_set_roundtrip_witness :
  wp (_ ← call (dev_ioctl QUERY_GET_VARIABLES 1000); call (dev_ioctl QUERY_SET_VARIABLES 1000)) running
    (safely (R:=unit) (λ r s', r = 0 ∧ klog s' = [] ++ [info "I got [%lu] from user\n" [AInt 14]])).
Proof. exact (get_set_roundtrip 1000 running (replicate 8 7) eq_refl). Defined.

(** With [q] at 1000 the four bytes behind it are 7, with [q] at 1012 they are
    not accessible. *)
Lemma main_sends_witness :
  wp (main (dev_node false) 3 1012) running (returns (λ r s',
    r = 0 ∧ ∃ l out,
      klog s' = [] ++ [info "Device opened\n" []; l; info "Device successfully closed\n" []] ∧
      uout (glob s') = [] ++ out ++ [("five ... done...SET\n", [])] ∧
      match after_q 1012 (user (kern running)) with
      | Some hi => l = info "I got [%lu] from user\n" [AInt (sent hi)] ∧ out = [] ∧
          (sent hi = 140 ↔ le_value hi = 0)
      | None => l = info "COPY_FROM_USER FAILED\n" [] ∧ out = [("error ioctl get", [])]
      end)).
Proof. refine (main_sends false 3 1012 running _). lia. Defined.

Example main_runs :
  returned (main (dev_node false) 3 1000 running) =
    Some (0, [info "Device opened\n" []; info "I got [%lu] from user\n" [AInt (140 + 2 ^ 32 * 117901063)];
              info "Device successfully closed\n" []]).
Proof. vm_compute. reflexivity. Qed.
