(* ===== verification/Drivers.v ===== *)
(** * mmap/code.c and ioctl/code.c in one kernel

    Both drivers register the same fixed major number and name, both user
    programs open the same node, and both are built as a module of the same name,
    of which a kernel loads one at a time.  This file puts the two modules, the table of
    the major numbers, loading and unloading, and the two user programs into one
    state, in which each module runs as Mmap.v and Ioctl.v have it. *)
From stdpp Require Import base gmap strings list.
From Stdlib Require Import ZArith Lia.
From S2P Require Import Prelude Kernel KernelModel Vfs Mmap MmapUser Ioctl.

Inductive driver := IoctlDrv | MmapDrv.

#[global] Instance driver_eq_dec : EqDecision driver.
Proof. solve_decision. Defined.

(** The name of a module is that of its object file: [obj-m += code.o] in the
    Makefile of either. *)
Definition module_name (d : driver) : string :=
  match d with IoctlDrv => "code" | MmapDrv => "code" end.

Definition EEXIST : Z := 17.
Definition ENOENT : Z := 2.
(** The number in [mknod /dev/mmapchar c 150 0]. *)
Definition major : Z := 150.

(** ** The table of the major numbers *)

Class Majors (T : Type) := {
  majors : T → gmap Z driver;
  chr_register : driver → Z → T → Z * T;
  chr_unregister : Z → T → T }.

(** A number that is taken is refused; a free one is given, or not for want of
    memory. *)
Class MajorsLaws (T : Type) `{Majors T} : Prop := {
  register_busy d n t d' r t' : majors t !! n = Some d' → chr_register d n t = (r, t') →
    r = - EBUSY ∧ majors t' = majors t;
  register_free d n t r t' : majors t !! n = None → chr_register d n t = (r, t') →
    (r = 0 ∧ majors t' = <[n := d]> (majors t)) ∨ (r < 0 ∧ majors t' = majors t);
  unregister_majors n t : majors (chr_unregister n t) = delete n (majors t) }.

Section kernel.
Context {T U A V : Type} `{ops_t : Majors T, ops_u : IoctlApi U, ops_a : Slab A, ops_v : DevApi V}.

(** ** The state

    The table, the memory of the calling process, the allocator, what is mapped,
    the data of the mmap module, and the modules that are loaded, by name. *)
Record mach := Mach {
  tab : T; usr : U; mslab : A; mdev : V; mobjs : objs unit globals;
  mods : gmap string driver }.

Definition set_tab (t : T) (k : mach) : mach := Mach t (usr k) (mslab k) (mdev k) (mobjs k) (mods k).
Definition set_usr (u : U) (k : mach) : mach := Mach (tab k) u (mslab k) (mdev k) (mobjs k) (mods k).
Definition set_mods (d : gmap string driver) (k : mach) : mach :=
  Mach (tab k) (usr k) (mslab k) (mdev k) (mobjs k) d.

(** The services the ioctl module calls. *)
#[global] Instance mach_io : IoctlApi mach := {
  Ioctl.registered k := bool_decide (majors (tab k) !! major = Some IoctlDrv);
  user k := user (usr k);
  Ioctl.register_chrdev n k := let '(r, t) := chr_register IoctlDrv n (tab k) in (r, set_tab t k);
  Ioctl.unregister_chrdev n k := set_tab (chr_unregister n (tab k)) k;
  copy_to_user a bs k := let '(n, u) := copy_to_user a bs (usr k) in (n, set_usr u k);
  copy_from_user a n k := copy_from_user a n (usr k);
  user_store a bs k := set_usr (user_store a bs (usr k)) k;
  _IO := _IO (X:=U);
  _IOR := _IOR (X:=U);
  _IOW := _IOW (X:=U);
  _IOC_NR := _IOC_NR (X:=U) }.

(** The services the mmap module calls. *)
#[global] Instance mach_dev : DevApi (T * V) := {
  Mmap.registered x := bool_decide (majors x.1 !! major = Some MmapDrv);
  mapped x := mapped x.2;
  Mmap.register_chrdev n x := let '(r, t) := chr_register MmapDrv n x.1 in (r, (t, x.2));
  Mmap.unregister_chrdev n x := (chr_unregister n x.1, x.2);
  virt_to_phys := virt_to_phys (X:=V);
  remap_pfn_range m x := let '(r, v) := remap_pfn_range m x.2 in (r, (x.1, v)) }.

Abbreviation world := (sys mach user_prog).
Abbreviation mst := (sys (kstate A unit (T * V)) (objs unit globals)).

(** The state of the mmap module in it. *)
Definition mm_get (w : world) : mst :=
  Sys (KState (mslab (kern w)) tt (tab (kern w), mdev (kern w))) (mobjs (kern w)) (klog w).
Definition mm_put (s : mst) (w : world) : world :=
  Sys (Mach (extra s).1 (usr (kern w)) (slab s) (extra s).2 (glob s) (mods (kern w))) (glob w) (klog s).
Definition mm {R B} (c : M R mst B) : M R world B := zoom mm_get mm_put c.

(** ** Open *)

(** The methods of a loaded module; the code of a module that is gone is not
    there any more. *)
Definition ops_of (old : bool) (d : driver) : file_operations world :=
  match d with
  | IoctlDrv => Ioctl.fops old
  | MmapDrv => zoom_ops mm_get mm_put Mmap.fops
  end.
Definition gone_ops : file_operations world :=
  FileOps false (Some (fail BadDeref)) (Some (λ _, fail BadDeref)) (Some (λ _ _, fail BadDeref))
    (Some (λ _ _, fail BadDeref)) (Some (fail BadDeref)).

(** What is behind /dev/mmapchar. *)
Definition node (old : bool) (w : world) : option (file_operations world) :=
  d ← majors (tab (kern w)) !! major;
  Some (if decide (mods (kern w) !! module_name d = Some d) then ops_of old d else gone_ops).

(** ** Load, unload, run *)

(** The load function, on fresh data of the module, and the unload function. *)
Definition init_of (d : driver) : M Z world Z :=
  match d with
  | IoctlDrv => ioctl_init
  | MmapDrv => mm (modify (set_var (Globals Null));; mmap_example_init)
  end.
Definition exit_of (d : driver) : M unit world unit :=
  match d with IoctlDrv => ioctl_exit | MmapDrv => mm mmap_example_exit end.

Definition set_loaded {R} (g : gmap string driver → gmap string driver) : M R world unit :=
  on_kern (λ k, set_mods (g (mods k)) k).

(** What the administrator and a user do: insmod of the file of a driver, rmmod
    of a name, and a run of either program from its start to the end of its
    process.  A name that is loaded is refused before the code of the module
    runs. *)
Inductive event := Insmod (d : driver) | Rmmod (n : string) | RunIoctl (fd q : Z) | RunMmap (fd a : Z).

Definition handle (old : bool) (e : event) : M unit world Z :=
  match e with
  | Insmod d =>
      l ← gets (λ w, mods (kern w));
      match l !! module_name d with
      | Some _ => mret (- EEXIST)
      | None =>
          r ← call (init_of d);
          (if r <? 0 then mret tt else set_loaded (<[module_name d := d]>));;
          mret r
      end
  | Rmmod n =>
      l ← gets (λ w, mods (kern w));
      match l !! n with
      | Some d => call (exit_of d);; set_loaded (delete n);; mret 0
      | None => mret (- ENOENT)
      end
  | RunIoctl fd q => call (Ioctl.main (node old) fd q)
  | RunMmap fd a => λ w,
      match run_prog (R:=unit) (node old) fd a (w, no_proc []) with
      | Next r (w', u) => Next r (set_glob (UserProg (Ioctl.uout (glob w') ++ MmapUser.uout u)) w')
      | Return r (w', u) => Return r w'
      | Fault f (w', u) => Fault f w'
      end
  end.

(** A sequence of them, with their results. *)
Fixpoint run (old : bool) (es : list event) : M unit world (list Z) :=
  match es with
  | [] => mret []
  | e :: es => r ← handle old e; rs ← run old es; mret (r :: rs)
  end.
End kernel.
#[global] Arguments mach T U A V : clear implicits.

(** ** What the two modules are to the administrator

    Nothing is registered; the ioctl module is loaded; the mmap module is, with
    its buffer or with a pointer to the freed buffer; or the number is taken by
    the mmap module, which is not loaded. *)
Inductive phase := Idle | IoctlOn | MmapOn (fresh : bool) | Orphan.

(** The results an event can have and the phase after it. *)
Inductive astep : phase → event → Z → phase → Prop :=
  | IdleIoctl : astep Idle (Insmod IoctlDrv) 0 IoctlOn
  | IdleMmap : astep Idle (Insmod MmapDrv) 0 (MmapOn true)
  | IdleRefused d r : r < 0 → astep Idle (Insmod d) r Idle
  | IdleNoMemory : astep Idle (Insmod MmapDrv) (-1) Orphan
  | IdleRmmod n : astep Idle (Rmmod n) (- ENOENT) Idle
  | IdleRunIoctl fd q : astep Idle (RunIoctl fd q) (-1) Idle
  | IdleRunMmap fd a : astep Idle (RunMmap fd a) (-1) Idle
  | IoctlAgain d : astep IoctlOn (Insmod d) (- EEXIST) IoctlOn
  | IoctlRmmod : astep IoctlOn (Rmmod "code") 0 Idle
  | IoctlOther n : n ≠ "code" → astep IoctlOn (Rmmod n) (- ENOENT) IoctlOn
  | IoctlRunIoctl fd q : astep IoctlOn (RunIoctl fd q) 0 IoctlOn
  | IoctlRunMmap fd a : astep IoctlOn (RunMmap fd a) (-1) IoctlOn
  | MmapAgain f d : astep (MmapOn f) (Insmod d) (- EEXIST) (MmapOn f)
  | MmapRmmod : astep (MmapOn true) (Rmmod "code") 0 Idle
  | MmapOther f n : n ≠ "code" → astep (MmapOn f) (Rmmod n) (- ENOENT) (MmapOn f)
  | MmapRunIoctl fd q : astep (MmapOn true) (RunIoctl fd q) 0 (MmapOn false)
  | MmapRunMmap fd a r : r = 0 ∨ r = -1 → astep (MmapOn true) (RunMmap fd a) r (MmapOn false)
  | OrphanInsmod d : astep Orphan (Insmod d) (- EBUSY) Orphan
  | OrphanRmmod n : astep Orphan (Rmmod n) (- ENOENT) Orphan.

(** The events that fault, and how. *)
Definition uses_driver (e : event) : bool :=
  match e with RunIoctl _ _ | RunMmap _ _ => true | _ => false end.
Definition afault (p : phase) (e : event) (f : fault) : Prop :=
  match p with
  | MmapOn false => f = DoubleFree ∧ (uses_driver e = true ∨ e = Rmmod "code")
  | Orphan => f = BadDeref ∧ uses_driver e = true
  | _ => False
  end.

Inductive aruns : phase → list event → list Z → phase → Prop :=
  | ANil p : aruns p [] [] p
  | ACons p p' p'' e es r rs : astep p e r p' → aruns p' es rs p'' → aruns p (e :: es) (r :: rs) p''.

(** A descriptor of a process is not negative. *)
Definition proper (e : event) : Prop :=
  match e with RunIoctl fd _ | RunMmap fd _ => 0 ≤ fd | _ => True end.

Section proofs.
Context {T U A V : Type}.
Context `{ops_t : Majors T, !MajorsLaws T, ops_u : IoctlApi U, !IoctlLaws U}.
Context `{ops_a : Slab A, !SlabLaws A, ops_v : DevApi V, !DevLaws V}.
Abbreviation world := (sys (mach T U A V) user_prog).
Abbreviation mst := (sys (kstate A unit (T * V)) (objs unit globals)).
Context (old : bool).
Implicit Types (w : world) (s : mst).

(** ** The modules find their services *)

Lemma claim_registered d t r t' :
  chr_register d major t = (r, t') →
  bool_decide (majors t' !! major = Some d) =
    if decide (r < 0) then bool_decide (majors t !! major = Some d) else true.
Proof.
  intros E. destruct (majors t !! major) as [d'|] eqn:Hm.
  - destruct (register_busy _ _ _ _ _ _ Hm E) as [-> ->]. by rewrite Hm.
  - destruct (register_free _ _ _ _ _ Hm E) as [[-> ->]|[Hr ->]].
    + rewrite decide_False by lia. by rewrite lookup_insert_eq, bool_decide_true.
    + by rewrite decide_True, Hm.
Qed.

Lemma unregister_none d t : bool_decide (majors (chr_unregister major t) !! major = Some d) = false.
Proof. rewrite unregister_majors, lookup_delete_eq. by apply bool_decide_false. Qed.

#[global] Instance mach_io_laws : IoctlLaws (mach T U A V).
Proof.
  split; simpl.
  - intros k r k' E. destruct (chr_register _ _ _) as [r0 t'] eqn:E'. injection E as <- <-.
    split; [done|]. by apply claim_registered.
  - intros k. split; [done|]. apply unregister_none.
  - intros a bs k prev Hr. destruct (copy_to_all a bs (usr k) prev Hr) as (u & -> & Hu & _). simpl. eauto.
  - intros a bs k r k' E Hr. destruct (copy_to_user a bs (usr k)) as [n u] eqn:E'. injection E as <- <-.
    by destruct (copy_to_part _ _ _ _ _ E' Hr) as (? & _ & ?).
  - intros a n k bs. apply copy_from_all.
  - intros a n k. apply copy_from_part.
  - intros a bs k. split; [|done]. apply user_store_spec.
  - apply nr_IO.
  - apply nr_IOR.
  - apply nr_IOW.
Qed.

#[global] Instance mach_dev_laws : DevLaws (T * V).
Proof.
  split; simpl.
  - intros [t v] r x' E. simpl in E. destruct (chr_register _ _ _) as [r0 t'] eqn:E'. injection E as <- <-.
    split; [done|]. by apply claim_registered.
  - intros [t v]. split; [done|]. apply unregister_none.
  - intros m [t v] r x' E. simpl in E. destruct (remap_pfn_range m v) as [r0 v'] eqn:E'. injection E as <- <-.
    split; [done|]. by destruct (Mmap.remap_spec _ _ _ _ E').
  - apply virt_linear.
Qed.

Lemma mm_get_put s w : mm_get (mm_put s w) = s.
Proof. by destruct s as [[? [] []] ? ?]. Qed.

Lemma wp_mm {R B} (c : M R mst B) w (P : post R world B) :
  wp c (mm_get w) (Post (λ a s, on_next P a (mm_put s w)) (λ r s, on_return P r (mm_put s w))
    (λ f s, on_fault P f (mm_put s w))) →
  wp (mm c) w P.
Proof. apply wp_zoom. Qed.

(** ** Phases *)

Definition owner w : option driver := majors (tab (kern w)) !! major.

Definition at_phase (p : phase) w : Prop :=
  match p with
  | Idle => owner w = None ∧ mods (kern w) = ∅
  | IoctlOn => owner w = Some IoctlDrv ∧ mods (kern w) = {["code" := IoctlDrv]}
  | MmapOn f => owner w = Some MmapDrv ∧ mods (kern w) = {["code" := MmapDrv]} ∧ ∃ b, buffer_of f b (mm_get w)
  | Orphan => owner w = Some MmapDrv ∧ mods (kern w) = ∅
  end.

Definition loaded_in (p : phase) : gmap string driver :=
  match p with
  | Idle | Orphan => ∅
  | IoctlOn => {["code" := IoctlDrv]}
  | MmapOn _ => {["code" := MmapDrv]}
  end.

(** Which names are loaded. *)
Lemma loaded_lookup p n :
  loaded_in p !! n = if decide (n = "code") then
    match p with IoctlOn => Some IoctlDrv | MmapOn _ => Some MmapDrv | _ => None end else None.
Proof.
  destruct p; simpl; case_decide as E; rewrite ?lookup_empty; try done; subst;
    first [by rewrite lookup_singleton_eq | by rewrite lookup_singleton_ne by done].
Qed.

Lemma module_name_code d : module_name d = "code".
Proof. by destruct d. Qed.

Lemma at_mods p w : at_phase p w → mods (kern w) = loaded_in p.
Proof. destruct p; by intros (? & ? & ?) || by intros (? & ?). Qed.

Lemma buffer_of_keep f b s s' : buffer_of f b s → var s' = var s → slab s' = slab s → buffer_of f b s'.
Proof. unfold buffer_of, serving, stale. by intros ? -> ->. Qed.

(** Two states that differ in the memory of the process and the logs only, or
    in the table but not in the owner. *)
Lemma at_phase_keep p w w' :
  at_phase p w → owner w' = owner w → mods (kern w') = mods (kern w) →
  mslab (kern w') = mslab (kern w) → mobjs (kern w') = mobjs (kern w) → at_phase p w'.
Proof.
  unfold at_phase. intros Hp -> -> Ha Ho. destruct p; try done.
  destruct Hp as (? & ? & b & Hb). split; [done|]. split; [done|]. exists b.
  eapply buffer_of_keep; [done|..]; unfold var, slab; simpl; congruence.
Qed.

(** The same after a call into the mmap module. *)
Lemma at_mmap f f' b w s :
  at_phase (MmapOn f) w → buffer_of f' b s → extra s = extra (mm_get w) ∨
    Mmap.registered (extra s) = Mmap.registered (extra (mm_get w)) → at_phase (MmapOn f') (mm_put s w).
Proof.
  intros (Ho & Hm & _) Hb He. split; [|split; [done|exists b; by rewrite mm_get_put]].
  assert (Hr : Mmap.registered (extra s) = Mmap.registered (extra (mm_get w))) by (destruct He; congruence).
  unfold owner in *. simpl in Hr. rewrite Ho, (bool_decide_true (Some MmapDrv = _)) in Hr by done.
  by apply bool_decide_eq_true in Hr.
Qed.

Lemma claim_owner d t r t' :
  chr_register d major t = (r, t') →
  match majors t !! major with
  | Some d' => r = - EBUSY ∧ majors t' !! major = Some d'
  | None => r = 0 ∧ majors t' !! major = Some d ∨ r < 0 ∧ majors t' !! major = None
  end.
Proof.
  intros E. destruct (majors t !! major) as [d'|] eqn:Hm.
  - by destruct (register_busy _ _ _ _ _ _ Hm E) as [-> ->].
  - destruct (register_free _ _ _ _ _ Hm E) as [[-> ->]|[Hr ->]]; [left|by right].
    by rewrite lookup_insert_eq.
Qed.

(** ** Loading *)

Lemma ioctl_init_run w r t' (P : post Z world Z) :
  chr_register IoctlDrv major (tab (kern w)) = (r, t') →
  (∀ w', kern w' = set_tab t' (kern w) → on_return P (if r <? 0 then r else 0) w') →
  wp ioctl_init w P.
Proof.
  intros E HP. unfold ioctl_init. apply wp_bind, wp_on_kern'. intros r0 k Hk. simpl in Hk.
  change Ioctl.majorNumber with major in Hk. rewrite E in Hk. injection Hk as <- <-. simpl.
  destruct (r <? 0); wp_steps; by apply HP.
Qed.

(** The mmap module on fresh data. *)
Definition new_mmap w : mst := set_var (Globals Null) (mm_get w).

Lemma mmap_init_run w r t' (P : post Z world Z) :
  chr_register MmapDrv major (tab (kern w)) = (r, t') →
  (r < 0 → ∀ s, extra s = (t', mdev (kern w)) → on_return P r (mm_put s w)) →
  (0 ≤ r → ∀ s, extra s = (t', mdev (kern w)) → on_return P (-1) (mm_put s w)) →
  (0 ≤ r → ∀ b s, extra s = (t', mdev (kern w)) → serving b s → on_return P 0 (mm_put s w)) →
  wp (mm (modify (set_var (Globals Null));; mmap_example_init)) w P.
Proof.
  intros E HF HN HS. apply wp_mm. apply wp_bind, wp_modify. simpl.
  eapply (init_run (new_mmap w) r (t', mdev (kern w))).
  - simpl. change Mmap.majorNumber with major. by rewrite E.
  - intros Hr s Hx _ _ _. by apply HF.
  - intros Hr s Hx _ _ _. by apply HN.
  - intros Hr b s Hx Hb Hl Hv _. apply (HS Hr b); [done|]. split; [done|]. rewrite Hl. set_solver.
Qed.

Lemma insmod_init p d w (P : post unit world Z) :
  at_phase p w → mods (kern w) !! module_name d = None →
  wp (init_of d) w (Post (λ _ _, False) (λ r w', ∃ w'', (if r <? 0 then w'' = w' else
     w'' = set_kern (set_mods (<[module_name d := d]> (mods (kern w'))) (kern w')) w') ∧ on_next P r w'') (λ _ _, False)) →
  wp (handle old (Insmod d)) w P.
Proof.
  intros Hp Hd Hw. simpl. apply wp_bind, wp_gets. simpl. rewrite Hd.
  apply wp_bind, wp_call. eapply wp_mono; [exact Hw|..]; simpl; [done| |done].
  intros r w' (w'' & Hw'' & HP). apply wp_bind. destruct (r <? 0).
  - apply wp_ret. simpl. apply wp_ret. by subst.
  - apply wp_on_kern. simpl. apply wp_ret. by subst.
Qed.

(** A refused registration changes nothing but the table, and not its owner. *)
Lemma at_phase_tab p w w' t' :
  at_phase p w → kern w' = set_tab t' (kern w) → majors t' !! major = owner w → at_phase p w'.
Proof. intros Hp Hk Ht. eapply at_phase_keep; [done|unfold owner in *|..]; by rewrite Hk. Qed.

Definition refused (p : phase) (d : driver) (r : Z) : Prop :=
  match p with Idle => r < 0 | _ => r = - EBUSY end.

Lemma refused_step p d r w :
  at_phase p w → mods (kern w) !! module_name d = None → refused p d r → astep p (Insmod d) r p.
Proof.
  intros Hp Hd Hr. rewrite (at_mods _ _ Hp), module_name_code, loaded_lookup, decide_True in Hd by done.
  destruct p; simpl in Hr; subst; [by constructor|done|done|by constructor].
Qed.

(** What the registration says, by phase. *)
Lemma claim_phase p d w r t' :
  at_phase p w → chr_register d major (tab (kern w)) = (r, t') →
  (r < 0 ∧ refused p d r ∧ majors t' !! major = owner w) ∨
  (r = 0 ∧ p = Idle ∧ majors t' !! major = Some d).
Proof.
  intros Hp Hc%claim_owner. unfold owner. assert (EBUSY = 16) by done. destruct p; simpl in Hp;
    destruct Hp as [Ho _]; unfold owner in Ho; rewrite Ho in *; simpl;
    [|left; destruct Hc as [-> ?]; repeat split; auto; lia..].
  destruct Hc as [[-> ?]|[? ?]]; auto.
Qed.

Lemma insmod_refines p d w :
  at_phase p w →
  wp (handle old (Insmod d)) w (safely (λ r w', ∃ p', astep p (Insmod d) r p' ∧ at_phase p' w')).
Proof.
  intros Hp. destruct (mods (kern w) !! module_name d) as [d'|] eqn:Hd.
  { simpl. apply wp_bind, wp_gets. simpl. rewrite Hd. apply wp_ret. simpl.
    exists p. split; [|done]. rewrite (at_mods _ _ Hp), module_name_code, loaded_lookup, decide_True in Hd by done.
    destruct p; [done|constructor|constructor|done]. }
  eapply insmod_init; [done|done|]. destruct d; simpl init_of.
  - destruct (chr_register IoctlDrv major (tab (kern w))) as [r t'] eqn:E.
    eapply ioctl_init_run; [exact E|]. intros w' Hk.
    destruct (claim_phase _ _ _ _ _ Hp E) as [(Hr & Hrf & Ht)|(-> & -> & Ht)].
    + rewrite (proj2 (Z.ltb_lt _ _) Hr). simpl. rewrite (proj2 (Z.ltb_lt _ _) Hr).
      eexists. split; [done|]. exists p. split; [by eapply refused_step|by eapply at_phase_tab].
    + simpl. eexists. split; [done|]. exists IoctlOn. split; [constructor|].
      destruct Hp as [_ Hm]. unfold owner. simpl. rewrite Hk. simpl. split; [done|]. by rewrite Hm.
  - destruct (chr_register MmapDrv major (tab (kern w))) as [r t'] eqn:E.
    destruct (claim_phase _ _ _ _ _ Hp E) as [(Hr & Hrf & Ht)|(-> & -> & Ht)];
      (eapply mmap_init_run; [exact E|..]); try lia; intros _; simpl.
    + intros s Hx. rewrite (proj2 (Z.ltb_lt _ _) Hr). eexists. split; [done|]. exists p.
      split; [by eapply refused_step|].
      destruct p; simpl in Hp |- *; unfold owner in *; simpl; rewrite Hx; simpl; rewrite Ht; try tauto.
      exfalso. destruct Hp as (_ & Hm & _). by rewrite Hm, module_name_code, lookup_singleton_eq in Hd.
    + intros s Hx. eexists. split; [done|]. exists Orphan. split; [constructor|].
      destruct Hp as [_ Hm]. unfold at_phase, owner. simpl. by rewrite Hx.
    + intros b s Hx Hs. eexists. split; [done|]. exists (MmapOn true). split; [constructor|].
      destruct Hp as [_ Hm]. unfold at_phase, owner. simpl. rewrite Hx, Hm. split; [done|].
      split; [done|]. exists b. by eapply (buffer_of_keep true b s).
Qed.

(** ** Unloading *)

Lemma ioctl_exit_run w (P : post unit world unit) :
  (∀ w', kern w' = set_tab (chr_unregister major (tab (kern w))) (kern w) → on_next P tt w') →
  wp ioctl_exit w P.
Proof. intros HP. unfold ioctl_exit. apply wp_bind, wp_on_kern. simpl. apply wp_printk. simpl. by apply HP. Qed.

Lemma rmmod_refines p n w :
  at_phase p w →
  wp (handle old (Rmmod n)) w (Post (λ r w', ∃ p', astep p (Rmmod n) r p' ∧ at_phase p' w')
    (λ _ _, False) (λ f w', afault p (Rmmod n) f)).
Proof.
  intros Hp. simpl. apply wp_bind, wp_gets. simpl. rewrite (at_mods _ _ Hp), loaded_lookup.
  case_decide as Hn; [subst n; destruct p as [| |[]|]|].
  - apply wp_ret. simpl. exists Idle. split; [constructor|done].
  - apply wp_bind, wp_call, ioctl_exit_run. intros w' Hk. simpl. apply wp_bind, wp_on_kern, wp_ret. simpl.
    exists Idle. split; [constructor|]. destruct Hp as [_ Hm]. unfold at_phase, owner. simpl.
    rewrite Hk. simpl. by rewrite unregister_majors, lookup_delete_eq, Hm, delete_singleton_eq.
  - destruct Hp as (Ho & Hm & b & Hb). apply wp_bind, wp_call, wp_mm.
    eapply wp_safely_mono; [by apply (exit_run b)|]. intros [] s [_ Hx]. simpl.
    apply wp_bind, wp_on_kern, wp_ret. simpl. exists Idle. split; [constructor|].
    unfold at_phase, owner. simpl. rewrite Hx, Hm. simpl.
    change Mmap.majorNumber with major. by rewrite unregister_majors, lookup_delete_eq, delete_singleton_eq.
  - destruct Hp as (Ho & Hm & b & Hb). apply wp_bind, wp_call, wp_mm. unfold wp.
    rewrite (stale_exit b _ Hb). simpl. auto.
  - apply wp_ret. simpl. exists Orphan. split; [constructor|done].
  - apply wp_ret. simpl. exists p. split; [|done]. destruct p; by constructor.
Qed.

(** ** The programs

    [serves t p J Qm Qi F]: with the node in phase [p] a program finds the
    methods [t]; they keep the phase while the file is open, answer mmap with a
    [Qm] and QUERY_SET with a [Qi], and the release leaves [J] or faults with
    [F].  The output of the programs, [out], is not touched. *)
Definition inside (p : phase) (out : list (string * list arg)) w : Prop :=
  at_phase p w ∧ Ioctl.uout (glob w) = out.

Record serves (t : file_operations world) (p : phase) (J : list (string * list arg) → world → Prop)
    (Qm Qi : Z → Prop) (F : fault → Prop) : Prop := Serves {
  sv_node w : at_phase p w → node old w = Some t;
  sv_open R out w : inside p out w →
    wp (vfs_open t) w (safely (R:=R) (λ r w', 0 ≤ r ∧ inside p out w'));
  sv_mmap R out w vma : inside p out w →
    wp (vfs_mmap t vma) w (safely (R:=R) (λ r w', Qm r ∧ inside p out w'));
  sv_ioctl R out w q : inside p out w →
    wp (vfs_ioctl t (QUERY_SET_VARIABLES (X:=mach T U A V)) q) w (safely (R:=R) (λ r w', Qi r ∧ inside p out w'));
  sv_release R out w : inside p out w →
    wp (vfs_release t) w (Post (R:=R) (λ _ w', J out w') (λ _ _, False) (λ f _, F f)) }.

Lemma inside_log p out w w' :
  inside p out w → kern w' = kern w → glob w' = glob w → inside p out w'.
Proof.
  intros [Hp Ho] Hk Hg. split; [|by rewrite Hg].
  eapply at_phase_keep; [done|unfold owner; by rewrite Hk..].
Qed.

Lemma node_loaded w d : owner w = Some d → mods (kern w) = {["code" := d]} → node old w = Some (ops_of old d).
Proof. intros Ho Hd. unfold node. unfold owner in Ho. rewrite Ho. simpl.
  by rewrite Hd, module_name_code, lookup_singleton_eq, decide_True.
Qed.

Lemma ioctl_serves :
  serves (ops_of old IoctlDrv) IoctlOn (inside IoctlOn) (λ r, r = - ENODEV)
    (λ r, r = 0 ∨ r = - EACCES) (λ _, False).
Proof.
  split.
  - intros w (Ho & Hm). by apply node_loaded.
  - intros R out w Hi. apply wp_call. unfold Ioctl.dev_open. wp_steps. split; [done|]. by eapply inside_log.
  - intros R out w vma Hi. by apply wp_ret.
  - intros R out w q Hi. simpl ops_of. rewrite vfs_ioctl_dev. apply wp_call.
    unfold dev_ioctl. apply wp_bind. rewrite decide_False by apply not_eq_sym, (get_set (X:=mach T U A V)).
    rewrite decide_False by apply not_eq_sym, (clr_set (X:=mach T U A V)). rewrite decide_True by done.
    apply wp_bind, wp_gets. simpl. destruct (copy_from_user q 8 (usr (kern w))) as [n bs].
    destruct (negb (n =? 0)); apply wp_bind, wp_printk, wp_ret, wp_return; simpl;
      (split; [by auto|]); by eapply inside_log.
  - intros R out w Hi. apply wp_call. unfold Ioctl.dev_release. wp_steps. by eapply inside_log.
Qed.

Lemma inside_mmap f f' b out w s :
  inside (MmapOn f) out w → buffer_of f' b s → extra s = extra (mm_get w) ∨
    Mmap.registered (extra s) = Mmap.registered (extra (mm_get w)) → inside (MmapOn f') out (mm_put s w).
Proof. intros [Hp Ho] Hb He. split; [by eapply at_mmap|done]. Qed.

Definition after_release (f : bool) (out : list (string * list arg)) w : Prop :=
  if f then inside (MmapOn false) out w else False.

Lemma mmap_serves f :
  serves (ops_of old MmapDrv) (MmapOn f) (after_release f) (λ r, r = 0 ∨ r = - EAGAIN)
    (λ r, r = - ENOTTY) (λ e, f = false ∧ e = DoubleFree).
Proof.
  split.
  - intros w (Ho & Hm & _). by apply node_loaded.
  - intros R out w Hi. pose proof Hi as [(_ & _ & b & Hb) _]. apply wp_call, wp_zoom, open_run.
    intros s Hx Hv Ha. simpl. split; [done|]. eapply (inside_mmap f f b); [done| |by left].
    by eapply buffer_of_keep.
  - intros R out w vma Hi. pose proof Hi as [(_ & _ & b & Hb) _]. apply wp_call, wp_zoom.
    apply (mmap_run vma b); [by destruct f, Hb|]. intros r s Hr Hv Ha Hg. simpl.
    split; [by destruct Hr as [[-> _]|[-> _]]; auto|].
    eapply (inside_mmap f f b); [done| |by right]. by eapply buffer_of_keep.
  - intros R out w q Hi. by apply wp_ret.
  - intros R out w Hi. pose proof Hi as [(_ & _ & b & Hb) _]. apply wp_call, wp_zoom. destruct f.
    + apply (release_run b); [done|]. intros s Hst _ Hx. simpl.
      eapply (inside_mmap true false b); [done|done|by left].
    + unfold wp. by rewrite (stale_release b _ Hb).
Qed.

(** ioctl.c on such a device. *)
Definition ioctl_out (r : Z) : list (string * list arg) :=
  (if r <? 0 then [("error ioctl get", [])] else []) ++ [("five ... done...SET\n", [])].

Lemma inside_user p out w u :
  inside p out w → inside p out (set_kern (set_usr u (kern w)) w).
Proof. intros [Hp Ho]. split; [|done]. by eapply at_phase_keep. Qed.

Lemma inside_printf p out w fmt args :
  inside p out w →
  inside p (out ++ [(fmt, args)]) (set_glob (UserProg (Ioctl.uout (glob w) ++ [(fmt, args)])) w).
Proof. intros [Hp Ho]. split; [by eapply at_phase_keep|]. simpl. by rewrite Ho. Qed.

Lemma ioctl_main_end t p J Qm Qi F out w :
  serves t p J Qm Qi F → inside p out w →
  wp (Ioctl.printf "five ... done...SET\n" [];; _ ← vfs_release t; return_ 0) w (Post (A:=Z) (λ _ _, False)
    (λ r w', r = 0 ∧ J (out ++ [("five ... done...SET\n", [])]) w') (λ f _, F f)).
Proof.
  intros [_ _ _ _ Hre] Hi. apply wp_bind, wp_modify. simpl. apply wp_bind.
  eapply wp_mono; [apply Hre, inside_printf; exact Hi|..]; simpl; [|done|done].
  intros r w' HJ. by apply wp_return.
Qed.

Lemma ioctl_main_on t p J Qm Qi F fd q out w :
  serves t p J Qm Qi F → 0 ≤ fd → inside p out w →
  wp (Ioctl.main (node old) fd q) w (Post (λ _ _, False)
    (λ r w', r = 0 ∧ ∃ r0, Qi r0 ∧ J (out ++ ioctl_out r0) w') (λ f _, F f)).
Proof.
  intros Hsv Hfd Hi. pose proof Hsv as [Hn Hop _ Hio _]. unfold Ioctl.main. apply wp_bind, wp_on_kern. simpl.
  apply inside_user with (u := user_store q (le_bytes 4 0) (usr (kern w))) in Hi.
  apply wp_bind. unfold sys_open. apply wp_bind, wp_gets. simpl.
  rewrite Hn by (by destruct Hi). apply wp_bind. eapply wp_safely_mono; [by apply Hop|].
  intros r1 w1 [Hr1 H1]. simpl. apply wp_ret. simpl. rewrite (proj2 (Z.ltb_ge _ _) Hr1).
  rewrite (proj2 (Z.ltb_ge _ _) Hfd). apply wp_bind, wp_ret. simpl. apply wp_bind, wp_on_kern. simpl.
  apply inside_user with (u := user_store q (le_bytes 4 140) (usr (kern w1))) in H1.
  apply wp_bind. unfold sys_ioctl. apply wp_bind. eapply wp_safely_mono; [by apply Hio|].
  intros r2 w2 [Hq2 H2]. simpl. apply wp_ret. simpl.
  assert (Hb : ((if r2 <? 0 then -1 else r2) =? -1) = (r2 <? 0)).
  { destruct (Z.ltb_spec r2 0); [done|]. apply Z.eqb_neq. lia. }
  rewrite Hb. apply wp_bind.
  destruct (r2 <? 0) eqn:E.
  - apply wp_modify. simpl. eapply wp_mono; [by eapply ioctl_main_end, inside_printf|..]; simpl; [done| |done].
    intros r w' [-> HJ]. split; [done|]. exists r2. split; [done|]. unfold ioctl_out. rewrite E.
    by rewrite <- app_assoc in HJ.
  - apply wp_ret. simpl. eapply wp_mono; [by eapply ioctl_main_end|..]; simpl; [done| |done].
    intros r w' [-> HJ]. split; [done|]. exists r2. split; [done|]. unfold ioctl_out. by rewrite E.
Qed.

(** mmap.c on such a device. *)
Lemma run_mmap_on t p J Qm Qi F fd a out w :
  serves t p J Qm Qi F → 0 ≤ fd → inside p out w →
  (∀ o o' w', J o w' → J (o ++ o') (set_glob (UserProg (Ioctl.uout (glob w') ++ o')) w')) →
  wp (handle old (RunMmap fd a)) w (Post
    (λ r w', ∃ r0, Qm r0 ∧ (r0 < 0 ∧ r = -1 ∧ J (out ++ failed_out) w' ∨
                            0 ≤ r0 ∧ r = 0 ∧ J (out ++ ok_out) w'))
    (λ _ _, False) (λ f _, F f)).
Proof.
  intros [Hn Hop Hmm _ Hre] Hfd Hi HJ.
  pose proof (run_prog_on t (inside p out) (J out) Qm (λ f _, F f) (λ w, Hop Z out w)
    (λ w, Hmm Z out w) (λ R w, Hre R out w) (R:=unit) (node old) fd a w [] Hfd
    (Hn w (proj1 Hi)) Hi) as Hw.
  unfold wp in Hw |- *. simpl. destruct (run_prog _ _ _ _) as [r [w' u]|r [w' u]|f [w' u]]; simpl in Hw |- *;
    [|done|done].
  destruct Hw as [HJ' (r0 & Hq & [(? & ? & ->)|(? & ? & ->)])]; exists r0; simpl; auto 7.
Qed.

(** ** The refinement *)

Lemma after_release_out f o o' w :
  after_release f o w → after_release f (o ++ o') (set_glob (UserProg (Ioctl.uout (glob w) ++ o')) w).
Proof.
  destruct f; [|done]. intros [Hp Ho]. split; [by eapply at_phase_keep|]. simpl. by rewrite Ho.
Qed.

Lemma inside_out p o o' w :
  inside p o w → inside p (o ++ o') (set_glob (UserProg (Ioctl.uout (glob w) ++ o')) w).
Proof. intros [Hp Ho]. split; [by eapply at_phase_keep|]. simpl. by rewrite Ho. Qed.

(** Without a device, and with the table of a module that is gone. *)
Lemma node_idle w : at_phase Idle w → node old w = None.
Proof. intros [Ho _]. unfold node. unfold owner in Ho. by rewrite Ho. Qed.
Lemma node_orphan w : at_phase Orphan w → node old w = Some gone_ops.
Proof.
  intros [Ho Hm]. unfold node. unfold owner in Ho. rewrite Ho. simpl.
  by rewrite Hm, lookup_empty, decide_False.
Qed.

Lemma run_idle e w :
  at_phase Idle w → uses_driver e = true →
  wp (handle old e) w (safely (λ r w', r = -1 ∧ at_phase Idle w')).
Proof.
  intros Hp He. destruct e as [|d|fd q|fd a]; try done; simpl.
  - apply wp_call. unfold Ioctl.main. apply wp_bind, wp_on_kern. simpl. set (w1 := set_kern _ w).
    assert (H1 : at_phase Idle w1) by by eapply at_phase_keep. clearbody w1.
    apply wp_bind. unfold sys_open. apply wp_bind, wp_gets. simpl. rewrite node_idle by done.
    apply wp_ret. simpl. unfold Ioctl.printf. wp_steps. split; [done|].
    exact H1.
  - unfold wp, run_prog, MmapUser.main, open_, sys_open. unfold call, mbind, M_bind, drv, zoom. simpl.
    rewrite node_idle by done. simpl. split; [done|]. exact Hp.
Qed.

Lemma run_orphan e w :
  at_phase Orphan w → uses_driver e = true →
  wp (handle old e) w (Post (λ _ _, False) (λ _ _, False) (λ f _, f = BadDeref)).
Proof.
  intros Hp He. destruct e as [|d|fd q|fd a]; try done; simpl.
  - apply wp_call. unfold Ioctl.main. apply wp_bind, wp_on_kern. simpl. set (w1 := set_kern _ w).
    assert (H1 : at_phase Orphan w1) by by eapply at_phase_keep. clearbody w1.
    apply wp_bind. unfold sys_open. apply wp_bind, wp_gets. simpl. by rewrite node_orphan.
  - unfold wp, run_prog, MmapUser.main, open_, sys_open. unfold call, mbind, M_bind, drv, zoom. simpl.
    by rewrite node_orphan.
Qed.

Lemma handle_refines p e w :
  at_phase p w → proper e →
  wp (handle old e) w (Post (λ r w', ∃ p', astep p e r p' ∧ at_phase p' w') (λ _ _, False)
    (λ f _, afault p e f)).
Proof.
  intros Hp He. destruct e as [d|d|fd q|fd a].
  - eapply wp_safely_mono; [by apply (insmod_refines p)|]. done.
  - by apply rmmod_refines.
  - destruct p as [| |f|].
    + eapply wp_safely_mono; [by apply run_idle|]. intros r w' [-> ?]. exists Idle. split; [constructor|done].
    + simpl. apply wp_call. eapply wp_mono; [apply (ioctl_main_on _ _ _ _ _ _ fd q (Ioctl.uout (glob w)) w ioctl_serves He); by split|..];
        simpl; [done| |done]. intros r w' [-> (r0 & _ & ? & _)]. exists IoctlOn. split; [constructor|done].
    + simpl. apply wp_call. eapply wp_mono; [apply (ioctl_main_on _ _ _ _ _ _ fd q (Ioctl.uout (glob w)) w (mmap_serves f) He); by split|..];
        simpl; [done| |by intros ? ? [-> ->]; auto]. intros r w' [-> (r0 & _ & HJ)].
      destruct f; [|done]. destruct HJ as [? _]. exists (MmapOn false). split; [constructor|done].
    + eapply wp_mono; [by apply run_orphan|..]; simpl; [done|done|by intros ? ? ->].
  - destruct p as [| |f|].
    + eapply wp_safely_mono; [by apply run_idle|]. intros r w' [-> ?]. exists Idle. split; [constructor|done].
    + eapply wp_mono; [apply (run_mmap_on _ _ _ _ _ _ fd a (Ioctl.uout (glob w)) w ioctl_serves He);
        [by split|apply inside_out]|..];
        simpl; [|done|done]. intros r w' (r0 & -> & [(_ & -> & ? & _)|[? _]]); [|done].
      exists IoctlOn. split; [constructor|done].
    + eapply wp_mono; [apply (run_mmap_on _ _ _ _ _ _ fd a (Ioctl.uout (glob w)) w (mmap_serves f) He);
        [by split|apply after_release_out]|..];
        simpl; [|done|by intros ? ? [-> ->]; auto]. intros r w' (r0 & _ & Hr).
      destruct f; [|by destruct Hr as [(_ & _ & [])|(_ & _ & [])]]. exists (MmapOn false).
      destruct Hr as [(_ & -> & ? & _)|(_ & -> & ? & _)]; (split; [constructor; auto|done]).
    + eapply wp_mono; [by apply run_orphan|..]; simpl; [done|done|by intros ? ? ->].
Qed.

Lemma run_refines es p w :
  at_phase p w → Forall proper es →
  wp (run old es) w (Post (λ rs w', ∃ p', aruns p es rs p' ∧ at_phase p' w') (λ _ _, False)
    (λ f _, ∃ es1 e es2 rs p1, es = es1 ++ e :: es2 ∧ aruns p es1 rs p1 ∧ afault p1 e f)).
Proof.
  revert p w. induction es as [|e es IH]; intros p w Hp Hes; simpl.
  { apply wp_ret. simpl. exists p. split; [constructor|done]. }
  apply Forall_cons in Hes as [He Hes]. apply wp_bind.
  eapply wp_mono; [by apply (handle_refines p)|..]; simpl; [|done|].
  - intros r w1 (p1 & Hs & Hp1). apply wp_bind. eapply wp_mono; [by apply (IH p1)|..]; simpl; [|done|].
    + intros rs w2 (p2 & Hr & Hp2). apply wp_ret. simpl. exists p2. split; [by econstructor|done].
    + intros f w2 (es1 & e' & es2 & rs & p2 & -> & Hr & Hf).
      exists (e :: es1), e', es2, (r :: rs), p2. split; [done|]. split; [by econstructor|done].
  - intros f w1 Hf. exists [], e, es, [], p. split; [done|]. split; [constructor|done].
Qed.

(** The two modules in one kernel, under every sequence of loads, unloads and
    runs of the two user programs, refine a machine of four phases: at most one
    of them is ever loaded, the other is refused with -EEXIST; a load of the mmap
    module without memory leaves the number taken by a module that is not there;
    each result is one the machine allows, and the only faults are the double
    free of a buffer that a program has released and the use of that leftover. *)
Theorem drivers_refine es w :
  at_phase Idle w → Forall proper es →
  wp (run old es) w (Post
    (λ rs w', (∃ p, aruns Idle es rs p ∧ at_phase p w') ∧ (size (mods (kern w')) ≤ 1)%nat)
    (λ _ _, False)
    (λ f _, ∃ es1 e es2 rs p, es = es1 ++ e :: es2 ∧ aruns Idle es1 rs p ∧ afault p e f)).
Proof.
  intros Hp Hes. eapply wp_mono; [by apply run_refines|..]; simpl; [|done|done].
  intros rs w' (p & Hr & Hp'). split; [eauto|]. rewrite (at_mods _ _ Hp').
  destruct p; unfold loaded_in; (rewrite map_size_empty || rewrite map_size_singleton); lia.
Qed.

(** A registration that succeeds and an allocation that does not. *)
Lemma no_memory_orphan w t' a' :
  at_phase Idle w → chr_register MmapDrv major (tab (kern w)) = (0, t') →
  kmalloc SIZE GFP_KERNEL (mslab (kern w)) = (None, a') →
  wp (handle old (Insmod MmapDrv)) w (safely (λ r w', r = -1 ∧ at_phase Orphan w')).
Proof.
  intros Hp E Ha. pose proof Hp as [Ho Hm]. eapply insmod_init; [exact Hp|rewrite Hm; set_solver|].
  simpl init_of. apply wp_mm. apply wp_bind, wp_modify. simpl on_next. unfold mmap_example_init.
  apply wp_bind. unfold on_x', wp at 1. simpl. change Mmap.majorNumber with major. rewrite E. simpl sat.
  apply wp_bind, wp_ret. simpl. apply wp_bind, wp_printk. simpl. apply wp_bind.
  unfold kmalloc_obj, wp at 1.
  match goal with |- context [kmalloc _ _ ?a] => change a with (mslab (kern w)) end. rewrite Ha. simpl. wp_steps. eexists. split; [done|].
  split; [done|]. destruct (claim_phase _ _ _ _ _ Hp E) as [(? & _)|(_ & _ & Ht)]; [lia|].
  unfold at_phase, owner. simpl. done.
Qed.

(** From there on nothing gets better. *)
Lemma orphan_stays es rs p :
  aruns Orphan es rs p → p = Orphan ∧ Forall (λ r, r = - EBUSY ∨ r = - ENOENT) rs ∧
  Forall (λ e, uses_driver e = false) es.
Proof.
  remember Orphan as q eqn:Hq. induction 1 as [|q p' p'' e es r rs Hs _ IH]; [done|]. subst q.
  inversion Hs; subst; destruct IH as (-> & ? & ?); auto.
Qed.

(** C28: a load of the mmap module that finds the number free but no memory
    returns -1 and leaves the number registered.  Whatever is tried afterwards,
    neither module can be loaded any more (-EBUSY) and none can be unloaded
    (-ENOENT); and the first user program that opens the node makes the kernel
    call a method of the module that is not there. *)
Theorem failed_load_blocks es w t' a' :
  at_phase Idle w → chr_register MmapDrv major (tab (kern w)) = (0, t') →
  kmalloc SIZE GFP_KERNEL (mslab (kern w)) = (None, a') → Forall proper es →
  wp (run old (Insmod MmapDrv :: es)) w (Post
    (λ rs w', at_phase Orphan w' ∧ Forall (λ e, uses_driver e = false) es ∧
       ∃ rs', rs = -1 :: rs' ∧ Forall (λ r, r = - EBUSY ∨ r = - ENOENT) rs')
    (λ _ _, False)
    (λ f _, f = BadDeref ∧ Exists (λ e, uses_driver e = true) es)).
Proof.
  intros Hp E Ha Hes. simpl run. apply wp_bind.
  eapply wp_safely_mono; [by eapply no_memory_orphan|]. intros r w1 [-> H1]. simpl. apply wp_bind.
  eapply wp_mono; [by apply (run_refines es Orphan)|..]; simpl; [|done|].
  - intros rs w2 (p & (-> & Hrs & Hu)%orphan_stays & H2). apply wp_ret. simpl. eauto.
  - intros f w2 (es1 & e & es2 & rs & p & -> & (-> & _)%orphan_stays & [-> He]). split; [done|].
    apply Exists_app. right. by constructor.
Qed.

(** The programs on the driver of the other.  ioctl.c runs to its end on the
    mmap module, reports that its ioctl failed, and by closing the file frees the
    buffer of the module, whose unloading then frees it twice.  mmap.c on the
    ioctl module reports that it cannot map, and nothing has changed. *)
Theorem wrong_driver fd q a w :
  0 ≤ fd →
  (at_phase (MmapOn true) w →
     wp (handle old (RunIoctl fd q)) w (safely (λ r w', r = 0 ∧
       Ioctl.uout (glob w') = Ioctl.uout (glob w) ++
         [("error ioctl get", []); ("five ... done...SET\n", [])] ∧
       at_phase (MmapOn false) w' ∧
       wp (handle old (Rmmod "code")) w'
         (Post (λ _ _, False) (λ _ _, False) (λ f _, f = DoubleFree))))) ∧
  (at_phase IoctlOn w →
     wp (handle old (RunMmap fd a)) w (safely (λ r w', r = -1 ∧
       Ioctl.uout (glob w') = Ioctl.uout (glob w) ++ [("Failed to mmap\n", [])] ∧
       at_phase IoctlOn w'))).
Proof.
  intros Hfd. split; intros Hp.
  - simpl handle. apply wp_call.
    eapply wp_mono; [apply (ioctl_main_on _ _ _ _ _ _ fd q (Ioctl.uout (glob w)) w (mmap_serves true) Hfd); by split|..];
      simpl; [done| |by intros ? ? []].
    intros r w' [-> (r0 & -> & Hp' & Ho)]. split; [done|]. split; [done|]. split; [done|].
    eapply wp_mono; [by apply (rmmod_refines (MmapOn false))|..]; simpl; [|done|by intros ? ? []].
    intros r w2 (p' & Hs & _). by inversion Hs.
  - eapply wp_mono; [apply (run_mmap_on _ _ _ _ _ _ fd a (Ioctl.uout (glob w)) w ioctl_serves Hfd);
        [by split|apply inside_out]|..]; simpl; [|done|done].
    intros r w' (r0 & -> & [(_ & -> & Hp' & Ho)|[? _]]); [|done]. done.
Qed.
End proofs.

(** ** A concrete kernel *)

#[global] Instance table_ops : Majors (gmap Z driver) := {
  majors t := t;
  chr_register d n t := match t !! n with Some _ => (- EBUSY, t) | None => (0, <[n := d]> t) end;
  chr_unregister n t := delete n t }.

#[global] Instance table_laws : MajorsLaws (gmap Z driver).
Proof.
  split; simpl.
  - intros d n t d' r t' Hn E. rewrite Hn in E. by injection E as <- <-.
  - intros d n t r t' Hn E. rewrite Hn in E. injection E as <- <-. by left.
  - done.
Qed.

Abbreviation real := (sys (mach (gmap Z driver) io_model slab_model dev_model) user_prog).

(** Nothing loaded, sixteen accessible bytes at 1000, and the outcomes [o] of the
    coming allocations. *)
Definition booted (o : list bool) : real :=
  Sys (Mach ∅ (IoModel false (write_bytes (replicate 16 7) 1000 ∅)) (SlabModel o ∅)
         (DevModel 0 0 false []) (Objs ∅ (Globals Null)) ∅) (UserProg []) [].

Definition after (es : list event) (w : real) : real :=
  match run false es w with Next _ w' => w' | _ => w end.

Lemma booted_idle o : at_phase Idle (booted o).
Proof. done. Qed.

Definition busy_day : list event :=
  [Insmod IoctlDrv; Insmod MmapDrv; RunIoctl 3 1000; RunMmap 3 8192; Rmmod "code"; Insmod MmapDrv;
   RunIoctl 3 1000].

Example busy_day_runs :
  run false busy_day (booted []) = Next [0; - EEXIST; 0; -1; 0; 0; 0] (after busy_day (booted [])) ∧
  Ioctl.uout (glob (after busy_day (booted []))) =
    [("five ... done...SET\n", []); ("Failed to mmap\n", []); ("error ioctl get", []);
     ("five ... done...SET\n", [])].
Proof. split; vm_compute; reflexivity. Qed.

Lemma drivers_refine_witness :
  wp (run false busy_day) (booted []) (Post
    (λ rs w', (∃ p, aruns Idle busy_day rs p ∧ at_phase p w') ∧ (size (mods (kern w')) ≤ 1)%nat)
    (λ _ _, False)
    (λ f _, ∃ es1 e es2 rs p, busy_day = es1 ++ e :: es2 ∧ aruns Idle es1 rs p ∧ afault p e f)).
Proof.
  refine (drivers_refine false busy_day (booted []) (booted_idle []) _).
  repeat constructor; simpl; lia.
Defined.

Lemma failed_load_blocks_witness :
  wp (run false [Insmod MmapDrv; Insmod IoctlDrv; Rmmod "code"; RunMmap 3 8192]) (booted [false]) (Post
    (λ rs w', at_phase Orphan w' ∧
       Forall (λ e, uses_driver e = false) [Insmod IoctlDrv; Rmmod "code"; RunMmap 3 8192] ∧
       ∃ rs', rs = -1 :: rs' ∧ Forall (λ r, r = - EBUSY ∨ r = - ENOENT) rs')
    (λ _ _, False)
    (λ f _, f = BadDeref ∧
       Exists (λ e, uses_driver e = true) [Insmod IoctlDrv; Rmmod "code"; RunMmap 3 8192])).
Proof.
  refine (failed_load_blocks false [Insmod IoctlDrv; Rmmod "code"; RunMmap 3 8192] (booted [false])
    _ _ (booted_idle [false]) eq_refl eq_refl _). repeat constructor; simpl; lia.
Defined.

Lemma mmap_loaded : at_phase (MmapOn true) (after [Insmod MmapDrv] (booted [])).
Proof. split; [done|]. split; [done|]. exists 101%positive. split; vm_compute; reflexivity. Qed.
Lemma ioctl_loaded : at_phase IoctlOn (after [Insmod IoctlDrv] (booted [])).
Proof. done. Qed.

Lemma wrong_driver_witness :
  let wm := after [Insmod MmapDrv] (booted []) in
  let wi := after [Insmod IoctlDrv] (booted []) in
  wp (handle false (RunIoctl 3 1000)) wm (safely (λ r w', r = 0 ∧
    Ioctl.uout (glob w') = Ioctl.uout (glob wm) ++ [("error ioctl get", []); ("five ... done...SET\n", [])] ∧
    at_phase (MmapOn false) w' ∧
    wp (handle false (Rmmod "code")) w' (Post (λ _ _, False) (λ _ _, False) (λ f _, f = DoubleFree)))) ∧
  wp (handle false (RunMmap 3 8192)) wi (safely (λ r w', r = -1 ∧
    Ioctl.uout (glob w') = Ioctl.uout (glob wi) ++ [("Failed to mmap\n", [])] ∧ at_phase IoctlOn w')).
Proof.
  assert (H3 : 0 ≤ 3) by lia. split.
  - exact (proj1 (wrong_driver false 3 1000 8192 _ H3) mmap_loaded).
  - exact (proj2 (wrong_driver false 3 1000 8192 _ H3) ioctl_loaded).
Defined.
