(* ===== verification/Files.v ===== *)
(** * Open files of several processes over both drivers

    The kernel of Drivers.v with processes that keep their files open, or
    mapped, while the administrator loads and unloads the two modules.  An open
    file keeps the methods of the driver it was opened on, and a reference to the
    module if the table of methods names it as the owner; a module with
    references is not unloaded. *)
From stdpp Require Import base gmap strings list.
From Stdlib Require Import ZArith Lia.
From S2P Require Import Prelude Kernel KernelModel Vfs Mmap MmapUser Ioctl Drivers.

Definition EBADF : Z := 9.
Definition EINVAL : Z := 22.

(** An open file: the driver whose code its methods are, or [None] when that
    module is gone; whether a descriptor is open; how many mappings there are. *)
Record ofile := OFile { code : option driver; desc : bool; maps : nat }.

#[global] Instance ofile_eq_dec : EqDecision ofile.
Proof. solve_decision. Defined.

Definition close_desc (o : ofile) : ofile := OFile (code o) false (maps o).
Definition add_map (o : ofile) : ofile := OFile (code o) (desc o) (S (maps o)).
Definition drop_map (o : ofile) : ofile := OFile (code o) (desc o) (pred (maps o)).

(** Nobody refers to the file any more. *)
Definition unused (o : ofile) : bool := negb (desc o) && (maps o =? 0)%nat.

(** The methods of the module [d] are not there any more. *)
Definition forget (d : driver) (o : ofile) : ofile :=
  if decide (code o = Some d) then OFile None (desc o) (maps o) else o.

(** What a process does: an event of Drivers.v, or one system call on a file of
    the given name. *)
Inductive fevent :=
  | FRun (e : event)
  | FOpen (f : nat)
  | FIoctl (f : nat) (cmd arg : Z)
  | FMMap (f : nat) (vma : vm_area_struct)
  | FClose (f : nat)
  | FUnmap (f : nat).

(** The module whose unloading an event with result [r] is; [l] are the modules
    that were loaded. *)
Definition unloads (l : gmap string driver) (e : event) (r : Z) : option driver :=
  match e with Rmmod n => if r =? 0 then l !! n else None | _ => None end.

Definition forget_all (u : option driver) (fs : gmap nat ofile) : gmap nat ofile :=
  match u with Some d => forget d <$> fs | None => fs end.

Section kernel.
Context {T U A V : Type} `{ops_t : Majors T, ops_u : IoctlApi U, ops_a : Slab A, ops_v : DevApi V}.
Abbreviation world := (sys (mach T U A V) user_prog).

(** The kernel, the open files, the memory of each process. *)
Record fworld := FWorld { kworld : world; files : gmap nat ofile; mems : nat → U }.

Definition set_files (fs : gmap nat ofile) (w : fworld) : fworld := FWorld (kworld w) fs (mems w).

(** A system call of process [k] works on the memory of that process. *)
Definition seen_by (k : nat) (w : fworld) : world :=
  set_kern (set_usr (mems w k) (kern (kworld w))) (kworld w).
Definition back_from (k : nat) (s : world) (w : fworld) : fworld :=
  FWorld s (files w) (λ j, if decide (j = k) then usr (kern s) else mems w j).
Definition enter {R B} (k : nat) (c : M R world B) : M R fworld B := zoom (seen_by k) (back_from k) c.

Context (old : bool).

(** The methods behind an open file. *)
Definition methods (o : ofile) : file_operations world :=
  match code o with Some d => ops_of old d | None => gone_ops end.

(** A reference to the file [f] was dropped, which is now [o]. *)
Definition put (k f : nat) (o : ofile) : M unit fworld Z :=
  if unused o then
    modify (λ w, set_files (delete f (files w)) w);;
    _ ← enter k (vfs_release (methods o)); mret 0
  else modify (λ w, set_files (<[f := o]> (files w)) w);; mret 0.

(** A call through a descriptor. *)
Definition on_desc (f : nat) (c : ofile → M unit fworld Z) : M unit fworld Z :=
  fs ← gets files;
  match fs !! f with
  | Some o => if desc o then c o else mret (- EBADF)
  | None => mret (- EBADF)
  end.

(** The references to the module [d]: one for each of its open files, when its
    table names an owner. *)
Definition module_refs (d : driver) (w : fworld) : nat :=
  if fo_owner (ops_of old d : file_operations world)
  then size (filter (λ x, code x.2 = Some d) (files w)) else 0%nat.

(** An unloading that the kernel refuses. *)
Definition in_use (e : event) (w : fworld) : bool :=
  match e with
  | Rmmod n => match mods (kern (kworld w)) !! n with
               | Some d => negb (module_refs d w =? 0)%nat
               | None => false
               end
  | _ => false
  end.

Definition fhandle (k : nat) (e : fevent) : M unit fworld Z :=
  match e with
  | FRun e =>
      b ← gets (in_use e);
      if (b : bool) then mret (- EWOULDBLOCK) else
      l ← gets (λ w, mods (kern (kworld w)));
      r ← enter k (handle old e);
      modify (λ w, set_files (forget_all (unloads l e r) (files w)) w);;
      mret r
  | FOpen f =>
      fs ← gets files;
      if decide (fs !! f = None) then
        d ← gets (λ w, majors (tab (kern (kworld w))) !! major);
        '(r, _) ← enter k (sys_open (node old) (Z.of_nat f));
        (if r <? 0 then mret tt
         else modify (λ w, set_files (<[f := OFile d true 0]> (files w)) w));;
        mret r
      else mret (- EBUSY)
  | FIoctl f cmd arg => on_desc f (λ o, enter k (vfs_ioctl (methods o) cmd arg))
  | FMMap f vma => on_desc f (λ o,
      r ← enter k (vfs_mmap (methods o) vma);
      (if r <? 0 then mret tt
       else modify (λ w, set_files (<[f := add_map o]> (files w)) w));;
      mret r)
  | FClose f => on_desc f (λ o, put k f (close_desc o))
  | FUnmap f =>
      fs ← gets files;
      match fs !! f with
      | Some o => if (maps o =? 0)%nat then mret (- EINVAL) else put k f (drop_map o)
      | None => mret (- EINVAL)
      end
  end.

Fixpoint frun (es : list (nat * fevent)) : M unit fworld (list Z) :=
  match es with
  | [] => mret []
  | (k, e) :: es => r ← fhandle k e; rs ← frun es; mret (r :: rs)
  end.
End kernel.
#[global] Arguments fworld T U A V : clear implicits.

(** ** The abstract machine

    A phase of Drivers.v and the open files.  No memory, no table, no buffer:
    the results and faults of every call follow from these. *)

Definition astate : Type := phase * gmap nat ofile.

(** The phases in which the node can be opened, and the driver behind it. *)
Definition behind (p : phase) : option driver :=
  match p with IoctlOn => Some IoctlDrv | MmapOn _ => Some MmapDrv | _ => None end.

(** Dropping a reference. *)
Inductive aput (p : phase) (fs : gmap nat ofile) (f : nat) (o : ofile) : astate → Prop :=
  | PutKeep : unused o = false → aput p fs f o (p, <[f := o]> fs)
  | PutIoctl : unused o = true → code o = Some IoctlDrv → aput p fs f o (p, delete f fs)
  | PutMmap : unused o = true → code o = Some MmapDrv → p = MmapOn true →
      aput p fs f o (MmapOn false, delete f fs).

(** The result of an ioctl and of an mmap on the driver [d]. *)
Definition ioctl_result (d : driver) (r : Z) : Prop :=
  match d with IoctlDrv => r = 0 ∨ r = - EACCES | MmapDrv => r = - ENOTTY end.
Definition mmap_result (d : driver) (r : Z) : Prop :=
  match d with IoctlDrv => r = - ENODEV | MmapDrv => r = 0 ∨ r = - EAGAIN end.

(** The file [f] has no open descriptor. *)
Definition bad_desc (fs : gmap nat ofile) (f : nat) : Prop :=
  ∀ o, fs !! f = Some o → desc o = false.

Inductive fstep : astate → fevent → Z → astate → Prop :=
  | SRun p fs e r p' : astep p e r p' →
      fstep (p, fs) (FRun e) r (p', forget_all (unloads (loaded_in p) e r) fs)
  | SOpenBusy p fs f o : fs !! f = Some o → fstep (p, fs) (FOpen f) (- EBUSY) (p, fs)
  | SOpenNone fs f : fs !! f = None → fstep (Idle, fs) (FOpen f) (-1) (Idle, fs)
  | SOpen p fs f d : fs !! f = None → behind p = Some d →
      fstep (p, fs) (FOpen f) (Z.of_nat f) (p, <[f := OFile (Some d) true 0]> fs)
  | SIoctlBad p fs f cmd arg : bad_desc fs f → fstep (p, fs) (FIoctl f cmd arg) (- EBADF) (p, fs)
  | SIoctl p fs f cmd arg o d r : fs !! f = Some o → desc o = true → code o = Some d →
      ioctl_result d r → fstep (p, fs) (FIoctl f cmd arg) r (p, fs)
  | SMMapBad p fs f vma : bad_desc fs f → fstep (p, fs) (FMMap f vma) (- EBADF) (p, fs)
  | SMMap p fs f vma o d r : fs !! f = Some o → desc o = true → code o = Some d →
      mmap_result d r →
      fstep (p, fs) (FMMap f vma) r (p, if r <? 0 then fs else <[f := add_map o]> fs)
  | SCloseBad p fs f : bad_desc fs f → fstep (p, fs) (FClose f) (- EBADF) (p, fs)
  | SClose p fs f o s : fs !! f = Some o → desc o = true → aput p fs f (close_desc o) s →
      fstep (p, fs) (FClose f) 0 s
  | SUnmapBad p fs f : (∀ o, fs !! f = Some o → maps o = 0%nat) →
      fstep (p, fs) (FUnmap f) (- EINVAL) (p, fs)
  | SUnmap p fs f o s : fs !! f = Some o → maps o ≠ 0%nat → aput p fs f (drop_map o) s →
      fstep (p, fs) (FUnmap f) 0 s.

(** The release of a file that faults. *)
Definition put_fault (p : phase) (o : ofile) (x : fault) : Prop :=
  unused o = true ∧
  (code o = None ∧ x = BadDeref ∨ code o = Some MmapDrv ∧ p = MmapOn false ∧ x = DoubleFree).

(** The calls that fault, and how. *)
Definition ffault (s : astate) (e : fevent) (x : fault) : Prop :=
  match e with
  | FRun e => afault s.1 e x
  | FOpen f => s.2 !! f = None ∧ s.1 = Orphan ∧ x = BadDeref
  | FIoctl f _ _ | FMMap f _ => ∃ o, s.2 !! f = Some o ∧ desc o = true ∧ code o = None ∧ x = BadDeref
  | FClose f => ∃ o, s.2 !! f = Some o ∧ desc o = true ∧ put_fault s.1 (close_desc o) x
  | FUnmap f => ∃ o, s.2 !! f = Some o ∧ maps o ≠ 0%nat ∧ put_fault s.1 (drop_map o) x
  end.

Inductive fruns : astate → list fevent → list Z → astate → Prop :=
  | FNil s : fruns s [] [] s
  | FCons s s' s'' e es r rs : fstep s e r s' → fruns s' es rs s'' → fruns s (e :: es) (r :: rs) s''.

Definition fproper (e : fevent) : Prop := match e with FRun e => proper e | _ => True end.

Section proofs.
Context {T U A V : Type}.
Context `{ops_t : Majors T, !MajorsLaws T, ops_u : IoctlApi U, !IoctlLaws U}.
Context `{ops_a : Slab A, !SlabLaws A, ops_v : DevApi V, !DevLaws V}.
Abbreviation world := (sys (mach T U A V) user_prog).
Abbreviation fst_ := (fworld T U A V).
Context (old : bool).
Implicit Types (k f : nat) (fs : gmap nat ofile) (o : ofile).

(** ** The calls of a loaded driver, by phase *)

Lemma seen_phase p k (w : fst_) : at_phase p (kworld w) → at_phase p (seen_by k w).
Proof. intros Hp. by eapply at_phase_keep. Qed.

Lemma wp_by_proc {R B} k (c : M R world B) w (P : post R fst_ B) :
  wp c (seen_by k w) (Post (λ a s, on_next P a (back_from k s w)) (λ r s, on_return P r (back_from k s w))
    (λ x s, on_fault P x (back_from k s w))) →
  wp (enter k c) w P.
Proof. apply wp_zoom. Qed.

Lemma behind_node p d (w : world) : at_phase p w → behind p = Some d → node old w = Some (ops_of old d).
Proof.
  intros Hp Hd. destruct p; simplify_eq/=.
  - by apply ioctl_serves.
  - by eapply mmap_serves.
Qed.

Lemma behind_owner p d (w : world) : at_phase p w → behind p = Some d → owner w = Some d.
Proof. intros Hp Hd. destruct p; simplify_eq/=; by destruct Hp. Qed.

Lemma behind_open p d (w : world) {R} :
  at_phase p w → behind p = Some d →
  wp (vfs_open (ops_of old d)) w (safely (R:=R) (λ r w', 0 ≤ r ∧ at_phase p w')).
Proof.
  intros Hp Hd. assert (Hi : inside p (Ioctl.uout (glob w)) w) by done.
  destruct p as [| |b|]; simplify_eq/=; (eapply wp_safely_mono;
    [first [exact (sv_open _ _ _ _ _ _ _ (ioctl_serves old) R _ _ Hi)
           |exact (sv_open _ _ _ _ _ _ _ (mmap_serves old b) R _ _ Hi)]|]); by intros r w' (? & ? & _).
Qed.

Lemma behind_mmap p d vma (w : world) {R} :
  at_phase p w → behind p = Some d →
  wp (vfs_mmap (ops_of old d) vma) w (safely (R:=R) (λ r w', mmap_result d r ∧ at_phase p w')).
Proof.
  intros Hp Hd. assert (Hi : inside p (Ioctl.uout (glob w)) w) by done.
  destruct p as [| |b|]; simplify_eq/=; (eapply wp_safely_mono;
    [first [exact (sv_mmap _ _ _ _ _ _ _ (ioctl_serves old) R _ _ vma Hi)
           |exact (sv_mmap _ _ _ _ _ _ _ (mmap_serves old b) R _ _ vma Hi)]|]); by intros r w' (? & ? & _).
Qed.

(** Every command, on the driver of either kind. *)
Lemma behind_ioctl p d cmd arg (w : world) {R} :
  at_phase p w → behind p = Some d →
  wp (vfs_ioctl (ops_of old d) cmd arg) w (safely (R:=R) (λ r w', ioctl_result d r ∧ at_phase p w')).
Proof.
  intros Hp Hd. destruct p as [| |b|]; simplify_eq/=; [|by apply wp_ret].
  rewrite vfs_ioctl_dev. apply wp_call. unfold dev_ioctl. apply wp_bind.
  repeat case_decide.
  - apply wp_bind, wp_on_kern'. intros n q E. simpl in E.
    destruct (copy_to_user arg (le_bytes 8 14) (usr (kern w))) as [n' u] eqn:E'. injection E as <- <-.
    simpl. destruct (negb (n' =? 0)); wp_steps; simpl; wp_steps; auto.
  - wp_steps. simpl. wp_steps. auto.
  - apply wp_bind, wp_gets. simpl. destruct (copy_from_user arg 8 (usr (kern w))) as [n bs].
    destruct (negb (n =? 0)); wp_steps; simpl; wp_steps; auto.
  - wp_steps. simpl. wp_steps. auto.
Qed.

(** The release: the phase after it. *)
Definition released (p : phase) (d : driver) : option phase :=
  match d, p with
  | IoctlDrv, _ => Some p
  | MmapDrv, MmapOn true => Some (MmapOn false)
  | MmapDrv, _ => None
  end.

Lemma behind_release p d (w : world) {R} :
  at_phase p w → behind p = Some d →
  wp (vfs_release (ops_of old d)) w (Post (R:=R) (λ _ w', ∃ p', released p d = Some p' ∧ at_phase p' w')
    (λ _ _, False) (λ x _, d = MmapDrv ∧ p = MmapOn false ∧ x = DoubleFree)).
Proof.
  intros Hp Hd. assert (Hi : inside p (Ioctl.uout (glob w)) w) by done.
  destruct p as [| |b|]; simplify_eq/=.
  - eapply wp_mono; [exact (sv_release _ _ _ _ _ _ _ (ioctl_serves old) R _ _ Hi)|..]; simpl; [|done|done].
    intros _ w' [? _]. eauto.
  - eapply wp_mono; [exact (sv_release _ _ _ _ _ _ _ (mmap_serves old b) R _ _ Hi)|..]; simpl; [|done|by intros ? ? [-> ->]].
    intros _ w' HJ. destruct b; [|done]. destruct HJ as [? _]. eauto.
Qed.

(** ** The simulation *)

(** A live file has the methods of the module that is loaded. *)
Definition wf (s : astate) : Prop :=
  ∀ f o d, s.2 !! f = Some o → code o = Some d → behind s.1 = Some d.

Definition sim (s : astate) (w : fst_) : Prop :=
  at_phase s.1 (kworld w) ∧ files w = s.2 ∧ wf s.

(** What one event may do from the abstract state [s]. *)
Definition refines (s : astate) (e : fevent) : post unit fst_ Z :=
  Post (λ r w', ∃ s', fstep s e r s' ∧ sim s' w') (λ _ _, False) (λ x _, ffault s e x).

Lemma wf_insert p fs f o :
  wf (p, fs) → (∀ d, code o = Some d → behind p = Some d) → wf (p, <[f := o]> fs).
Proof.
  intros Hw Ho g o' d. simpl. rewrite lookup_insert_Some. intros [[-> <-]|[_ Hg]]; [by apply Ho|by apply (Hw g)].
Qed.

Lemma wf_delete p p' fs f : wf (p, fs) → behind p' = behind p → wf (p', delete f fs).
Proof. intros Hw Hb g o d. simpl. rewrite lookup_delete_Some, Hb. intros [_ Hg]. by apply (Hw g). Qed.

Lemma wf_forget p p' d fs : wf (p, fs) → behind p = Some d → wf (p', forget d <$> fs).
Proof.
  intros Hw Hb f o d'. simpl. rewrite lookup_fmap_Some. intros (o' & <- & Hf) Hc.
  unfold forget in Hc. case_decide as Hd; [done|]. apply (Hw f) in Hc as Hb'; [|done]. simpl in Hb'. congruence.
Qed.

Lemma wf_idle p fs : behind p = None → wf (p, fs) → ∀ p', wf (p', fs).
Proof. intros Hb Hw p' f o d Hf Hc. specialize (Hw f o d Hf Hc). simpl in Hw. congruence. Qed.

(** The events of Drivers.v. *)
Lemma astep_wf p fs e r p' :
  wf (p, fs) → astep p e r p' → wf (p', forget_all (unloads (loaded_in p) e r) fs).
Proof.
  intros Hw Hs.
  assert (Hsame : ∀ q u, u = None → behind q = behind p → wf (q, forget_all u fs)).
  { intros q u -> Hq f o d Hf Hc. simpl. rewrite Hq. by apply (Hw f o d). }
  inversion Hs; subst; first
    [ by apply Hsame | by apply (wf_idle Idle) | by apply (wf_forget IoctlOn) | by apply (wf_forget (MmapOn true)) ].
Qed.

(** Neither table names an owner. *)
Lemma never_in_use e w : in_use old e w = false.
Proof. destruct e as [|n|fd q|fd a]; simpl; [done| |done|done]. by destruct (_ !! n) as [[]|]. Qed.

Lemma run_sim s k e w : sim s w → proper e → wp (fhandle old k (FRun e)) w (refines s (FRun e)).
Proof.
  destruct s as [p fs]. intros (Hp & Hf & Hw) He. simpl in *. apply wp_bind, wp_gets. simpl.
  rewrite never_in_use. apply wp_bind, wp_gets. simpl. rewrite (at_mods _ _ Hp). apply wp_bind, wp_by_proc.
  eapply wp_mono; [apply (handle_refines old p e); [by apply seen_phase|done]|..]; simpl; [|done|done].
  intros r w' (p' & Hs & Hp'). apply wp_bind, wp_modify. simpl. apply wp_ret. simpl.
  eexists. split; [by constructor|]. split; [done|]. split; [by rewrite <- Hf|by eapply astep_wf].
Qed.

Lemma open_sim s k f w : sim s w → wp (fhandle old k (FOpen f)) w (refines s (FOpen f)).
Proof.
  destruct s as [p fs]. intros (Hp & Hf & Hw). simpl in *. apply wp_bind, wp_gets. simpl. rewrite Hf.
  case_decide as Hn.
  2:{ apply wp_ret. simpl. apply not_eq_None_Some in Hn as [o Ho]. eexists. split; [by econstructor|done]. }
  apply wp_bind, wp_gets. simpl. apply wp_bind, wp_by_proc. unfold sys_open. apply wp_bind, wp_gets. simpl.
  pose proof (seen_phase p k w Hp) as Hp1. destruct (behind p) as [d|] eqn:Hd.
  - rewrite (behind_node p d) by done. apply wp_bind.
    eapply wp_safely_mono; [by apply (behind_open p d)|]. intros r w' [Hr Hp']. simpl. apply wp_ret. simpl.
    rewrite (proj2 (Z.ltb_ge _ _) Hr), (proj2 (Z.ltb_ge _ _) (Nat2Z.is_nonneg f)).
    apply wp_bind, wp_modify. simpl. apply wp_ret. simpl.
    pose proof (behind_owner p d _ Hp Hd) as Ho. unfold owner in Ho. rewrite Ho, Hf.
    eexists. split; [by apply SOpen|]. split; [done|]. split; [done|].
    apply wf_insert; [done|]. by intros ? [= <-].
  - destruct p; try done.
    + rewrite (node_idle old) by done. apply wp_ret. simpl. apply wp_bind, wp_ret, wp_ret. simpl.
      eexists. split; [by apply SOpenNone|done].
    + rewrite (node_orphan old) by done. unfold wp. simpl. done.
Qed.

(** A call through a descriptor. *)
Lemma desc_sim s f c w (P : post unit fst_ Z) :
  sim s w → (bad_desc s.2 f → on_next P (- EBADF) w) →
  (∀ o, s.2 !! f = Some o → desc o = true → wp (c o) w P) → wp (on_desc f c) w P.
Proof.
  intros (_ & Hf & _) Hbad Hok. unfold on_desc. apply wp_bind, wp_gets. simpl. rewrite Hf. unfold bad_desc in Hbad.
  destruct (s.2 !! f) as [o|] eqn:Ho; [|apply wp_ret, Hbad; naive_solver].
  destruct (desc o) eqn:Hd; [by apply Hok|apply wp_ret, Hbad; naive_solver].
Qed.

Lemma put_sim s k f o w :
  sim s w → (∀ d, code o = Some d → behind s.1 = Some d) →
  wp (put old k f o) w (Post (λ r w', r = 0 ∧ ∃ s', aput s.1 s.2 f o s' ∧ sim s' w') (λ _ _, False)
    (λ x _, put_fault s.1 o x)).
Proof.
  destruct s as [p fs]. intros (Hp & Hf & Hw) Ho. simpl in *. unfold put.
  destruct (unused o) eqn:Hu.
  - apply wp_bind, wp_modify. simpl. apply wp_bind, wp_by_proc. unfold methods.
    destruct (code o) as [d|] eqn:Hc; [|unfold wp; simpl; split; [done|by left]].
    eapply wp_mono; [apply (behind_release p d); [by apply seen_phase|by apply Ho]|..]; simpl; [|done|].
    + intros _ w' (p' & Hr & Hp'). apply wp_ret. simpl. split; [done|]. rewrite Hf.
      specialize (Ho d eq_refl). exists (p', delete f fs). split.
      * destruct d; simpl in Hr; [injection Hr as <-; by apply PutIoctl|].
        destruct p as [| |[]|]; simplify_eq/=. by apply PutMmap.
      * split; [done|]. split; [done|]. eapply wf_delete; [done|].
        destruct d; simpl in Hr; [by injection Hr as <-|]. by destruct p as [| |[]|]; simplify_eq/=.
    + intros x w' (-> & -> & ->). split; [done|]. by right.
  - apply wp_bind, wp_modify. simpl. apply wp_ret. simpl. split; [done|]. rewrite Hf.
    eexists. split; [by apply PutKeep|]. split; [done|]. split; [done|]. by apply wf_insert.
Qed.

Lemma fhandle_refines s k e w : sim s w → fproper e → wp (fhandle old k e) w (refines s e).
Proof.
  intros Hs He. pose proof Hs as (Hp & Hf & Hw). destruct s as [p fs].
  destruct e as [e|f|f cmd arg|f vma|f|f]; [by apply run_sim|by apply open_sim|..].
  - apply (desc_sim _ _ _ _ _ Hs); simpl.
    + intros Hb. eexists. split; [by constructor|done].
    + intros o Ho Hd. apply wp_by_proc. unfold methods. destruct (code o) as [d|] eqn:Hc;
        [|unfold wp; simpl; eauto 6].
      eapply wp_safely_mono; [apply (behind_ioctl p d); [by apply seen_phase|by eapply Hw]|].
      intros r w' [Hr Hp']. simpl. eexists. split; [by eapply SIoctl|done].
  - apply (desc_sim _ _ _ _ _ Hs); simpl.
    + intros Hb. eexists. split; [by constructor|done].
    + intros o Ho Hd. apply wp_bind, wp_by_proc. unfold methods. destruct (code o) as [d|] eqn:Hc;
        [|unfold wp; simpl; eauto 6].
      eapply wp_safely_mono; [apply (behind_mmap p d); [by apply seen_phase|by eapply Hw]|].
      intros r w' [Hr Hp']. simpl. apply wp_bind. destruct (r <? 0) eqn:E.
      * apply wp_ret, wp_ret. simpl. eexists. split; [by eapply SMMap|]. rewrite E. done.
      * apply wp_modify, wp_ret. simpl. eexists. split; [by eapply SMMap|]. rewrite E.
        simpl in Hf. rewrite Hf. split; [done|]. split; [done|]. apply wf_insert; [done|].
        simpl. rewrite Hc. intros d' [= <-]. by eapply Hw.
  - apply (desc_sim _ _ _ _ _ Hs); simpl.
    + intros Hb. eexists. split; [by constructor|done].
    + intros o Ho Hd. eapply wp_mono; [apply (put_sim _ _ _ _ _ Hs); intros d ?; by apply (Hw f o d)|..]; simpl; [|done|eauto].
      intros r w' (-> & s' & Ha & Hs'). exists s'. split; [by eapply SClose|done].
  - simpl. apply wp_bind, wp_gets. simpl. simpl in Hf. rewrite Hf. destruct (fs !! f) as [o|] eqn:Ho.
    + destruct (maps o =? 0)%nat eqn:E.
      * apply Nat.eqb_eq in E. apply wp_ret. simpl. eexists. split; [by constructor; naive_solver|done].
      * apply Nat.eqb_neq in E.
        eapply wp_mono; [apply (put_sim _ _ _ _ _ Hs); intros d ?; by apply (Hw f o d)|..]; simpl; [|done|eauto].
        intros r w' (-> & s' & Ha & Hs'). exists s'. split; [by eapply SUnmap|done].
    + apply wp_ret. simpl. eexists. split; [by constructor; naive_solver|done].
Qed.

Lemma frun_refines es s w :
  sim s w → Forall (fproper ∘ snd) es →
  wp (frun old es) w (Post (λ rs w', ∃ s', fruns s es.*2 rs s' ∧ sim s' w') (λ _ _, False)
    (λ x _, ∃ es1 e es2 rs s1, es.*2 = es1 ++ e :: es2 ∧ fruns s es1 rs s1 ∧ ffault s1 e x)).
Proof.
  revert s w. induction es as [|[k e] es IH]; intros s w Hs Hes; simpl.
  { apply wp_ret. simpl. exists s. split; [constructor|done]. }
  apply Forall_cons in Hes as [He Hes]. apply wp_bind.
  eapply wp_mono; [by apply fhandle_refines|..]; simpl; [|done|].
  - intros r w1 (s1 & Hst & Hs1). apply wp_bind. eapply wp_mono; [by apply (IH s1)|..]; simpl; [|done|].
    + intros rs w2 (s2 & Hr & Hs2). apply wp_ret. simpl. exists s2. split; [by econstructor|done].
    + intros x w2 (es1 & e' & es2 & rs & s2 & E & Hr & Hf).
      exists (e :: es1), e', es2, (r :: rs), s2. split; [exact (f_equal (cons e) E)|]. split; [by econstructor|done].
  - intros x w1 Hf. exists [], e, (es.*2), [], s. split; [done|]. split; [constructor|done].
Qed.

(** ** The theorems *)

Lemma sim_start w : at_phase Idle (kworld w) → files w = ∅ → sim (Idle, ∅) w.
Proof.
  intros Hp Hf. split; [done|]. split; [done|]. intros f o d Ho. simpl in Ho. by rewrite lookup_empty in Ho.
Qed.

Lemma fruns_length s es rs s' : fruns s es rs s' → length rs = length es.
Proof. induction 1; simpl; congruence. Qed.

(** C9: processes with open and mapped files over the two drivers.  Under every
    interleaving of loads, unloads, runs of the two programs and single open,
    ioctl, mmap, munmap and close calls of any processes, the kernel refines the
    machine of a phase and the open files: each result is one the machine
    allows (both modules have the name code, so that a second load is refused
    and rmmod unloads whichever is there), a file that still has its methods
    belongs to the one module that is loaded, and the only faults are those of
    the machine: a call through a file whose module is gone, a node without its
    module, and the second release of the buffer. *)
Theorem files_refine es (w : fst_) :
  at_phase Idle (kworld w) → files w = ∅ → Forall (fproper ∘ snd) es →
  wp (frun old es) w (Post
    (λ rs w', ∃ p fs, fruns (Idle, ∅) es.*2 rs (p, fs) ∧ at_phase p (kworld w') ∧ files w' = fs ∧
       (size (mods (kern (kworld w'))) ≤ 1)%nat ∧
       ∀ f o d, fs !! f = Some o → code o = Some d → mods (kern (kworld w')) !! module_name d = Some d)
    (λ _ _, False)
    (λ x _, ∃ es1 e es2 rs s, es.*2 = es1 ++ e :: es2 ∧ fruns (Idle, ∅) es1 rs s ∧ ffault s e x)).
Proof.
  intros Hp Hf Hes.
  eapply wp_mono; [apply (frun_refines es (Idle, ∅)); [by apply sim_start|done]|..]; simpl; [|done|done].
  intros rs w' ([p fs] & Hr & Hp' & Hf' & Hw). exists p, fs. rewrite (at_mods _ _ Hp'). simpl in *.
  split; [done|]. split; [done|]. split; [done|]. split.
  - destruct p; unfold loaded_in; (rewrite map_size_empty || rewrite map_size_singleton); lia.
  - intros f o d Ho Hc. specialize (Hw f o d Ho Hc). by destruct p; simplify_eq/=.
Qed.

(** A file without methods stays one, until its descriptor is closed. *)
Definition dead (f n : nat) (s : astate) : Prop :=
  ∃ o, s.2 !! f = Some o ∧ desc o = true ∧ code o = None ∧ (maps o ≤ n)%nat.

Lemma dead_put f n p fs g o s :
  dead f n (p, fs) → g ≠ f → aput p fs g o s → dead f n s.
Proof.
  intros (o' & Ho & ?) Hg Hp. exists o'. simpl in Ho.
  inversion Hp; subst; simpl; first [by rewrite lookup_insert_ne|by rewrite lookup_delete_ne].
Qed.

Lemma dead_step f n s e r s' : fstep s e r s' → e ≠ FClose f → dead f n s → dead f n s'.
Proof.
  intros Hs He Hd. pose proof Hd as (o & Ho & Hdo & Hc & Hm). inversion Hs; subst; simpl in *; try done.
  - destruct (unloads _ _ _) as [d|]; [|done]. exists o. simpl. rewrite lookup_fmap, Ho. simpl.
    unfold forget. by rewrite decide_False by congruence.
  - exists o. simpl. rewrite lookup_insert_ne by congruence. done.
  - assert (f ≠ f0) by congruence. destruct (r <? 0); [done|]. exists o. simpl. by rewrite lookup_insert_ne.
  - eapply dead_put; [done| |done]. congruence.
  - destruct (decide (f0 = f)) as [->|Hne]; [|by eapply dead_put]. simplify_eq.
    match goal with H : aput _ _ _ _ _ |- _ => inversion H; subst end;
      unfold unused in *; simpl in *; rewrite ?Hdo in *; try done.
    eexists. simpl. rewrite lookup_insert_eq. split; [done|]. simpl. split_and!; [done|done|lia].
Qed.

Lemma dead_runs f n s es rs s' : fruns s es rs s' → FClose f ∉ es → dead f n s → dead f n s'.
Proof.
  induction 1 as [|s s' s'' e es r rs Hs Hr IH]; [done|]. rewrite not_elem_of_cons. intros [Hne Hn] Hd.
  apply IH; [done|]. eapply dead_step; [done|by intros ->|done].
Qed.

(** The calls that need the methods of the file [f]; the close does when there
    is no mapping. *)
Definition needs_methods (f n : nat) (e : fevent) : Prop :=
  match e with FIoctl g _ _ | FMMap g _ => g = f | FClose g => g = f ∧ n = 0%nat | _ => False end.

Lemma dead_stuck f n s e r s' : dead f n s → needs_methods f n e → ¬ fstep s e r s'.
Proof.
  intros (o & Ho & Hd & Hc & Hm) He Hs.
  assert (Hb : ¬ bad_desc s.2 f) by (intros Hb; specialize (Hb o Ho); congruence).
  destruct s as [p fs]; simpl in *. destruct e as [|g|g cmd arg|g vma|g|g]; try done.
  - simpl in He. subst g. inversion Hs; subst; [done|congruence].
  - simpl in He. subst g. inversion Hs; subst; [done|congruence].
  - destruct He as [-> ->]. inversion Hs as [| | | | | | | |? ? ? ?|? ? ? o' ? Ho' Hd' Hp| |]; subst; [done|].
    assert (o' = o) as -> by congruence. inversion Hp as [Hu|? Hc'|? Hc']; [|simpl in Hc'; congruence..].
    unfold unused in Hu. simpl in Hu. apply Nat.eqb_neq in Hu. lia.
Qed.

Lemma fault_kinds s e x : ffault s e x → x = BadDeref ∨ x = DoubleFree.
Proof.
  destruct e as [e|f|f cmd arg|f vma|f|f]; simpl; unfold put_fault; try naive_solver.
  destruct s as [[| |[]|] fs]; simpl; naive_solver.
Qed.

Lemma dead_fault f n s e x : dead f n s → needs_methods f n e → ffault s e x → x = BadDeref.
Proof.
  intros (o & Ho & _ & Hc & _) He. destruct e as [|g|g cmd arg|g vma|g|g]; simpl in He; try done.
  - subst g. simpl. naive_solver.
  - subst g. simpl. naive_solver.
  - destruct He as [-> _]. intros (o' & Ho' & _ & _ & [[_ ->]|(Hc' & _)]); [done|].
    simpl in Hc'. congruence.
Qed.

(** The unloading of the module of an open file. *)
Lemma unload_dead s f o d r s' :
  wf s → s.2 !! f = Some o → desc o = true → code o = Some d → fstep s (FRun (Rmmod (module_name d))) r s' →
  r = 0 ∧ dead f (maps o) s'.
Proof.
  intros Hw Ho Hd Hc Hs. specialize (Hw f o d Ho Hc). destruct s as [p fs]. simpl in *.
  inversion Hs as [? ? ? ? p' Ha| | | | | | | | | | |]; subst.
  assert (r = 0 ∧ loaded_in p !! module_name d = Some d) as [-> Hl].
  { destruct p; simplify_eq/=; inversion Ha; by subst. }
  split; [done|]. simpl. rewrite Hl. exists (OFile None true (maps o)). simpl. rewrite lookup_fmap, Ho. simpl.
  unfold forget. rewrite decide_True, Hd by done. done.
Qed.

(** C27: neither table of methods names an owner, so that nothing keeps a module
    loaded while its device is open.  After the
    unloading of the module of an open file, whatever any process and the
    administrator do, loading the module again included, the next ioctl or mmap
    through that file, or its close when nothing is mapped, calls code that is
    gone. *)
Theorem unload_under_file s f o d e k0 k es (w : fst_) :
  sim s w → s.2 !! f = Some o → desc o = true → code o = Some d → needs_methods f (maps o) e →
  FClose f ∉ es.*2 → Forall (fproper ∘ snd) es →
  wp (frun old ((k0, FRun (Rmmod (module_name d))) :: es)) w (Post
    (λ _ w', wp (fhandle old k e) w' (Post (λ _ _, False) (λ _ _, False) (λ x _, x = BadDeref)))
    (λ _ _, False) (λ x _, x = BadDeref ∨ x = DoubleFree)).
Proof.
  intros Hs Ho Hd Hc He Hn Hes.
  eapply wp_mono; [apply (frun_refines _ s); [done|by constructor]|..]; [|done|].
  - intros rs w' (s' & Hr & Hs'). inversion Hr as [|? s1 ? ? ? r rs' H1 H2]; subst.
    destruct (unload_dead s f o d r s1) as [_ Hdead]; [by destruct Hs as (_ & _ & ?)|done..|].
    apply (dead_runs _ _ _ _ _ _ H2 Hn) in Hdead.
    eapply wp_mono; [apply (fhandle_refines s'); [done|by destruct e]|..]; simpl; [|done|].
    + intros r' w2 (s2 & Hst & _). by eapply dead_stuck.
    + intros x w2. by apply (dead_fault f (maps o)).
  - intros x w' (es1 & e' & es2 & rs & s1 & _ & _ & Hf). by eapply fault_kinds.
Qed.

(** ** The ioctl module alone

    A sequence that never loads the mmap module and unloads only when no file is
    open; [g] holds the names of the files that may be open. *)
Fixpoint careful (g : gset nat) (es : list fevent) : bool :=
  match es with
  | [] => true
  | FRun (Insmod MmapDrv) :: _ => false
  | FRun (Rmmod _) :: es => bool_decide (g = ∅) && careful g es
  | FOpen f :: es => careful ({[f]} ∪ g) es
  | FClose f :: es => careful (g ∖ {[f]}) es
  | _ :: es => careful g es
  end.

Definition ioctl_file : ofile := OFile (Some IoctlDrv) true 0.

(** The abstract states of such sequences. *)
Definition ioctl_only (g : gset nat) (s : astate) : Prop :=
  (s.1 = Idle ∧ s.2 = ∅ ∨ s.1 = IoctlOn) ∧ ∀ f o, s.2 !! f = Some o → f ∈ g ∧ o = ioctl_file.

Lemma ioctl_only_mono g g' s : g ⊆ g' → ioctl_only g s → ioctl_only g' s.
Proof. intros Hg [Hp Hf]. split; [done|]. intros f o Ho. apply Hf in Ho as [? ->]. auto. Qed.

Lemma ioctl_only_empty g s : ioctl_only g s → g = ∅ → s.2 = ∅.
Proof.
  intros [_ Hf] ->. apply map_eq. intros f. rewrite lookup_empty.
  destruct (s.2 !! f) as [o|] eqn:E; [|done]. apply Hf in E as [? _]. set_solver.
Qed.

(** Loads, unloads and programs. *)
Lemma careful_run g e es p fs r p' :
  careful g (FRun e :: es) = true → ioctl_only g (p, fs) → astep p e r p' →
  careful g es = true ∧ ioctl_only g (p', forget_all (unloads (loaded_in p) e r) fs).
Proof.
  intros Hc Hi Ha. pose proof Hi as [Hp Hf]. simpl in Hp.
  destruct e as [[]|d|fd q|fd a]; simpl in Hc; [|done|..].
  - split; [done|]. split; [|done]. simpl. destruct Hp as [[-> ->]| ->]; inversion Ha; subst; auto.
  - apply andb_prop in Hc as [Hg%bool_decide_eq_true Hc]. split; [done|].
    apply (ioctl_only_empty _ _ Hi) in Hg as Hfs. simpl in Hfs. subst fs.
    assert (forget_all (unloads (loaded_in p) (Rmmod d) r) ∅ = ∅) as ->.
    { destruct (unloads _ _ _); [apply fmap_empty|done]. }
    split; [|done]. simpl. destruct Hp as [[-> _]| ->]; inversion Ha; subst; auto.
  - split; [done|]. split; [|done]. simpl. destruct Hp as [[-> ->]| ->]; inversion Ha; subst; auto.
  - split; [done|]. split; [|done]. simpl. destruct Hp as [[-> ->]| ->]; inversion Ha; subst; auto.
Qed.

(** The names after a call on a file. *)
Definition names_after (g : gset nat) (e : fevent) : gset nat :=
  match e with FOpen f => {[f]} ∪ g | FClose f => g ∖ {[f]} | _ => g end.

Lemma ioctl_only_delete g p fs f : p = IoctlOn → ioctl_only g (p, fs) → ioctl_only (g ∖ {[f]}) (p, delete f fs).
Proof.
  intros -> [_ Hf]. split; [by right|]. intros f' o'. simpl. rewrite lookup_delete_Some.
  intros [Hne Ho]. apply Hf in Ho as [? ->]. split; [set_solver|done].
Qed.

Lemma careful_call g s e r s' :
  (∀ e', e ≠ FRun e') → ioctl_only g s → fstep s e r s' → ioctl_only (names_after g e) s'.
Proof.
  intros He Hi Hs. pose proof Hi as [Hp Hf].
  destruct Hs as [? ? e' ? ? _|p fs f o|fs f|p fs f d Hn Hb| |p fs f cmd arg o d r|
    |p fs f vma o d r Ho Hd Hc Hr|p fs f Hb|p fs f o s' Ho Hd Ha| |p fs f o s' Ho Hm]; simpl in *; try done.
  - by destruct (He e').
  - eapply ioctl_only_mono; [|done]. set_solver.
  - eapply ioctl_only_mono; [|done]. set_solver.
  - destruct Hp as [[-> _]| ->]; [done|]. simpl in Hb. injection Hb as <-. split; [by right|].
    intros f' o'. simpl. rewrite lookup_insert_Some. intros [[<- <-]|[_ Ho]]; [split; [set_solver|done]|].
    apply Hf in Ho as [? ->]. split; [set_solver|done].
  - apply Hf in Ho as [_ ->]. injection Hc as <-. simpl in Hr. subst r. done.
  - split; [done|]. intros f' o Ho. apply Hf in Ho as Hg. destruct Hg as [? ->]. split; [|done].
    assert (f' ≠ f); [|set_solver]. intros ->. by specialize (Hb _ Ho).
  - apply Hf in Ho as Hg. destruct Hg as [_ ->]. destruct Hp as [[_ ->]| ->]; [by rewrite lookup_empty in Ho|].
    inversion Ha; subst; try done. by apply ioctl_only_delete.
  - apply Hf in Ho as [_ ->]. done.
Qed.

Lemma careful_step g e es s r s' :
  careful g (e :: es) = true → ioctl_only g s → fstep s e r s' →
  ∃ g', careful g' es = true ∧ ioctl_only g' s'.
Proof.
  intros Hc Hi Hs. destruct e as [e|f|f cmd arg|f vma|f|f].
  { inversion Hs; subst. exists g. by eapply careful_run. }
  all: apply (careful_call g) in Hs; [eexists; split; [exact Hc|exact Hs]|by intros ? [=]|done].
Qed.

Lemma careful_no_fault g s e x : ioctl_only g s → ¬ ffault s e x.
Proof.
  intros [Hp Hf] Hx. assert (Hq : s.1 = Idle ∨ s.1 = IoctlOn) by (destruct Hp as [[]|]; auto).
  destruct e as [e|f|f cmd arg|f vma|f|f]; simpl in Hx.
  - destruct Hq as [E|E]; by rewrite E in Hx.
  - destruct Hx as (_ & E & _). destruct Hq; congruence.
  - destruct Hx as (o & [_ ->]%Hf & _ & ? & _). done.
  - destruct Hx as (o & [_ ->]%Hf & _ & ? & _). done.
  - destruct Hx as (o & [_ ->]%Hf & _ & _ & [[? _]|(? & _)]); done.
  - destruct Hx as (o & [_ ->]%Hf & ? & _). done.
Qed.

Lemma careful_runs g es1 es2 s rs s' :
  fruns s es1 rs s' → careful g (es1 ++ es2) = true → ioctl_only g s → ∃ g', ioctl_only g' s'.
Proof.
  intros Hr. revert g. induction Hr as [|s s1 s2 e es r rs Hs Hr IH]; intros g Hc Hi; [eauto|].
  destruct (careful_step g e (es ++ es2) s r s1) as (g' & ? & ?); [done..|eauto].
Qed.

(** C10: the ioctl device with any number of processes and open files.  A sequence
    that never loads the mmap module and never unloads while a file may be open
    runs to its end without a fault, whatever the processes call in between and
    whether the loads succeed; and while a file is open the module is loaded and
    the file has its methods. *)
Theorem ioctl_files_safe es (w : fst_) :
  at_phase Idle (kworld w) → files w = ∅ → Forall (fproper ∘ snd) es → careful ∅ es.*2 = true →
  wp (frun old es) w (safely (λ rs w', length rs = length es ∧
    (at_phase Idle (kworld w') ∧ files w' = ∅ ∨ at_phase IoctlOn (kworld w')) ∧
    ∀ f o, files w' !! f = Some o → o = ioctl_file)).
Proof.
  intros Hp Hf Hes Hc. assert (Hi : ioctl_only ∅ (Idle, ∅)).
  { split; [by left|]. intros f o Ho. simpl in Ho. by rewrite lookup_empty in Ho. }
  eapply wp_mono; [apply (frun_refines es (Idle, ∅)); [by apply sim_start|done]|..]; [|done|].
  - intros rs w' ([p fs] & Hr & Hp' & Hf' & _). split.
    { apply fruns_length in Hr. by rewrite Hr, length_fmap. }
    destruct (careful_runs ∅ es.*2 [] _ _ _ Hr) as (g & Hq & Ho); [by rewrite app_nil_r|done|].
    simpl in *. rewrite Hf'. split; [|intros f o E; by apply Ho in E as [_ ?]].
    destruct Hq as [[-> ->]| ->]; auto.
  - intros x w' (es1 & e & es2 & rs & s & E & Hr & Hx). rewrite E in Hc.
    destruct (careful_runs ∅ es1 (e :: es2) _ _ _ Hr Hc Hi) as [g Hg]. by eapply careful_no_fault.
Qed.
End proofs.

(** ** Concrete runs *)

Abbreviation freal := (fworld (gmap Z driver) io_model slab_model dev_model).

(** A kernel with nothing loaded, the coming allocations [o], and processes with
    sixteen accessible bytes each, at 1000 times their number. *)
Definition fbooted (o : list bool) : freal :=
  FWorld (booted o) ∅ (λ k, IoModel false (write_bytes (replicate 16 7) (1000 * Z.of_nat k) ∅)).

Definition fafter (es : list (nat * fevent)) (w : freal) : freal :=
  match frun false es w with Next _ w' => w' | _ => w end.

(** Two processes on the ioctl device, each with its memory; the mmap program in
    between; a second life of the module. *)
Definition two_users : list (nat * fevent) :=
  [(0%nat, FRun (Insmod IoctlDrv)); (1%nat, FOpen 3); (2%nat, FOpen 4);
   (1%nat, FIoctl 3 (QUERY_GET_VARIABLES (X:=io_model)) 1000);
   (2%nat, FIoctl 4 (QUERY_GET_VARIABLES (X:=io_model)) 1000);
   (2%nat, FIoctl 4 (QUERY_SET_VARIABLES (X:=io_model)) 2000);
   (1%nat, FMMap 3 vma_ok); (0%nat, FRun (RunMmap 3 8192)); (1%nat, FClose 3); (2%nat, FClose 4);
   (0%nat, FRun (Rmmod "code")); (1%nat, FOpen 3); (0%nat, FRun (Insmod IoctlDrv)); (1%nat, FOpen 3)].

Definition results (o : outcome unit freal (list Z)) : option (list Z) :=
  match o with Next rs _ => Some rs | _ => None end.

(** Address 1000 is in the memory of process 1 only. *)
Example two_users_run :
  results (frun false two_users (fbooted [])) =
    Some [0; 3; 4; 0; - EACCES; 0; - ENODEV; -1; 0; 0; 0; -1; 0; 3].
Proof. vm_compute. reflexivity. Qed.

(** A mapping keeps the file of the mmap device alive after its close; the
    release comes with the unmapping, and the unloading frees the buffer again. *)
Definition mapper : list (nat * fevent) :=
  [(0%nat, FRun (Insmod MmapDrv)); (1%nat, FOpen 3); (1%nat, FMMap 3 vma_ok); (1%nat, FClose 3);
   (1%nat, FUnmap 3)].

Example mapper_run :
  results (frun false mapper (fbooted [])) = Some [0; 3; 0; 0; 0] ∧
  match frun false (mapper ++ [(0%nat, FRun (Rmmod "code"))]) (fbooted []) with
  | Fault x _ => x = DoubleFree
  | _ => False
  end.
Proof. split; vm_compute; reflexivity. Qed.

Lemma two_users_proper : Forall (fproper ∘ snd) two_users.
Proof. repeat constructor; simpl; lia. Qed.

Lemma files_refine_witness :
  wp (frun false two_users) (fbooted []) (Post
    (λ rs w', ∃ p fs, fruns (Idle, ∅) two_users.*2 rs (p, fs) ∧ at_phase p (kworld w') ∧ files w' = fs ∧
       (size (mods (kern (kworld w'))) ≤ 1)%nat ∧
       ∀ f o d, fs !! f = Some o → code o = Some d → mods (kern (kworld w')) !! module_name d = Some d)
    (λ _ _, False)
    (λ x _, ∃ es1 e es2 rs s, two_users.*2 = es1 ++ e :: es2 ∧ fruns (Idle, ∅) es1 rs s ∧ ffault s e x)).
Proof. exact (files_refine false two_users (fbooted []) (booted_idle []) eq_refl two_users_proper). Defined.

(** The ioctl module is loaded and process 1 has it open. *)
Definition opened : freal := fafter [(0%nat, FRun (Insmod IoctlDrv)); (1%nat, FOpen 3)] (fbooted []).

Lemma opened_sim : sim (IoctlOn, {[3%nat := ioctl_file]}) opened.
Proof.
  split; [done|]. split; [reflexivity|]. intros f o d. simpl.
  intros [<- <-]%lookup_singleton_Some. by intros [= <-].
Qed.

Lemma unload_under_file_witness :
  wp (frun false [(0%nat, FRun (Rmmod "code")); (0%nat, FRun (Insmod IoctlDrv))]) opened (Post
    (λ _ w', wp (fhandle false 1 (FClose 3)) w' (Post (λ _ _, False) (λ _ _, False) (λ x _, x = BadDeref)))
    (λ _ _, False) (λ x _, x = BadDeref ∨ x = DoubleFree)).
Proof.
  refine (unload_under_file false (IoctlOn, {[3%nat := ioctl_file]}) 3 ioctl_file IoctlDrv (FClose 3) 0 1
    [(0%nat, FRun (Insmod IoctlDrv))] opened opened_sim (lookup_singleton_eq _ _) eq_refl eq_refl
    (conj eq_refl eq_refl) _ _).
  - simpl. rewrite list_elem_of_singleton. discriminate.
  - repeat constructor.
Defined.

Lemma ioctl_files_safe_witness :
  wp (frun false two_users) (fbooted []) (safely (λ rs w', length rs = length two_users ∧
    (at_phase Idle (kworld w') ∧ files w' = ∅ ∨ at_phase IoctlOn (kworld w')) ∧
    ∀ f o, files w' !! f = Some o → o = ioctl_file)).
Proof.
  refine (ioctl_files_safe false two_users (fbooted []) (booted_idle []) eq_refl two_users_proper _).
  vm_compute. reflexivity.
Defined.
