(* ===== verification/Conc.v ===== *)
(** * Exhaustive exploration of a finite transition system

    The modules that run several threads on a few shared variables are given as
    a function from a configuration to the list of its successors.  This file
    computes the set of the reachable configurations and proves that what it
    computes is exactly that set, so that a property of every interleaving
    follows from a check of a finite list. *)
From stdpp Require Import base gmap strings list relations.
From Stdlib Require Import ZArith Lia.
From S2P Require Import Prelude.

Section lts.
Context {S : Type} `{EqDecision S} (succ : S → list S).

Definition trans (s t : S) : Prop := t ∈ succ s.
Definition reachable (s t : S) : Prop := rtc trans s t.

(** [explore n seen todo]: the configurations [seen], and what is reachable
    from [todo] as far as [n] expansions go; [None] when they do not suffice. *)
Fixpoint explore (n : nat) (seen todo : list S) : option (list S) :=
  match todo with
  | [] => Some seen
  | s :: todo =>
      match n with
      | O => None
      | Datatypes.S n =>
          if bool_decide (s ∈ seen) then explore n seen todo
          else explore n (s :: seen) (succ s ++ todo)
      end
  end.

(** Everything seen has its successors seen or still to do. *)
Definition frontier (seen todo : list S) : Prop :=
  ∀ s t, s ∈ seen → t ∈ succ s → t ∈ seen ∨ t ∈ todo.

Lemma explore_closed n seen todo R :
  frontier seen todo → explore n seen todo = Some R →
  (∀ s, s ∈ seen ∨ s ∈ todo → s ∈ R) ∧ (∀ s t, s ∈ R → t ∈ succ s → t ∈ R).
Proof.
  revert seen todo. induction n as [|n IH]; intros seen [|s todo] Hf HR; simpl in HR; try done.
  - injection HR as <-. split; [set_solver|]. intros s t Hs Ht. destruct (Hf s t Hs Ht); set_solver.
  - injection HR as <-. split; [set_solver|]. intros s t Hs Ht. destruct (Hf s t Hs Ht); set_solver.
  - case_bool_decide as Hs; apply IH in HR as [Hin Hcl].
    + split; [|done]. set_solver.
    + intros a b Ha Hb. destruct (Hf a b Ha Hb); set_solver.
    + split; [|done]. set_solver.
    + intros a b [->|Ha]%elem_of_cons Hb; [set_solver|]. destruct (Hf a b Ha Hb); set_solver.
Qed.

Lemma explore_reached s0 n seen todo R :
  (∀ s, s ∈ seen ∨ s ∈ todo → reachable s0 s) → explore n seen todo = Some R →
  ∀ s, s ∈ R → reachable s0 s.
Proof.
  revert seen todo. induction n as [|n IH]; intros seen [|s todo] Hr HR; simpl in HR; try done;
    try (injection HR as <-; set_solver).
  case_bool_decide as Hs; eapply IH; try exact HR; [set_solver|].
  assert (reachable s0 s) by set_solver.
  intros a [[->|Ha]%elem_of_cons|[Ha|Ha]%elem_of_app]; [done|set_solver| |set_solver].
  eapply rtc_r; [done|exact Ha].
Qed.

(** The exploration from [s0] is the set of the reachable configurations. *)
Lemma explore_reachable n s0 R :
  explore n [] [s0] = Some R → ∀ s, s ∈ R ↔ reachable s0 s.
Proof.
  intros HR. destruct (explore_closed n [] [s0] R) as [Hin Hcl]; [by intros ?? ?%not_elem_of_nil|done|].
  assert (Hre : ∀ s, s ∈ R → reachable s0 s).
  { eapply explore_reached; [|exact HR].
    intros s [Hs | ->%list_elem_of_singleton]; [by apply not_elem_of_nil in Hs|apply rtc_refl]. }
  intros s. split; [apply Hre|].
  intros Hs. assert (H0 : s0 ∈ R) by set_solver. clear HR Hin Hre.
  induction Hs as [|a b c Hab _ IH]; [done|]. apply IH. by eapply Hcl.
Qed.

(** Checking a property of all, or finding one, by computation. *)
Definition check_all (n : nat) (s0 : S) (P : S → bool) : bool :=
  match explore n [] [s0] with Some R => forallb P R | None => false end.
Definition check_some (n : nat) (s0 : S) (P : S → bool) : bool :=
  match explore n [] [s0] with Some R => existsb P R | None => false end.

Lemma reachable_all n s0 (P : S → Prop) `{∀ s, Decision (P s)} :
  check_all n s0 (λ s, bool_decide (P s)) = true → ∀ s, reachable s0 s → P s.
Proof.
  unfold check_all. destruct (explore n [] [s0]) as [R|] eqn:HR; [|done].
  rewrite forallb_forall. intros HP s Hs%(explore_reachable n s0 R HR).
  apply (bool_decide_eq_true (P s)), HP. by apply list_elem_of_In.
Qed.

Lemma reachable_some n s0 (P : S → Prop) `{∀ s, Decision (P s)} :
  check_some n s0 (λ s, bool_decide (P s)) = true → ∃ s, reachable s0 s ∧ P s.
Proof.
  unfold check_some. destruct (explore n [] [s0]) as [R|] eqn:HR; [|done].
  intros (s & Hs & HP)%existsb_exists. exists s. split; [|by apply bool_decide_eq_true in HP].
  apply (explore_reachable n s0 R HR). by apply list_elem_of_In.
Qed.

(** ** What every run comes to

    Some of the moves, [must], are those of the code itself, which takes one of
    them or another move happens first; the others may never happen.
    [inevitable must P s]: whatever moves are chosen from [s] on, after finitely
    many of them [P] holds. *)
Inductive inevitable (must : S → list S) (P : S → Prop) (s : S) : Prop :=
  | Here : P s → inevitable must P s
  | Later : must s ≠ [] → (∀ t, t ∈ succ s → inevitable must P t) → inevitable must P s.

Lemma inevitable_mono must (P Q : S → Prop) s :
  (∀ t, P t → Q t) → inevitable must P s → inevitable must Q s.
Proof. intros HPQ. induction 1; [by apply Here, HPQ|by apply Later]. Qed.

(** Every move makes the rank smaller, and where the code has none [P] holds. *)
Definition progresses (must : S → list S) (rank : S → nat) (P : S → Prop) (s : S) : Prop :=
  Forall (λ t, (rank t < rank s)%nat) (succ s) ∧ (must s = [] → P s).

#[global] Instance progresses_dec must rank P `{∀ s, Decision (P s)} s :
  Decision (progresses must rank P s).
Proof. unfold progresses. apply _. Defined.

Lemma rank_inevitable must rank P s0 :
  (∀ s, reachable s0 s → progresses must rank P s) → inevitable must P s0.
Proof.
  intros Hp. assert (Hg : ∀ r s, (rank s < r)%nat → reachable s0 s → inevitable must P s);
    [|by eapply (Hg (Datatypes.S (rank s0))); [lia|apply rtc_refl]].
  induction r as [|r IH]; intros s Hr Hs; [lia|]. destruct (Hp s Hs) as [Hd Hf]. rewrite Forall_forall in Hd.
  destruct (decide (must s = [])) as [Hm|Hm]; [by apply Here, Hf|]. apply Later; [done|].
  intros t Ht. specialize (Hd t Ht). apply IH; [lia|]. by eapply rtc_r.
Qed.

(** The same by exploration. *)
Lemma explored_inevitable n must rank s0 (P : S → Prop) `{∀ s, Decision (P s)} :
  check_all n s0 (λ s, bool_decide (progresses must rank P s)) = true → inevitable must P s0.
Proof.
  intros Hc. apply (rank_inevitable must rank). exact (reachable_all n s0 (progresses must rank P) Hc).
Qed.

(** One run, by the index of the successor taken at each step. *)
Fixpoint follow (ks : list nat) (s : S) : option S :=
  match ks with
  | [] => Some s
  | k :: ks => t ← succ s !! k; follow ks t
  end.

Lemma follow_reachable ks s t : follow ks s = Some t → reachable s t.
Proof.
  revert s. induction ks as [|k ks IH]; intros s; simpl; [intros [= <-]; apply rtc_refl|].
  intros (u & Hu & Ht)%bind_Some. eapply rtc_l; [|by apply IH]. by eapply list_elem_of_lookup_2.
Qed.
End lts.
