(* ===== verification/WaitQueue.v ===== *)
(** * wait_queue/code.c

    [start] and the kernel thread that runs [mfoo], as two sequences of
    statements that interleave on the condition and the wait queue, with signals
    and the unloading of the module.  Every interleaving is explored. *)
From stdpp Require Import base gmap strings list relations.
From Stdlib Require Import ZArith Lia.
From S2P Require Import Prelude Conc.

(** ** Statements *)

Inductive stmt :=
  | InitWaitqueueHead
  | KthreadCreate
  | Printk (m : msg)
  | WakeUpProcess
  | Msleep
  | SetCondition (z : Z)
  | WakeUpInterruptible
  | WaitEventInterruptible          (* until [condition > 0] *)
  | Ret (z : Z).

#[global] Instance stmt_eq_dec : EqDecision stmt.
Proof. solve_decision. Defined.

Definition info (fmt : string) : msg := Msg KERN_INFO fmt [].

Definition waiting_line := info "***** Hello world! waiting...***** \n".
Definition attempt1_line := info "***** Attempt 1: The condition is not met... ***** \n".
Definition attempt2_line := info "***** Attempt 2: The condition is met... ***** \n".
Definition wake_line := info "***** wake up Done... 2nd time.... pause then exit***** \n".
Definition done_line := info "***** Hello world! Done...***** \n".
Definition failed_line := info "kthread failed\n".
Definition sleep_line := info "My thread is running...Oh its going to sleep... \n".
Definition again_line := info "My thread is running again...\n".
Definition cleanup_line := info "Cleaning up module.\n".

(** [static int __init start(void)]; the branch on [IS_ERR(mytask)] is in the
    effect of [KthreadCreate]. *)
Definition start : list stmt :=
  [ InitWaitqueueHead;
    KthreadCreate;
    Printk waiting_line;
    WakeUpProcess;
    Msleep;
    SetCondition 0;
    Printk attempt1_line;
    WakeUpInterruptible;
    Msleep;
    SetCondition 1;
    Printk attempt2_line;
    WakeUpInterruptible;
    Printk wake_line;
    Msleep;
    Printk done_line;
    Ret 0 ].

(** [int mfoo(void *arg)]. *)
Definition mfoo : list stmt :=
  [ Printk sleep_line;
    WaitEventInterruptible;
    Printk again_line;
    Ret 0 ].

(** ** Configurations *)

(** The thread: not created, created and stopped, runnable, inside the wait
    before it puts itself on the queue, on the queue before it looks at the
    condition again, asleep, ended. *)
Inductive task_state := NoTask | Stopped | Runnable | Checked | Queued | Sleeping | Exited.

#[global] Instance task_state_eq_dec : EqDecision task_state.
Proof. solve_decision. Defined.

Record conf := Conf {
  wq_ready : bool;              (* [wq] has been initialised *)
  condition : Z;
  task : task_state;
  start_pc : list stmt;         (* what is left of [start] *)
  mfoo_pc : list stmt;          (* what is left of [mfoo] *)
  result : option Z;            (* of [start] *)
  unloaded : bool;
  log : list msg;
  err : option fault }.

#[global] Instance conf_eq_dec : EqDecision conf.
Proof. solve_decision. Defined.

Definition loaded : conf := Conf false 0 NoTask start mfoo None false [] None.

Definition say (m : msg) (c : conf) : conf :=
  Conf (wq_ready c) (condition c) (task c) (start_pc c) (mfoo_pc c) (result c) (unloaded c) (log c ++ [m]) (err c).
Definition set_task (t : task_state) (c : conf) : conf :=
  Conf (wq_ready c) (condition c) t (start_pc c) (mfoo_pc c) (result c) (unloaded c) (log c) (err c).
Definition set_start (p : list stmt) (c : conf) : conf :=
  Conf (wq_ready c) (condition c) (task c) p (mfoo_pc c) (result c) (unloaded c) (log c) (err c).
Definition set_mfoo (p : list stmt) (c : conf) : conf :=
  Conf (wq_ready c) (condition c) (task c) (start_pc c) p (result c) (unloaded c) (log c) (err c).
Definition set_condition (z : Z) (c : conf) : conf :=
  Conf (wq_ready c) z (task c) (start_pc c) (mfoo_pc c) (result c) (unloaded c) (log c) (err c).
Definition init_wq (c : conf) : conf :=
  Conf true (condition c) (task c) (start_pc c) (mfoo_pc c) (result c) (unloaded c) (log c) (err c).
Definition returned_ (z : Z) (c : conf) : conf :=
  Conf (wq_ready c) (condition c) (task c) [] (mfoo_pc c) (Some z) (unloaded c) (log c) (err c).
Definition unload (c : conf) : conf :=
  Conf (wq_ready c) (condition c) (task c) (start_pc c) (mfoo_pc c) (result c) true (log c) (err c).
Definition crash (f : fault) (c : conf) : conf :=
  Conf (wq_ready c) (condition c) (task c) (start_pc c) (mfoo_pc c) (result c) (unloaded c) (log c) (Some f).

(** Using the wait queue before its initialisation is an error. *)
Definition with_wq (c : conf) (c' : conf) : conf := if wq_ready c then c' else crash UninitRead c.

(** ** The moves *)

(** A statement of [start], with [c] advanced past it. *)
Definition start_effect (i : stmt) (c : conf) : list conf :=
  match i with
  | InitWaitqueueHead => [init_wq c]
  | KthreadCreate => [set_task Stopped c; returned_ (-1) (say failed_line c)]
  | Printk m => [say m c]
  | WakeUpProcess => [if decide (task c = Stopped) then set_task Runnable c else c]
  | Msleep => [c]
  | SetCondition z => [set_condition z c]
  | WakeUpInterruptible =>
      [with_wq c (if decide (task c = Sleeping ∨ task c = Queued) then set_task Checked c else c)]
  | WaitEventInterruptible => []
  | Ret z => [returned_ z c]
  end.

Definition start_moves (c : conf) : list conf :=
  match start_pc c with
  | [] => []
  | i :: p => start_effect i (set_start p c)
  end.

(** A statement of the thread.  [wait_event_interruptible] takes the steps of
    the macro: it looks at the condition; while that does not hold it puts the
    thread on the queue ([prepare_to_wait]), looks again and only then sleeps; a
    wake-up takes the thread off the queue and the loop goes round.  Running code
    of a module that is gone is a fault. *)
Definition task_effect (i : stmt) (p : list stmt) (c : conf) : list conf :=
  if unloaded c then [crash BadDeref c] else
  match i with
  | Printk m => [set_mfoo p (say m c)]
  | WaitEventInterruptible =>
      match task c with
      | Checked => [with_wq c (set_task Queued c)]
      | Queued => [if 0 <? condition c then set_task Runnable (set_mfoo p c) else set_task Sleeping c]
      | _ => [if 0 <? condition c then set_mfoo p c else set_task Checked c]
      end
  | Ret _ => [set_task Exited (set_mfoo [] c)]
  | _ => []
  end.

Definition task_moves (c : conf) : list conf :=
  match task c, mfoo_pc c with
  | (Runnable | Checked | Queued), i :: p => task_effect i p c
  | _, _ => []
  end.

(** A signal ends the wait of a thread on the queue; [mfoo] does not look at the
    result of the wait. *)
Definition signal_moves (c : conf) : list conf :=
  match task c, mfoo_pc c with
  | (Queued | Sleeping), i :: p => [set_task Runnable (set_mfoo p c)]
  | _, _ => []
  end.

(** [static void __exit stops(void)], possible once [start] has returned 0. *)
Definition stops_moves (c : conf) : list conf :=
  if bool_decide (result c = Some 0) && negb (unloaded c) then [unload (say cleanup_line c)] else [].

Definition moves (signals : bool) (c : conf) : list conf :=
  match err c with
  | Some _ => []
  | None => start_moves c ++ task_moves c ++ (if signals then signal_moves c else []) ++ stops_moves c
  end.

Definition runs_to (sg : bool) : conf → Prop := reachable (moves sg) loaded.

(** ** Theorems *)

(** The number of configurations stays below this. *)
Definition bound : nat := 4000.

(** What holds in every configuration. *)
Definition safe (signals : bool) (c : conf) : Prop :=
  (is_Some (err c) → err c = Some BadDeref ∧ unloaded c = true ∧ task c ≠ Exited) ∧
  (result c = Some 0 → task c ≠ Sleeping ∧ (task c = Queued → condition c = 1)) ∧
  (signals = false → again_line ∈ log c → condition c = 1) ∧
  (condition c = 1 ↔ attempt2_line ∈ log c ∨ start_pc c = drop 10 start).

#[global] Instance safe_dec sg c : Decision (safe sg c).
Proof. unfold safe. apply _. Defined.

(** C33: in every interleaving of [start], the thread, signals and unloading: the
    only fault there can be is the thread running code of the unloaded module;
    the thread is never left asleep once [start] has returned 0, so no wake-up
    is lost; and without signals it prints that it runs again only after the
    condition was set. *)
Theorem wait_queue_safe sg c : runs_to sg c → safe sg c.
Proof.
  revert c. destruct sg; apply (reachable_all _ bound _ _); vm_compute; reflexivity.
Qed.

(** The thread alone, for [n] statements. *)
Fixpoint run_task (n : nat) (c : conf) : conf :=
  match n with
  | O => c
  | S n => match task_moves c with c' :: _ => run_task n c' | [] => c end
  end.

Definition task_step (c c' : conf) : Prop := c' ∈ task_moves c.

Lemma run_task_steps n c : rtc task_step c (run_task n c).
Proof.
  revert c. induction n as [|n IH]; intros c; simpl; [done|].
  destruct (task_moves c) as [|c' l] eqn:E; [done|]. eapply rtc_l; [|apply IH].
  unfold task_step. rewrite E. left.
Qed.

Definition finishes (c : conf) : Prop :=
  result c = Some 0 → unloaded c = false → err c = None →
  task (run_task 6 c) = Exited ∧ again_line ∈ log (run_task 6 c).

#[global] Instance finishes_dec c : Decision (finishes c).
Proof. unfold finishes. apply _. Defined.

(** Once [start] has returned 0 the thread needs nobody any more: as long as
    the module is loaded its own next steps bring it to its end, with the second
    line printed. *)
Theorem wait_queue_progress sg c :
  runs_to sg c → result c = Some 0 → unloaded c = false → err c = None →
  ∃ c', rtc task_step c c' ∧ task c' = Exited ∧ again_line ∈ log c'.
Proof.
  intros Hc Hr Hu He. exists (run_task 6 c). split; [apply run_task_steps|].
  revert Hr Hu He. change (finishes c).
  revert c Hc. destruct sg; apply (reachable_all _ bound _ _); vm_compute; reflexivity.
Qed.

(** *** Every run ends *)

(** What is left to do. *)
Definition task_rank (t : task_state) : nat :=
  match t with
  | NoTask | Stopped => 5 | Runnable => 4 | Checked => 3 | Queued => 2 | Sleeping => 1 | Exited => 0
  end.
Definition rank (c : conf) : nat :=
  10 * length (start_pc c) + 6 * length (mfoo_pc c) + task_rank (task c) +
  (if unloaded c then 0 else 1) + (if err c is Some _ then 0 else 1).

(** The moves of the code: signals and the unloading may never come. *)
Definition own_moves (c : conf) : list conf :=
  match err c with Some _ => [] | None => start_moves c ++ task_moves c end.

(** How a run ends: the thread could not be created; or [start] has returned 0
    and the thread has run to its end; or the module went under the thread. *)
Definition ended (c : conf) : Prop :=
  (err c = None ∧ result c = Some (-1) ∧ task c = NoTask ∧ log c = [failed_line]) ∨
  (err c = None ∧ result c = Some 0 ∧ task c = Exited ∧
     filter (λ m, m ≠ sleep_line ∧ m ≠ again_line ∧ m ≠ cleanup_line) (log c) =
       [waiting_line; attempt1_line; attempt2_line; wake_line; done_line] ∧
     filter (λ m, m = sleep_line ∨ m = again_line) (log c) = [sleep_line; again_line]) ∨
  (err c = Some BadDeref ∧ result c = Some 0 ∧ unloaded c = true ∧ task c ≠ Exited).

#[global] Instance ended_dec c : Decision (ended c).
Proof. unfold ended. apply _. Defined.

(** C13: whatever the interleaving, with or without signals, every run of the
    module comes to an end: the thread could not be created and [start] has
    returned -1; or [start] has returned 0, both have printed all their lines in
    order and the thread has ended; or the module was unloaded before the thread
    had ended.  This needs no signal and no unloading, and nothing sleeps for
    ever. *)
Theorem wait_queue_ends sg : inevitable (moves sg) own_moves ended loaded.
Proof.
  destruct sg; apply (explored_inevitable _ bound own_moves rank _ ended); vm_compute; reflexivity.
Qed.

(** wait_queue/output. *)
Definition sample_output : list msg :=
  [waiting_line; sleep_line; attempt1_line; attempt2_line; wake_line; again_line; done_line;
   cleanup_line].

(** The sample output is the log of a complete run, and so is the fault: the
    module can be unloaded while the thread still has code of it to run, since
    nothing waits for the thread. *)
Theorem wait_queue_runs :
  (∃ c, runs_to false c ∧ log c = sample_output ∧ task c = Exited ∧ unloaded c = true) ∧
  (∃ c, runs_to false c ∧ err c = Some BadDeref).
Proof.
  split.
  - apply (reachable_some _ bound loaded (λ c, log c = sample_output ∧ task c = Exited ∧ unloaded c = true)).
    vm_compute. reflexivity.
  - apply (reachable_some _ bound loaded (λ c, err c = Some BadDeref)). vm_compute. reflexivity.
Qed.

(** [start] alone, to its end; the thread has not run yet. *)
Definition started : conf := default loaded (follow (moves false) (replicate 16 O) loaded).

Lemma started_reached : runs_to false started.
Proof. apply (follow_reachable _ (replicate 16 O)). vm_compute. reflexivity. Qed.

Lemma wait_queue_safe_witness : safe false started.
Proof. exact (wait_queue_safe false started started_reached). Defined.

Lemma wait_queue_progress_witness :
  ∃ c', rtc task_step started c' ∧ task c' = Exited ∧ again_line ∈ log c'.
Proof.
  exact (wait_queue_progress false started started_reached eq_refl eq_refl eq_refl).
Defined.
