(* ===== verification/WqGlobal.v ===== *)
(** * work_queue_global/code.c

    [start], which schedules a work item and waits for it, and the worker that
    runs [do_work_handler], interleaved on the shared [struct work_struct_data]
    that the handler frees. *)
From stdpp Require Import base gmap strings list relations.
From Stdlib Require Import ZArith Lia.
From S2P Require Import Prelude Conc.

(** ** Data and statements *)

(** The one [struct work_struct_data]: not allocated, allocated with which of
    its members are set up, or freed. *)
Inductive work_struct_data :=
  | NoData
  | WorkData (unit_of_work my_wq : bool) (data : option Z)
  | FreedData.

#[global] Instance work_struct_data_eq_dec : EqDecision work_struct_data.
Proof. solve_decision. Defined.

Inductive stmt :=
  | Kmalloc
  | SetData (z : Z)
  | InitWork
  | InitWaitqueueHead
  | ScheduleWork
  | PrintData (fmt : string)
  | PrintCondition (l : loglevel) (fmt : string)
  | Msleep
  | SetCondition (z : Z)
  | WakeUpInterruptible
  | WaitEventInterruptible          (* until [condition != 0] *)
  | Kfree
  | Ret (z : Z).

#[global] Instance stmt_eq_dec : EqDecision stmt.
Proof. solve_decision. Defined.

(** [static int __init start(void)]; the branch on [!my_data] is in the effect of
    [Kmalloc]. *)
Definition start : list stmt :=
  [ Kmalloc;
    SetData 1400;
    InitWork;
    InitWaitqueueHead;
    ScheduleWork;
    PrintCondition KERN_INFO "I'm going to sleep now ...Value of condition = %d\n";
    WaitEventInterruptible;
    PrintCondition KERN_DEFAULT "woken up...Value of condition = %d\n";
    Ret 0 ].

(** [static void do_work_handler(struct work_struct *work)]; [container_of] gives
    back the structure [start] allocated. *)
Definition do_work_handler : list stmt :=
  [ PrintData "Inside work handler..., value =  %d\n";
    Msleep;
    SetCondition 5;
    WakeUpInterruptible;
    Kfree;
    Ret 0 ].

(** ** Configurations *)

(** How [wait_event_interruptible] is taken: as its documentation describes it,
    looking at the condition and sleeping on the queue in one step, or as the
    steps of the macro. *)
Inductive wait_kind := Contract | Macro.

(** The caller of [start]: not in the wait, or looking at the condition for the
    first time; inside it before it puts itself on the queue; on the queue before it
    looks at the condition again; asleep; woken. *)
Inductive waiter := Awake | Checked | Queued | Asleep | Woken.

#[global] Instance waiter_eq_dec : EqDecision waiter.
Proof. solve_decision. Defined.

Record conf := Conf {
  my_data : work_struct_data;
  condition : Z;
  wait : waiter;                (* of [start] *)
  start_pc : list stmt;
  work_pc : list stmt;          (* empty until the work is scheduled *)
  result : option Z;
  unloaded : bool;
  log : list msg;
  err : option fault }.

#[global] Instance conf_eq_dec : EqDecision conf.
Proof. solve_decision. Defined.

Definition loaded : conf := Conf NoData 0 Awake start [] None false [] None.

Definition set_data (d : work_struct_data) (c : conf) : conf :=
  Conf d (condition c) (wait c) (start_pc c) (work_pc c) (result c) (unloaded c) (log c) (err c).
Definition set_condition (z : Z) (c : conf) : conf :=
  Conf (my_data c) z (wait c) (start_pc c) (work_pc c) (result c) (unloaded c) (log c) (err c).
Definition set_wait (w : waiter) (c : conf) : conf :=
  Conf (my_data c) (condition c) w (start_pc c) (work_pc c) (result c) (unloaded c) (log c) (err c).
Definition set_start (p : list stmt) (c : conf) : conf :=
  Conf (my_data c) (condition c) (wait c) p (work_pc c) (result c) (unloaded c) (log c) (err c).
Definition set_work (p : list stmt) (c : conf) : conf :=
  Conf (my_data c) (condition c) (wait c) (start_pc c) p (result c) (unloaded c) (log c) (err c).
Definition say (m : msg) (c : conf) : conf :=
  Conf (my_data c) (condition c) (wait c) (start_pc c) (work_pc c) (result c) (unloaded c) (log c ++ [m]) (err c).
Definition returned_ (z : Z) (c : conf) : conf :=
  Conf (my_data c) (condition c) (wait c) [] (work_pc c) (Some z) (unloaded c) (log c) (err c).
Definition unload (c : conf) : conf :=
  Conf (my_data c) (condition c) (wait c) (start_pc c) (work_pc c) (result c) true (log c) (err c).
Definition crash (f : fault) (c : conf) : conf :=
  Conf (my_data c) (condition c) (wait c) (start_pc c) (work_pc c) (result c) (unloaded c) (log c) (Some f).

(** [my_data->...]: a fault unless the structure is allocated. *)
Definition access (c : conf) (k : bool → bool → option Z → conf) : list conf :=
  match my_data c with
  | WorkData w q d => [k w q d]
  | NoData => [crash NullDeref c]
  | FreedData => [crash BadDeref c]
  end.

(** ** The moves *)

(** The wait of [start].  A condition that holds ends it at once.  Otherwise, by
    the contract, the caller goes to sleep on [my_data->my_wq], and looks at the
    condition again when it is woken.  The macro puts the caller on the queue
    ([prepare_to_wait]), looks again and only then sleeps; woken, it goes to the
    queue once more; and it takes itself off the queue when it finds the
    condition true there ([finish_wait]). *)
Definition wait_event (k : wait_kind) (p : list stmt) (c : conf) : list conf :=
  match wait c with
  | Awake =>
      if negb (condition c =? 0) then [set_start p c]
      else match k with
           | Contract => access c (λ _ q _, if q then set_wait Asleep c else crash UninitRead c)
           | Macro => [set_wait Checked c]
           end
  | Checked => access c (λ _ q _, if q then set_wait Queued c else crash UninitRead c)
  | Queued =>
      if negb (condition c =? 0) then access c (λ _ _ _, set_wait Awake (set_start p c))
      else [set_wait Asleep c]
  | Asleep => []
  | Woken => match k with Contract => [set_wait Awake c] | Macro => [set_wait Checked c] end
  end.

Definition start_moves (k : wait_kind) (c : conf) : list conf :=
  match start_pc c with
  | [] => []
  | i :: p =>
      let c' := set_start p c in
      match i with
      | Kmalloc =>
          [set_data (WorkData false false None) c';
           returned_ (-1) (say (Msg KERN_INFO "kmalloc failed\n" []) c')]
      | SetData z => access c' (λ w q _, set_data (WorkData w q (Some z)) c')
      | InitWork => access c' (λ _ q d, set_data (WorkData true q d) c')
      | InitWaitqueueHead => access c' (λ w _ d, set_data (WorkData w true d) c')
      | ScheduleWork =>
          access c' (λ w _ _, if w then set_work do_work_handler c' else crash UninitRead c')
      | PrintCondition l fmt => [say (Msg l fmt [AInt (condition c)]) c']
      | WaitEventInterruptible => wait_event k p c
      | Ret z => [returned_ z c']
      | _ => []
      end
  end.

(** A signal ends the wait; [start] does not look at the result. *)
Definition signal_moves (c : conf) : list conf :=
  match wait c, start_pc c with
  | (Queued | Asleep), WaitEventInterruptible :: p => [set_wait Awake (set_start p c)]
  | _, _ => []
  end.

Definition work_moves (c : conf) : list conf :=
  match work_pc c with
  | [] => []
  | i :: p =>
      if unloaded c then [crash BadDeref c] else
      let c' := set_work p c in
      match i with
      | PrintData fmt =>
          access c' (λ _ _ d, match d with
            | Some z => say (Msg KERN_INFO fmt [AInt z]) c'
            | None => crash UninitRead c'
            end)
      | Msleep => [c']
      | SetCondition z => [set_condition z c']
      | WakeUpInterruptible =>
          access c' (λ _ q _, if q then
            (if decide (wait c = Asleep ∨ wait c = Queued) then set_wait Woken c' else c') else crash UninitRead c')
      | Kfree => access c' (λ _ _ _, set_data FreedData c')
      | Ret _ => [set_work [] c']
      | _ => []
      end
  end.

(** [static void __exit stops(void)] does nothing. *)
Definition stops_moves (c : conf) : list conf :=
  if bool_decide (result c = Some 0) && negb (unloaded c) then [unload c] else [].

Definition moves (k : wait_kind) (signals : bool) (c : conf) : list conf :=
  match err c with
  | Some _ => []
  | None =>
      start_moves k c ++ work_moves c ++ (if signals then signal_moves c else []) ++ stops_moves c
  end.

Definition runs_to (k : wait_kind) (sg : bool) : conf → Prop := reachable (moves k sg) loaded.

Definition bound : nat := 2000.

(** ** Theorems *)

Definition sleep_line (z : Z) : msg :=
  Msg KERN_INFO "I'm going to sleep now ...Value of condition = %d\n" [AInt z].
Definition woken_line : msg := Msg KERN_DEFAULT "woken up...Value of condition = %d\n" [AInt 5].
Definition handler_line : msg := Msg KERN_INFO "Inside work handler..., value =  %d\n" [AInt 1400].

(** What holds in every configuration for a wait by its contract, without a
    signal. *)
Definition orderly (c : conf) : Prop :=
  (err c = None ∨ err c = Some BadDeref ∧ unloaded c = true ∧ work_pc c ≠ []) ∧
  (woken_line ∈ log c → handler_line ∈ log c) ∧
  (result c = Some 0 → condition c = 5 ∧ wait c = Awake ∧
     (log c = [sleep_line 0; handler_line; woken_line] ∨
      log c = [handler_line; sleep_line 0; woken_line] ∨
      log c = [handler_line; sleep_line 5; woken_line])) ∧
  (my_data c = FreedData → condition c = 5 ∧ work_pc c = [Ret 0] ∨ work_pc c = []).

#[global] Instance orderly_dec c : Decision (orderly c).
Proof. unfold orderly. apply _. Defined.

(** Without signals, and for a wait that does no more than its contract,
    every interleaving of [start] and the handler is orderly: [start]
    returns 0 only after the handler has set the condition and it is not left
    asleep, it prints one of three logs, the structure is freed once and last,
    and the only possible fault is the handler running after the module was
    unloaded. *)
Theorem global_queue_orderly c : runs_to Contract false c → orderly c.
Proof. revert c. apply (reachable_all _ bound _ _). vm_compute. reflexivity. Qed.

(** C34: two ways to a fault with the module as it is: the macro, which goes to
    [my_data->my_wq] again after the wake-up, finds it freed by the handler; and
    after a signal [start] returns 0 although the handler has not run, so that
    the module can be unloaded under the handler. *)
Theorem global_queue_hazards :
  (∃ c, runs_to Macro false c ∧ err c = Some BadDeref ∧ unloaded c = false ∧ my_data c = FreedData) ∧
  (∃ c, runs_to Contract true c ∧ err c = Some BadDeref ∧ result c = Some 0 ∧ condition c = 0).
Proof.
  split.
  - apply (reachable_some _ bound loaded (λ c,
      err c = Some BadDeref ∧ unloaded c = false ∧ my_data c = FreedData)). vm_compute. reflexivity.
  - apply (reachable_some _ bound loaded (λ c,
      err c = Some BadDeref ∧ result c = Some 0 ∧ condition c = 0)). vm_compute. reflexivity.
Qed.

(** *** Every run ends *)

Definition wait_rank (w : waiter) : nat :=
  match w with Woken => 5 | Awake => 4 | Checked => 3 | Queued => 2 | Asleep => 1 end.
(** The handler is still to come as long as it was not scheduled. *)
Definition rank (c : conf) : nat :=
  20 * length (start_pc c) + wait_rank (wait c) + 10 * length (work_pc c) +
  (if decide (ScheduleWork ∈ start_pc c) then 100 else 0) +
  (if unloaded c then 0 else 1) + (if err c is Some _ then 0 else 1).

(** The moves of the code: signals and the unloading may never come. *)
Definition own_moves (k : wait_kind) (c : conf) : list conf :=
  match err c with Some _ => [] | None => start_moves k c ++ work_moves c end.

(** The three logs of [start] and the handler. *)
Definition sample_logs : list (list msg) :=
  [[sleep_line 0; handler_line; woken_line]; [handler_line; sleep_line 0; woken_line];
   [handler_line; sleep_line 5; woken_line]].

(** How a run ends: no memory; [start] and the handler have returned and the
    structure is freed, without signals with one of three logs; the module went
    under the handler; or the wait found the queue freed. *)
Definition ended (k : wait_kind) (sg : bool) (c : conf) : Prop :=
  (err c = None ∧ result c = Some (-1) ∧ my_data c = NoData ∧ work_pc c = []) ∨
  (err c = None ∧ result c = Some 0 ∧ my_data c = FreedData ∧ work_pc c = [] ∧ condition c = 5 ∧
     (sg = false → log c ∈ sample_logs)) ∨
  (err c = Some BadDeref ∧ result c = Some 0 ∧ unloaded c = true ∧ work_pc c ≠ []) ∨
  (k = Macro ∧ err c = Some BadDeref ∧ result c = None ∧ my_data c = FreedData ∧
     (wait c = Checked ∨ wait c = Queued)).

#[global] Instance wait_kind_eq_dec : EqDecision wait_kind.
Proof. solve_decision. Defined.
#[global] Instance ended_dec k sg c : Decision (ended k sg c).
Proof. unfold ended. apply _. Defined.

(** C14: whatever the interleaving, with the wait by its contract or as the macro
    takes its steps, with or without signals, every run comes to an end: without
    memory [start] has returned -1; or [start] has returned 0, the handler has
    run and the structure is freed, without signals with one of three logs, in
    which the handler precedes the return from the wait; or the handler ran after the unloading; or
    the macro found the queue freed.  [start] never waits for ever. *)
Theorem global_queue_ends k sg : inevitable (moves k sg) (own_moves k) (ended k sg) loaded.
Proof.
  destruct k, sg; apply (explored_inevitable _ bound (own_moves _) rank _ (ended _ _)); vm_compute; reflexivity.
Qed.

(** [start] to its wait, the handler to its end, and the rest of [start]. *)
Definition handled : conf :=
  default loaded (follow (moves Contract false) (replicate 17 O) loaded).

Lemma handled_reached : runs_to Contract false handled.
Proof. apply (follow_reachable _ (replicate 17 O)). vm_compute. reflexivity. Qed.

Lemma global_queue_orderly_witness : orderly handled.
Proof. exact (global_queue_orderly handled handled_reached). Defined.
