(* ===== verification/Thread01.v ===== *)
(** * thread01/code.c

    Five kernel threads kept on a list: [km_init] with its two error paths,
    [start_mythread], [km_exit] and the body [mfoo] of the threads. *)
From stdpp Require Import base gmap strings list pretty.
From Stdlib Require Import ZArith Lia.
From S2P Require Import Prelude Kernel KernelModel.

(** ** Kernel threads

    The threads that exist, each stopped (created but not woken) or running.
    [kthread_create] gives [None] for an error pointer. *)
Inductive thread_state := Stopped | Running.

#[global] Instance thread_state_eq_dec : EqDecision thread_state.
Proof. solve_decision. Defined.

Class ThreadApi (X : Type) := {
  threads : X → gmap positive thread_state;
  kthread_create : string → X → option positive * X;
  wake_up_process : positive → X → X;
  kthread_stop : positive → X → Z * X;
  kthread_should_stop : X → bool * X }.

(** A thread that runs [mfoo] ends with 0 once it is told to stop; one that was
    never woken never ran. *)
Class ThreadLaws (X : Type) `{ThreadApi X} : Prop := {
  create_some n x t x' : kthread_create n x = (Some t, x') →
    threads x !! t = None ∧ threads x' = <[t := Stopped]> (threads x);
  create_none n x x' : kthread_create n x = (None, x') → threads x' = threads x;
  wake_spec t x : threads x !! t = Some Stopped →
    threads (wake_up_process t x) = <[t := Running]> (threads x);
  stop_spec t x r x' : kthread_stop t x = (r, x') → threads x !! t = Some Running →
    r = 0 ∧ threads x' = delete t (threads x) }.

(** ** Data *)

Definition ELEMENTS : nat := 5.

(** [struct mywork]: [task] is indeterminate, an error pointer or a thread. *)
Record mywork := MyWork { task : option (option positive) }.
Definition mywork_list : Z := 8.
Definition sizeof_mywork : Z := 24.

(** [gwl], [g_work[ELEMENTS]] and the counter [i] of the loops over the list. *)
Definition gwl : ptr := Ptr 1 0.
Record globals := Globals { g_work : list ptr; loop_i : Z }.

Definition list_of (w : ptr) : ptr := member_of mywork_list w.

(** [char task_name[32]] and [sprintf(task_name, "my_super_task%d", i)]. *)
Definition task_name_size : nat := 32.
Definition task_name (i : Z) : string := "my_super_task" +:+ pretty i.

Section module.
Context {A L X : Type} `{Slab A, KList L, ThreadApi X}.
Abbreviation st := (sys (kstate A L X) (objs mywork globals)).

Definition get_work {R} (i : Z) : M R st ptr :=
  v ← gets (λ s, g_work (var s)); liftO OutOfBounds (v !! Z.to_nat i).
Definition set_work {R} (i : Z) (p : ptr) : M R st unit :=
  _ ← get_work i;
  modify (λ s, set_var (Globals (<[Z.to_nat i := p]> (g_work (var s))) (loop_i (var s))) s).
Definition set_i {R} (i : Z) : M R st unit :=
  modify (λ s, set_var (Globals (g_work (var s)) i) s).

(** [w->task], which must be a thread where it is used as one. *)
Definition ld_task {R} (w : ptr) : M R st positive :=
  x ← get_obj w; t ← liftO UninitRead (task x); liftO BadDeref t.

(** [sprintf] into the 32 bytes of [task_name]. *)
Definition sprintf_name {R} (i : Z) : M R st string :=
  guard_ (bool_decide (String.length (task_name i) < task_name_size)%nat) OutOfBounds;;
  mret (task_name i).

(** The first loop of [km_init]. *)
Definition create_body (i : Z) : M Z st unit :=
  p ← kmalloc_obj sizeof_mywork GFP_KERNEL (MyWork None);
  set_work i p;;
  w ← get_work i;
  (if is_null w then pr_info "Kmalloc Failed %d\n" [AInt i];; return_ (-1) else mret tt);;
  n ← sprintf_name i;
  t ← (λ s, let '(t, x) := kthread_create n (extra s) in Next t (set_extra x s));
  upd_obj w (λ _, MyWork (Some t));;
  x ← get_obj w;
  t ← liftO UninitRead (task x);
  match t with
  | None => printk KERN_INFO "kthread failed for:%d\n" [AInt i];; return_ (-1)
  | Some _ => mret tt
  end.

Definition add_body (i : Z) : M Z st unit :=
  w ← get_work i;
  on_node mywork_list (list_of w) (list_add (list_of w) gwl).

(** [void start_mythread(void)]. *)
Definition start_body (w : ptr) : M unit st unit :=
  i ← gets (λ s, loop_i (var s));
  pr_info "Data = %d\n" [AInt i];;
  set_i (i + 1);;
  t ← ld_task w;
  modify (λ s, set_extra (wake_up_process t (extra s)) s).
Definition start_mythread (fuel : nat) : M unit st unit :=
  set_i 0;;
  list_for_each_entry fuel mywork_list gwl start_body;;
  pr_info "==============\n" [].

(** [static int __init km_init(void)]. *)
Definition km_init (fuel : nat) : M Z st Z :=
  for_from 0 ELEMENTS create_body;;
  pr_info "All task created!\n" [];;
  modify (λ s, set_lists (INIT_LIST_HEAD gwl (lists s)) s);;
  for_from 0 ELEMENTS add_body;;
  call (start_mythread fuel);;
  return_ 0.

(** [static void __exit km_exit(void)]. *)
Definition stop_body (w : ptr) : M unit st unit :=
  t ← ld_task w;
  ret ← (λ s, let '(r, x) := kthread_stop t (extra s) in Next r (set_extra x s));
  if ret =? 0 then
    i ← gets (λ s, loop_i (var s));
    set_i (i + 1);;
    printk KERN_INFO "Thread stopped:%d" [AInt i]
  else mret tt.
Definition km_exit (fuel : nat) : M unit st unit :=
  set_i 0;;
  list_for_each_entry fuel mywork_list gwl stop_body;;
  for_from 0 ELEMENTS (λ i, w ← get_work i; kfree_obj w);;
  printk KERN_INFO "Goodbye\n" [].

(** [int mfoo(void *arg)]: the loop, whose condition is evaluated before each
    iteration, with a bound on the iterations. *)
Definition should_stop {R} : M R st bool := λ s,
  let '(b, x) := kthread_should_stop (extra s) in Next b (set_extra x s).
Definition mfoo (fuel : nat) : M Z st Z :=
  stop ← should_stop;
  while_ fuel negb
    (λ _, pr_info "My thread is running...\n" [];; stop ← should_stop; mret (false, stop)) stop;;
  return_ 0.
End module.

(** ** Theorems *)

Section proofs.
Context {A L X : Type} `{ops_a : Slab A, !SlabLaws A, ops_l : KList L, !KListLaws L}.
Context `{ops_x : ThreadApi X, !ThreadLaws X}.
Abbreviation st := (sys (kstate A L X) (objs mywork globals)).
Implicit Types (s : st).

(** The threads of [s]: those of [s0] and the new ones, stopped and running. *)
Definition new_threads s0 (stopped running : list positive) s : Prop :=
  ∀ t, threads (extra s) !! t =
    if decide (t ∈ running) then Some Running
    else if decide (t ∈ stopped) then Some Stopped else threads (extra s0) !! t.

(** From [s0], the blocks [bs] with the threads [ts] have been made. *)
Record made s0 (bs ts : list positive) s : Prop := Made {
  md_len : length ts = length bs;
  md_nodup : NoDup bs;
  md_fresh : ∀ b, b ∈ bs → b ∉ live (slab s0);
  md_live : live (slab s) = list_to_set bs ∪ live (slab s0);
  md_work : g_work (var s) = filled 5 bs;
  md_objs : ∀ j b t, bs !! j = Some b → ts !! j = Some t → heap s !! Ptr b 0 = Some (MyWork (Some (Some t)));
  md_tnodup : NoDup ts;
  md_tfresh : ∀ t, t ∈ ts → threads (extra s0) !! t = None }.

(** A failed [km_init]: [extra] is the line it printed. *)
Definition init_failed s0 (bs ts : list positive) (fmt : string) s : Prop :=
  NoDup bs ∧ (∀ b, b ∈ bs → b ∉ live (slab s0)) ∧ live (slab s) = list_to_set bs ∪ live (slab s0) ∧
  (∀ t, t ∈ ts → threads (extra s0) !! t = None) ∧ new_threads s0 ts [] s ∧
  klog s = klog s0 ++ [Msg KERN_INFO fmt [AInt (Z.of_nat (length ts))]].

Lemma get_work_run {R} s bs i b :
  g_work (var s) = filled 5 bs →
  bs !! Z.to_nat i = Some b → get_work (R:=R) i s = Next (Ptr b 0) s.
Proof.
  intros Hv Hb. unfold get_work. erewrite bind_next by done. by rewrite Hv, (filled_lookup _ _ _ _ Hb).
Qed.

Lemma wp_set_work i p s (P : post Z st unit) :
  (Z.to_nat i < length (g_work (var s)))%nat →
  on_next P tt (set_var (Globals (<[Z.to_nat i := p]> (g_work (var s))) (loop_i (var s))) s) →
  wp (set_work i p) s P.
Proof.
  intros Hl HP. destruct (lookup_lt_is_Some_2 _ _ Hl) as [q Hq].
  unfold set_work. apply wp_bind. eapply (wp_eq _ _ _ (Next q s)).
  { unfold get_work. erewrite bind_next by done. by rewrite Hq. }
  by apply wp_modify.
Qed.

Lemma name_fits {R} i s (P : post R st string) :
  0 ≤ i < 5 → on_next P (task_name i) s → wp (sprintf_name i) s P.
Proof.
  intros Hi HP. unfold sprintf_name. apply wp_bind.
  assert (i = 0 ∨ i = 1 ∨ i = 2 ∨ i = 3 ∨ i = 4) as Hc by lia.
  destruct Hc as [-> | [-> | [-> | [-> | ->]]]]; exact HP.
Qed.

Lemma new_threads_add s0 ts t x s :
  new_threads s0 ts [] s → threads x = <[t := Stopped]> (threads (extra s)) → new_threads s0 (ts ++ [t]) [] (set_extra x s).
Proof.
  intros Ht Hx u. simpl_st. rewrite Hx, lookup_insert, Ht.
  rewrite !(decide_False (P := u ∈ [])) by apply not_elem_of_nil.
  destruct (decide (t = u)) as [->|Hne]; [rewrite decide_True by set_solver; done|].
  destruct (decide (u ∈ ts)); [rewrite decide_True by set_solver|rewrite decide_False by set_solver]; done.
Qed.

Lemma new_threads_fresh s0 ts t s :
  new_threads s0 ts [] s → threads (extra s) !! t = None → (t ∉ ts) ∧ threads (extra s0) !! t = None.
Proof.
  intros Ht Hn. rewrite Ht, decide_False in Hn by apply not_elem_of_nil.
  by destruct (decide (t ∈ ts)).
Qed.

(** One iteration: everything is made, or the call fails with what was made. *)
Lemma create_body_spec s0 bs ts s :
  made s0 bs ts s → new_threads s0 ts [] s → klog s = klog s0 → (length bs < 5)%nat →
  wp (create_body (Z.of_nat (length bs))) s (Post
    (λ _ s', ∃ b t, made s0 (bs ++ [b]) (ts ++ [t]) s' ∧ new_threads s0 (ts ++ [t]) [] s' ∧
       klog s' = klog s0)
    (λ r s', r = -1 ∧ (init_failed s0 bs ts "Kmalloc Failed %d\n" s' ∨
       ∃ b, init_failed s0 (bs ++ [b]) ts "kthread failed for:%d\n" s'))
    (λ _ _, False)).
Proof.
  intros [Hlen Hnd Hfr Hlive Hw Hob Htn Htf] Hth Hlog Hl. unfold create_body.
  assert (Hl5 : length (g_work (var s)) = 5%nat) by (rewrite Hw; apply filled_length; lia).
  apply wp_bind, wp_kmalloc_obj.
  - intros a Ha. simpl. apply wp_bind, wp_set_work; simpl_st; [lia|]. simpl.
    apply wp_bind. eapply (wp_eq _ _ _ (Next Null _)).
    { unfold get_work. erewrite bind_next by done. simpl_st. simpl. by rewrite list_lookup_insert_eq by lia. }
    simpl. wp_steps. split; [done|]. left. unfold init_failed. simpl_st.
    rewrite Ha, Hlive, Hlog, Hlen. repeat split; auto.
  - intros b a Hst Hb Ha. simpl. apply wp_bind, wp_set_work; simpl_st; [lia|]. simpl. rewrite Nat2Z.id.
    assert (Hbn : b ∉ bs) by (intros ?; apply Hb; rewrite Hlive; set_solver).
    assert (Hb0 : b ∉ live (slab s0)) by set_solver.
    assert (Hnd' : NoDup (bs ++ [b])) by (apply NoDup_app; repeat split; [done|set_solver|apply NoDup_singleton]).
    apply wp_bind. eapply wp_eq.
    { apply (get_work_run _ (bs ++ [b]) _ b); [simpl_st; simpl; by rewrite Hw, filled_insert|].
      rewrite Nat2Z.id. by apply list_lookup_middle. }
    simpl. apply wp_bind, wp_ret. simpl on_next. apply wp_bind, name_fits; [lia|]. simpl on_next.
    apply wp_bind. unfold wp at 1. simpl_st. destruct (kthread_create _ (extra s)) as [t x] eqn:E.
    simpl sat. apply wp_bind. eapply wp_upd_obj; [simpl_st; apply lookup_insert_eq|done|]. simpl on_next.
    apply wp_bind. apply (wp_get_obj (Ptr b 0) (MyWork (Some t))); [simpl_st; apply lookup_insert_eq|done|]. simpl on_next.
    apply wp_bind, wp_ret. simpl on_next. destruct t as [t|].
    + destruct (create_some _ _ _ _ E) as [Htx Hx].
      destruct (new_threads_fresh s0 ts t s Hth Htx) as [Htn1 Htn2].
      apply wp_ret. exists b, t. split; [|split; [|done]].
      * split; simpl_st; simpl; auto.
        -- rewrite !length_app. simpl. lia.
        -- set_solver.
        -- rewrite Ha, Hlive, list_to_set_app_L. set_solver.
        -- by rewrite Hw, filled_insert.
        -- intros j b' t' Hj Hj'. apply lookup_snoc_Some in Hj as [[Hj1 Hj2]|[-> <-]].
           ++ rewrite lookup_app_l in Hj' by (rewrite Hlen; lia). rewrite !lookup_insert_ne; [eauto|..];
                (intros [= ->]; apply Hbn; by eapply list_elem_of_lookup_2).
           ++ rewrite <- Hlen, list_lookup_middle in Hj' by done. injection Hj' as <-. by rewrite lookup_insert_eq.
        -- apply NoDup_app. repeat split; [done|set_solver|apply NoDup_singleton].
        -- set_solver.
      * intros u. by rewrite <- (new_threads_add s0 ts t x s Hth Hx u).
    + pose proof (create_none _ _ _ E) as Hx. apply wp_bind, wp_printk. simpl. apply wp_return.
      split; [done|]. right. exists b. unfold init_failed. simpl_st. rewrite Ha, Hlive, Hlog, Hlen.
      split; [done|]. split; [set_solver|]. split; [rewrite list_to_set_app_L; set_solver|].
      split; [done|]. split; [|done]. intros u. simpl_st. by rewrite Hx.
Qed.

Lemma create_loop s0 s (P : post Z st unit) :
  made s0 [] [] s → new_threads s0 [] [] s → klog s = klog s0 →
  (∀ bs ts s', length bs = 5%nat → made s0 bs ts s' → new_threads s0 ts [] s' → klog s' = klog s0 →
     on_next P tt s') →
  (∀ bs ts fmt s', (length ts < 5)%nat → (length bs ≤ S (length ts))%nat →
     init_failed s0 bs ts fmt s' → on_return P (-1) s') →
  wp (for_from 0 ELEMENTS create_body) s P.
Proof.
  intros Hm Ht Hl HN HR.
  apply (wp_for (λ i s', ∃ bs ts, i = Z.of_nat (length bs) ∧ made s0 bs ts s' ∧
    new_threads s0 ts [] s' ∧ klog s' = klog s0)).
  - by exists [], [].
  - intros i s1 Hi (bs & ts & -> & Hm1 & Ht1 & Hl1). unfold ELEMENTS in Hi.
    pose proof (md_len _ _ _ _ Hm1).
    eapply wp_mono; [apply (create_body_spec s0 bs ts); [done|done|done|lia]| | |done].
    + intros ? s2 (b & t & Hm2 & Ht2 & Hl2). exists (bs ++ [b]), (ts ++ [t]).
      rewrite length_app. simpl. split; [lia|done].
    + intros r s2 [-> [Hf|[b Hf]]]; (eapply HR; [| |exact Hf]); rewrite ?length_app; simpl; lia.
  - intros s1 (bs & ts & Hb & Hm1 & Ht1 & Hl1). unfold ELEMENTS in Hb. eapply HN; [|done..]. lia.
Qed.

Lemma made_ext s0 bs ts s s' :
  made s0 bs ts s → slab s' = slab s → g_work (var s') = g_work (var s) → heap s' = heap s →
  made s0 bs ts s'.
Proof. intros [] Ha Hw Hh. split; rewrite ?Ha, ?Hw, ?Hh; auto. Qed.

Definition node (b : positive) : ptr := list_of (Ptr b 0).

Lemma add_work_loop s0 bs ts s (P : post Z st unit) :
  made s0 bs ts s → length bs = 5%nat → is_list (lists s) gwl [] →
  (∀ s', made s0 bs ts s' → is_list (lists s') gwl (node <$> reverse bs) → extra s' = extra s →
     klog s' = klog s → on_next P tt s') →
  wp (for_from 0 ELEMENTS add_body) s P.
Proof.
  intros Hm Hlen Hls HP.
  apply (wp_for (λ i s', made s0 bs ts s' ∧ is_list (lists s') gwl (node <$> reverse (take (Z.to_nat i) bs)) ∧
    extra s' = extra s ∧ klog s' = klog s)).
  - done.
  - intros i s1 Hi (Hm1 & Hl1 & Hx1 & Hk1). unfold ELEMENTS in Hi.
    destruct (lookup_lt_is_Some_2 bs (Z.to_nat i)) as [b Hb]; [lia|].
    destruct (lookup_lt_is_Some_2 ts (Z.to_nat i)) as [t Ht]; [rewrite (md_len _ _ _ _ Hm); lia|].
    unfold add_body. apply wp_bind. eapply wp_eq; [eapply get_work_run; [by eapply md_work|done]|].
    simpl. apply wp_on_node; [eexists; exact (md_objs _ _ _ _ Hm1 _ _ _ Hb Ht)|]. simpl.
    split; [by eapply made_ext|]. split; [|by simpl_st].
    replace (Z.to_nat (i + 1)) with (S (Z.to_nat i)) by lia.
    rewrite (take_S_r _ _ _ Hb), reverse_snoc. simpl_st. apply add_spec; [done|].
    apply not_elem_of_cons. split; [done|]. intros (b' & [= <-] & Hin)%list_elem_of_fmap.
    rewrite elem_of_reverse in Hin. pose proof (md_nodup _ _ _ _ Hm) as Hnd.
    rewrite <- (take_drop_middle bs (Z.to_nat i) b Hb) in Hnd.
    apply NoDup_app in Hnd as (_ & Hd & _). apply (Hd b Hin). left.
  - intros s1 (Hm1 & Hl1 & Hx1 & Hk1). unfold ELEMENTS in Hl1. apply HP; auto.
    by rewrite firstn_all2 in Hl1 by (simpl; lia).
Qed.

(** The objects behind the list, in its order, with their threads. *)
Lemma made_visit s0 bs ts s k p :
  made s0 bs ts s → (node <$> reverse bs) !! k = Some p →
  ∃ t, reverse ts !! k = Some t ∧ t ∈ ts ∧ (t ∉ take k (reverse ts)) ∧
    heap s !! container_of mywork_list p = Some (MyWork (Some (Some t))) ∧
    container_of mywork_list p ≠ Null.
Proof.
  intros Hm Hp. rewrite list_lookup_fmap in Hp. destruct (reverse bs !! k) as [b|] eqn:Hb; [|done].
  injection Hp as <-. pose proof (lookup_lt_Some _ _ _ Hb) as Hk. rewrite length_reverse in Hk.
  rewrite reverse_lookup in Hb by done.
  destruct (lookup_lt_is_Some_2 ts (length bs - S k)) as [t Ht]; [rewrite (md_len _ _ _ _ Hm); lia|].
  assert (Hr : reverse ts !! k = Some t).
  { rewrite reverse_lookup; rewrite (md_len _ _ _ _ Hm); [done|lia]. }
  exists t. split; [done|]. split; [by eapply list_elem_of_lookup_2|]. split.
  - pose proof (md_tnodup _ _ _ _ Hm) as Hnd. rewrite <- (reverse_Permutation ts) in Hnd.
    rewrite <- (take_drop_middle _ _ _ Hr) in Hnd. apply NoDup_app in Hnd as (_ & Hd & _).
    intros Hin. apply (Hd t Hin). left.
  - split; [|done]. exact (md_objs _ _ _ _ Hm _ _ _ Hb Ht).
Qed.

Lemma ld_task_run {R} w t s (P : post R st positive) :
  heap s !! w = Some (MyWork (Some (Some t))) → w ≠ Null → on_next P t s → wp (ld_task w) s P.
Proof.
  intros Hw Hn HP. unfold ld_task. apply wp_bind. eapply wp_get_obj; [done|done|].
  by apply wp_bind, wp_ret, wp_ret.
Qed.

Lemma new_threads_wake s0 ts run t x s :
  new_threads s0 ts run s → t ∈ ts → t ∉ run →
  (∀ x', threads (extra s) !! t = Some Stopped → x' = x → threads x' = <[t := Running]> (threads (extra s))) →
  new_threads s0 ts (run ++ [t]) (set_extra x s).
Proof.
  intros Ht Hin Hr Hx u. simpl_st.
  assert (Hs : threads (extra s) !! t = Some Stopped) by (rewrite Ht, decide_False, decide_True; done).
  rewrite (Hx x Hs eq_refl), lookup_insert, Ht.
  destruct (decide (t = u)) as [->|Hne]; [by rewrite decide_True by set_solver|].
  destruct (decide (u ∈ run)); [by rewrite decide_True by set_solver|].
  by rewrite (decide_False (P := u ∈ run ++ [t])) by set_solver.
Qed.

Lemma new_threads_stop s0 t run x s :
  new_threads s0 [] (t :: run) s → t ∉ run → threads (extra s0) !! t = None →
  threads x = delete t (threads (extra s)) → new_threads s0 [] run (set_extra x s).
Proof.
  intros Ht Hr H0 Hx u. simpl_st. rewrite Hx, lookup_delete, Ht.
  rewrite !(decide_False (P := u ∈ [])) by apply not_elem_of_nil.
  destruct (decide (t = u)) as [->|Hne]; [by rewrite decide_False|].
  destruct (decide (u ∈ run)); [by rewrite decide_True by set_solver|].
  by rewrite decide_False by set_solver.
Qed.

Definition data_line (i : Z) : msg := Msg KERN_INFO "Data = %d\n" [AInt i].
Definition stopped_line (i : Z) : msg := Msg KERN_INFO "Thread stopped:%d" [AInt i].
Definition started_log : list msg := (data_line ∘ Z.of_nat <$> seq 0 5) ++ [Msg KERN_INFO "==============\n" []].

(** [start_mythread] wakes every thread, in the order of the list. *)
Lemma start_mythread_run fuel s0 bs ts s (P : post unit st unit) :
  made s0 bs ts s → length bs = 5%nat → new_threads s0 ts [] s →
  is_list (lists s) gwl (node <$> reverse bs) → (5 ≤ fuel)%nat →
  (∀ s', made s0 bs ts s' → new_threads s0 [] ts s' → is_list (lists s') gwl (node <$> reverse bs) →
     klog s' = klog s ++ started_log → on_next P tt s') →
  wp (start_mythread fuel) s P.
Proof.
  intros Hm Hlen Ht Hls Hf HP. unfold start_mythread. apply wp_bind, wp_modify. simpl. apply wp_bind.
  apply (wp_for_each_read (λ xs s', made s0 bs ts s' ∧ new_threads s0 ts (take (length xs) (reverse ts)) s' ∧
    loop_i (var s') = Z.of_nat (length xs) ∧
    klog s' = klog s ++ (data_line ∘ Z.of_nat <$> seq 0 (length xs))) _ _ _ _ _ (node <$> reverse bs)).
  - done.
  - rewrite length_fmap, length_reverse. lia.
  - split; [by eapply made_ext|]. split; [by intros t; rewrite <- Ht|]. split; [done|]. by rewrite app_nil_r.
  - intros p [k Hp]%list_elem_of_lookup. destruct (made_visit s0 bs ts s k p Hm Hp) as (t & _ & _ & _ & Hh & _).
    simpl_st. eauto.
  - intros xs p ys s1 Heq _ _ (Hm1 & Ht1 & Hi1 & Hk1).
    destruct (made_visit s0 bs ts s1 (length xs) p Hm1) as (t & Hr & Hin & Hnot & Hh & Hn).
    { rewrite Heq. by apply list_lookup_middle. }
    unfold start_body. apply wp_bind, wp_gets. simpl. rewrite Hi1. apply wp_bind, wp_printk. simpl.
    apply wp_bind, wp_modify. simpl. apply wp_bind. eapply ld_task_run; [done|done|]. simpl.
    apply wp_modify. simpl. rewrite length_app, Nat.add_1_r, (take_S_r _ _ _ Hr).
    split; [|done]. split; [by eapply made_ext|]. split; [|split; [simpl_st; simpl; lia|]].
    + apply new_threads_wake; [by intros u; rewrite <- Ht1|done|done|]. intros x' Hs ->. by apply wake_spec.
    + simpl_st. rewrite Hk1, <- app_assoc, seq_S, fmap_app. done.
  - intros s1 Hl1 _ (Hm1 & Ht1 & _ & Hk1). simpl. apply wp_printk, HP.
    + by eapply made_ext.
    + intros t. simpl_st. rewrite Ht1, length_fmap, length_reverse, Hlen.
      rewrite firstn_all2 by (rewrite length_reverse, (md_len _ _ _ _ Hm); lia).
      rewrite (decide_False (P := t ∈ [])) by apply not_elem_of_nil.
      destruct (decide (t ∈ ts)); [by rewrite decide_True by by rewrite elem_of_reverse|].
      by rewrite decide_False by by rewrite elem_of_reverse.
    + simpl_st. by rewrite Hl1.
    + simpl_st. rewrite Hk1, <- app_assoc, length_fmap, length_reverse, Hlen. done.
Qed.

(** All five threads run and are on the list with their blocks. *)
Definition up s0 (bs ts : list positive) s : Prop :=
  made s0 bs ts s ∧ length bs = 5%nat ∧ new_threads s0 [] ts s ∧
  is_list (lists s) gwl (node <$> reverse bs).

(** The globals as they are loaded. *)
Definition fresh_globals s : Prop := g_work (var s) = replicate 5 Null.

Lemma km_init_run fuel s :
  fresh_globals s → (5 ≤ fuel)%nat →
  wp (km_init fuel) s (Post (λ _ _, False) (λ r s',
    (r = 0 ∧ (∃ bs ts, up s bs ts s') ∧
     klog s' = klog s ++ Msg KERN_INFO "All task created!\n" [] :: started_log) ∨
    (r = -1 ∧ ∃ bs ts fmt, (length ts < 5)%nat ∧ (length bs ≤ S (length ts))%nat ∧
       init_failed s bs ts fmt s')) (λ _ _, False)).
Proof.
  intros Hg Hf. unfold km_init. apply wp_bind. eapply (create_loop s).
  - split; simpl_st; rewrite ?Hg; try done; [constructor|set_solver|set_solver|constructor|set_solver].
  - intros t. by rewrite !(decide_False (P := t ∈ [])) by apply not_elem_of_nil.
  - done.
  - intros bs ts s1 Hlen Hm Ht Hk. simpl on_next. apply wp_bind, wp_printk. simpl on_next.
    apply wp_bind, wp_modify. simpl on_next. apply wp_bind.
    eapply (add_work_loop s bs ts); [by eapply made_ext|done|simpl_st; apply init_spec|].
    intros s2 Hm2 Hl2 Hx2 Hk2. simpl on_next. apply wp_bind, wp_call.
    eapply (start_mythread_run fuel s bs ts); [done|done|by intros t; rewrite Hx2|done|done|].
    intros s3 Hm3 Ht3 Hl3 Hk3. simpl. apply wp_return. left. split; [done|]. split; [by exists bs, ts|].
    rewrite Hk3, Hk2. simpl_st. rewrite Hk, <- app_assoc. done.
  - intros bs ts fmt s1 Hl1 Hl2 Hfl. simpl. right. split; [done|]. by exists bs, ts, fmt.
Qed.

Lemma new_threads_iff s0 a l l' s :
  (∀ t, t ∈ l ↔ t ∈ l') → new_threads s0 a l s → new_threads s0 a l' s.
Proof. intros Hl Ht t. rewrite Ht. by rewrite (decide_ext _ _ _ _ (Hl t)). Qed.

(** The loop of [km_exit] stops every thread. *)
Lemma stop_loop fuel s0 bs ts s (P : post unit st unit) :
  up s0 bs ts s → loop_i (var s) = 0 → (5 ≤ fuel)%nat →
  (∀ s', made s0 bs ts s' → new_threads s0 [] [] s' →
     klog s' = klog s ++ (stopped_line ∘ Z.of_nat <$> seq 0 5) → on_next P tt s') →
  wp (list_for_each_entry fuel mywork_list gwl stop_body) s P.
Proof.
  intros (Hm & Hlen & Ht & Hls) Hi Hf HP.
  apply (wp_for_each_read (λ xs s', made s0 bs ts s' ∧ new_threads s0 [] (drop (length xs) (reverse ts)) s' ∧
    loop_i (var s') = Z.of_nat (length xs) ∧
    klog s' = klog s ++ (stopped_line ∘ Z.of_nat <$> seq 0 (length xs))) _ _ _ _ _ (node <$> reverse bs)).
  - done.
  - rewrite length_fmap, length_reverse. lia.
  - split; [done|]. split; [|split; [done|by rewrite app_nil_r]].
    eapply new_threads_iff; [|exact Ht]. intros t. simpl. by rewrite drop_0, elem_of_reverse.
  - intros p [k Hp]%list_elem_of_lookup. destruct (made_visit s0 bs ts s k p Hm Hp) as (t & _ & _ & _ & Hh & _).
    eauto.
  - intros xs p ys s1 Heq _ _ (Hm1 & Ht1 & Hi1 & Hk1).
    destruct (made_visit s0 bs ts s1 (length xs) p Hm1) as (t & Hr & Hin & Hnot & Hh & Hn).
    { rewrite Heq. by apply list_lookup_middle. }
    rewrite (drop_S _ _ _ Hr) in Ht1.
    assert (Hd : t ∉ drop (S (length xs)) (reverse ts)).
    { pose proof (md_tnodup _ _ _ _ Hm) as Hnd. rewrite <- (reverse_Permutation ts) in Hnd.
      rewrite <- (take_drop_middle _ _ _ Hr) in Hnd. by apply NoDup_app in Hnd as (_ & _ & [? _]%NoDup_cons). }
    unfold stop_body. apply wp_bind. eapply ld_task_run; [done|done|]. simpl. apply wp_bind. unfold wp at 1.
    destruct (kthread_stop t (extra s1)) as [r x] eqn:E.
    destruct (stop_spec _ _ _ _ E) as [-> Hx]; [by rewrite Ht1, decide_True by set_solver|].
    simpl. apply wp_bind, wp_gets. simpl. simpl_st. rewrite Hi1. apply wp_bind, wp_modify, wp_printk. simpl.
    rewrite length_app, Nat.add_1_r. split; [|done]. split; [by eapply made_ext|].
    split; [|split; [simpl_st; simpl; lia|]].
    + intros u. rewrite <- (new_threads_stop s0 t _ x s1 Ht1 Hd (md_tfresh _ _ _ _ Hm t Hin) Hx u). done.
    + simpl_st. rewrite Hk1, <- app_assoc, seq_S, fmap_app. done.
  - intros s1 _ _ (Hm1 & Ht1 & _ & Hk1). rewrite length_fmap, length_reverse, Hlen in *. apply HP; [done| |done].
    by rewrite skipn_all2 in Ht1 by (rewrite length_reverse, (md_len _ _ _ _ Hm); lia).
Qed.

Lemma free_work_loop s0 bs ts s (P : post unit st unit) :
  made s0 bs ts s → length bs = 5%nat →
  (∀ s', live (slab s') = live (slab s0) → extra s' = extra s → klog s' = klog s → on_next P tt s') →
  wp (for_from 0 ELEMENTS (λ i, w ← get_work i; kfree_obj w)) s P.
Proof.
  intros Hm Hlen HP. pose proof (md_nodup _ _ _ _ Hm) as Hnd.
  apply (wp_for (λ i s', live (slab s') = list_to_set (drop (Z.to_nat i) bs) ∪ live (slab s0) ∧
    g_work (var s') = g_work (var s) ∧ extra s' = extra s ∧ klog s' = klog s)).
  - by rewrite (md_live _ _ _ _ Hm).
  - intros i s1 Hi (Hlv & Hg & Hx & Hk). unfold ELEMENTS in Hi.
    destruct (lookup_lt_is_Some_2 bs (Z.to_nat i)) as [b Hb]; [lia|].
    apply wp_bind. eapply wp_eq; [eapply get_work_run; [rewrite Hg; by eapply md_work|done]|]. simpl.
    pose proof (drop_S _ _ _ Hb) as Hd. rewrite Hd in Hlv.
    assert (Hbd : b ∉ drop (S (Z.to_nat i)) bs).
    { rewrite <- (take_drop_middle _ _ _ Hb) in Hnd. by apply NoDup_app in Hnd as (_ & _ & [? _]%NoDup_cons). }
    assert (Hb0 : b ∉ live (slab s0)) by (apply (md_fresh _ _ _ _ Hm); by eapply list_elem_of_lookup_2).
    apply wp_kfree_obj; [rewrite Hlv; set_solver|]. simpl.
    replace (Z.to_nat (i + 1)) with (S (Z.to_nat i)) by lia. simpl_st. rewrite kfree_live, Hlv.
    split; [set_solver|done].
  - intros s1 (Hlv & _ & Hx & Hk). apply HP; [|done|done]. rewrite Hlv.
    rewrite skipn_all2 by (rewrite Hlen; done). set_solver.
Qed.

Definition exit_log : list msg :=
  (stopped_line ∘ Z.of_nat <$> seq 0 5) ++ [Msg KERN_INFO "Goodbye\n" []].

Lemma km_exit_run fuel s0 bs ts s :
  up s0 bs ts s → (5 ≤ fuel)%nat →
  wp (km_exit fuel) s (safely (λ _ s', live (slab s') = live (slab s0) ∧
    threads (extra s') = threads (extra s0) ∧ klog s' = klog s ++ exit_log)).
Proof.
  intros (Hm & Hlen & Ht & Hls) Hf. unfold km_exit. apply wp_bind, wp_modify. simpl on_next.
  apply wp_bind. eapply (stop_loop fuel s0 bs ts);
    [split; [by eapply made_ext|]; split; [done|]; split; [by intros t; rewrite <- Ht|done]|done|done|].
  intros s1 Hm1 Ht1 Hk1. simpl on_next. apply wp_bind. eapply free_work_loop; [done|done|].
  intros s2 Hlv Hx Hk2. simpl on_next. apply wp_printk. simpl. simpl_st. split; [done|]. split.
  - rewrite Hx. apply map_eq. intros t. rewrite Ht1.
    by rewrite !(decide_False (P := t ∈ [])) by apply not_elem_of_nil.
  - rewrite Hk2, Hk1. simpl_st. by rewrite <- app_assoc.
Qed.

(** C35: loading, with any outcome of every allocation and thread creation: when
    all succeed [km_init] returns 0 with five threads, all of them running and
    on the list with their blocks; the name of a thread fits its buffer.  When
    the [n]-th allocation or creation fails it returns -1 and leaves the [n]
    threads made before stopped for ever and their blocks allocated. *)
Theorem km_init_spec fuel s :
  fresh_globals s → (5 ≤ fuel)%nat →
  wp (km_init fuel) s (Post (λ _ _, False) (λ r s',
    (r = 0 ∧ (∃ bs ts, up s bs ts s') ∧
     klog s' = klog s ++ Msg KERN_INFO "All task created!\n" [] :: started_log) ∨
    (r = -1 ∧ ∃ bs ts fmt, (length ts < 5)%nat ∧ (length bs ≤ S (length ts))%nat ∧
       init_failed s bs ts fmt s')) (λ _ _, False)).
Proof. apply km_init_run. Qed.

(** Load and unload. *)
Definition lifecycle (fuel : nat) : M unit st Z :=
  r ← call (km_init fuel);
  if r =? 0 then call (km_exit fuel);; mret r else mret r.

(** C36: after a successful load, unloading stops each of the five threads once,
    frees every block and leaves allocator and threads as they were before the
    module was loaded. *)
Theorem km_lifecycle fuel s :
  fresh_globals s → (5 ≤ fuel)%nat →
  wp (lifecycle fuel) s (safely (λ r s',
    (r = 0 ∧ live (slab s') = live (slab s) ∧ threads (extra s') = threads (extra s) ∧
     klog s' = klog s ++ (Msg KERN_INFO "All task created!\n" [] :: started_log) ++ exit_log) ∨
    (r = -1 ∧ ∃ bs ts fmt, init_failed s bs ts fmt s'))).
Proof.
  intros Hg Hf. apply wp_bind, wp_call. eapply wp_mono; [by apply km_init_run| | |done]; [done|].
  intros r s1 [(-> & (bs & ts & Hup) & Hk)|(-> & bs & ts & fmt & _ & _ & Hfl)]; simpl.
  - apply wp_bind, wp_call. eapply wp_safely_mono; [by eapply km_exit_run|].
    intros [] s2 (Hlv & Hth & Hk2). simpl. apply wp_ret. left. rewrite Hk2, Hk, <- app_assoc. done.
  - apply wp_ret. right. split; [done|]. by exists bs, ts, fmt.
Qed.

(** *** The body of the threads *)

(** The answers of [kthread_should_stop] from a state of the service on. *)
Fixpoint answers (k : nat) (x : X) : list bool :=
  match k with
  | O => []
  | S k => let '(b, x') := kthread_should_stop x in b :: answers k x'
  end.

Definition running_line : msg := Msg KERN_INFO "My thread is running...\n" [].

(** The loop, entered with the answer [b]. *)
Lemma mfoo_loop k fuel s b (P : post Z st bool) :
  b :: answers k (extra s) = replicate k false ++ [true] → (k ≤ fuel)%nat →
  (∀ s', klog s' = klog s ++ replicate k running_line → on_next P true s') →
  wp (while_ fuel negb
    (λ _, pr_info "My thread is running...\n" [];; stop ← should_stop; mret (false, stop)) b) s P.
Proof.
  revert fuel s b. induction k as [|k IH]; intros fuel s b Hb Hf HP.
  - injection Hb as ->. destruct fuel; apply HP; by rewrite app_nil_r.
  - simpl in Hb. injection Hb as -> Hb. destruct fuel as [|fuel]; [lia|]. simpl.
    apply wp_bind, wp_bind, wp_printk. simpl. apply wp_bind. unfold should_stop, wp at 1. simpl_st.
    destruct (kthread_should_stop (extra s)) as [b x] eqn:E. simpl. apply wp_ret. simpl.
    apply IH; [by simpl_st|lia|]. intros s' Hk. apply HP. rewrite Hk. simpl_st. by rewrite <- app_assoc.
Qed.

(** A thread whose [kthread_should_stop] first answers true after [k]
    negative answers ends, with result 0, after printing its line [k] times. *)
Theorem mfoo_stops k fuel s :
  answers (S k) (extra s) = replicate k false ++ [true] → (k ≤ fuel)%nat →
  wp (mfoo fuel) s (returns (λ r s', r = 0 ∧ klog s' = klog s ++ replicate k running_line)).
Proof.
  intros Ha Hf. unfold mfoo. apply wp_bind. unfold should_stop at 1, wp at 1. simpl in Ha.
  destruct (kthread_should_stop (extra s)) as [b x] eqn:E. simpl sat. apply wp_bind.
  apply (mfoo_loop k); [by simpl_st|done|]. intros s' Hk. simpl. by apply wp_return.
Qed.
End proofs.

(** ** Concrete services *)

(** The outcomes of the coming creations, the threads, and how many times
    [kthread_should_stop] still answers no. *)
Record thread_model := ThreadModel {
  t_oracle : list bool; t_threads : gmap positive thread_state; t_polls : nat }.

Definition fresh_thread (m : gmap positive thread_state) : positive := fresh (dom m : gset positive).

#[global] Instance thread_model_ops : ThreadApi thread_model := {
  threads := t_threads;
  kthread_create _ x :=
    match t_oracle x with
    | false :: o => (None, ThreadModel o (t_threads x) (t_polls x))
    | o => let t := fresh_thread (t_threads x) in
           (Some t, ThreadModel (tl o) (<[t := Stopped]> (t_threads x)) (t_polls x))
    end;
  wake_up_process t x := ThreadModel (t_oracle x) (<[t := Running]> (t_threads x)) (t_polls x);
  kthread_stop t x :=
    (match t_threads x !! t with Some Running => 0 | _ => -4 end,
     ThreadModel (t_oracle x) (delete t (t_threads x)) (t_polls x));
  kthread_should_stop x :=
    match t_polls x with
    | O => (true, x)
    | S n => (false, ThreadModel (t_oracle x) (t_threads x) n)
    end }.

#[global] Instance thread_model_laws : ThreadLaws thread_model.
Proof.
  split.
  - intros n [o m k] t x'. simpl.
    assert (m !! fresh_thread m = None) 
      by (apply not_elem_of_dom; exact (is_fresh (dom m : gset positive))).
    destruct o as [|[] o]; intros [= <- <-]; done.
  - intros n [o m k] x'. simpl. destruct o as [|[] o]; intros [= <-]; done.
  - done.
  - intros t x r x' [= <- <-]. simpl. by intros ->.
Qed.

Abbreviation model_st := (sys (kstate slab_model links thread_model) (objs mywork globals)).

Definition loaded (o : list bool) : model_st :=
  Sys (KState (SlabModel [] ∅) ∅ (ThreadModel o ∅ 3)) (Objs ∅ (Globals (replicate 5 Null) 0)) [].

Lemma km_init_spec_witness :
  wp (km_init 5) (loaded []) (Post (λ _ _, False) (λ r s',
    (r = 0 ∧ (∃ bs ts, up (loaded []) bs ts s') ∧
     klog s' = klog (loaded []) ++ Msg KERN_INFO "All task created!\n" [] :: started_log) ∨
    (r = -1 ∧ ∃ bs ts fmt, (length ts < 5)%nat ∧ (length bs ≤ S (length ts))%nat ∧
       init_failed (loaded []) bs ts fmt s')) (λ _ _, False)).
Proof. exact (km_init_spec 5 (loaded []) eq_refl (le_n 5)). Defined.

Lemma km_lifecycle_witness :
  wp (lifecycle 5) (loaded []) (safely (λ r s',
    (r = 0 ∧ live (slab s') = live (slab (loaded [])) ∧
     threads (extra s') = threads (extra (loaded [])) ∧
     klog s' = klog (loaded []) ++ (Msg KERN_INFO "All task created!\n" [] :: started_log) ++ exit_log) ∨
    (r = -1 ∧ ∃ bs ts fmt, init_failed (loaded []) bs ts fmt s'))).
Proof. exact (km_lifecycle 5 (loaded []) eq_refl (le_n 5)). Defined.

Lemma mfoo_stops_witness :
  wp (mfoo 3) (loaded []) (returns (λ r s', r = 0 ∧ klog s' = klog (loaded []) ++ replicate 3 running_line)).
Proof. exact (mfoo_stops 3 3 (loaded []) eq_refl (le_n 3)). Defined.

(** The third thread cannot be created. *)
Example km_init_runs :
  returned (km_init 5 (loaded [true; true; false])) =
    Some (-1, [Msg KERN_INFO "kthread failed for:%d\n" [AInt 2]]).
Proof. vm_compute. reflexivity. Qed.
