(* ===== verification/ThreadRun.v ===== *)
(** * thread01/code.c: the threads at work

    Thread01.v runs [km_init] and [km_exit] as if a thread did nothing but end
    when it is told to.  Here the threads run: the loop of [mfoo] in each of them
    interleaves, statement by statement, with [start_mythread] and [km_exit], for
    any number of threads.  Of the blocks of [g_work] the model keeps whether they
    are allocated: [start_mythread] and [km_exit] read the task from them, and the
    last loop of [km_exit] frees them. *)
From stdpp Require Import base gmap strings list relations.
From Stdlib Require Import ZArith Lia.
From S2P Require Import Prelude Kernel Thread01.

(** ** Configurations *)

(** Where a thread is: created but never woken, before [kthread_should_stop],
    before [pr_info], in [msleep(SLEEP)], before [return 0], ended. *)
Inductive tpc := TNew | TCheck | TPrint | TSleep | TRet | TExited.

#[global] Instance tpc_eq_dec : EqDecision tpc.
Proof. solve_decision. Defined.

(** A thread and whether [kthread_stop] was called on it. *)
Record thread := Thread { pc : tpc; told : bool }.

(** Where the module is; the index is that of the element of the list [gwl]:
    before [pr_info] and before [wake_up_process] in [start_mythread], loaded,
    before [msleep(2000)], before [kthread_stop], inside it, before [kfree] of
    [g_work[i]], unloaded. *)
Inductive mpc :=
  | MData (i : nat) | MWake (i : nat) | MLoaded
  | MSleep (i : nat) | MStop (i : nat) | MWait (i : nat) | MFree (i : nat) | MGone.

(** The threads, the module, the log, and which blocks are allocated. *)
Record conf := Conf { ths : list thread; mp : mpc; log : list msg; blocks : list bool }.

Definition goto (m : mpc) (c : conf) : conf := Conf (ths c) m (log c) (blocks c).
Definition say (m : msg) (c : conf) : conf := Conf (ths c) (mp c) (log c ++ [m]) (blocks c).
Definition set_thread (i : nat) (t : thread) (c : conf) : conf :=
  Conf (<[i := t]> (ths c)) (mp c) (log c) (blocks c).
Definition free_block (i : nat) (c : conf) : conf :=
  Conf (ths c) (mp c) (log c) (<[i := false]> (blocks c)).

Definition loaded (n : nat) : conf := Conf (replicate n (Thread TNew false)) (MData 0) [] (replicate n true).

Definition sep_line : msg := Msg KERN_INFO "==============\n" [].
Definition bye_line : msg := Msg KERN_INFO "Goodbye\n" [].

(** ** The moves *)

(** A statement of [mfoo] in thread [i]. *)
Definition mfoo_step (i : nat) (c : conf) : option conf :=
  t ← ths c !! i;
  match pc t with
  | TNew | TExited => None
  | TCheck => Some (set_thread i (Thread (if told t then TRet else TPrint) (told t)) c)
  | TPrint => Some (say running_line (set_thread i (Thread TSleep (told t)) c))
  | TSleep => Some (set_thread i (Thread TCheck (told t)) c)
  | TRet => Some (set_thread i (Thread TExited (told t)) c)
  end.

(** A statement of [start_mythread], which ends the load.  There is no move that
    reads or frees a block that is not allocated. *)
Definition start_step (c : conf) : option conf :=
  match mp c with
  | MData i =>
      if decide (i < length (ths c))%nat then Some (goto (MWake i) (say (data_line (Z.of_nat i)) c))
      else Some (goto MLoaded (say sep_line c))
  | MWake i => t ← ths c !! i;
      if decide (blocks c !! i = Some true)
      then Some (goto (MData (S i)) (set_thread i (Thread TCheck (told t)) c)) else None
  | _ => None
  end.

(** A statement of [km_exit], once the module is told to go; [kthread_stop]
    returns when the thread has ended, with the result 0 of [mfoo]. *)
Definition exit_step (c : conf) : option conf :=
  match mp c with
  | MLoaded => Some (goto (MSleep 0) c)
  | MSleep i =>
      if decide (i < length (ths c))%nat then Some (goto (MStop i) c)
      else Some (goto (MFree 0) c)
  | MStop i => t ← ths c !! i;
      if decide (blocks c !! i = Some true)
      then Some (goto (MWait i) (set_thread i (Thread (pc t) true) c)) else None
  | MWait i =>
      t ← ths c !! i;
      if decide (pc t = TExited) then Some (goto (MSleep (S i)) (say (stopped_line (Z.of_nat i)) c))
      else None
  | MFree i =>
      if decide (i < length (ths c))%nat then
        if decide (blocks c !! i = Some true) then Some (goto (MFree (S i)) (free_block i c)) else None
      else Some (goto MGone (say bye_line c))
  | _ => None
  end.

Definition main_step (c : conf) : option conf :=
  match mp c with MData _ | MWake _ => start_step c | _ => exit_step c end.

(** [None] is the module, [Some i] the thread [i]. *)
Definition proc_step (p : option nat) : conf → option conf :=
  match p with None => main_step | Some i => mfoo_step i end.

Inductive step (c c' : conf) : Prop :=
  | Step p : proc_step p c = Some c' → step c c'.

(** ** The invariant *)

Definition resting (t : thread) : Prop := t = Thread TNew false.
Definition working (t : thread) : Prop := told t = false ∧ (pc t = TCheck ∨ pc t = TPrint ∨ pc t = TSleep).
Definition leaving (t : thread) : Prop := told t = true ∧ pc t ≠ TNew.
Definition ended (t : thread) : Prop := pc t = TExited.

(** What thread [j] is like when the module is at [m]. *)
Definition status (m : mpc) (j : nat) (t : thread) : Prop :=
  match m with
  | MData i | MWake i => if decide (j < i)%nat then working t else resting t
  | MLoaded => working t
  | MSleep i | MStop i => if decide (j < i)%nat then ended t else working t
  | MWait i => if decide (j < i)%nat then ended t else if decide (j = i) then leaving t else working t
  | MFree _ | MGone => ended t
  end.

Definition in_range (n : nat) (m : mpc) : Prop :=
  match m with
  | MData i | MSleep i | MFree i => (i ≤ n)%nat
  | MWake i | MStop i | MWait i => (i < n)%nat
  | MLoaded | MGone => True
  end.

(** What the module itself has printed at [m]. *)
Definition data_lines (i : nat) : list msg := data_line ∘ Z.of_nat <$> seq 0 i.
Definition stopped_lines (i : nat) : list msg := stopped_line ∘ Z.of_nat <$> seq 0 i.
Definition printed (n : nat) (m : mpc) : list msg :=
  match m with
  | MData i => data_lines i
  | MWake i => data_lines (S i)
  | MLoaded => data_lines n ++ [sep_line]
  | MSleep i | MStop i | MWait i => data_lines n ++ [sep_line] ++ stopped_lines i
  | MFree _ => data_lines n ++ [sep_line] ++ stopped_lines n
  | MGone => data_lines n ++ [sep_line] ++ stopped_lines n ++ [bye_line]
  end.

(** The lines that are not those of the threads. *)
Definition own_lines (l : list msg) : list msg := filter (λ m, m ≠ running_line) l.

(** Whether the block [j] is freed when the module is at [m]. *)
Definition freed (m : mpc) (j : nat) : bool :=
  match m with MFree i => bool_decide (j < i)%nat | MGone => true | _ => false end.

Record inv (n : nat) (c : conf) : Prop := Inv {
  inv_len : length (ths c) = n;
  inv_range : in_range n (mp c);
  inv_status : ∀ j t, ths c !! j = Some t → status (mp c) j t;
  inv_log : own_lines (log c) = printed n (mp c);
  inv_blocks : length (blocks c) = n ∧ ∀ j, (j < n)%nat → blocks c !! j = Some (negb (freed (mp c) j)) }.

Lemma own_lines_snoc l m : m ≠ running_line → own_lines (l ++ [m]) = own_lines l ++ [m].
Proof. intros. unfold own_lines. by rewrite filter_app, filter_cons_True. Qed.

Lemma own_lines_running l : own_lines (l ++ [running_line]) = own_lines l.
Proof. unfold own_lines. rewrite filter_app, filter_cons_False by auto. by rewrite app_nil_r. Qed.

Lemma lines_S (f : Z → msg) i : f ∘ Z.of_nat <$> seq 0 (S i) = (f ∘ Z.of_nat <$> seq 0 i) ++ [f (Z.of_nat i)].
Proof. by rewrite seq_S, fmap_app. Qed.

Lemma inv_loaded n : inv n (loaded n).
Proof.
  split; simpl; [apply length_replicate|lia| |done|].
  - by intros j t [-> _]%lookup_replicate.
  - split; [apply length_replicate|]. intros j Hj. by apply lookup_replicate_2.
Qed.

(** How far a thread that was told to stop is from its end. *)
Definition distance (t : thread) : nat :=
  match pc t with TExited => 0 | TRet => 1 | TCheck => 2 | TSleep => 3 | _ => 4 end.

(** What a step of a thread does to it and to the rest. *)
Lemma mfoo_step_elim i c c' :
  mfoo_step i c = Some c' →
  ∃ t t', ths c !! i = Some t ∧ ths c' = <[i := t']> (ths c) ∧ mp c' = mp c ∧ blocks c' = blocks c ∧
    own_lines (log c') = own_lines (log c) ∧ pc t ≠ TNew ∧ pc t ≠ TExited ∧
    (working t → working t') ∧ (leaving t → leaving t' ∧ (distance t' < distance t)%nat).
Proof.
  unfold mfoo_step. intros (t & Ht & Hs)%bind_Some. exists t.
  destruct t as [[] []]; simpl in Hs; simplify_eq; eexists; (split; [done|]);
    unfold working, leaving, distance; simpl; rewrite ?own_lines_running;
    repeat split; simpl in *; try lia; intuition congruence.
Qed.

Lemma mfoo_step_intro i c t :
  ths c !! i = Some t → pc t ≠ TNew → pc t ≠ TExited → is_Some (mfoo_step i c).
Proof. intros Ht ??. unfold mfoo_step. rewrite Ht. simpl. by destruct (pc t). Qed.

Lemma status_keep m j t t' :
  status m j t → pc t ≠ TNew → pc t ≠ TExited →
  (working t → working t') → (leaving t → leaving t') → status m j t'.
Proof.
  intros Hs Hn He Hw Hl. assert (¬ resting t) by (by intros ->).
  destruct m; simpl in *; repeat case_decide; try done; auto.
Qed.

Lemma mfoo_step_inv n i c c' : inv n c → mfoo_step i c = Some c' → inv n c'.
Proof.
  intros [Hn Hr Hs Hl Hb] (t & t' & Ht & Hths & Hmp & Hbl & Hlog & Hnew & Hex & Hw & Hlv)%mfoo_step_elim.
  split; rewrite ?Hmp, ?Hlog, ?Hbl; [by rewrite Hths, length_insert|done| |done|done].
  intros j u. rewrite Hths. intros [(-> & -> & _)|[? Hj]]%list_lookup_insert_Some; [|by apply Hs].
  eapply status_keep; [by apply Hs|done..|]. intros ?. by apply Hlv.
Qed.

Lemma main_step_inv n c c' : inv n c → main_step c = Some c' → inv n c'.
Proof.
  intros [Hn Hr Hs Hl Hb] Hm. unfold main_step, start_step, exit_step in Hm. destruct c as [ts m l bs]; simpl in *. subst n.
  destruct m as [i|i| |i|i|i|i|]; simpl in Hm, Hr, Hl, Hb.
  - case_decide; simplify_eq; split; simpl; try done; try lia.
    + rewrite own_lines_snoc by done. unfold data_lines. rewrite lines_S. simpl in Hl. by rewrite Hl.
    + assert (i = length ts) as -> by (simpl in Hr; lia). intros j t Hj.
      apply lookup_lt_Some in Hj as Hlt. generalize (Hs j t Hj). simpl. by rewrite decide_True by done.
    + assert (i = length ts) as -> by (simpl in Hr; lia). rewrite own_lines_snoc by done. by rewrite Hl.
  - destruct (ts !! i) as [t|] eqn:Ht; simplify_eq/=. case_decide; simplify_eq. split; simpl; try done.
    + apply length_insert.
    + intros j u [(<- & <- & _)|[Hne Hj]]%list_lookup_insert_Some.
      * rewrite decide_True by lia. specialize (Hs _ _ Ht). simpl in Hs.
        rewrite decide_False in Hs by lia. rewrite Hs. unfold working. simpl. auto.
      * generalize (Hs j u Hj). simpl. repeat case_decide; try done; lia.
  - simplify_eq. split; simpl; try done. lia.
  - case_decide; simplify_eq; split; simpl; try done.
    + lia.
    + assert (i = length ts) as -> by (simpl in Hr; lia). intros j t Hj.
      apply lookup_lt_Some in Hj as Hlt. generalize (Hs j t Hj). simpl. by rewrite decide_True by done.
    + by assert (i = length ts) as -> by (simpl in Hr; lia).
  - destruct (ts !! i) as [t|] eqn:Ht; simplify_eq/=. case_decide; simplify_eq. split; simpl; try done.
    + apply length_insert.
    + intros j u [(<- & <- & _)|[Hne Hj]]%list_lookup_insert_Some.
      * rewrite decide_False, decide_True by lia. specialize (Hs _ _ Ht). simpl in Hs.
        rewrite decide_False in Hs by lia. unfold working, leaving in *. simpl. by destruct Hs as [_ [->|[->| ->]]].
      * generalize (Hs j u Hj). simpl. repeat case_decide; try done; lia.
  - destruct (ts !! i) as [t|] eqn:Ht; simplify_eq/=. case_decide; simplify_eq. split; simpl; try done.
    + intros j u Hj. generalize (Hs j u Hj). simpl. repeat case_decide; try done; try lia.
      intros _. by simplify_eq.
    + rewrite own_lines_snoc by done. rewrite Hl. unfold stopped_lines. rewrite lines_S.
      simpl. by rewrite <- app_assoc.
  - case_decide; [case_decide|]; simplify_eq; split; simpl; try done; try lia.
    + rewrite length_insert. split; [by destruct Hb|]. intros j Hj. destruct Hb as [Hlb Hb].
      destruct (decide (j = i)) as [->|Hne].
      * rewrite list_lookup_insert_eq by lia. by rewrite bool_decide_true by lia.
      * rewrite list_lookup_insert_ne by done. rewrite Hb by done. do 2 f_equal. apply bool_decide_ext. lia.
    + rewrite own_lines_snoc by done. rewrite Hl. simpl. by rewrite <- app_assoc.
    + destruct Hb as [Hlb Hb]. split; [done|]. intros j Hj. rewrite Hb by done.
      by rewrite bool_decide_true by lia.
  - done.
Qed.

Lemma proc_step_inv n p c c' : inv n c → proc_step p c = Some c' → inv n c'.
Proof. destruct p; [apply mfoo_step_inv|apply main_step_inv]. Qed.

Lemma reach_inv n c : rtc step (loaded n) c → inv n c.
Proof.
  intros Hr. assert (Hg : ∀ c0, rtc step c0 c → inv n c0 → inv n c); [|by eapply Hg, inv_loaded].
  clear Hr. induction 1 as [|c1 c2 c3 [p Hp] _ IH]; [done|]. intros Hi. by eapply IH, proc_step_inv.
Qed.

(** ** Safety *)

Lemma printed_prefix n m : in_range n m → printed n m `prefix_of` printed n MGone.
Proof.
  assert (Hp : ∀ (f : Z → msg) i, (i ≤ n)%nat →
    (f ∘ Z.of_nat <$> seq 0 i) `prefix_of` (f ∘ Z.of_nat <$> seq 0 n)).
  { intros f i Hi. replace n with (i + (n - i))%nat by lia. rewrite seq_app, fmap_app.
    by apply prefix_app_r. }
  destruct m as [i|i| |i|i|i|i|]; simpl in_range; intros Hi; simpl printed; unfold data_lines, stopped_lines.
  - by apply prefix_app_r, Hp.
  - by apply prefix_app_r, Hp.
  - apply prefix_app, (prefix_cons _ []), prefix_nil.
  - apply prefix_app, prefix_cons, prefix_app_r, Hp. lia.
  - apply prefix_app, prefix_cons, prefix_app_r, Hp. lia.
  - apply prefix_app, prefix_cons, prefix_app_r, Hp. lia.
  - by apply prefix_app, prefix_cons, prefix_app_r.
  - done.
Qed.

Lemma printed_seq : printed ELEMENTS MGone = started_log ++ exit_log.
Proof. done. Qed.

Lemma freed_all n (bs : list bool) :
  length bs = n ∧ (∀ j, (j < n)%nat → bs !! j = Some (negb (freed MGone j))) → bs = replicate n false.
Proof.
  intros [Hl Hj]. symmetry. apply replicate_as_elem_of. split; [done|]. intros b [j Hb]%list_elem_of_lookup.
  apply lookup_lt_Some in Hb as Hlt. rewrite Hj in Hb by lia. by injection Hb.
Qed.

(** A stopped thread does not start again, and what [kthread_stop] waits for is
    the thread it was called on. *)
Lemma gone_stuck n c c' : inv n c → mp c = MGone → ¬ step c c'.
Proof.
  intros [_ _ Hs _ _] Hm [[i|] Hp]; simpl in Hp.
  - apply mfoo_step_elim in Hp as (t & _ & Ht & _ & _ & _ & _ & _ & Hne & _).
    specialize (Hs i t Ht). by rewrite Hm in Hs.
  - unfold main_step, start_step, exit_step in Hp. by rewrite Hm in Hp.
Qed.

(** C11: the threads of the module in every interleaving of their bodies with
    [start_mythread] and [km_exit]: without the lines of the threads, what is
    printed is at any time a beginning of what the module prints when the threads
    do nothing, and all of it at the end; a thread runs only after it was woken
    and, once [kthread_stop] has returned for it, never again; when [km_exit] has
    returned every thread has ended, every block of [g_work] is freed and nothing
    of the module runs any more. *)
Theorem threads_safe c :
  rtc step (loaded ELEMENTS) c →
  own_lines (log c) `prefix_of` started_log ++ exit_log ∧
  (∀ i j t, (mp c = MData i ∨ mp c = MWake i) → (i ≤ j)%nat → ths c !! j = Some t → pc t = TNew) ∧
  (∀ i j t, (mp c = MSleep i ∨ mp c = MStop i ∨ mp c = MWait i) → (j < i)%nat →
     ths c !! j = Some t → pc t = TExited) ∧
  (mp c = MGone → own_lines (log c) = started_log ++ exit_log ∧
     Forall ended (ths c) ∧ blocks c = replicate ELEMENTS false ∧ ∀ c', ¬ step c c').
Proof.
  intros Hi%reach_inv. pose proof Hi as [Hn Hr Hs Hl Hb]. rewrite <- printed_seq. split; [|split; [|split]].
  - rewrite Hl. by apply printed_prefix.
  - intros i j t Hm Hij Ht. specialize (Hs j t Ht).
    destruct Hm as [Hm|Hm]; rewrite Hm in Hs; simpl in Hs; rewrite decide_False in Hs by lia; by rewrite Hs.
  - intros i j t Hm Hij Ht. specialize (Hs j t Ht).
    destruct Hm as [Hm|[Hm|Hm]]; rewrite Hm in Hs; simpl in Hs; by rewrite decide_True in Hs.
  - intros Hm. split; [by rewrite Hl, Hm|]. split; [|split; [|by intros c'; eapply gone_stuck]].
    2:{ rewrite Hm in Hb. by apply freed_all. }
    apply Forall_lookup. intros j t Ht. specialize (Hs j t Ht). by rewrite Hm in Hs.
Qed.

(** ** Termination under a fair scheduler *)

(** The scheduler names, for each point in time, who may move. *)
Definition sched (p : option nat) (c : conf) : conf := default c (proc_step p c).

Fixpoint execution (σ : nat → option nat) (k : nat) (c : conf) : conf :=
  match k with O => c | S k => sched (σ k) (execution σ k c) end.

Definition exists_proc (n : nat) (p : option nat) : Prop :=
  match p with None => True | Some i => (i < n)%nat end.

Definition fair (n : nat) (σ : nat → option nat) : Prop :=
  ∀ p k, exists_proc n p → ∃ j, (k ≤ j)%nat ∧ σ j = p.

(** Who has to move for the module to get on, and how much is left to do. *)
Definition helper (c : conf) : option nat :=
  match mp c with
  | MWait i => match ths c !! i with
               | Some t => if decide (pc t = TExited) then None else Some i
               | None => None
               end
  | _ => None
  end.

Definition rank (n : nat) (c : conf) : nat :=
  match mp c with
  | MData i => 2 * (n - i) + 1 + (10 * n + 2) + (n + 2)
  | MWake i => 2 * (n - i) + (10 * n + 2) + (n + 2)
  | MLoaded => 10 * n + 2 + (n + 2)
  | MSleep i => 10 * (n - i) + 1 + (n + 2)
  | MStop i => 10 * (n - i) + (n + 2)
  | MWait i => 10 * (n - i) - 5 + (if ths c !! i is Some t then distance t else 0) + (n + 2)
  | MFree i => n - i + 1
  | MGone => 0
  end%nat.

Lemma distance_max t : (distance t ≤ 4)%nat.
Proof. unfold distance. destruct (pc t); lia. Qed.

Lemma main_step_rank n c c' : inv n c → main_step c = Some c' → (rank n c' < rank n c)%nat.
Proof.
  intros [Hn Hr _ _ _] Hm. destruct c as [ts m l bs]. unfold main_step, start_step, exit_step in Hm. simpl in Hm, Hn, Hr. subst n.
  destruct m as [i|i| |i|i|i|i|]; simpl in Hm, Hr; unfold rank; simpl;
    try (destruct (ts !! i) as [t|] eqn:Ht; [simpl in Hm|done]);
    repeat case_decide; simplify_eq/=; rewrite ?list_lookup_insert_eq by done;
    try pose proof (distance_max (Thread (pc t) true)); lia.
Qed.

Lemma step_rank n p c c' :
  inv n c → proc_step p c = Some c' →
  (rank n c' < rank n c)%nat ∨ (rank n c' = rank n c ∧ helper c' = helper c ∧ p ≠ helper c).
Proof.
  intros Hi. destruct p as [i|]; simpl; [|intros; left; by apply main_step_rank].
  intros (t & t' & Ht & Hths & Hmp & _ & _ & _ & Hne & _ & Hlv)%mfoo_step_elim.
  destruct Hi as [_ _ Hs _ _]. specialize (Hs i t Ht). unfold rank, helper. rewrite Hmp, Hths.
  destruct (mp c) as [j|j| |j|j|j|j|] eqn:Hm; try (right; repeat split; congruence).
  destruct (decide (j = i)) as [->|Hji].
  - left. simpl in Hs. rewrite decide_False, decide_True in Hs by lia. apply Hlv in Hs as [_ Hd].
    rewrite Ht, list_lookup_insert_eq by (by eapply lookup_lt_Some). lia.
  - right. rewrite list_lookup_insert_ne by done. repeat split; try done.
    destruct (ths c !! j) as [u|]; [case_decide|]; congruence.
Qed.

Lemma helper_enabled n c :
  inv n c → mp c ≠ MGone → exists_proc n (helper c) ∧ is_Some (proc_step (helper c) c).
Proof.
  intros [Hn Hr Hs _ [_ Hb]] Hg. unfold helper.
  assert (Hlook : ∀ i, (i < n)%nat → ∃ t, ths c !! i = Some t)
    by (intros i Hin; apply lookup_lt_is_Some; by rewrite Hn).
  destruct (mp c) as [i|i| |i|i|i|i|] eqn:Hm; simpl in Hr; [..|done].
  6: { destruct (Hlook i Hr) as [t Ht]. rewrite Ht. specialize (Hs i t Ht). simpl in Hs.
    rewrite decide_False, decide_True in Hs by lia. case_decide as He.
    - split; [done|]. simpl. unfold main_step, start_step, exit_step. rewrite Hm, Ht. simpl. rewrite decide_True by done. eauto.
    - split; [done|]. destruct Hs. by eapply mfoo_step_intro. }
  all: split; [done|]; simpl; unfold main_step, start_step, exit_step; rewrite Hm; simpl.
  2,5: destruct (Hlook i Hr) as [t ->]; simpl; rewrite decide_True by (by rewrite Hb); eauto.
  all: try case_decide; eauto.
  rewrite decide_True by (rewrite Hb by lia; simpl; by rewrite bool_decide_false by lia). eauto.
Qed.

Lemma execution_inv n σ k c : inv n c → inv n (execution σ k c).
Proof.
  intros Hi. induction k as [|k IH]; simpl; [done|]. unfold sched.
  destruct (proc_step _ _) eqn:E; simpl; [by eapply proc_step_inv|done].
Qed.

Lemma rank_pos n c : inv n c → mp c ≠ MGone → (0 < rank n c)%nat.
Proof.
  intros [_ Hr _ _ _] Hg. unfold rank. destruct (mp c); simpl in Hr; try done; lia.
Qed.

(** Before the helper's next turn something of the rank is gone. *)
Lemma rank_decreases n σ c d k :
  inv n c → mp (execution σ k c) ≠ MGone → σ (k + d)%nat = helper (execution σ k c) →
  ∃ k', (k < k')%nat ∧ (rank n (execution σ k' c) < rank n (execution σ k c))%nat.
Proof.
  intros Hi. revert k. induction d as [|d IH]; intros k Hg Hd;
    pose proof (execution_inv n σ k c Hi) as Hk.
  - rewrite Nat.add_0_r in Hd. destruct (helper_enabled n _ Hk Hg) as [_ [c' Hc']].
    exists (S k). split; [lia|]. simpl. rewrite Hd. unfold sched. rewrite Hc'. simpl.
    by destruct (step_rank n _ _ _ Hk Hc') as [?|(_ & _ & ?)].
  - destruct (proc_step (σ k) (execution σ k c)) as [c'|] eqn:E.
    + assert (Ex : execution σ (S k) c = c') by (simpl; unfold sched; by rewrite E).
      destruct (step_rank n _ _ _ Hk E) as [Hlt|(Heq & Hh & _)]; [exists (S k); rewrite Ex; split; [lia|done]|].
      destruct (IH (S k)) as (k' & Hk' & Hlt); rewrite ?Ex.
      * intros Hm. pose proof (rank_pos n _ Hk Hg). unfold rank in Heq at 1. rewrite Hm in Heq. lia.
      * rewrite Hh. by rewrite Nat.add_succ_comm.
      * exists k'. rewrite <- Heq, <- Ex. split; [lia|done].
    + assert (Ex : execution σ (S k) c = execution σ k c) by (simpl; unfold sched; by rewrite E).
      destruct (IH (S k)) as (k' & Hk' & Hlt); rewrite ?Ex; [done|by rewrite Nat.add_succ_comm|].
      exists k'. rewrite <- Ex. split; [lia|done].
Qed.

(** C12: whatever fair scheduler runs the threads and the module, and however
    many threads there are: unloading ends, [kthread_stop] waits for no thread
    for ever. *)
Theorem threads_terminate n σ c :
  fair n σ → rtc step (loaded n) c → ∃ k, mp (execution σ k c) = MGone.
Proof.
  intros Hf Hi%reach_inv.
  assert (Hg : ∀ r k, (rank n (execution σ k c) ≤ r)%nat → ∃ k', mp (execution σ k' c) = MGone);
    [|by apply (Hg (rank n c) 0%nat)].
  induction r as [r IH] using lt_wf_ind. intros k Hk.
  assert (Hm : Decision (mp (execution σ k c) = MGone)) by (destruct (mp (execution σ k c)); (by left) || by right).
  destruct Hm as [Hm|Hm]; [by exists k|]. pose proof (execution_inv n σ k c Hi) as Hik.
  destruct (helper_enabled n _ Hik Hm) as [Hp _]. destruct (Hf _ k Hp) as (j & Hj & Hs).
  destruct (rank_decreases n σ c (j - k) k Hi Hm) as (k' & _ & Hlt).
  { by replace (k + (j - k))%nat with j by lia. }
  eapply (IH (rank n (execution σ k' c))); [lia|done].
Qed.

(** ** Witnesses *)

(** A round robin of the module and the threads. *)
Definition round_robin (n : nat) (k : nat) : option nat :=
  match (k mod S n)%nat with O => None | S i => Some i end.

Lemma round_robin_fair n : fair n (round_robin n).
Proof.
  intros p k Hp. set (r := match p with None => O | Some i => S i end).
  assert (Hr : (r < S n)%nat) by (unfold r; destruct p; simpl in Hp; lia).
  exists (k * S n + r)%nat. split; [nia|]. unfold round_robin.
  rewrite Nat.add_comm, Nat.Div0.mod_add, Nat.mod_small by done. unfold r. by destruct p.
Qed.

Lemma threads_terminate_witness :
  ∃ k, mp (execution (round_robin 5) k (loaded 5)) = MGone.
Proof. exact (threads_terminate 5 (round_robin 5) (loaded 5) (round_robin_fair 5) (rtc_refl _ _)). Defined.

(** The whole life of the module under the round robin. *)
Lemma execution_reach σ k c : rtc step c (execution σ k c).
Proof.
  induction k as [|k IH]; simpl; [apply rtc_refl|]. unfold sched.
  destruct (proc_step _ _) eqn:E; simpl; [|done]. eapply rtc_r; [done|by econstructor].
Qed.

Definition over : conf := execution (round_robin 5) 400 (loaded 5).

Lemma threads_safe_witness :
  mp over = MGone ∧ own_lines (log over) = started_log ++ exit_log.
Proof.
  split; [vm_compute; reflexivity|].
  apply (threads_safe over); [apply execution_reach|vm_compute; reflexivity].
Defined.
