(* ===== verification/Mutex1.v ===== *)
(** * mutex1/code.c

    The mutex calls that [start] shows, with the two that a signal can
    interrupt. *)
From stdpp Require Import base gmap strings list.
From Stdlib Require Import ZArith Lia.
From S2P Require Import Prelude.

(** ** Mutexes

    The mutexes the running task holds, and the documented results of the
    calls. *)
Class Mutex (K : Type) := {
  owned : K → gset ptr;
  mutex_init : ptr → K → K;
  mutex_lock : ptr → K → K;
  mutex_is_locked : ptr → K → Z;
  mutex_trylock : ptr → K → Z * K;
  mutex_unlock : ptr → K → K;
  mutex_lock_interruptible : ptr → K → Z * K;
  mutex_lock_killable : ptr → K → Z * K }.

Class MutexLaws (K : Type) `{Mutex K} : Prop := {
  mutex_init_owned p k : owned (mutex_init p k) = owned k ∖ {[p]};
  mutex_lock_owned p k : owned (mutex_lock p k) = {[p]} ∪ owned k;
  mutex_is_locked_owned p k : p ∈ owned k → mutex_is_locked p k = 1;
  mutex_trylock_owned p k r k' : mutex_trylock p k = (r, k') → p ∈ owned k →
    r = 0 ∧ owned k' = owned k;
  mutex_unlock_owned p k : owned (mutex_unlock p k) = owned k ∖ {[p]};
  (** Taken when the result is 0, otherwise the caller does not own it. *)
  interruptible_owned p k r k' : mutex_lock_interruptible p k = (r, k') →
    owned k' = if decide (r = 0) then {[p]} ∪ owned k else owned k;
  killable_owned p k r k' : mutex_lock_killable p k = (r, k') →
    owned k' = if decide (r = 0) then {[p]} ∪ owned k else owned k }.

(** The automatic [struct mutex m]. *)
Definition m : ptr := Ptr 1 0.

Section module.
Context {K : Type} `{Mutex K}.
Abbreviation st := (sys K unit).

(** Locking a mutex the task owns never returns, releasing one it does not own is
    forbidden; so is initialising one that is held. *)
Definition not_owned {R} (p : ptr) : M R st unit :=
  h ← gets (λ s, owned (kern s)); guard_ (bool_decide (p ∉ h)) Deadlock.
Definition lock {R} (p : ptr) : M R st unit := not_owned p;; on_kern (mutex_lock p).
Definition unlock {R} (p : ptr) : M R st unit :=
  h ← gets (λ s, owned (kern s));
  guard_ (bool_decide (p ∈ h)) UnlockNotHeld;;
  on_kern (mutex_unlock p).

(** The first part of [start], up to the first [mutex_unlock]. *)
Definition plain : M Z st unit :=
  lock m;;
  i ← gets (λ s, mutex_is_locked m (kern s));
  (if i =? 1 then printk KERN_INFO "Mutex is locked\n" []
   else printk KERN_INFO "Mutex is NOT locked\n" []);;
  i ← on_kern' (mutex_trylock m);
  (if i =? 1 then printk KERN_INFO "mutex_trylock - Mutex was free taken lock\n" []
   else printk KERN_INFO "mutex_trylock - Mutex already locked, return zero\n" []);;
  unlock m.

(** [static int __init start(void)]. *)
Definition start : M Z st Z :=
  printk KERN_INFO "Start...!\n" [];;
  on_kern (mutex_init m);;
  plain;;
  not_owned m;;
  i ← on_kern' (mutex_lock_interruptible m);
  (if i =? 0 then printk KERN_INFO "mutex_lock_interruptible - Lock taken.\n" []
   else printk KERN_INFO "mutex_lock_interruptible - Interruptible by signal\n" []);;
  unlock m;;
  not_owned m;;
  i ← on_kern' (mutex_lock_killable m);
  (if i =? 0 then printk KERN_INFO "mutex_lock_killable - Lock taken.\n" []
   else printk KERN_INFO "mutex_lock_killable - Interrupted by kill signal\n" []);;
  unlock m;;
  return_ 0.

(** [static void __exit stops(void)]. *)
Definition stops : M unit st unit := printk KERN_INFO "Goodbye!\n" [].
End module.

Section proofs.
Context {K : Type} `{ops_k : Mutex K, !MutexLaws K}.
Abbreviation st := (sys K unit).
Implicit Types (s : st).

Definition info (fmt : string) : msg := Msg KERN_INFO fmt [].
Definition plain_log : list msg :=
  [ info "Start...!\n"; info "Mutex is locked\n";
    info "mutex_trylock - Mutex already locked, return zero\n" ].
Definition int_log (ok : bool) : msg :=
  if ok then info "mutex_lock_interruptible - Lock taken.\n"
  else info "mutex_lock_interruptible - Interruptible by signal\n".
Definition kill_log (ok : bool) : msg :=
  if ok then info "mutex_lock_killable - Lock taken.\n"
  else info "mutex_lock_killable - Interrupted by kill signal\n".

Lemma not_owned_run {R} p s (P : post R st unit) :
  p ∉ owned (kern s) → on_next P tt s → wp (not_owned p) s P.
Proof. intros Hp HP. unfold wp, not_owned. erewrite bind_next by done. by rewrite bool_decide_true. Qed.

Lemma unlock_owned {R} p s (P : post R st unit) :
  p ∈ owned (kern s) → on_next P tt (set_kern (mutex_unlock p (kern s)) s) → wp (unlock p) s P.
Proof.
  intros Hp HP. unfold wp, unlock. erewrite bind_next by done. rewrite bool_decide_true by done.
  by erewrite bind_next by done.
Qed.

Lemma unlock_fault {R} p s (P : post R st unit) :
  p ∉ owned (kern s) → on_fault P UnlockNotHeld s → wp (unlock p) s P.
Proof.
  intros Hp HP. unfold wp, unlock. erewrite bind_next by done. by rewrite bool_decide_false by done.
Qed.

Lemma plain_run s (P : post Z st unit) :
  m ∉ owned (kern s) →
  (∀ s', owned (kern s') = owned (kern s) → klog s' = klog s ++ tl plain_log → on_next P tt s') →
  wp plain s P.
Proof.
  intros Hm HP. unfold plain. apply wp_bind, wp_bind, not_owned_run; [done|]. simpl. wp_step.
  set (k := mutex_lock m (kern s)).
  assert (Hk : owned k = {[m]} ∪ owned (kern s)) by apply mutex_lock_owned.
  assert (Hin : m ∈ owned k) by set_solver. apply wp_bind, wp_gets. simpl.
  rewrite (mutex_is_locked_owned _ _ Hin). apply wp_bind, wp_printk. simpl. apply wp_bind, wp_on_kern'.
  intros r k' E. destruct (mutex_trylock_owned _ _ _ _ E Hin) as [-> Hk'].
  change (owned k' = owned k) in Hk'. simpl. apply wp_bind, wp_printk.
  simpl. apply unlock_owned; [simpl; by rewrite Hk'|]. apply HP; simpl; [|by rewrite <- app_assoc].
  rewrite mutex_unlock_owned, Hk', Hk. set_solver.
Qed.

(** A lock that can be interrupted, its line and the release that follows. *)
Lemma interruptible_run (f : ptr → K → Z * K) (ok bad : string) s (P : post Z st Z) c :
  (∀ p k r k', f p k = (r, k') → owned k' = if decide (r = 0) then {[p]} ∪ owned k else owned k) →
  m ∉ owned (kern s) →
  (∀ s', owned (kern s') = owned (kern s) → klog s' = klog s ++ [info ok] → wp c s' P) →
  (∀ s', klog s' = klog s ++ [info bad] → on_fault P UnlockNotHeld s') →
  wp (not_owned m;; i ← on_kern' (f m);
      (if i =? 0 then printk KERN_INFO ok [] else printk KERN_INFO bad []);; unlock m;; c) s P.
Proof.
  intros Hf Hm HN HF. apply wp_bind, not_owned_run; [done|]. simpl. apply wp_bind, wp_on_kern'.
  intros r k E. apply Hf in E. simpl. destruct (Z.eqb_spec r 0) as [->|Hr].
  - rewrite decide_True in E by done. apply wp_bind, wp_printk. simpl.
    apply wp_bind, unlock_owned; [simpl; rewrite E; set_solver|]. simpl. apply HN; simpl; [|done].
    rewrite mutex_unlock_owned, E. set_solver.
  - rewrite decide_False in E by done. apply wp_bind, wp_printk. simpl.
    apply wp_bind, unlock_fault; [simpl; by rewrite E|]. by apply HF.
Qed.

(** C37: [start] for every outcome of the two interruptible calls: when both take
    the lock it returns 0 with the five lines printed and the mutexes as they
    were; when one is interrupted it prints so and then releases a mutex it does
    not own. *)
Theorem mutex_start_spec s :
  wp start s (Post (λ _ _, False)
    (λ r s', r = 0 ∧ klog s' = klog s ++ plain_log ++ [int_log true; kill_log true] ∧
       owned (kern s') = owned (kern s) ∖ {[m]})
    (λ f s', f = UnlockNotHeld ∧
       (klog s' = klog s ++ plain_log ++ [int_log false] ∨
        klog s' = klog s ++ plain_log ++ [int_log true; kill_log false]))).
Proof.
  unfold start. apply wp_bind. wp_step. apply wp_bind. wp_step. set (s1 := set_kern _ _).
  assert (H1 : owned (kern s1) = owned (kern s) ∖ {[m]}) by apply mutex_init_owned.
  assert (Hm : m ∉ owned (kern s1)) by (rewrite H1; set_solver).
  apply wp_bind, plain_run; [done|]. intros s2 H2 L2. simpl on_next.
  apply interruptible_run; [apply interruptible_owned|by rewrite H2| |].
  - intros s3 H3 L3. apply interruptible_run; [apply killable_owned|by rewrite H3, H2| |].
    + intros s4 H4 L4. apply wp_return. simpl. split; [done|]. rewrite L4, L3, L2, H4, H3, H2, H1.
      split; [simpl; by rewrite <- !app_assoc|done].
    + intros s4 L4. simpl. split; [done|]. right. rewrite L4, L3, L2. simpl. by rewrite <- !app_assoc.
  - intros s3 L3. simpl. split; [done|]. left. rewrite L3, L2. simpl. by rewrite <- !app_assoc.
Qed.
End proofs.

(** ** A concrete mutex service *)

Record mutex_model := MutexModel { mm_int : Z; mm_kill : Z; mm_owned : gset ptr }.

Definition on_owned (g : gset ptr → gset ptr) (k : mutex_model) : mutex_model :=
  MutexModel (mm_int k) (mm_kill k) (g (mm_owned k)).

#[global] Instance mutex_model_ops : Mutex mutex_model := {
  owned := mm_owned;
  mutex_init p := on_owned (λ h, h ∖ {[p]});
  mutex_lock p := on_owned (λ h, {[p]} ∪ h);
  mutex_is_locked p k := if bool_decide (p ∈ mm_owned k) then 1 else 0;
  mutex_trylock p k :=
    if bool_decide (p ∈ mm_owned k) then (0, k) else (1, on_owned (λ h, {[p]} ∪ h) k);
  mutex_unlock p := on_owned (λ h, h ∖ {[p]});
  mutex_lock_interruptible p k :=
    (mm_int k, if decide (mm_int k = 0) then on_owned (λ h, {[p]} ∪ h) k else k);
  mutex_lock_killable p k :=
    (mm_kill k, if decide (mm_kill k = 0) then on_owned (λ h, {[p]} ∪ h) k else k) }.

#[global] Instance mutex_model_laws : MutexLaws mutex_model.
Proof.
  split; try done; simpl.
  - intros p k Hp. by rewrite bool_decide_true.
  - intros p k r k' E Hp. rewrite bool_decide_true in E by done. by simplify_eq/=.
  - intros p k r k' [= <- <-]. by case_decide.
  - intros p k r k' [= <- <-]. by case_decide.
Qed.

Definition loaded (i k : Z) : sys mutex_model unit := Sys (MutexModel i k ∅) tt [].

Lemma mutex_start_spec_witness :
  wp start (loaded 0 (-4)) (Post (λ _ _, False)
    (λ r s', r = 0 ∧ klog s' = [] ++ plain_log ++ [int_log true; kill_log true] ∧
       owned (kern s') = owned (kern (loaded 0 (-4))) ∖ {[m]})
    (λ f s', f = UnlockNotHeld ∧
       (klog s' = [] ++ plain_log ++ [int_log false] ∨
        klog s' = [] ++ plain_log ++ [int_log true; kill_log false]))).
Proof. exact (mutex_start_spec (loaded 0 (-4))). Defined.

Example mutex_start_runs :
  returned (start (loaded 0 0)) = Some (0, plain_log ++ [int_log true; kill_log true]).
Proof. vm_compute. reflexivity. Qed.
