(* ===== verification/Memory.v ===== *)
(** * memory1/code.c and memory2/code.c

    The two modules that take and give back memory of every kind: pages, slab
    memory, vmalloc areas and temporary mappings of high memory. *)
From stdpp Require Import base gmap strings list.
From Stdlib Require Import ZArith Lia.
From S2P Require Import Prelude Kernel.

(** ** The allocators

    What a module owns: blocks of [2^order] pages, slab and vmalloc blocks, and
    mappings of high pages. *)
Inductive kind := KPages (order : nat) | KSlab | KVmalloc | KMapped.

#[global] Instance kind_eq_dec : EqDecision kind.
Proof. solve_decision. Defined.
#[global] Instance kind_countable : Countable kind.
Proof.
  refine (inj_countable'
    (λ k, match k with KPages o => inl o | KSlab => inr 0%nat | KVmalloc => inr 1%nat | KMapped => inr 2%nat end)
    (λ e, match e with inl o => KPages o | inr 0%nat => KSlab | inr 1%nat => KVmalloc | inr _ => KMapped end) _).
  by intros [].
Defined.

(** A request; [size] and flags are for the allocator only. *)
Inductive request := Request (k : kind) (size : Z) (g : gfp).
Definition kind_of (r : request) : kind := let '(Request k _ _) := r in k.

Class MemApi (K : Type) := {
  owned : K → gset (kind * positive);
  allocate : request → K → option positive * K;
  release : kind → positive → K → K;
  kmap : positive → K → K;
  kunmap : positive → K → K;
  page_address : positive → Z;
  virt_to_page : Z → positive;
  virt_to_phys : positive → Z }.

Class MemLaws (K : Type) `{MemApi K} : Prop := {
  allocate_some r k b k' : allocate r k = (Some b, k') →
    (∀ x, (x, b) ∉ owned k) ∧ owned k' = {[(kind_of r, b)]} ∪ owned k;
  allocate_none r k k' : allocate r k = (None, k') → owned k' = owned k;
  release_owned x b k : owned (release x b k) = owned k ∖ {[(x, b)]};
  kmap_owned b k : owned (kmap b k) = {[(KMapped, b)]} ∪ owned k;
  kunmap_owned b k : owned (kunmap b k) = owned k ∖ {[(KMapped, b)]} }.

Section modules.
Context {K : Type} `{MemApi K}.
Abbreviation st := (sys K unit).

(** Giving back what is not owned is an error. *)
Definition give_back {R} (x : kind) (b : positive) : M R st unit :=
  o ← gets (λ s, owned (kern s));
  guard_ (bool_decide ((x, b) ∈ o)) DoubleFree;;
  on_kern (release x b).

(** One pattern of both modules: take memory, report and fail when there is
    none, use it and give it back with the call [free]. *)
Definition take_use_free {R} (r : request) (none : M R st unit) (use : positive → M R st unit)
    (free : positive → M R st unit) (fail_with : R) : M R st unit :=
  p ← on_kern' (allocate r);
  match p with
  | None => none;; return_ fail_with
  | Some b => use b;; free b
  end.

(** ** memory1: [static int __init code_init(void)] *)
Definition code_init : M Z st Z :=
  take_use_free (Request (KPages 0) 4096 GFP_KERNEL)
    (printk KERN_INFO "alloc_page Alocation failed\n" [])
    (λ _, printk KERN_INFO "alloc_page Alloation done\n" [])
    (give_back (KPages 0)) (* __free_pages(p,0) *) (-1);;
  take_use_free (Request (KPages 3) 32768 GFP_KERNEL)
    (printk KERN_INFO "alloc_pages Alocation failed\n" [])
    (λ p1, printk KERN_INFO "alloc_pages Alloation done\n" [];;
           let page := page_address p1 in
           let p2 := virt_to_page page in
           mret tt)
    (give_back (KPages 3)) (* __free_pages(p1,3) *) (-1);;
  take_use_free (Request (KPages 3) 32768 GFP_KERNEL)
    (printk KERN_INFO "__get_free_pages Alocation failed\n" [])
    (λ _, printk KERN_INFO "__get_free_pages Alloation done\n" [])
    (give_back (KPages 3)) (* free_pages(va,3) *) (-1);;
  return_ 0.
Definition code_exit : M unit st unit := printk KERN_INFO "Goodbye, World!\n" [].

(** ** memory2: [static int __init memory_init(void)] *)
Definition memory_init : M Z st Z :=
  take_use_free (Request KSlab 20 GFP_KERNEL)
    (printk KERN_DEFAULT "kzalloc failed\n" []) (λ _, mret tt)
    (give_back KSlab) (* kzfree(ptr) *) (-1);;
  take_use_free (Request KSlab 20 GFP_KERNEL)
    (printk KERN_DEFAULT "kmalloc failed\n" [])
    (λ p, let phy := virt_to_phys p in mret tt)
    (give_back KSlab) (* kfree(ptr) *) (-1);;
  take_use_free (Request KVmalloc 40960 GFP_KERNEL)
    (printk KERN_DEFAULT "vmalloc failed\n" []) (λ _, mret tt)
    (give_back KVmalloc) (* vfree(ptr) *) (-1);;
  take_use_free (Request (KPages 3) 32768 GFP_HIGHUSER)
    (printk KERN_INFO "alloc_pages Allocation failed\n" [])
    (λ p, printk KERN_INFO "alloc_pages Allocation done\n" [];;
          on_kern (kmap p);;
          o ← gets (λ s, owned (kern s));
          guard_ (bool_decide ((KMapped, p) ∈ o)) BadDeref;;
          on_kern (kunmap p))
    (give_back (KPages 3)) (* __free_pages(p,3) *) (-1);;
  return_ 0.
Definition memory_exit : M unit st unit := printk KERN_INFO "Goodbye, World!\n" [].
End modules.

Section proofs.
Context {K : Type} `{ops_k : MemApi K, !MemLaws K}.
Abbreviation st := (sys K unit).
Implicit Types (s : st).

Lemma give_back_run {R} x b s (P : post R st unit) :
  (x, b) ∈ owned (kern s) → on_next P tt (set_kern (release x b (kern s)) s) → wp (give_back x b) s P.
Proof.
  intros Hp HP. unfold wp, give_back. erewrite bind_next by done. rewrite bool_decide_true by done.
  by erewrite bind_next by done.
Qed.

(** The use of a block leaves what is owned alone and prints [ms]. *)
Definition harmless (use : positive → M Z st unit) (ms : list msg) : Prop :=
  ∀ b s (P : post Z st unit), (KMapped, b) ∉ owned (kern s) →
    (∀ s', owned (kern s') = owned (kern s) → klog s' = klog s ++ ms → on_next P tt s') →
    wp (use b) s P.

(** The pattern: whatever the allocator answers, what is owned afterwards is what
    was owned before. *)
Lemma take_use_free_run x n g l fmt use good s (P : post Z st Z) c :
  x ≠ KMapped → harmless use good →
  (∀ s', owned (kern s') = owned (kern s) → klog s' = klog s ++ [Msg l fmt []] → on_return P (-1) s') →
  (∀ s', owned (kern s') = owned (kern s) → klog s' = klog s ++ good → wp c s' P) →
  wp (take_use_free (Request x n g) (printk l fmt []) use (give_back x) (-1);; c) s P.
Proof.
  intros Hx Hu HR HN. apply wp_bind. unfold take_use_free. apply wp_bind, wp_on_kern'.
  intros [b|] k E; simpl.
  - destruct (allocate_some _ _ _ _ E) as [Hb Hk]. simpl in Hk.
    apply wp_bind, Hu; [simpl; rewrite Hk; set_solver|]. intros s1 H1 L1. simpl in H1.
    apply give_back_run; [rewrite H1, Hk; set_solver|]. simpl. apply HN; simpl; [|done].
    rewrite release_owned, H1, Hk. specialize (Hb x). set_solver.
  - apply wp_bind, wp_printk. simpl. apply wp_return, HR; [|done]. simpl. by apply (allocate_none _ _ _ E).
Qed.

Lemma harmless_nothing : harmless (λ _, mret tt) [].
Proof. intros b s P _ HP. apply wp_ret, HP; [done|]. by rewrite app_nil_r. Qed.

Lemma harmless_print l fmt : harmless (λ _, printk l fmt []) [Msg l fmt []].
Proof. intros b s P _ HP. by apply wp_printk, HP. Qed.

Lemma harmless_print_more l fmt (k : positive → M Z st unit) :
  harmless k [] → harmless (λ b, printk l fmt [];; k b) [Msg l fmt []].
Proof.
  intros Hk b s P Hb HP. apply wp_bind, wp_printk, Hk; [done|]. intros s' H1 L1.
  apply HP; [done|]. rewrite L1. unfold add_log. simpl. by rewrite app_nil_r.
Qed.

Lemma harmless_kmap :
  harmless (λ p, on_kern (kmap p);; o ← gets (λ s, owned (kern s));
    guard_ (bool_decide ((KMapped, p) ∈ o)) BadDeref;; on_kern (kunmap p)) [].
Proof.
  intros b s P Hb HP. apply wp_bind, wp_on_kern, wp_bind, wp_gets. simpl. rewrite kmap_owned.
  rewrite bool_decide_true by set_solver. apply wp_bind, wp_ret, wp_on_kern, HP; simpl.
  - rewrite kunmap_owned, kmap_owned. set_solver.
  - by rewrite app_nil_r.
Qed.

Definition line (l : loglevel) (fmt : string) : msg := Msg l fmt [].

(** The log and the result when the [n]-th of the requests fails: the lines [good]
    of those before it and its own line [bad]. *)
Fixpoint outcome_log (reqs : list (list msg * msg)) (n : nat) : Z * list msg :=
  match reqs, n with
  | [], _ => (0, [])
  | (_, bad) :: _, O => (-1, [bad])
  | (good, _) :: reqs, S n => let '(r, ls) := outcome_log reqs n in (r, good ++ ls)
  end.

Definition code_reqs : list (list msg * msg) :=
  [ ([line KERN_INFO "alloc_page Alloation done\n"], line KERN_INFO "alloc_page Alocation failed\n");
    ([line KERN_INFO "alloc_pages Alloation done\n"], line KERN_INFO "alloc_pages Alocation failed\n");
    ([line KERN_INFO "__get_free_pages Alloation done\n"],
     line KERN_INFO "__get_free_pages Alocation failed\n") ].

Definition memory_reqs : list (list msg * msg) :=
  [ ([], line KERN_DEFAULT "kzalloc failed\n");
    ([], line KERN_DEFAULT "kmalloc failed\n");
    ([], line KERN_DEFAULT "vmalloc failed\n");
    ([line KERN_INFO "alloc_pages Allocation done\n"], line KERN_INFO "alloc_pages Allocation failed\n") ].

(** Memory1 owns nothing more after [code_init] than before, for every
    outcome of its three requests; it returns 0 when all succeed and otherwise
    -1 at the first that fails, with the lines of those before it. *)
Theorem code_init_balanced s :
  wp code_init s (returns (λ r s', owned (kern s') = owned (kern s) ∧
    ∃ n, (r, klog s') = (λ '(r, ls), (r, klog s ++ ls)) (outcome_log code_reqs n))).
Proof.
  unfold code_init. apply take_use_free_run with (good := [line KERN_INFO "alloc_page Alloation done\n"]);
    [done|apply harmless_print|intros s1 H1 L1; split; [done|]; exists 0%nat; by rewrite L1|].
  intros s1 H1 L1.
  apply take_use_free_run with (good := [line KERN_INFO "alloc_pages Alloation done\n"]);
    [done|apply (harmless_print_more _ _ (λ _, mret tt)), harmless_nothing|
     intros s2 H2 L2; split; [by rewrite H2|]; exists 1%nat; by rewrite L2, L1, <- app_assoc|].
  intros s2 H2 L2.
  apply take_use_free_run with (good := [line KERN_INFO "__get_free_pages Alloation done\n"]);
    [done|apply harmless_print|
     intros s3 H3 L3; split; [by rewrite H3, H2|]; exists 2%nat; by rewrite L3, L2, L1, <- !app_assoc|].
  intros s3 H3 L3. apply wp_return. split; [by rewrite H3, H2|]. exists 3%nat.
  by rewrite L3, L2, L1, <- !app_assoc.
Qed.

(** C38: the same for memory2, which also maps and unmaps the high pages: for
    every outcome of its four requests [memory_init] gives back what it took,
    with no page left mapped. *)
Theorem memory_init_balanced s :
  wp memory_init s (returns (λ r s', owned (kern s') = owned (kern s) ∧
    ∃ n, (r, klog s') = (λ '(r, ls), (r, klog s ++ ls)) (outcome_log memory_reqs n))).
Proof.
  unfold memory_init. apply take_use_free_run with (good := []);
    [done|apply harmless_nothing|intros s1 H1 L1; split; [done|]; exists 0%nat; by rewrite L1|].
  intros s1 H1 L1. rewrite app_nil_r in L1. apply take_use_free_run with (good := []);
    [done|apply harmless_nothing|intros s2 H2 L2; split; [by rewrite H2|]; exists 1%nat; by rewrite L2, L1|].
  intros s2 H2 L2. rewrite app_nil_r in L2. apply take_use_free_run with (good := []);
    [done|apply harmless_nothing|
     intros s3 H3 L3; split; [by rewrite H3, H2|]; exists 2%nat; by rewrite L3, L2, L1|].
  intros s3 H3 L3. rewrite app_nil_r in L3.
  apply take_use_free_run with (good := [line KERN_INFO "alloc_pages Allocation done\n"]);
    [done|apply harmless_print_more, harmless_kmap|
     intros s4 H4 L4; split; [by rewrite H4, H3, H2|]; exists 3%nat; by rewrite L4, L3, L2, L1|].
  intros s4 H4 L4. apply wp_return. split; [by rewrite H4, H3, H2|]. exists 4%nat.
  by rewrite L4, L3, L2, L1.
Qed.
End proofs.

(** ** A concrete allocator *)

Record mem_model := MemModel { mo_oracle : list bool; mo_owned : gset (kind * positive) }.

Definition new_block (o : gset (kind * positive)) : positive := fresh (set_map snd o : gset positive).

#[global] Instance mem_model_ops : MemApi mem_model := {
  owned := mo_owned;
  allocate r k :=
    match mo_oracle k with
    | false :: o => (None, MemModel o (mo_owned k))
    | o => let b := new_block (mo_owned k) in
           (Some b, MemModel (tl o) ({[(kind_of r, b)]} ∪ mo_owned k))
    end;
  release x b k := MemModel (mo_oracle k) (mo_owned k ∖ {[(x, b)]});
  kmap b k := MemModel (mo_oracle k) ({[(KMapped, b)]} ∪ mo_owned k);
  kunmap b k := MemModel (mo_oracle k) (mo_owned k ∖ {[(KMapped, b)]});
  page_address b := 4096 * Zpos b;
  virt_to_page z := Z.to_pos (z / 4096);
  virt_to_phys b := 4096 * Zpos b }.

#[global] Instance mem_model_laws : MemLaws mem_model.
Proof.
  split; try done.
  - intros r [o w] b k'. simpl. assert (Hn : ∀ x, (x, new_block w) ∉ w).
    { intros x Hx. apply (is_fresh (set_map snd w : gset positive)).
      apply elem_of_map. by exists (x, new_block w). }
    destruct o as [|[] o]; intros [= <- <-]; done.
  - intros r [o w] k'. simpl. destruct o as [|[] o]; intros [= <-]; done.
Qed.

Definition loaded (o : list bool) : sys mem_model unit := Sys (MemModel o ∅) tt [].

Lemma code_init_balanced_witness :
  wp code_init (loaded [true; false]) (returns (λ r s', owned (kern s') = owned (kern (loaded [true; false])) ∧
    ∃ n, (r, klog s') = (λ '(r, ls), (r, [] ++ ls)) (outcome_log code_reqs n))).
Proof. exact (code_init_balanced (loaded [true; false])). Defined.

Lemma memory_init_balanced_witness :
  wp memory_init (loaded []) (returns (λ r s', owned (kern s') = owned (kern (loaded [])) ∧
    ∃ n, (r, klog s') = (λ '(r, ls), (r, [] ++ ls)) (outcome_log memory_reqs n))).
Proof. exact (memory_init_balanced (loaded [])). Defined.

Example memory_runs :
  returned (code_init (loaded [true; false])) = Some (outcome_log code_reqs 1) ∧
  returned (memory_init (loaded [])) = Some (outcome_log memory_reqs 4).
Proof. split; vm_compute; reflexivity. Qed.
