(* ===== verification/RadixTree.v ===== *)
(** * radix_tree/code.c

    [start], which inserts the address of a local, looks it up and deletes it,
    against the documented behaviour of the kernel's radix tree. *)
From stdpp Require Import base gmap strings list.
From Stdlib Require Import ZArith Lia.
From S2P Require Import Prelude.

(** ** The radix tree API

    A tree is a finite map from keys to pointers that are not null. *)
Class Radix (K : Type) := {
  tree : K → gmap Z ptr;
  INIT_RADIX_TREE : K → K;
  radix_tree_insert : Z → ptr → K → Z * K;
  radix_tree_lookup : Z → K → ptr;
  radix_tree_delete : Z → K → ptr * K }.

Class RadixLaws (K : Type) `{Radix K} : Prop := {
  init_tree k : tree (INIT_RADIX_TREE k) = ∅;
  (** 0 for an insertion, an error (no memory, key present) for none. *)
  insert_tree i p k r k' : radix_tree_insert i p k = (r, k') →
    tree k' = if decide (r = 0) then <[i := p]> (tree k) else tree k;
  lookup_tree i k : radix_tree_lookup i k = default Null (tree k !! i);
  delete_tree i k p k' : radix_tree_delete i k = (p, k') →
    p = default Null (tree k !! i) ∧ tree k' = delete i (tree k) }.

(** The automatic [int item]. *)
Definition item_addr : ptr := Ptr 1 0.

(** The C objects: [item] while [start] runs. *)
Record locals := Locals { item : option Z }.

Section module.
Context {K : Type} `{Radix K}.
Abbreviation st := (sys K locals).

(** A load of an [int] through a pointer that is not null. *)
Definition ld_int {R} (p : ptr) : M R st Z :=
  if decide (p = item_addr) then v ← gets (λ s, item (glob s)); liftO UninitRead v
  else fail BadDeref.

(** [static int __init start(void)]. *)
Definition start : M Z st Z :=
  printk KERN_INFO "Start...!\n" [];;
  on_kern INIT_RADIX_TREE;;
  let key := 5 in
  let failkey := 50 in
  modify (set_glob (Locals (Some 14)));;
  let v := item_addr in
  ret ← on_kern' (radix_tree_insert key v);
  (if negb (ret =? 0) then printk KERN_INFO "insert failed\n" [];; return_ (-1) else mret tt);;
  printk KERN_INFO "insert success\n" [];;
  r ← gets (λ s, radix_tree_lookup failkey (kern s));
  (if is_null r then printk KERN_INFO "lookup failed\n" []
   else printk KERN_INFO "lookup success\n" []);;
  r ← gets (λ s, radix_tree_lookup key (kern s));
  (if is_null r then printk KERN_INFO "lookup failed\n" []
   else x ← ld_int r; printk KERN_INFO "lookup success %d\n" [AInt x]);;
  r ← on_kern' (radix_tree_delete failkey);
  (if is_null r then printk KERN_INFO "delete failed\n" []
   else x ← ld_int r; printk KERN_INFO "delete success %d\n" [AInt x]);;
  r ← on_kern' (radix_tree_delete key);
  (if is_null r then printk KERN_INFO "delete failed\n" []
   else x ← ld_int r; printk KERN_INFO "delete success %d\n" [AInt x]);;
  return_ 0.

(** [static void __exit stops(void)]. *)
Definition stops : M unit st unit := printk KERN_INFO "Goodbye!\n" [].
End module.

Section proofs.
Context {K : Type} `{ops_k : Radix K, !RadixLaws K}.
Abbreviation st := (sys K locals).
Implicit Types (s : st).

Definition info (fmt : string) (args : list arg) : msg := Msg KERN_INFO fmt args.

Definition found_log : list msg :=
  [ info "Start...!\n" []; info "insert success\n" []; info "lookup failed\n" [];
    info "lookup success %d\n" [AInt 14]; info "delete failed\n" [];
    info "delete success %d\n" [AInt 14] ].

(** [start] on both outcomes of the insertion: when it succeeds the wrong
    key is not found, the right key gives the stored 14 twice, and the tree is
    empty again when the automatic [item] that it pointed to goes away; when it
    fails [start] returns -1 with the tree empty.  Either way no pointer into
    the stack is left behind. *)
Theorem radix_start_spec s :
  wp start s (returns (λ r s', tree (kern s') = ∅ ∧
    ((r = 0 ∧ klog s' = klog s ++ found_log) ∨
     (r = -1 ∧ klog s' = klog s ++ [info "Start...!\n" []; info "insert failed\n" []])))).
Proof.
  unfold start. apply wp_bind, wp_printk. simpl. apply wp_bind, wp_on_kern. simpl.
  apply wp_bind, wp_modify. simpl. apply wp_bind, wp_on_kern'. intros r k E. simpl in E.
  apply insert_tree in E. rewrite init_tree in E. simpl.
  destruct (Z.eqb_spec r 0) as [->|Hr]; simpl; apply wp_bind.
  2:{ rewrite decide_False in E by done. apply wp_bind, wp_printk. simpl. apply wp_return. simpl.
      split; [done|]. right. unfold add_log. simpl. by rewrite <- app_assoc. }
  rewrite decide_True in E by done. apply wp_ret. simpl. apply wp_bind, wp_printk. simpl.
  apply wp_bind, wp_gets. simpl. rewrite lookup_tree, E. simpl. apply wp_bind, wp_printk. simpl.
  apply wp_bind, wp_gets. simpl. rewrite lookup_tree, E. simpl.
  apply wp_bind, wp_bind, wp_ret. simpl.
  apply wp_bind, wp_on_kern'. intros p1 k1 [-> E1]%delete_tree. simpl in E1. rewrite E in E1. simpl.
  rewrite E. simpl. apply wp_bind, wp_printk. simpl.
  apply wp_bind, wp_on_kern'. intros p2 k2 [-> E2]%delete_tree. simpl in E2. simpl. rewrite E1. simpl.
  apply wp_bind, wp_bind, wp_ret. simpl. apply wp_return. simpl.
  split; [|left; split; [done|]; unfold add_log; simpl; by rewrite <- !app_assoc].
  rewrite E2, E1. apply map_eq. intros i. rewrite lookup_delete.
  case_decide as Hi; [done|]. rewrite lookup_delete. case_decide; [done|]. by rewrite lookup_insert_ne.
Qed.
End proofs.

(** ** A concrete tree *)

Record radix_model := RadixModel { rx_insert : Z; rx_tree : gmap Z ptr }.

#[global] Instance radix_model_ops : Radix radix_model := {
  tree := rx_tree;
  INIT_RADIX_TREE k := RadixModel (rx_insert k) ∅;
  radix_tree_insert i p k :=
    (rx_insert k, if decide (rx_insert k = 0) then RadixModel (rx_insert k) (<[i := p]> (rx_tree k)) else k);
  radix_tree_lookup i k := default Null (rx_tree k !! i);
  radix_tree_delete i k := (default Null (rx_tree k !! i), RadixModel (rx_insert k) (delete i (rx_tree k))) }.

#[global] Instance radix_model_laws : RadixLaws radix_model.
Proof.
  split; try done.
  - intros i p k r k' [= <- <-]. simpl. by case_decide.
  - intros i k p k' [= <- <-]. done.
Qed.

Definition loaded (r : Z) : sys radix_model locals := Sys (RadixModel r ∅) (Locals None) [].

Lemma radix_start_spec_witness :
  wp start (loaded 0) (returns (λ r s', tree (kern s') = ∅ ∧
    ((r = 0 ∧ klog s' = [] ++ found_log) ∨
     (r = -1 ∧ klog s' = [] ++ [info "Start...!\n" []; info "insert failed\n" []])))).
Proof. exact (radix_start_spec (loaded 0)). Defined.

Example radix_runs :
  returned (start (loaded 0)) = Some (0, found_log) ∧
  returned (start (loaded (-12))) = Some (-1, [info "Start...!\n" []; info "insert failed\n" []]).
Proof. split; vm_compute; reflexivity. Qed.
