(* ===== verification/ContainerOf.v ===== *)
(** * container_of/code.c

    [start] on byte offsets: which object [container_of] on the address of a
    local pointer really points into. *)
From stdpp Require Import base gmap strings list.
From Stdlib Require Import ZArith Lia.
From S2P Require Import Prelude Kernel KernelModel.

(** ** Data *)

(** A scalar object by its address: an [int], a pointer, or a buffer of [cap]
    bytes with the string in it. *)
Inductive cell := CInt (v : option Z) | CPtr (v : option ptr) | CBuf (cap : nat) (v : option string).

(** [struct kitten]: the offsets of its members. *)
Definition kitten_furry : Z := 0.
Definition kitten_name : Z := 8.

Definition YES : Z := 1.

(** The automatic [tom] and [pname], two different objects. *)
Definition tom : ptr := Ptr 1 0.
Definition pname : ptr := Ptr 2 0.

Section module.
Context {A : Type} `{Slab A}.
Abbreviation st := (sys (kstate A unit unit) (objs cell unit)).

(** Loads and stores of the members; an address where no object of the type is
    is an access outside any object. *)
Definition ld_int {R} (p : ptr) : M R st Z :=
  c ← get_obj p; match c with CInt v => liftO UninitRead v | _ => fail BadDeref end.
Definition ld_ptr {R} (p : ptr) : M R st ptr :=
  c ← get_obj p; match c with CPtr v => liftO UninitRead v | _ => fail BadDeref end.
Definition ld_str {R} (p : ptr) : M R st string :=
  c ← get_obj p; match c with CBuf _ v => liftO UninitRead v | _ => fail BadDeref end.
Definition st_int {R} (p : ptr) (z : Z) : M R st unit :=
  c ← get_obj p; match c with CInt _ => upd_obj p (λ _, CInt (Some z)) | _ => fail BadDeref end.
Definition st_ptr {R} (p q : ptr) : M R st unit :=
  c ← get_obj p; match c with CPtr _ => upd_obj p (λ _, CPtr (Some q)) | _ => fail BadDeref end.
(** [strcpy(p, s)], with the terminating byte. *)
Definition strcpy {R} (p : ptr) (s : string) : M R st unit :=
  c ← get_obj p;
  match c with
  | CBuf cap _ =>
      if bool_decide (String.length s < cap)%nat then upd_obj p (λ _, CBuf cap (Some s)) else fail OutOfBounds
  | _ => fail BadDeref
  end.

Definition enter_locals (s : st) : st :=
  set_heap (<[member_of kitten_furry tom := CInt None]>
    (<[member_of kitten_name tom := CPtr None]> (<[pname := CPtr None]> (heap s)))) s.
Definition leave_locals (s : st) : st :=
  set_heap (delete (member_of kitten_furry tom)
    (delete (member_of kitten_name tom) (delete pname (heap s)))) s.

(** [static int __init start(void)]. *)
Definition start : M Z st Z := scoped enter_locals leave_locals (
  st_int (member_of kitten_furry tom) YES;;
  p ← kmalloc_obj 25 GFP_KERNEL (CBuf 25 None);
  st_ptr (member_of kitten_name tom) p;;
  p ← ld_ptr (member_of kitten_name tom); strcpy p "tom_cat";;
  p ← ld_ptr (member_of kitten_name tom); x ← ld_str p; pr_info "name = %s\n" [AStr x];;
  p ← ld_ptr (member_of kitten_name tom); st_ptr pname p;;
  p ← ld_ptr pname; x ← ld_str p; pr_info "name2 = %s\n" [AStr x];;
  let new_kitten := container_of kitten_name pname in
  p ← ld_ptr (member_of kitten_name new_kitten); x ← ld_str p; pr_info "Name3 = %s\n" [AStr x];;
  z ← ld_int (member_of kitten_furry tom); pr_info "Furry0 = %d\n" [AInt z];;
  z ← ld_int (member_of kitten_furry new_kitten); pr_info "Furry = %d\n" [AInt z];;
  st_int (member_of kitten_furry new_kitten) 100;;
  z ← ld_int (member_of kitten_furry new_kitten); pr_info "Furry1 = %d\n" [AInt z];;
  return_ 0).

(** [static void __exit stops(void)]: nothing. *)
Definition stops : M unit st unit := mret tt.
End module.

Section proofs.
Context {A : Type} `{ops_a : Slab A, !SlabLaws A}.
Abbreviation st := (sys (kstate A unit unit) (objs cell unit)).
Implicit Types (s : st).

Definition four_lines : list msg :=
  [ Msg KERN_INFO "name = %s\n" [AStr "tom_cat"]; Msg KERN_INFO "name2 = %s\n" [AStr "tom_cat"];
    Msg KERN_INFO "Name3 = %s\n" [AStr "tom_cat"]; Msg KERN_INFO "Furry0 = %d\n" [AInt 1] ].

Lemma ld_ptr_run {R} p q s (P : post R st ptr) :
  heap s !! p = Some (CPtr (Some q)) → p ≠ Null → on_next P q s → wp (ld_ptr p) s P.
Proof. intros Hc Hp HP. apply wp_bind. eapply wp_get_obj; [done|done|]. by apply wp_ret. Qed.
Lemma ld_int_run {R} p z s (P : post R st Z) :
  heap s !! p = Some (CInt (Some z)) → p ≠ Null → on_next P z s → wp (ld_int p) s P.
Proof. intros Hc Hp HP. apply wp_bind. eapply wp_get_obj; [done|done|]. by apply wp_ret. Qed.
Lemma ld_str_run {R} p n x s (P : post R st string) :
  heap s !! p = Some (CBuf n (Some x)) → p ≠ Null → on_next P x s → wp (ld_str p) s P.
Proof. intros Hc Hp HP. apply wp_bind. eapply wp_get_obj; [done|done|]. by apply wp_ret. Qed.
Lemma st_int_run {R} p z v s (P : post R st unit) :
  heap s !! p = Some (CInt v) → p ≠ Null →
  on_next P tt (set_heap (<[p := CInt (Some z)]> (heap s)) s) → wp (st_int p z) s P.
Proof.
  intros Hc Hp HP. apply wp_bind. eapply wp_get_obj; [done|done|]. simpl. by eapply wp_upd_obj.
Qed.
Lemma st_ptr_run {R} p q v s (P : post R st unit) :
  heap s !! p = Some (CPtr v) → p ≠ Null →
  on_next P tt (set_heap (<[p := CPtr (Some q)]> (heap s)) s) → wp (st_ptr p q) s P.
Proof.
  intros Hc Hp HP. apply wp_bind. eapply wp_get_obj; [done|done|]. simpl. by eapply wp_upd_obj.
Qed.
Lemma strcpy_run {R} p n v x s (P : post R st unit) :
  heap s !! p = Some (CBuf n v) → p ≠ Null → (String.length x < n)%nat →
  on_next P tt (set_heap (<[p := CBuf n (Some x)]> (heap s)) s) → wp (strcpy p x) s P.
Proof.
  intros Hc Hp Hx HP. apply wp_bind. eapply wp_get_obj; [done|done|]. simpl.
  rewrite bool_decide_true by done. by eapply wp_upd_obj.
Qed.

(** Lookups in the heap of [start]: the addresses are different. *)
Local Ltac look := simpl_st; simpl; rewrite ?lookup_insert_ne by (intros [= ?]; subst; done);
  rewrite ?lookup_insert_eq; done.

(** C39: [start] never comes to its end.  When the allocation fails the string is
    copied to a null pointer; otherwise the string is printed through the name
    and through [container_of], which computes the address in front of [pname],
    and the load of [furry] there is outside every object.  The 25 bytes are
    never freed. *)
Theorem container_start_faults s :
  heap s = ∅ →
  wp start s (Post (λ _ _, False) (λ _ _, False) (λ f s',
    (f = NullDeref ∧ klog s' = klog s ∧ live (slab s') = live (slab s)) ∨
    (f = BadDeref ∧ klog s' = klog s ++ four_lines ∧
     ∃ b, (b ∉ live (slab s)) ∧ live (slab s') = {[b]} ∪ live (slab s)))).
Proof.
  intros Hh. unfold start. apply wp_scoped. unfold enter_locals.
  apply wp_bind. eapply st_int_run; [look|done|]. unfold on_next at 1.
  apply wp_bind, wp_kmalloc_obj.
  - intros a Ha. unfold on_next at 1. apply wp_bind. eapply st_ptr_run; [look|done|]. unfold on_next at 1.
    apply wp_bind. eapply ld_ptr_run; [look|done|]. simpl. left. simpl_st. by rewrite Ha.
  - intros b a Hst Hb Ha. simpl_st in *. assert (Hb1 : b ≠ 1%positive) by (intros ->; done).
    assert (Hb2 : b ≠ 2%positive) by (intros ->; done). unfold on_next at 1.
    apply wp_bind. eapply st_ptr_run; [look|done|]. unfold on_next at 1.
    apply wp_bind. eapply ld_ptr_run; [look|done|]. unfold on_next at 1.
    apply wp_bind. eapply strcpy_run; [look|done|simpl; lia|]. unfold on_next at 1.
    apply wp_bind. eapply ld_ptr_run; [look|done|]. unfold on_next at 1.
    apply wp_bind. eapply ld_str_run; [look|done|]. unfold on_next at 1.
    apply wp_bind, wp_printk. unfold on_next at 1.
    apply wp_bind. eapply ld_ptr_run; [look|done|]. unfold on_next at 1.
    apply wp_bind. eapply st_ptr_run; [look|done|]. unfold on_next at 1.
    apply wp_bind. eapply ld_ptr_run; [look|done|]. unfold on_next at 1.
    apply wp_bind. eapply ld_str_run; [look|done|]. unfold on_next at 1.
    apply wp_bind, wp_printk. unfold on_next at 1. cbv zeta.
    apply wp_bind. eapply ld_ptr_run; [look|done|]. unfold on_next at 1.
    apply wp_bind. eapply ld_str_run; [look|done|]. unfold on_next at 1.
    apply wp_bind, wp_printk. unfold on_next at 1.
    apply wp_bind. eapply ld_int_run; [look|done|]. unfold on_next at 1.
    apply wp_bind, wp_printk. unfold on_next at 1.
    apply wp_bind. unfold ld_int. apply wp_bind. unfold wp, get_obj. simpl.
    erewrite bind_next by done. simpl_st.
    rewrite !lookup_insert_ne by (intros [= ?]; subst; done). rewrite Hh, lookup_empty. simpl.
    right. split; [done|]. simpl_st. split; [by rewrite <- !app_assoc|]. exists b. by rewrite Ha.
Qed.
End proofs.

Definition loaded (o : list bool) : sys (kstate slab_model unit unit) (objs cell unit) :=
  Sys (KState (SlabModel o ∅) tt tt) (Objs ∅ tt) [].

Lemma container_start_faults_witness :
  wp start (loaded []) (Post (λ _ _, False) (λ _ _, False) (λ f s',
    (f = NullDeref ∧ klog s' = klog (loaded []) ∧ live (slab s') = live (slab (loaded []))) ∨
    (f = BadDeref ∧ klog s' = klog (loaded []) ++ four_lines ∧
     ∃ b, (b ∉ live (slab (loaded []))) ∧ live (slab s') = {[b]} ∪ live (slab (loaded []))))).
Proof. exact (container_start_faults (loaded []) eq_refl). Defined.
