(* ===== verification/Kprobe.v ===== *)
(** * kprobe/code.c and the interface of linux/kprobes.h

    Load, unload and the two handlers, with what the kernel does with the probe
    when the processor comes to an address. *)
From stdpp Require Import base gmap strings list.
From Stdlib Require Import ZArith Lia.
From S2P Require Import Prelude.

(** ** Probes

    The address at which the module's one probe is installed, if it is, and the
    symbol table; a probe at address 0 is never installed. *)
Class KprobeApi (K : Type) := {
  probe_at : K → option Z;
  register_kprobe : Z → K → Z * K;
  unregister_kprobe : K → K;
  kallsyms_lookup_name : string → K → Z }.

Class KprobeLaws (K : Type) `{KprobeApi K} : Prop := {
  register_probe a k r k' : register_kprobe a k = (r, k') →
    probe_at k' = if decide (r = 0) then Some a else probe_at k;
  unregister_probe k : probe_at (unregister_kprobe k) = None }.

(** [static struct kprobe kp]: the members the modules set. *)
Record kprobe := KProbe { has_pre : bool; has_post : bool; addr : Z }.

Definition ADDRESS : Z := 18446744071582103088.    (* 0xffffffff8131b630 *)

Section module.
Context {K : Type} `{KprobeApi K}.
Abbreviation st := (sys K kprobe).

Definition pre_handler : M Z st Z := printk KERN_INFO "Inside pre_handler.\n" [];; return_ 0.
Definition post_handler : M unit st unit := printk KERN_INFO "Inside POST_handler.\n" [].

Definition set_kp {R} (f : kprobe → kprobe) : M R st unit := modify (upd_glob f).

(** The two assignments of the handlers. *)
Definition set_handlers {R} : M R st unit :=
  set_kp (λ k, KProbe true (has_post k) (addr k));;
  set_kp (λ k, KProbe (has_pre k) true (addr k)).

(** [static int __init start(void)]: the result of the registration is dropped. *)
Definition start : M Z st Z :=
  printk KERN_INFO "Entering.....\n" [];;
  set_handlers;;
  set_kp (λ k, KProbe (has_pre k) (has_post k) ADDRESS);;
  a ← gets (λ s, addr (glob s));
  _ ← on_kern' (register_kprobe a);
  return_ 0.

(** [static void __exit stops(void)]. *)
Definition stops : M unit st unit :=
  on_kern unregister_kprobe;;
  printk KERN_INFO "Exiting.....\n" [].

(** The processor reaches the address [a]. *)
Definition reach (a : Z) : M unit st unit :=
  p ← gets (λ s, probe_at (kern s));
  if decide (p = Some a) then
    h ← gets (λ s, has_pre (glob s));
    (if (h : bool) then _ ← call pre_handler; mret tt else mret tt);;
    h ← gets (λ s, has_post (glob s));
    if (h : bool) then call post_handler else mret tt
  else mret tt.
End module.

Definition entering : msg := Msg KERN_INFO "Entering.....\n" [].
Definition exiting : msg := Msg KERN_INFO "Exiting.....\n" [].
Definition hit_log : list msg :=
  [Msg KERN_INFO "Inside pre_handler.\n" []; Msg KERN_INFO "Inside POST_handler.\n" []].

(** ** A concrete service *)
Record probe_model := ProbeModel { pm_result : Z; pm_symbol : Z; pm_probe : option Z }.

#[global] Instance probe_model_ops : KprobeApi probe_model := {
  probe_at := pm_probe;
  register_kprobe a k := (pm_result k, ProbeModel (pm_result k) (pm_symbol k)
    (if decide (pm_result k = 0) then Some a else pm_probe k));
  unregister_kprobe k := ProbeModel (pm_result k) (pm_symbol k) None;
  kallsyms_lookup_name _ k := pm_symbol k }.

#[global] Instance probe_model_laws : KprobeLaws probe_model.
Proof. split; try done. intros a k r k' [= <- <-]. done. Qed.

Definition loaded (r sym : Z) : sys probe_model kprobe :=
  Sys (ProbeModel r sym None) (KProbe false false 0) [].

Section proofs.
Context {K : Type} `{ops_k : KprobeApi K, !KprobeLaws K}.
Abbreviation st := (sys K kprobe).
Implicit Types (s : st).

(** The handlers are installed and the probe, if there is one, is at [a]. *)
Definition probing (a : Z) (ok : bool) s : Prop :=
  glob s = KProbe true true a ∧ probe_at (kern s) = if ok then Some a else None.

Lemma reach_run a b ok s (P : post unit st unit) :
  probing a ok s →
  (∀ s', probing a ok s' →
     klog s' = klog s ++ (if decide (ok = true ∧ a = b) then hit_log else []) → on_next P tt s') →
  wp (reach b) s P.
Proof.
  intros [Hg Hp] HP. unfold reach. apply wp_bind, wp_gets. simpl. rewrite Hp.
  destruct ok; [destruct (decide (a = b)) as [->|Hne]|].
  - rewrite decide_True by done. apply wp_bind, wp_gets. simpl. rewrite Hg. simpl.
    apply wp_bind, wp_bind, wp_call, wp_bind, wp_printk, wp_return, wp_ret, wp_bind, wp_gets.
    unfold add_log. simpl. rewrite Hg. apply wp_call, wp_printk, HP; [done|].
    unfold add_log. simpl. by rewrite decide_True, <- app_assoc.
  - rewrite decide_False by congruence. apply wp_ret, HP; [done|].
    rewrite decide_False, app_nil_r by (by intros [_ ?]). done.
  - rewrite decide_False by done. apply wp_ret, HP; [done|].
    rewrite decide_False, app_nil_r by (by intros [? _]). done.
Qed.

(** Whether the registration at [a] succeeds in the state [k]. *)
Definition registers (a : Z) (k : K) : bool := bool_decide ((register_kprobe a k).1 = 0).

(** The end of [start] in both modules: the registration and the result 0. *)
Lemma register_run a s (P : post Z st Z) :
  glob s = KProbe true true a → probe_at (kern s) = None →
  (∀ s', probing a (registers a (kern s)) s' → klog s' = klog s → on_return P 0 s') →
  wp (a ← gets (λ s, addr (glob s)); _ ← on_kern' (register_kprobe a); return_ 0) s P.
Proof.
  intros Hg Hp HP. apply wp_bind, wp_gets. simpl. rewrite Hg. apply wp_bind, wp_on_kern'.
  intros r k E. simpl. apply wp_return, HP; [|done]. unfold registers. simpl in E. rewrite E.
  apply register_probe in E. split; [done|]. simpl. rewrite E, Hp. simpl.
  destruct (decide (r = 0)); [by rewrite bool_decide_true|by rewrite bool_decide_false].
Qed.

(** [start] of kprobe returns 0 whether or not the probe was installed;
    then reaching [ADDRESS] prints the two lines exactly when it was, reaching
    any other address prints nothing, and after [stops] no probe is left. *)
Theorem kprobe_lifecycle b s :
  probe_at (kern s) = None →
  wp (r ← call start; call (reach b);; call stops;; mret r) s (safely (R:=unit) (λ r s',
    r = 0 ∧ probe_at (kern s') = None ∧
    klog s' = klog s ++ entering ::
      (if decide (registers ADDRESS (kern s) = true ∧ ADDRESS = b) then hit_log else []) ++ [exiting])).
Proof.
  intros Hp. apply wp_bind, wp_call. unfold start. apply wp_bind, wp_printk. simpl.
  apply wp_bind, wp_bind, wp_modify, wp_modify. simpl. apply wp_bind, wp_modify. simpl.
  apply (register_run ADDRESS); [done|done|]. intros s1 H1 L1. simpl.
  apply wp_bind, wp_call. eapply reach_run; [done|]. intros s2 H2 L2. simpl.
  apply wp_bind, wp_call. unfold stops. apply wp_bind, wp_on_kern. simpl. apply wp_printk. simpl.
  apply wp_ret. split; [done|]. split; [simpl; apply unregister_probe|].
  unfold add_log. simpl. rewrite L2, L1. unfold add_log. simpl. by rewrite <- !app_assoc.
Qed.
End proofs.

Lemma kprobe_lifecycle_witness :
  wp (r ← call start; call (reach ADDRESS);; call stops;; mret r) (loaded 0 0) (safely (R:=unit) (λ r s',
    r = 0 ∧ probe_at (kern s') = None ∧
    klog s' = [] ++ entering ::
      (if decide (registers ADDRESS (kern (loaded 0 0)) = true ∧ ADDRESS = ADDRESS) then hit_log else []) ++
      [exiting])).
Proof. exact (kprobe_lifecycle ADDRESS (loaded 0 0) eq_refl). Defined.
