(* ===== verification/Kprobe1.v ===== *)
(** * kprobe1/code.c

    As kprobe, with the address taken from the symbol table. *)
From stdpp Require Import base gmap strings list.
From Stdlib Require Import ZArith Lia.
From S2P Require Import Prelude Kprobe.

Section module.
Context {K : Type} `{KprobeApi K}.
Abbreviation st := (sys K kprobe).

(** [static int __init start(void)]; the handlers and [stops] have the text of
    those of kprobe. *)
Definition start : M Z st Z :=
  printk KERN_INFO "Entering.....\n" [];;
  set_handlers;;
  a ← gets (λ s, kallsyms_lookup_name "submit_bio" (kern s));
  set_kp (λ k, KProbe (has_pre k) (has_post k) a);;
  a ← gets (λ s, addr (glob s));
  (if a =? 0 then
     printk KERN_ERR "Failed to get address of kernel fucntion submit_bio\n" [];; return_ (-1)
   else mret tt);;
  a ← gets (λ s, addr (glob s));
  _ ← on_kern' (register_kprobe a);
  return_ 0.
Definition pre_handler : M Z st Z := printk KERN_INFO "Inside pre_handler.\n" [];; return_ 0.
Definition post_handler : M unit st unit := printk KERN_INFO "Inside POST_handler.\n" [].
Definition stops : M unit st unit :=
  on_kern unregister_kprobe;;
  printk KERN_INFO "Exiting.....\n" [].
End module.

Section proofs.
Context {K : Type} `{ops_k : KprobeApi K, !KprobeLaws K}.
Abbreviation st := (sys K kprobe).
Implicit Types (s : st).

(** [start] of kprobe1 returns -1 exactly when the symbol is unknown, with
    nothing registered; otherwise it returns 0 with the handlers set and a probe,
    if the registration succeeded, at the address of the symbol and nowhere else. *)
Theorem kprobe1_start_spec s :
  probe_at (kern s) = None →
  let a := kallsyms_lookup_name "submit_bio" (kern s) in
  wp start s (returns (λ r s',
    if a =? 0 then r = -1 ∧ probe_at (kern s') = None ∧
      klog s' = klog s ++ [entering; Msg KERN_ERR "Failed to get address of kernel fucntion submit_bio\n" []]
    else r = 0 ∧ probing a (registers a (kern s)) s' ∧ klog s' = klog s ++ [entering])).
Proof.
  intros Hp a. unfold start. apply wp_bind, wp_printk. simpl.
  apply wp_bind, wp_bind, wp_modify, wp_modify. simpl. apply wp_bind, wp_gets. simpl.
  apply wp_bind, wp_modify. simpl. apply wp_bind, wp_gets. simpl. fold a. apply wp_bind.
  destruct (a =? 0) eqn:E.
  - apply wp_bind, wp_printk. simpl. apply wp_return. simpl. split; [done|]. split; [done|].
    unfold add_log. simpl. by rewrite <- app_assoc.
  - apply wp_ret. simpl. apply (register_run a); [done|done|]. intros s1 H1 L1. simpl.
    split; [done|]. split; [done|]. by rewrite L1.
Qed.
End proofs.

Lemma kprobe1_start_spec_witness :
  wp start (loaded 0 4096) (returns (λ r s',
    r = 0 ∧ probing 4096 true s' ∧ klog s' = [] ++ [entering])).
Proof. exact (kprobe1_start_spec (loaded 0 4096) eq_refl). Defined.
