(* ===== verification/Interrupt01.v ===== *)
(** * interrupt01/code.c

    A handler on a shared interrupt line, installed at load and removed at
    unload. *)
From stdpp Require Import base gmap strings list.
From Stdlib Require Import ZArith Lia.
From S2P Require Import Prelude.

(** ** Interrupt lines

    The handlers on the line in the order in which an interrupt calls them, each
    named by the [dev_id] it was requested with. *)
Class IrqApi (K : Type) := {
  handlers : K → list ptr;
  request_irq : Z → ptr → K → Z * K;         (* with IRQF_SHARED *)
  synchronize_irq : Z → K → K;
  free_irq : Z → ptr → K → K }.

Class IrqLaws (K : Type) `{IrqApi K} : Prop := {
  request_handlers i d k r k' : request_irq i d k = (r, k') →
    handlers k' = if decide (r = 0) then handlers k ++ [d] else handlers k;
  synchronize_handlers i k : handlers (synchronize_irq i k) = handlers k;
  free_handlers i d k : handlers (free_irq i d k) = filter (λ d', d' ≠ d) (handlers k) }.

Definition SIRQ : Z := 19.
Definition irq : Z := SIRQ.
Definition EIO : Z := 5.

(** The address of [my_dev_id]. *)
Definition my_dev_id : ptr := Ptr 1 0.

Inductive irqreturn := IRQ_NONE | IRQ_HANDLED.

Section module.
Context {K : Type} `{IrqApi K}.
Abbreviation st := (sys K unit).

(** [irqreturn_t my_interrupt(int irq, void *dev_id)]. *)
Definition my_interrupt : M irqreturn st irqreturn :=
  printk KERN_INFO "inside interrupt\n" [];; return_ IRQ_NONE.

(** [static int __init code_init(void)]. *)
Definition code_init : M Z st Z :=
  printk KERN_INFO "***** Hello world! Interrupt ***** \n" [];;
  r ← on_kern' (request_irq irq my_dev_id);
  (if negb (r =? 0) then printk KERN_INFO "request_irq error %d\n" [AInt irq];; return_ (- EIO)
   else mret tt);;
  return_ 0.

(** [static void __exit code_cleanup(void)]. *)
Definition code_cleanup : M unit st unit :=
  printk KERN_INFO "Cleaning up module.\n" [];;
  on_kern (synchronize_irq irq);;
  on_kern (free_irq irq my_dev_id).

(** An interrupt on the line: every handler on it runs; what those of other
    devices do is not visible here. *)
Fixpoint raise (ds : list ptr) : M unit st unit :=
  match ds with
  | [] => mret tt
  | d :: ds =>
      (if decide (d = my_dev_id) then _ ← call my_interrupt; mret tt else mret tt);; raise ds
  end.
Fixpoint interrupts (n : nat) : M unit st unit :=
  match n with
  | O => mret tt
  | S n => ds ← gets (λ s, handlers (kern s)); raise ds;; interrupts n
  end.

(** Load, [n] interrupts, unload if the load succeeded, [n'] more interrupts. *)
Definition lifecycle (n n' : nat) : M unit st Z :=
  r ← call code_init;
  interrupts n;;
  (if r =? 0 then call code_cleanup else mret tt);;
  interrupts n';;
  mret r.
End module.

Section proofs.
Context {K : Type} `{ops_k : IrqApi K, !IrqLaws K}.
Abbreviation st := (sys K unit).
Implicit Types (s : st).

Definition inside_line : msg := Msg KERN_INFO "inside interrupt\n" [].
Definition hello_line : msg := Msg KERN_INFO "***** Hello world! Interrupt ***** \n" [].
Definition cleanup_line : msg := Msg KERN_INFO "Cleaning up module.\n" [].
Definition error_line : msg := Msg KERN_INFO "request_irq error %d\n" [AInt 19].

(** How often the module's handler is on the line. *)
Definition times (ds : list ptr) : nat := length (filter (λ d, d = my_dev_id) ds).

Lemma raise_run ds s (P : post unit st unit) :
  on_next P tt (add_logs (replicate (times ds) inside_line) s) → wp (raise ds) s P.
Proof.
  unfold times. revert s. induction ds as [|d ds IH]; intros s HP; simpl.
  - apply wp_ret. by rewrite <- add_logs_nil.
  - apply wp_bind. rewrite filter_cons in HP. case_decide.
    + apply wp_bind, wp_call, wp_bind, wp_printk, wp_return. simpl. apply wp_ret, IH.
      simpl in HP. by rewrite add_logs_cons.
    + by apply wp_ret, IH.
Qed.

Lemma interrupts_run n s (P : post unit st unit) :
  on_next P tt (add_logs (replicate (n * times (handlers (kern s))) inside_line) s) →
  wp (interrupts n) s P.
Proof.
  revert s. induction n as [|n IH]; intros s HP; simpl.
  - apply wp_ret. by rewrite <- add_logs_nil.
  - apply wp_bind, wp_gets. simpl. apply wp_bind, raise_run. simpl. apply IH.
    rewrite add_logs_app, <- replicate_add. simpl in HP. done.
Qed.

Lemma times_none ds : my_dev_id ∉ ds → times ds = 0%nat ∧ filter (λ d, d ≠ my_dev_id) ds = ds.
Proof.
  unfold times. induction ds as [|d ds IH]; [done|]. intros [Hd Hds]%not_elem_of_cons.
  destruct (IH Hds) as [Ht Hf]. rewrite !filter_cons, decide_False, decide_True by congruence.
  by rewrite Ht, Hf.
Qed.

Lemma times_last ds :
  my_dev_id ∉ ds → times (ds ++ [my_dev_id]) = 1%nat ∧ filter (λ d, d ≠ my_dev_id) (ds ++ [my_dev_id]) = ds.
Proof.
  intros Hd. destruct (times_none ds Hd) as [Ht Hf]. unfold times in *.
  rewrite !filter_app, length_app, Ht, Hf, filter_cons_True, filter_cons_False by auto.
  by rewrite app_nil_r.
Qed.

(** C40: load, interrupts and unload of the module on a line that other devices
    share: the module prints its line once for each interrupt while it is loaded
    and never after, and leaves the handlers of the others on the line as it
    found them; when the request fails it returns -EIO with nothing installed
    and no interrupt reaches it. *)
Theorem interrupt_lifecycle n n' s :
  my_dev_id ∉ handlers (kern s) →
  wp (lifecycle n n') s (safely (λ r s',
    handlers (kern s') = handlers (kern s) ∧
    (r = 0 ∧ klog s' = klog s ++ hello_line :: replicate n inside_line ++ [cleanup_line] ∨
     r = - EIO ∧ klog s' = klog s ++ [hello_line; error_line]))).
Proof.
  intros H0. destruct (times_none _ H0) as [Ht0 _], (times_last _ H0) as [Ht1 Hf1].
  apply wp_bind, wp_call. unfold code_init. apply wp_bind, wp_printk. simpl.
  apply wp_bind, wp_on_kern'. intros r k E%request_handlers. change (kern (add_log _ s)) with (kern s) in E.
  simpl. destruct (Z.eqb_spec r 0) as [->|Hr]; simpl; apply wp_bind.
  - rewrite decide_True in E by done. apply wp_ret. simpl. apply wp_return. simpl.
    apply wp_bind, interrupts_run. simpl. rewrite E, Ht1, Nat.mul_1_r. apply wp_bind, wp_call.
    unfold code_cleanup. apply wp_bind, wp_printk, wp_bind, wp_on_kern, wp_on_kern. simpl.
    apply wp_bind, interrupts_run. simpl. rewrite free_handlers, synchronize_handlers.
    unfold add_log, add_logs. simpl. rewrite E, Hf1, Ht0, Nat.mul_0_r. apply wp_ret. simpl.
    rewrite free_handlers, synchronize_handlers, E, Hf1. split; [done|]. left. split; [done|].
    by rewrite app_nil_r, <- !app_assoc.
  - rewrite decide_False in E by done. apply wp_bind, wp_printk. simpl. apply wp_return. simpl.
    apply wp_bind, interrupts_run. simpl. rewrite E, Ht0, Nat.mul_0_r. apply wp_bind, wp_ret. simpl.
    apply wp_bind, interrupts_run. unfold add_log, add_logs. simpl. rewrite E, Ht0, Nat.mul_0_r.
    apply wp_ret. simpl. rewrite E. split; [done|]. right. split; [done|].
    by rewrite !app_nil_r, <- !app_assoc.
Qed.
End proofs.

(** ** A concrete line *)

Record irq_model := IrqModel { i_result : Z; i_handlers : list ptr }.

#[global] Instance irq_model_ops : IrqApi irq_model := {
  handlers := i_handlers;
  request_irq _ d k := (i_result k, IrqModel (i_result k)
    (if decide (i_result k = 0) then i_handlers k ++ [d] else i_handlers k));
  synchronize_irq _ k := k;
  free_irq _ d k := IrqModel (i_result k) (filter (λ d', d' ≠ d) (i_handlers k)) }.

#[global] Instance irq_model_laws : IrqLaws irq_model.
Proof. split; try done. intros i d k r k' [= <- <-]. done. Qed.

(** Another device is on the line. *)
Definition shared_line : sys irq_model unit := Sys (IrqModel 0 [Ptr 7 0]) tt [].

Lemma interrupt_lifecycle_witness :
  wp (lifecycle 2 3) shared_line (safely (λ r s',
    handlers (kern s') = [Ptr 7 0] ∧
    (r = 0 ∧ klog s' = [] ++ hello_line :: replicate 2 inside_line ++ [cleanup_line] ∨
     r = - EIO ∧ klog s' = [] ++ [hello_line; error_line]))).
Proof.
  refine (interrupt_lifecycle 2 3 shared_line _).
  intros Hin%list_elem_of_singleton. discriminate.
Defined.
