(* ===== verification/Basic.v ===== *)
(** * basic/code.c and basic_debug/code.c

    The two smallest modules, which only print a line at load and at unload. *)
From stdpp Require Import base strings list.
From S2P Require Import Prelude.

Section module.
Context {K G : Type}.

(** [static int __init km_init(void)] and [static void __exit km_exit(void)] of
    both modules. *)
Definition km_init : M Z (sys K G) Z := printk KERN_INFO "Hello!\n" [];; return_ 0.
Definition km_exit : M unit (sys K G) unit := printk KERN_INFO "Goodbye\n" [].
Definition km_init_debug : M Z (sys K G) Z := printk KERN_INFO "Hello!\n" [];; return_ 0.
Definition km_exit_debug : M unit (sys K G) unit := printk KERN_INFO "Goodbye\n" [].

(** The module built with debug information behaves as the plain one. *)
Lemma basic_debug_same : km_init = km_init_debug ∧ km_exit = km_exit_debug.
Proof. done. Qed.
End module.
