(* ===== verification/TaskStruct.v ===== *)
(** * task_struct/code.c

    [start], which prints the name and the identifier of every process. *)
From stdpp Require Import base strings list.
From Stdlib Require Import ZArith.
From S2P Require Import Prelude.

(** A process: its name and identifier. *)
Record task_struct := Task { comm : string; pid : Z }.

(** The processes in the order in which [for_each_process] visits them. *)
Class TaskApi (K : Type) := { processes : K → list task_struct }.

Section module.
Context {K G : Type} `{TaskApi K}.
Abbreviation st := (sys K G).

(** [for_each_process(task) body]. *)
Fixpoint for_each {R} (ts : list task_struct) (body : task_struct → M R st unit) : M R st unit :=
  match ts with
  | [] => mret tt
  | t :: ts => body t;; for_each ts body
  end.

(** [static int __init start(void)]; the initial value of [task] is overwritten by
    the loop. *)
Definition start : M Z st Z :=
  pr_info "Hello, World!\n" [];;
  ts ← gets (λ s, processes (kern s));
  for_each ts (λ task, pr_info "process: %s, PID: %d" [AStr (comm task); AInt (pid task)]);;
  return_ 0.

(** [static void __exit stops(void)]. *)
Definition stops : M unit st unit := printk KERN_INFO "Goodbye, World!\n" [].

Definition process_line (t : task_struct) : msg :=
  Msg KERN_INFO "process: %s, PID: %d" [AStr (comm t); AInt (pid t)].

Lemma for_each_print ts (s : st) (P : post Z st unit) :
  on_next P tt (add_logs (process_line <$> ts) s) →
  wp (for_each ts (λ task, pr_info "process: %s, PID: %d" [AStr (comm task); AInt (pid task)])) s P.
Proof.
  revert s. induction ts as [|t ts IH]; intros s HP; simpl.
  - apply wp_ret. by rewrite <- add_logs_nil.
  - apply wp_bind, wp_printk, IH. by rewrite add_logs_cons.
Qed.

(** One line per process, in the order of the process list. *)
Lemma task_start_spec (s : st) :
  start s = Return 0 (add_logs (Msg KERN_INFO "Hello, World!\n" [] ::
    (process_line <$> processes (kern s))) s).
Proof.
  assert (Hw : wp start s (Post (λ _ _, False) (λ r s', r = 0 ∧
    s' = add_logs (Msg KERN_INFO "Hello, World!\n" [] :: (process_line <$> processes (kern s))) s)
    (λ _ _, False))).
  { unfold start. apply wp_bind, wp_printk. simpl. apply wp_bind, wp_gets. simpl.
    apply wp_bind, for_each_print. simpl. apply wp_return. simpl. by rewrite add_logs_cons. }
  unfold wp in Hw. destruct (start s); simpl in Hw; [done| |done]. by destruct Hw as [-> ->].
Qed.
End module.
