(* ===== verification/Kernfs.v ===== *)
(** * kernfs/code.c

    Load and unload of the module that creates a kernfs root with a table of
    callbacks that do nothing, and what is left of them. *)
From stdpp Require Import base gmap strings list.
From Stdlib Require Import ZArith.
From S2P Require Import Prelude.

(** ** kernfs

    The roots that exist, each with the address of the table of callbacks it was
    made with; [None] is an error pointer. *)
Class KernfsApi (K : Type) := {
  KERNFS_FILE : Z;
  KERNFS_ROOT_CREATE_DEACTIVATED : Z;
  kf_roots : K → gmap positive ptr;
  kernfs_create_root : ptr → Z → K → option positive * K }.

Class KernfsLaws (K : Type) `{KernfsApi K} : Prop := {
  create_root_some t fl k r k' : kernfs_create_root t fl k = (Some r, k') →
    kf_roots k !! r = None ∧ kf_roots k' = <[r := t]> (kf_roots k);
  create_root_none t fl k k' : kernfs_create_root t fl k = (None, k') → kf_roots k' = kf_roots k }.

(** The member of the automatic [struct fruit root] that is set: a null
    pointer, an error pointer or a root; [None] is indeterminate. *)
Inductive kf_ptr := KfNull | KfErr | KfRoot (r : positive).
Record fruit := Fruit { kf_root : option kf_ptr }.

Section module.
Context {K : Type} `{KernfsApi K}.
Abbreviation st := (sys K fruit).

(** The four callbacks. *)
Definition fruit_show_options : M Z st Z := return_ 0.
Definition fruit_mkdir : M Z st Z := return_ 0.
Definition fruit_rmdir : M Z st Z := return_ 0.
Definition fruit_rename : M Z st Z := return_ 0.

(** [static struct kernfs_syscall_ops fruit_syscall_ops] and its address. *)
Record kernfs_syscall_ops := SyscallOps {
  show_options : M Z st Z; mkdir : M Z st Z; rmdir : M Z st Z; rename : M Z st Z }.
Definition fruit_syscall_ops : kernfs_syscall_ops :=
  SyscallOps fruit_show_options fruit_mkdir fruit_rmdir fruit_rename.
Definition ops_addr : ptr := Ptr 1 0.

(** [static int __init km_init(void)]. *)
Definition km_init : M Z st Z := scoped (set_glob (Fruit None)) (set_glob (Fruit None)) (
  printk KERN_INFO "Hello! %x\n" [AInt KERNFS_FILE];;
  modify (set_glob (Fruit (Some KfNull)));;
  r ← on_kern' (kernfs_create_root ops_addr KERNFS_ROOT_CREATE_DEACTIVATED);
  modify (set_glob (Fruit (Some (match r with Some p => KfRoot p | None => KfErr end))));;
  return_ 0).

(** [static void __exit km_exit(void)]. *)
Definition km_exit : M unit st unit := printk KERN_INFO "Goodbye\n" [].

(** [km_init] returns 0 whether or not the root was created, and keeps no
    pointer to it.  When it was, unloading leaves it behind, and with it a
    pointer to the table of callbacks in the module that is gone. *)
Theorem km_init_loses_root `{!KernfsLaws K} (s : st) :
  wp (r ← call km_init; call km_exit;; mret r) s (safely (R:=unit) (λ r s',
    r = 0 ∧ kf_root (glob s') = None ∧
    klog s' = klog s ++ [Msg KERN_INFO "Hello! %x\n" [AInt KERNFS_FILE]; Msg KERN_INFO "Goodbye\n" []] ∧
    (kf_roots (kern s') = kf_roots (kern s) ∨
     ∃ p, kf_roots (kern s) !! p = None ∧ kf_roots (kern s') = <[p := ops_addr]> (kf_roots (kern s))))).
Proof.
  apply wp_bind, wp_call. unfold km_init. apply wp_scoped, wp_bind, wp_printk. simpl.
  apply wp_bind, wp_modify. simpl. apply wp_bind, wp_on_kern'. intros r k E. simpl.
  apply wp_bind, wp_modify. simpl. apply wp_return. simpl. apply wp_bind, wp_call, wp_printk. simpl.
  apply wp_ret. simpl. split; [done|]. split; [done|].
  split; [unfold add_log; simpl; by rewrite <- app_assoc|]. destruct r as [p|].
  - destruct (create_root_some _ _ _ _ _ E) as [Hp Hk]. right. by exists p.
  - left. by apply (create_root_none _ _ _ _ E).
Qed.
End module.

(** ** A concrete service *)

Record kf_model := KfModel { kf_ok : bool; kf_map : gmap positive ptr }.

#[global] Instance kf_model_ops : KernfsApi kf_model := {
  KERNFS_FILE := 2;
  KERNFS_ROOT_CREATE_DEACTIVATED := 1;
  kf_roots := kf_map;
  kernfs_create_root t _ k :=
    if kf_ok k then
      let r := fresh (dom (kf_map k) : gset positive) in
      (Some r, KfModel (kf_ok k) (<[r := t]> (kf_map k)))
    else (None, k) }.

#[global] Instance kf_model_laws : KernfsLaws kf_model.
Proof.
  split.
  - intros t fl [[] m] r k'; simpl; intros [= <- <-]. simpl. split; [|done].
    apply not_elem_of_dom. exact (is_fresh (dom m : gset positive)).
  - intros t fl [[] m] k'; simpl; by intros [= <-].
Qed.

Lemma km_init_loses_root_witness :
  let s := Sys (KfModel true ∅) (Fruit None) [] in
  wp (r ← call km_init; call km_exit;; mret r) s (safely (R:=unit) (λ r s',
    r = 0 ∧ kf_root (glob s') = None ∧
    klog s' = [Msg KERN_INFO "Hello! %x\n" [AInt 2]; Msg KERN_INFO "Goodbye\n" []] ∧
    (kf_roots (kern s') = ∅ ∨
     ∃ p, (∅ : gmap positive ptr) !! p = None ∧ kf_roots (kern s') = <[p := ops_addr]> ∅))).
Proof. exact (km_init_loses_root (Sys (KfModel true ∅) (Fruit None) [])). Defined.
